(** * meteobriefing: the chart acquisition core

    A shallow embedding of the two services held in
    [src/main/services/downloader.service.ts]: the concurrent downloader
    [DownloaderService] (lines 1-149) and the session automation
    controller [PrometeoService] (lines 150-793), with the properties
    checked on them.  Line numbers are those of that file.

    The downloader is embedded as a state machine: a worker is an [async]
    function, so it runs synchronously from one [await] to the next; a
    worker's program counter names the [await] it is suspended at, and a
    scheduler picks which suspended worker is resumed next.

    The controller is embedded as programs over the effects it performs on
    the outside world (script evaluation in the portal page, clock reads,
    sleeps, the mutex fields), with one interpreter for a single call and
    one for several interleaved calls.

    The later parts follow the data from the portal page to the
    presentation: the script that extracts the steps of a product, the IPC
    handlers of [main/ipc/prometeo.ipc.ts], the step selection and the
    slides of the renderer stores, the step refresh of a search block, the
    download step of the composer page and the loop of
    [main/services/pptx.service.ts] that places the images. *)

From Stdlib Require Import ZArith Lia Ascii.
From stdpp Require Import gmap strings list pretty sorting.

Local Open Scope string_scope.
Local Open Scope list_scope.
Local Open Scope nat_scope.

(** ** JavaScript string and array primitives used by the services *)

Module Js.

(** [s.startsWith(p)] *)
Fixpoint startsWith (s p : string) : bool :=
  match p, s with
  | EmptyString, _ => true
  | String c p', String d s' => if Ascii.eqb c d then startsWith s' p' else false
  | String _ _, EmptyString => false
  end.

(** [s.includes(p)] *)
Fixpoint includes (s p : string) : bool :=
  if startsWith s p then true
  else match s with
       | EmptyString => false
       | String _ s' => includes s' p
       end.

Definition lower_ascii (c : ascii) : ascii :=
  let n := N_of_ascii c in
  if ((65 <=? n) && (n <=? 90))%N then ascii_of_N (n + 32) else c.

(** [s.toLowerCase()]; only the letters A-Z matter for the ['.png'] test *)
Fixpoint toLowerCase (s : string) : string :=
  match s with
  | EmptyString => EmptyString
  | String c s' => String (lower_ascii c) (toLowerCase s')
  end.

(** [s.substring(0, n)] *)
Fixpoint substring0 (n : nat) (s : string) : string :=
  match n, s with
  | S n', String c s' => String c (substring0 n' s')
  | _, _ => EmptyString
  end.

(** [s.replace(/^\//, '')]: drops one leading slash *)
Definition strip_leading_slash (s : string) : string :=
  match s with
  | String "/" s' => s'
  | _ => s
  end.

(** A JavaScript array with holes: [new Array(n)] has [n] holes. *)
Abbreviation array A := (list (option A)).

Definition new_Array {A} (n : nat) : array A := replicate n None.

(** [a[i] = v]: in range it overwrites the slot, out of range the array
    is extended with holes up to [i]. *)
Definition array_set {A} (i : nat) (v : A) (a : array A) : array A :=
  if decide (i < length a) then <[i := Some v]> a
  else a ++ replicate (i - length a) None ++ [Some v].

Definition base64_alphabet : string :=
  "ABCDEFGHIJKLMNOPQRSTUVWXYZabcdefghijklmnopqrstuvwxyz0123456789+/".

Definition base64_digit (n : N) : string :=
  match String.get (N.to_nat n) base64_alphabet with
  | Some c => String c EmptyString
  | None => "="
  end.

(** [Buffer.from(bytes).toString('base64')], on the bytes as numbers *)
Fixpoint base64_N (l : list N) : string :=
  match l with
  | [] => ""
  | [a] =>
      base64_digit (a / 4) +:+ base64_digit ((a mod 4) * 16) +:+ "=="
  | [a; b] =>
      base64_digit (a / 4) +:+ base64_digit ((a mod 4) * 16 + b / 16)
        +:+ base64_digit ((b mod 16) * 4) +:+ "="
  | a :: b :: c :: rest =>
      base64_digit (a / 4) +:+ base64_digit ((a mod 4) * 16 + b / 16)
        +:+ base64_digit ((b mod 16) * 4 + c / 64) +:+ base64_digit (c mod 64)
        +:+ base64_N rest
  end%N.

Definition base64 (l : list Byte.byte) : string := base64_N (Byte.to_N <$> l).

End Js.

(** ** The session transport: [session.fetch] *)

Module Net.

(** What the code reads of a [Response]: [ok], [status], [statusText],
    the [content-type] header ([None] when absent) and the body that
    [arrayBuffer()] resolves to ([None] when reading the body rejects). *)
Record Response := mkResponse {
  ok : bool;
  status : Z;
  statusText : string;
  contentType : option string;
  body : option (list Byte.byte) }.

(** [await session.fetch(url, ...)] either rejects or yields a response. *)
Inductive FetchResult :=
| Rejected (msg : string)
| Resolved (r : Response).

End Net.

(** ** [src/main/lib/constants.ts] *)

Definition PROMETEO_BASE_URL : string := "https://prometeo2.meteoam.it".
Definition PROMETEO_SEARCH_URL : string := PROMETEO_BASE_URL +:+ "/?q=ricercaProdotto_v2".

(** ** DownloaderService *)

Module Downloader.

(** [MIN_IMAGE_SIZE] *)
Definition MIN_IMAGE_SIZE : nat := 1024.

(** [private concurrency = 2] *)
Definition concurrency : nat := 2.

(** An entry of the work queue: [{ url, index }]. *)
Record Item := mkItem { url : string; index : nat }.

(** How an item ended, one constructor per place where the worker writes
    [results[item.index]]. *)
Inductive Outcome :=
| Invalid                 (* line 58: empty or not http-prefixed *)
| Cached                  (* line 72: file of valid size already there *)
| Downloaded (attempt : nat)  (* line 96 *)
| Exhausted.              (* line 115: all attempts failed *)

(** What an observer of the run sees, in order. *)
Inductive Event :=
| EvResolved (i : nat) (o : Outcome)
| EvUnlinkSmall (i : nat) (size : nat)     (* line 78 *)
| EvFetch (i : nat) (attempt : nat) (k : nat)  (* line 128, k-th fetch of the run *)
| EvAttemptFailed (i : nat) (attempt : nat)    (* line 101 *)
| EvSleep (i : nat) (ms : Z)                   (* line 109 *)
| EvProgress (done total : nat).               (* lines 31-36 *)

(** The state shared by the workers of one [downloadCharts] call: the
    queue and the results array of the call, the cache directory on
    disk (a file is its bytes), the progress counter, and the number
    of fetches issued so far. *)
Record State := mkState {
  queue : list Item;
  results : Js.array string;
  fs : gmap string (list Byte.byte);
  downloaded : nat;
  total : nat;
  nfetch : nat;
  log : list Event }.

Definition set_queue (q : list Item) (s : State) : State :=
  mkState q (results s) (fs s) (downloaded s) (total s) (nfetch s) (log s).
Definition set_result (i : nat) (v : string) (s : State) : State :=
  mkState (queue s) (Js.array_set i v (results s)) (fs s) (downloaded s) (total s)
          (nfetch s) (log s).
Definition set_fs (f : gmap string (list Byte.byte)) (s : State) : State :=
  mkState (queue s) (results s) f (downloaded s) (total s) (nfetch s) (log s).
Definition emit (e : Event) (s : State) : State :=
  mkState (queue s) (results s) (fs s) (downloaded s) (total s) (nfetch s) (log s ++ [e]).

(** [unlinkSync(p)] and [writeFileSync(p, bytes)] *)
Definition unlink (p : string) (s : State) : State := set_fs (delete p (fs s)) s.
Definition writeFile (p : string) (b : list Byte.byte) (s : State) : State :=
  set_fs (<[p := b]> (fs s)) s.

(** The [onDownloaded] closure of [downloadCharts] (lines 30-37). *)
Definition onDownloaded (s : State) : State :=
  let d := S (downloaded s) in
  emit (EvProgress d (total s))
       (mkState (queue s) (results s) (fs s) d (total s) (nfetch s) (log s)).

(** Where a worker is suspended. *)
Inductive Pc :=
| AwaitFetch (it : Item) (attempt : nat) (r : Net.FetchResult)
    (* line 128: [await session.fetch(...)], which will settle to [r] *)
| AwaitBody (it : Item) (attempt : nat) (r : Net.Response)
    (* line 144: [await response.arrayBuffer()] *)
| AwaitDownload (it : Item) (attempt : nat) (threw : bool)
    (* line 88: [await this.downloadFile(...)], settled or rejected *)
| AwaitSleep (it : Item) (attempt : nat)
    (* line 109: [await new Promise(r => setTimeout(r, 1500 * attempt))] *)
| Finished.

Section Downloader.

(** [createHash('sha256').update(u).digest('hex')] *)
Variable sha256_hex : string → string.
(** [getCachePath()] *)
Variable cacheDir : string.
(** The transport: what the [k]-th fetch of the run, for [u], settles to. *)
Variable net : nat → string → Net.FetchResult.

(** [join(cacheDir, name)] *)
Definition join (dir name : string) : string := dir +:+ "/" +:+ name.

(** Line 56: [!item.url || !item.url.startsWith('http')] *)
Definition invalid_url (u : string) : bool :=
  match u with
  | EmptyString => true
  | _ => negb (Js.startsWith u "http")
  end.

(** Lines 63-65 *)
Definition localPath (u : string) : string :=
  let hash := Js.substring0 16 (sha256_hex u) in
  let ext := if Js.includes (Js.toLowerCase u) ".png" then ".png" else ".jpg" in
  join cacheDir (hash +:+ ext).

(** [existsSync(p) ? statSync(p).size : 0] *)
Definition size_or_0 (p : string) (s : State) : nat :=
  match fs s !! p with
  | Some b => length b
  | None => 0
  end.

(** Lines 86-88 and 124-132: an attempt starts; [downloadFile] runs up to
    its [await session.fetch]. *)
Definition start_attempt (it : Item) (attempt : nat) (s : State) : Pc * State :=
  let k := nfetch s in
  let s1 := mkState (queue s) (results s) (fs s) (downloaded s) (total s) (S k) (log s) in
  (AwaitFetch it attempt (net k (url it)), emit (EvFetch (index it) attempt k) s1).

(** Lines 51-82: the worker from the head of its [while] loop up to its
    next [await], or to the end of the loop.  [q] is the queue it sees. *)
Fixpoint worker_loop (q : list Item) (s : State) : Pc * State :=
  match q with
  | [] => (Finished, set_queue [] s)
  | it :: q' =>
      let s := set_queue q' s in                       (* queue.shift() *)
      if invalid_url (url it) then
        worker_loop q'
          (onDownloaded (emit (EvResolved (index it) Invalid) (set_result (index it) "" s)))
      else
        let p := localPath (url it) in
        match fs s !! p with                           (* existsSync *)
        | Some b =>
            if decide (MIN_IMAGE_SIZE ≤ length b) then
              worker_loop q'
                (onDownloaded (emit (EvResolved (index it) Cached)
                                 (set_result (index it) p s)))
            else
              start_attempt it 1 (unlink p (emit (EvUnlinkSmall (index it) (length b)) s))
        | None => start_attempt it 1 s
        end
  end.

(** Lines 100-117: the [catch] block of an attempt, then either the wait
    before the next attempt or the end of the retry loop. *)
Definition attempt_failed (it : Item) (attempt : nat) (s : State) : Pc * State :=
  let p := localPath (url it) in
  let s := emit (EvAttemptFailed (index it) attempt) s in
  let s := match fs s !! p with Some _ => unlink p s | None => s end in
  if decide (attempt < 3) then
    (AwaitSleep it attempt, emit (EvSleep (index it) (1500 * Z.of_nat attempt)) s)
  else
    (* [attempt++] gives 4, the [for] exits with [success = false] *)
    let s := emit (EvResolved (index it) Exhausted) (set_result (index it) "" s) in
    let s := onDownloaded s in
    worker_loop (queue s) s.

(** Resuming a suspended worker: it runs up to its next [await]. *)
Definition resume (pc : Pc) (s : State) : Pc * State :=
  match pc with
  | AwaitFetch it a (Net.Rejected _) => (AwaitDownload it a true, s)
  | AwaitFetch it a (Net.Resolved r) =>
      if negb (Net.ok r) then (AwaitDownload it a true, s)            (* line 134 *)
      else if Js.includes (default "" (Net.contentType r)) "text/html"
           then (AwaitDownload it a true, s)                          (* line 140 *)
           else (AwaitBody it a r, s)
  | AwaitBody it a r =>
      match Net.body r with
      | None => (AwaitDownload it a true, s)
      | Some b => (AwaitDownload it a false, writeFile (localPath (url it)) b s)
      end
  | AwaitDownload it a true => attempt_failed it a s
  | AwaitDownload it a false =>
      let p := localPath (url it) in
      if decide (size_or_0 p s < MIN_IMAGE_SIZE) then attempt_failed it a s   (* line 92 *)
      else
        let s := emit (EvResolved (index it) (Downloaded a)) (set_result (index it) p s) in
        let s := onDownloaded s in
        worker_loop (queue s) s
  | AwaitSleep it a => start_attempt it (S a) s
  | Finished => (Finished, s)
  end.

(** Lines 28-39: the [for] loop that starts the workers.  Each call of
    [this.worker] runs at once up to its first [await]; the bound
    [Math.min(this.concurrency, queue.length)] is read again on every
    round. *)
Fixpoint spawn (rounds w : nat) (s : State) : list Pc * State :=
  match rounds with
  | 0 => ([], s)
  | S rounds' =>
      if decide (w < concurrency `min` length (queue s)) then
        let '(pc, s1) := worker_loop (queue s) s in
        let '(pcs, s2) := spawn rounds' (S w) s1 in
        (pc :: pcs, s2)
      else ([], s)
  end.

Definition is_finished (pc : Pc) : bool :=
  match pc with Finished => true | _ => false end.

(** The suspended workers, by position. *)
Fixpoint live_from (i : nat) (pcs : list Pc) : list nat :=
  match pcs with
  | [] => []
  | pc :: pcs' => if is_finished pc then live_from (S i) pcs' else i :: live_from (S i) pcs'
  end.

(** The event loop's choice: [c] selects one of the suspended workers. *)
Definition pick (c : nat) (pcs : list Pc) : option nat :=
  let l := live_from 0 pcs in
  l !! (c `mod` length l).

(** [await Promise.all(workers)]: workers are resumed, in the order the
    schedule [sched] dictates, until all have finished. *)
Fixpoint run (fuel n : nat) (sched : nat → nat) (pcs : list Pc) (s : State)
  : option State :=
  match pick (sched n) pcs with
  | None => Some s
  | Some i =>
      match fuel with
      | 0 => None
      | S fuel' =>
          let '(pc', s') := resume (default Finished (pcs !! i)) s in
          run fuel' (S n) sched (<[i := pc']> pcs) s'
      end
  end.

(** [queue = urls.map((url, i) => ({ url, index: i }))] *)
Definition make_queue (urls : list string) : list Item :=
  imap (λ i u, mkItem u i) urls.

Definition init (urls : list string) (fs0 : gmap string (list Byte.byte)) : State :=
  mkState (make_queue urls) (Js.new_Array (length urls)) fs0 0 (length urls) 0 [].

(** [downloadCharts(urls)], on the cache directory contents [fs0] and
    under the schedule [sched]; the value the promise resolves to is the
    [results] field of the final state. *)
Definition downloadCharts_run (fuel : nat) (urls : list string)
    (fs0 : gmap string (list Byte.byte)) (sched : nat → nat) : option State :=
  let '(pcs, s) := spawn concurrency 0 (init urls fs0) in
  run fuel 0 sched pcs s.

(** An item needs at most twelve resumptions (three attempts of four
    suspensions each). *)
Definition downloadCharts (urls : list string)
    (fs0 : gmap string (list Byte.byte)) (sched : nat → nat) : option State :=
  downloadCharts_run (12 * length urls) urls fs0 sched.

(** What the run shows about the item of index [i]: how it was resolved,
    the attempt numbers of its fetches and the waits between them, each in
    the order of the run. *)
Definition resolutions (i : nat) (l : list Event) : list Outcome :=
  omap (λ e, match e with
             | EvResolved j o => if decide (j = i) then Some o else None
             | _ => None
             end) l.

Definition attempts (i : nat) (l : list Event) : list nat :=
  omap (λ e, match e with
             | EvFetch j a _ => if decide (j = i) then Some a else None
             | _ => None
             end) l.

Definition sleeps (i : nat) (l : list Event) : list Z :=
  omap (λ e, match e with
             | EvSleep j ms => if decide (j = i) then Some ms else None
             | _ => None
             end) l.

(** The entry of the result list that goes with an outcome. *)
Definition value_of (u : string) (o : Outcome) : string :=
  match o with
  | Invalid | Exhausted => ""
  | Cached | Downloaded _ => localPath u
  end.

Definition attempts_used (o : Outcome) : nat :=
  match o with
  | Invalid | Cached => 0
  | Downloaded a => a
  | Exhausted => 3
  end.

(** The waits after attempts [1 .. n]. *)
Definition backoff (n : nat) : list Z := (λ a, 1500 * Z.of_nat a)%Z <$> seq 1 n.

End Downloader.

End Downloader.

(** ** PrometeoService *)

Module Prometeo.

(** *** Result records ([shared/types/product.types.ts]) *)

Record PrometeoProductFilter := mkFilter {
  f_productType : string;
  f_category : option string;
  f_type : option string;
  f_areaOrLocation : option string;
  f_date : option string }.

Record PrometeoProduct := mkProduct {
  p_id : string;
  p_name : string;
  p_productType : string;
  p_category : string;
  p_type : string;
  p_area : string }.

Record ProductCatalogResult := mkCatalog {
  products : list PrometeoProduct;
  categories : list string;
  types : list string;
  areas : list string }.

Record TimeStep := mkStep { label : string; index : Z; imageUrl : string }.

Record ChartUrlsResult := mkChart {
  productName : string;
  date : string;
  steps : list TimeStep }.

(** What the catalog extraction script hands back (lines 395-449): the
    options of [#slListaImmagini] as [{id, name, category}] and the labels
    of the three sibling selects. *)
Record CatalogData := mkCatalogData {
  cd_products : list (string * string * string);
  cd_categories : list string;
  cd_types : list string;
  cd_areas : list string }.

(** *** The scripts evaluated in the portal page

    One constructor per script text passed to [executeJavaScript], indexed
    by the type of the value the script yields. *)
Inductive Script : Type → Type :=
| Navigate : Script unit            (* window.location.href = SEARCH_URL; void 0 *)
| SetProductType (v : string) : Script unit
                                    (* jQuery('#slArea').val(v).trigger('change'); void 0 *)
| ReadProductType : Script string   (* jQuery('#slArea').val() || '' *)
| ListLoaded : Script bool          (* #slListaImmagini has more than 10 options *)
| ExtractCatalog : Script CatalogData
| ResetSteps : Script unit          (* arrLinkImmagini = [] when defined *)
| SelectProduct (id : string) : Script unit
                                    (* jQuery('#slListaImmagini').val(id).trigger('change') *)
| ReadSelected : Script string      (* jQuery('#slListaImmagini').val() || '' *)
| StepCount : Script Z              (* arrLinkImmagini.length when defined, else 0 *)
| TriggerSearch : Script unit       (* reset; nascondiGalleria(); cercaImmagini() *)
| LabelCount : Script Z             (* number of td[onclick*=changeImgValidity] *)
| HasInlineLabels : Script bool
| ExtractCharts : Script ChartUrlsResult.

(** What [typeValueMap[productType] || '1'] (lines 371 and 540) can be: a string, or the
    function (the object, for [__proto__]) inherited under the name. *)
Inductive TypeValue :=
| TypeString (v : string)
| Inherited (key : string).

(** The [console] lines that mark which branch was taken. *)
Inductive Message :=
| MFirstFetch                          (* line 278 *)
| MAppearsStable (count elapsed : Z)   (* line 293 *)
| MConfirmedStable (count : Z)         (* line 305 *)
| MGrew (count confirmCount : Z)       (* line 309 *)
| MTimeoutData (finalCount : Z)        (* line 336 *)
| MAlreadySet (productType : string)   (* line 548 *)
| MSwitching (current productType : string) (value : TypeValue)  (* line 552 *)
| MSelectionMismatch (expected got : string)       (* line 597 *)
| MFallback                            (* line 623 *)
| MNotPopulated.                       (* line 635 *)

(** *** Effects

    Everything a controller method does to the world outside its own
    local variables. *)
Inductive Eff : Type → Type :=
| GetStatus : Eff bool                       (* authService.getStatus().isLoggedIn *)
| GetURL : Eff string                        (* win.webContents.getURL() *)
| Exec {A} (s : Script A) : Eff (option A)   (* executeJavaScript; None: it rejects *)
| WaitLoad (timeout : Z) : Eff unit          (* did-finish-load, or the timeout *)
| Now : Eff Z                                (* Date.now() *)
| Delay (ms : Z) : Eff unit                  (* this.delay(ms) *)
| NextFetchCount : Eff nat                   (* this.fetchCount++, the new value *)
| Fetch (url : string) : Eff Net.FetchResult (* session.fetch(url, {Referer}) *)
| Console (m : Message) : Eff unit
| Acquire : Eff unit                         (* await this.acquireLock() *)
| Release : Eff unit.                        (* this.releaseLock() *)

(** A method body: a tree of effects, ending in a returned value or a
    thrown error.  [Diverge] marks a loop that used up its iteration
    bound; the bounds below are chosen so that it is never reached. *)
Inductive Prog (A : Type) : Type :=
| Ret (a : A)
| Throw (e : string)
| Diverge
| Vis {X : Type} (e : Eff X) (k : X → Prog A).

Arguments Ret {A} a.
Arguments Throw {A} e.
Arguments Diverge {A}.
Arguments Vis {A X} e k.

Fixpoint bind {A B} (p : Prog A) (f : A → Prog B) : Prog B :=
  match p with
  | Ret a => f a
  | Throw e => Throw e
  | Diverge => Diverge
  | Vis e k => Vis e (λ x, bind (k x) f)
  end.

(** [try { p } catch { h }] *)
Fixpoint try_catch {A} (p : Prog A) (h : string → Prog A) : Prog A :=
  match p with
  | Ret a => Ret a
  | Throw e => h e
  | Diverge => Diverge
  | Vis e k => Vis e (λ x, try_catch (k x) h)
  end.

(** [try { return await p } finally { f }] *)
Fixpoint try_finally {A} (p : Prog A) (f : Prog unit) : Prog A :=
  match p with
  | Ret a => bind f (λ _, Ret a)
  | Throw e => bind f (λ _, Throw e)
  | Diverge => Diverge
  | Vis e k => Vis e (λ x, try_finally (k x) f)
  end.

Definition perform {X} (e : Eff X) : Prog X := Vis e Ret.

Declare Scope prog_scope.
Delimit Scope prog_scope with prog.
Bind Scope prog_scope with Prog.
Notation "x <- p ;; q" := (bind p (λ x, q))
  (at level 100, p at next level, right associativity) : prog_scope.
Notation "p ;; q" := (bind p (λ _, q))
  (at level 100, right associativity) : prog_scope.
Local Open Scope prog_scope.

(** [await win.webContents.executeJavaScript(script)] *)
Definition exec {A} (s : Script A) : Prog A :=
  r <- perform (Exec s) ;;
  match r with
  | Some a => Ret a
  | None => Throw "script evaluation failed"
  end.

Definition delay (ms : Z) : Prog unit := perform (Delay ms).
Definition console (m : Message) : Prog unit := perform (Console m).

(** *** The methods *)

(** Lines 204-234 *)
Definition ensureSearchPage : Prog unit :=
  isLoggedIn <- perform GetStatus ;;
  if negb isLoggedIn then Throw "Non connesso a Prometeo"
  else
    currentUrl <- perform GetURL ;;
    if negb (Js.includes currentUrl "ricercaProdotto") then
      exec Navigate ;;
      perform (WaitLoad 15000) ;;
      delay 3000 ;;
      _ <- perform GetURL ;;
      Ret tt
    else Ret tt.

(** Lines 236-253; [fuel] bounds the number of rounds of the [while]. *)
Fixpoint waitForCondition_loop (fuel : nat) (jsCondition : Script bool)
    (start maxWaitMs intervalMs : Z) : Prog bool :=
  match fuel with
  | 0 => Diverge
  | S fuel' =>
      t <- perform Now ;;
      if (t - start <? maxWaitMs)%Z then
        result <- try_catch (exec jsCondition) (λ _, Ret false) ;;
        if result then Ret true
        else
          delay intervalMs ;;
          waitForCondition_loop fuel' jsCondition start maxWaitMs intervalMs
      else Ret false
  end.

Definition rounds (maxWaitMs intervalMs : Z) : nat :=
  S (Z.to_nat (maxWaitMs / intervalMs)).

Definition waitForCondition (jsCondition : Script bool) (maxWaitMs intervalMs : Z)
  : Prog bool :=
  start <- perform Now ;;
  waitForCondition_loop (S (rounds maxWaitMs intervalMs)) jsCondition start maxWaitMs intervalMs.

(** Line 274 *)
Definition requiredStableChecks : nat := 6.

(** Lines 282-327: one round of the [while] of [_waitForStableArray],
    from the [try] to the end of the [catch].  [inl count] is the
    [return count] of line 306; [inr (lastCount, stableChecks)] carries
    the two locals into the next round.  The inner handler is the same
    [catch] block, reached after [stableChecks++] has taken place. *)
Definition stable_round (start minTotalWait lastCount : Z) (stableChecks : nat)
  : Prog (Z + Z * nat) :=
  try_catch
    (count <- exec StepCount ;;
     if (count >? 0)%Z then
       if (count =? lastCount)%Z then
         let stableChecks := S stableChecks in
         t <- perform Now ;;
         let elapsed := (t - start)%Z in
         if (requiredStableChecks <=? stableChecks) && (minTotalWait <=? elapsed)%Z then
           try_catch
             (console (MAppearsStable count elapsed) ;;
              delay 1500 ;;
              confirmCount <- exec StepCount ;;
              if (confirmCount =? count)%Z then
                console (MConfirmedStable count) ;;
                Ret (inl count)
              else
                console (MGrew count confirmCount) ;;
                Ret (inr (confirmCount, 0)))
             (λ _, Ret (inr (lastCount, stableChecks)))
         else Ret (inr (lastCount, stableChecks))
       else Ret (inr (count, 0))
     else Ret (inr (lastCount, stableChecks)))
    (λ _, Ret (inr (lastCount, stableChecks))).

(** Lines 281-339 *)
Fixpoint stable_loop (fuel : nat) (start maxWait minTotalWait lastCount : Z)
    (stableChecks : nat) : Prog Z :=
  match fuel with
  | 0 => Diverge
  | S fuel' =>
      t <- perform Now ;;
      if (t - start <? maxWait)%Z then
        r <- stable_round start minTotalWait lastCount stableChecks ;;
        match r with
        | inl count => Ret count
        | inr (lastCount, stableChecks) =>
            delay 500 ;;
            stable_loop fuel' start maxWait minTotalWait lastCount stableChecks
        end
      else
        finalCount <- exec StepCount ;;
        if (finalCount >? 0)%Z then
          console (MTimeoutData finalCount) ;;
          Ret finalCount
        else Ret 0%Z
  end.

(** Lines 268-273: the bounds of a wait, from the value of [fetchCount]
    after its increment. *)
Definition isFirstFetch (fetchCount : nat) : bool := bool_decide (fetchCount ≤ 2).
Definition maxWait_of (isFirst : bool) : Z := if isFirst then 30000%Z else 20000%Z.
Definition minTotalWait_of (isFirst : bool) : Z := if isFirst then 4000%Z else 2000%Z.

(** Lines 266-340 *)
Definition _waitForStableArray : Prog Z :=
  fetchCount <- perform NextFetchCount ;;
  let isFirst := isFirstFetch fetchCount in
  let maxWait := maxWait_of isFirst in
  let minTotalWait := minTotalWait_of isFirst in
  start <- perform Now ;;
  (if isFirst then console MFirstFetch else Ret tt) ;;
  stable_loop (S (rounds maxWait 500)) start maxWait minTotalWait 0 0.

(** [v || d] on a string that may be absent *)
Definition or_else (v : option string) (d : string) : string :=
  match v with
  | Some (String c r) => String c r
  | _ => d
  end.

(** Lines 357-369 and 527-539 *)
Definition typeValueMap : gmap string string :=
  list_to_map
    [("CHARTS", "1"); ("SATELLITE", "2"); ("FLIGHT CHARTS", "3"); ("MESSAGES", "4");
     ("RADAR", "6"); ("METGRAMS", "8"); ("SOUNDINGS", "9"); ("LIGHTNING", "10");
     ("SEASONAL", "11"); ("SPACE WEATHER", "12"); ("SUBSEASONAL", "15")].

(** The names under which an object literal finds a member of
    [Object.prototype] when it has no property of its own by that name. *)
Definition Object_prototype : list string :=
  ["constructor"; "__defineGetter__"; "__defineSetter__"; "hasOwnProperty";
   "__lookupGetter__"; "__lookupSetter__"; "isPrototypeOf"; "propertyIsEnumerable";
   "toString"; "valueOf"; "__proto__"; "toLocaleString"].

(** [typeValueMap[productType] || '1']: the property lookup goes through
    the prototype chain, and what it finds there is truthy. *)
Definition typeValue_of (productType : string) : TypeValue :=
  match typeValueMap !! productType with
  | Some v => TypeString (or_else (Some v) "1")
  | None =>
      if bool_decide (productType ∈ Object_prototype) then Inherited productType
      else TypeString "1"
  end.

(** [currentValue === typeValue], for the string that the read script
    yields: a string is never identical to a function or an object. *)
Definition same_value (currentValue : string) (typeValue : TypeValue) : bool :=
  match typeValue with
  | TypeString v => bool_decide (currentValue = v)
  | Inherited _ => false
  end.

(** The text of [${typeValue}] in the template literal of the set script:
    the string itself, and for an inherited member what its [toString]
    gives. *)
Definition interpolate (typeValue : TypeValue) : string :=
  match typeValue with
  | TypeString v => v
  | Inherited key =>
      if bool_decide (key = "__proto__") then "[object Object]"
      else if bool_decide (key = "constructor") then "function Object() { [native code] }"
      else "function " +:+ key +:+ "() { [native code] }"
  end.

(** Lines 351-472 *)
Definition _fetchProductCatalog (filter : PrometeoProductFilter)
  : Prog ProductCatalogResult :=
  ensureSearchPage ;;
  let typeValue := typeValue_of (f_productType filter) in
  exec (SetProductType (interpolate typeValue)) ;;
  _ <- waitForCondition ListLoaded 8000 500 ;;
  delay 500 ;;
  catalogData <- exec ExtractCatalog ;;
  Ret (mkCatalog
         ((λ p, match p with
                | (id, name, category) =>
                    mkProduct id name (f_productType filter) category "" ""
                end) <$> cd_products catalogData)
         (cd_categories catalogData) (cd_types catalogData) (cd_areas catalogData)).

(** Lines 524-573 *)
Definition _ensureProductType (productType : string) : Prog unit :=
  ensureSearchPage ;;
  let typeValue := typeValue_of productType in
  currentValue <- exec ReadProductType ;;
  if same_value currentValue typeValue then
    console (MAlreadySet productType) ;;
    Ret tt
  else
    console (MSwitching currentValue productType typeValue) ;;
    exec (SetProductType (interpolate typeValue)) ;;
    _ <- waitForCondition ListLoaded 8000 500 ;;
    delay 500.

(** Lines 644-658 *)
Fixpoint label_loop (fuel : nat) (labelWaitStart expectedCount : Z) : Prog unit :=
  match fuel with
  | 0 => Diverge
  | S fuel' =>
      t <- perform Now ;;
      if (t - labelWaitStart <? 8000)%Z then
        labelCount <- exec LabelCount ;;
        if (labelCount >=? expectedCount)%Z then Ret tt
        else if (labelCount >? 0)%Z then
          t' <- perform Now ;;
          if (t' - labelWaitStart >? 4000)%Z then Ret tt
          else delay 500 ;; label_loop fuel' labelWaitStart expectedCount
        else delay 500 ;; label_loop fuel' labelWaitStart expectedCount
      else Ret tt
  end.

Definition emptyResult : ChartUrlsResult := mkChart "" "" [].

(** Lines 576-612: the product is selected in the list, and once more
    when the list did not take the value. *)
Definition select_product (productId : string) : Prog unit :=
  ensureSearchPage ;;
  exec ResetSteps ;;
  exec (SelectProduct productId) ;;
  delay 500 ;;
  selectedVal <- exec ReadSelected ;;
  if negb (bool_decide (selectedVal = productId)) then
    console (MSelectionMismatch productId selectedVal) ;;
    delay 2000 ;;
    exec (SelectProduct productId) ;;
    delay 500 ;;
    _ <- exec ReadSelected ;;
    Ret tt
  else Ret tt.

(** Lines 621-630: the explicit search, and the wait that follows it *)
Definition search_fallback : Prog Z :=
  console MFallback ;;
  exec TriggerSearch ;;
  delay 1000 ;;
  _waitForStableArray.

(** Lines 575-750 *)
Definition _fetchChartUrls (productId : string) : Prog ChartUrlsResult :=
  select_product productId ;;
  lastCount <- _waitForStableArray ;;
  lastCount <- (if (lastCount =? 0)%Z then search_fallback else Ret lastCount) ;;
  if (lastCount =? 0)%Z then
    console MNotPopulated ;;
    Ret emptyResult
  else
    let expectedCount := lastCount in          (* lastCount || 1, lastCount not 0 *)
    labelWaitStart <- perform Now ;;
    label_loop (S (rounds 8000 500)) labelWaitStart expectedCount ;;
    _ <- exec HasInlineLabels ;;
    chartData <- exec ExtractCharts ;;
    Ret chartData.

(** Lines 186-193, as the call it makes on return *)
Definition releaseLock : Prog unit := perform Release.

(** Lines 342-349 *)
Definition fetchProductCatalog (filter : PrometeoProductFilter)
  : Prog ProductCatalogResult :=
  perform Acquire ;;
  try_finally (_fetchProductCatalog filter) releaseLock.

(** Lines 474-481 *)
Definition fetchChartUrls (productId : string) : Prog ChartUrlsResult :=
  perform Acquire ;;
  try_finally (_fetchChartUrls productId) releaseLock.

(** Lines 487-499 *)
Definition fetchCatalogAndChartUrls (filter : PrometeoProductFilter) (productId : string)
  : Prog (ProductCatalogResult * ChartUrlsResult) :=
  perform Acquire ;;
  try_finally
    (catalog <- _fetchProductCatalog filter ;;
     chartUrls <- _fetchChartUrls productId ;;
     Ret (catalog, chartUrls))
    releaseLock.

(** Lines 506-517 *)
Definition fetchChartUrlsForPpt (productType productId : string) : Prog ChartUrlsResult :=
  perform Acquire ;;
  try_finally
    (_ensureProductType productType ;;
     _fetchChartUrls productId)
    releaseLock.

(** Lines 757-786 *)
Definition fetchImage (imageUrl : string) : Prog string :=
  let url :=
    if Js.startsWith imageUrl "http" then imageUrl
    else PROMETEO_BASE_URL +:+ "/" +:+ Js.strip_leading_slash imageUrl in
  response <- perform (Fetch url) ;;
  match response with
  | Net.Rejected msg => Throw msg
  | Net.Resolved response =>
      if negb (Net.ok response) then
        Throw ("Failed to fetch image: " +:+ pretty (Net.status response) +:+ " "
                 +:+ Net.statusText response)
      else
        let contentType := or_else (Net.contentType response) "image/png" in
        match Net.body response with
        | None => Throw "reading the response body failed"
        | Some buffer =>
            Ret ("data:" +:+ contentType +:+ ";base64," +:+ Js.base64 buffer)
        end
  end.

(** *** The mutex (lines 173-193) *)

Record Mutex := mkMutex {
  mutexLocked : bool;
  mutexQueue : list nat   (* the pending [resolve]s, named by the caller each wakes *)
}.

(** [acquireLock()], called by [me]: [true] when the promise it returns
    is already resolved. *)
Definition acquireLock (me : nat) (m : Mutex) : bool * Mutex :=
  if negb (mutexLocked m) then (true, mkMutex true (mutexQueue m))
  else (false, mkMutex (mutexLocked m) (mutexQueue m ++ [me])).

(** [releaseLock()]: the caller whose [resolve] it called, if any. *)
Definition releaseLock_fields (m : Mutex) : option nat * Mutex :=
  match mutexQueue m with
  | next :: q => (Some next, mkMutex (mutexLocked m) q)
  | [] => (None, mkMutex false [])
  end.

(** *** The world and the two interpreters *)

(** One line of the run: caller [who] performed [e] at time [t] with
    result [x]; or [who] obtained the mutex. *)
Inductive Entry :=
| Did (who : nat) (t : Z) {X : Type} (e : Eff X) (x : X)
| Granted (who : nat) (t : Z).

(** The outcome of a call run on its own. *)
Inductive Res (A : Type) :=
| Ok (a : A)
| Threw (e : string)
| Diverged
| Blocked.      (* suspended in [acquireLock] with nobody left to release *)

Arguments Ok {A} a.
Arguments Threw {A} e.
Arguments Diverged {A}.
Arguments Blocked {A}.

(** What an effect does to its caller: it goes on with [x] at once, or it
    is suspended and will go on with [x] once woken. *)
Inductive Reaction (X : Type) :=
| Continue (x : X)
| Suspend (x : X).

Arguments Continue {X} x.
Arguments Suspend {X} x.

Inductive Thread (A : Type) :=
| Runnable (p : Prog A)
| Waiting (p : Prog A).   (* in the mutex queue; [p] is what it does once woken *)

Arguments Runnable {A} p.
Arguments Waiting {A} p.

Section Machine.

(** The portal page is outside the program: any type of page states,
    with what a script evaluated at time [t] yields, how long the
    evaluation takes (ms) and the page state it leaves. *)
Variable Page : Type.
Variable page_exec : ∀ A, Script A → Z → Page → option A * nat * Page.
(** [getURL()] *)
Variable page_url : Page → string.
(** Time (ms) until [did-finish-load] fires after a navigation. *)
Variable page_load : Page → nat.
(** The transport, as in the downloader. *)
Variable net : nat → string → Net.FetchResult.

Record World := mkWorld {
  now : Z;
  page : Page;
  loggedIn : bool;
  fetchCount : nat;
  mutex : Mutex;
  nfetch : nat;
  trace : list Entry }.

Definition advance (dt : Z) (w : World) : World :=
  mkWorld (now w + dt) (page w) (loggedIn w) (fetchCount w) (mutex w) (nfetch w) (trace w).

Definition record (en : Entry) (w : World) : World :=
  mkWorld (now w) (page w) (loggedIn w) (fetchCount w) (mutex w) (nfetch w)
          (trace w ++ [en]).

Definition did {X} (me : nat) (e : Eff X) (x : X) (w : World) : World :=
  record (Did me (now w) e x) w.

(** What each effect does to the world; the third component is the
    caller that a [releaseLock] wakes. *)
Definition handle {X} (me : nat) (e : Eff X) (w : World)
  : Reaction X * option nat * World :=
  match e in Eff X return Reaction X * option nat * World with
  | GetStatus => (Continue (loggedIn w), None, did me GetStatus (loggedIn w) w)
  | GetURL => (Continue (page_url (page w)), None, did me GetURL (page_url (page w)) w)
  | Exec s =>
      let '(r, latency, page') := page_exec _ s (now w) (page w) in
      let w' := mkWorld (now w + Z.of_nat latency) page' (loggedIn w) (fetchCount w)
                        (mutex w) (nfetch w) (trace w) in
      (Continue r, None, did me (Exec s) r w')
  | WaitLoad timeout =>
      (Continue tt, None,
       did me (WaitLoad timeout) tt (advance (Z.min timeout (Z.of_nat (page_load (page w)))) w))
  | Now => (Continue (now w), None, did me Now (now w) w)
  | Delay ms => (Continue tt, None, did me (Delay ms) tt (advance ms w))
  | NextFetchCount =>
      let n := S (fetchCount w) in
      (Continue n, None,
       did me NextFetchCount n
           (mkWorld (now w) (page w) (loggedIn w) n (mutex w) (nfetch w) (trace w)))
  | Fetch url =>
      let r := net (nfetch w) url in
      (Continue r, None,
       did me (Fetch url) r
           (mkWorld (now w) (page w) (loggedIn w) (fetchCount w) (mutex w) (S (nfetch w))
                    (trace w)))
  | Console m => (Continue tt, None, did me (Console m) tt w)
  | Acquire =>
      let '(granted, m) := acquireLock me (mutex w) in
      let w' := did me Acquire tt
                  (mkWorld (now w) (page w) (loggedIn w) (fetchCount w) m (nfetch w)
                           (trace w)) in
      if granted then (Continue tt, None, record (Granted me (now w)) w')
      else (Suspend tt, None, w')
  | Release =>
      let '(next, m) := releaseLock_fields (mutex w) in
      let w' := did me Release tt
                  (mkWorld (now w) (page w) (loggedIn w) (fetchCount w) m (nfetch w)
                           (trace w)) in
      match next with
      | Some j => (Continue tt, Some j, record (Granted j (now w)) w')
      | None => (Continue tt, None, w')
      end
  end.

(** A call run on its own, by caller [me]. *)
Fixpoint interp {A} (me : nat) (p : Prog A) (w : World) : Res A * World :=
  match p with
  | Ret a => (Ok a, w)
  | Throw e => (Threw e, w)
  | Diverge => (Diverged, w)
  | Vis e k =>
      match handle me e w with
      | (Continue x, _, w') => interp me (k x) w'
      | (Suspend _, _, w') => (Blocked, w')
      end
  end.

(** Several calls in flight: caller [i] is the [i]-th thread. *)
Record Config (A : Type) := mkConfig {
  threads : list (Thread A);
  world : World }.

Arguments mkConfig {A} threads world.
Arguments threads {A} c.
Arguments world {A} c.

(** [next()] in [releaseLock]: the woken caller becomes runnable. *)
Definition wake {A} (j : option nat) (ts : list (Thread A)) : list (Thread A) :=
  match j with
  | Some j =>
      match ts !! j with
      | Some (Waiting p) => <[j := Runnable p]> ts
      | _ => ts
      end
  | None => ts
  end.

(** The event loop lets caller [i] perform its next effect. *)
Definition cstep {A} (i : nat) (c : Config A) : Config A :=
  match threads c !! i with
  | Some (Runnable (Vis e k)) =>
      match handle i e (world c) with
      | (Continue x, woken, w') =>
          mkConfig (wake woken (<[i := Runnable (k x)]> (threads c))) w'
      | (Suspend x, _, w') =>
          mkConfig (<[i := Waiting (k x)]> (threads c)) w'
      end
  | _ => c
  end.

Definition csteps {A} (sched : list nat) (c : Config A) : Config A :=
  foldl (λ c i, cstep i c) c sched.

End Machine.

Arguments mkWorld {Page} now page loggedIn fetchCount mutex nfetch trace.
Arguments now {Page} w.
Arguments page {Page} w.
Arguments loggedIn {Page} w.
Arguments fetchCount {Page} w.
Arguments mutex {Page} w.
Arguments nfetch {Page} w.
Arguments trace {Page} w.
Arguments advance {Page} dt w.
Arguments record {Page} en w.
Arguments did {Page X} me e x w.
Arguments handle {Page} page_exec page_url page_load net {X} me e w.
Arguments interp {Page} page_exec page_url page_load net {A} me p w.
Arguments mkConfig {Page A} threads world.
Arguments threads {Page A} c.
Arguments world {Page A} c.
Arguments cstep {Page} page_exec page_url page_load net {A} i c.
Arguments csteps {Page} page_exec page_url page_load net {A} sched c.

(** *** The public session operations, as calls *)

Inductive Call :=
| CallFetchProductCatalog (filter : PrometeoProductFilter)
| CallFetchChartUrls (productId : string)
| CallFetchCatalogAndChartUrls (filter : PrometeoProductFilter) (productId : string)
| CallFetchChartUrlsForPpt (productType productId : string).

Inductive Reply :=
| ReplyCatalog (c : ProductCatalogResult)
| ReplyChart (c : ChartUrlsResult)
| ReplyBoth (c : ProductCatalogResult) (u : ChartUrlsResult).

Definition run_call (c : Call) : Prog Reply :=
  match c with
  | CallFetchProductCatalog filter =>
      r <- fetchProductCatalog filter ;; Ret (ReplyCatalog r)
  | CallFetchChartUrls productId =>
      r <- fetchChartUrls productId ;; Ret (ReplyChart r)
  | CallFetchCatalogAndChartUrls filter productId =>
      r <- fetchCatalogAndChartUrls filter productId ;; Ret (ReplyBoth r.1 r.2)
  | CallFetchChartUrlsForPpt productType productId =>
      r <- fetchChartUrlsForPpt productType productId ;; Ret (ReplyChart r)
  end.

End Prometeo.

(** * Properties of the downloader *)

Module DownloaderFacts.
Import Downloader.

Section Facts.

Context (sha256_hex : string → string) (cacheDir : string)
        (net : nat → string → Net.FetchResult).

Local Abbreviation localPath := (Downloader.localPath sha256_hex cacheDir).
Local Abbreviation worker_loop := (Downloader.worker_loop sha256_hex cacheDir net).
Local Abbreviation start_attempt := (Downloader.start_attempt net).
Local Abbreviation attempt_failed := (Downloader.attempt_failed sha256_hex cacheDir net).
Local Abbreviation resume := (Downloader.resume sha256_hex cacheDir net).
Local Abbreviation spawn := (Downloader.spawn sha256_hex cacheDir net).
Local Abbreviation run := (Downloader.run sha256_hex cacheDir net).
Local Abbreviation value_of := (Downloader.value_of sha256_hex cacheDir).

(** ** What a step shows about one index *)

Definition obs (j : nat) (s : State)
  : option (option string) * list Outcome * list nat * list Z :=
  (results s !! j, resolutions j (log s), attempts j (log s), sleeps j (log s)).

Lemma array_set_length {A} i (v : A) (a : Js.array A) :
  i < length a → length (Js.array_set i v a) = length a.
Proof.
  intros Hi. unfold Js.array_set. rewrite decide_True by done.
  by rewrite length_insert.
Qed.

Lemma array_set_lookup {A} i (v : A) (a : Js.array A) :
  i < length a → Js.array_set i v a !! i = Some (Some v).
Proof.
  intros Hi. unfold Js.array_set. rewrite decide_True by done.
  by apply list_lookup_insert_eq.
Qed.

Lemma array_set_lookup_ne {A} i j (v : A) (a : Js.array A) :
  i < length a → i ≠ j → Js.array_set i v a !! j = a !! j.
Proof.
  intros Hi Hne. unfold Js.array_set. rewrite decide_True by done.
  by apply list_lookup_insert_ne.
Qed.

Lemma obs_set_queue j q s : obs j (set_queue q s) = obs j s.
Proof. reflexivity. Qed.

Lemma obs_set_fs j f s : obs j (set_fs f s) = obs j s.
Proof. reflexivity. Qed.

Lemma obs_emit_other j e s :
  (∀ o, e ≠ EvResolved j o) → (∀ a k, e ≠ EvFetch j a k) → (∀ ms, e ≠ EvSleep j ms) →
  obs j (emit e s) = obs j s.
Proof.
  intros H1 H2 H3. unfold obs, resolutions, attempts, sleeps. simpl.
  rewrite !omap_app. simpl.
  destruct e as [i o|i sz|i a k|i a|i ms|d t]; simpl; rewrite ?app_nil_r; try done;
    case_decide; subst; rewrite ?app_nil_r; try done.
  - by destruct (H1 o).
  - by destruct (H2 a k).
  - by destruct (H3 ms).
Qed.

Lemma obs_onDownloaded j s : obs j (onDownloaded s) = obs j s.
Proof.
  unfold onDownloaded. rewrite obs_emit_other by done. reflexivity.
Qed.

Lemma obs_set_result_ne i j v s :
  i < length (results s) → i ≠ j → obs j (set_result i v s) = obs j s.
Proof.
  intros Hi Hne. unfold obs. simpl. by rewrite array_set_lookup_ne.
Qed.

(** ** The invariant of a run of [downloadCharts urls] *)

Variable urls : list string.

Local Abbreviation N := (length urls).
Local Abbreviation items := (make_queue urls).

Lemma items_lookup i : items !! i = (λ u, mkItem u i) <$> urls !! i.
Proof. unfold make_queue. apply list_lookup_imap. Qed.

Lemma items_length : length items = N.
Proof. unfold make_queue. apply length_imap. Qed.

Definition pc_index (pc : Pc) : list nat :=
  match pc with
  | AwaitFetch it _ _ | AwaitBody it _ _ | AwaitDownload it _ _ | AwaitSleep it _ =>
      [index it]
  | Finished => []
  end.

Definition idle_obs : option (option string) * list Outcome * list nat * list Z :=
  (Some None, [], [], []).

Definition flight_obs (a n : nat)
  : option (option string) * list Outcome * list nat * list Z :=
  (Some None, [], seq 1 a, backoff n).

Definition done_obs (u : string) (o : Outcome)
  : option (option string) * list Outcome * list nat * list Z :=
  (Some (Some (value_of u o)), [o], seq 1 (attempts_used o),
   backoff (attempts_used o - 1)).

(** When an outcome is the right one for a URL. *)
Definition sound (u : string) (o : Outcome) : Prop :=
  match o with
  | Invalid => invalid_url u = true
  | Cached | Exhausted => invalid_url u = false
  | Downloaded a => invalid_url u = false ∧ 1 ≤ a ≤ 3
  end.

(** Item [it] is at attempt [a], with [n] waits behind it. *)
Definition flying (k : nat) (s : State) (it : Item) (a n : nat) : Prop :=
  items !! index it = Some it ∧ invalid_url (url it) = false ∧ index it < k ∧
  1 ≤ a ≤ 3 ∧ obs (index it) s = flight_obs a n.

Definition pc_ok (k : nat) (s : State) (pc : Pc) : Prop :=
  match pc with
  | AwaitFetch it a _ | AwaitBody it a _ | AwaitDownload it a _ => flying k s it a (a - 1)
  | AwaitSleep it a => flying k s it a a ∧ a < 3
  | Finished => True
  end.

(** [k] items have left the queue; each index is still queued, or held
    by exactly one suspended worker, or resolved once and for all. *)
Definition Inv (k : nat) (pcs : list Pc) (s : State) : Prop :=
  k ≤ N ∧ queue s = drop k items ∧ length (results s) = N ∧
  NoDup (pcs ≫= pc_index) ∧ Forall (pc_ok k s) pcs ∧
  (∀ i, k ≤ i → i < N → obs i s = idle_obs) ∧
  (∀ i u, urls !! i = Some u → i < k → i ∉ pcs ≫= pc_index →
          ∃ o, sound u o ∧ obs i s = done_obs u o).

Lemma pc_ok_index k s pc i : pc_ok k s pc → i ∈ pc_index pc → i < k.
Proof.
  destruct pc; simpl; unfold flying; intros H Hi;
    try (apply list_elem_of_singleton in Hi; subst; tauto).
  by apply elem_of_nil in Hi.
Qed.

Lemma pcs_index_lt k s pcs i :
  Forall (pc_ok k s) pcs → i ∈ pcs ≫= pc_index → i < k.
Proof.
  intros HF Hi. apply list_elem_of_bind in Hi as (pc & Hi & Hpc).
  rewrite Forall_forall in HF. eapply pc_ok_index; eauto.
Qed.

Lemma pc_ok_frame k k' s s' pc :
  k ≤ k' →
  (∀ j, j ∈ pc_index pc → obs j s' = obs j s) →
  pc_ok k s pc → pc_ok k' s' pc.
Proof.
  intros Hk Hobs. destruct pc; simpl; unfold flying; try done;
    rewrite Hobs by (simpl; apply list_elem_of_singleton; done);
    intuition lia.
Qed.

Lemma Inv_perm k pcs pcs' s : pcs ≡ₚ pcs' → Inv k pcs s → Inv k pcs' s.
Proof.
  intros HP (Hk & Hq & Hl & Hnd & HF & Hidle & Hdone).
  assert (HB : pcs ≫= pc_index ≡ₚ pcs' ≫= pc_index) by (by rewrite HP).
  repeat split; try done.
  - by rewrite <- HB.
  - by rewrite <- HP.
  - intros i u Hu Hi Hni. apply (Hdone i u Hu Hi). by rewrite HB.
Qed.

(** The next item leaves the queue: it is the item of index [k]. *)
Lemma Inv_shift k rest s it q' s' :
  Inv k rest s → queue s = it :: q' → queue s' = q' →
  length (results s') = length (results s) →
  (∀ j, j ≠ k → obs j s' = obs j s) →
  index it = k ∧ urls !! k = Some (url it) ∧ k < length (results s) ∧ obs k s = idle_obs ∧
  (∀ pc, pc_index pc = [k] → pc_ok (S k) s' pc → Inv (S k) (pc :: rest) s') ∧
  (∀ o, sound (url it) o → obs k s' = done_obs (url it) o → Inv (S k) rest s').
Proof.
  intros (Hk & Hq & Hl & Hnd & HF & Hidle & Hdone) Hqs Hq' Hl' Hobs.
  assert (Hit : items !! k = Some it).
  { rewrite <- (Nat.add_0_r k), <- lookup_drop, <- Hq, Hqs. done. }
  assert (HkN : k < N).
  { apply lookup_lt_Some in Hit. by rewrite items_length in Hit. }
  rewrite items_lookup in Hit.
  destruct (urls !! k) as [u|] eqn:Hu; simplify_eq/=.
  assert (Hq'' : queue s' = drop (S k) items).
  { replace (S k) with (k + 1) by lia.
    by rewrite <- drop_drop, <- Hq, Hqs. }
  assert (HF' : Forall (pc_ok (S k) s') rest).
  { eapply Forall_impl; [exact HF|]. intros pc Hpc. simpl.
    eapply pc_ok_frame; [| |exact Hpc]; [lia|].
    intros j Hj. apply Hobs. eapply pc_ok_index in Hj; [|exact Hpc]. lia. }
  assert (Hidle' : ∀ i, S k ≤ i → i < N → obs i s' = idle_obs).
  { intros i Hi HiN. rewrite Hobs by lia. apply Hidle; lia. }
  assert (Hnk : k ∉ rest ≫= pc_index).
  { intros Hin. eapply pcs_index_lt in Hin; [|exact HF]. lia. }
  split_and!; try done; try lia.
  - apply Hidle; lia.
  - intros pc Hpc Hok. unfold Inv. split_and!; try done; try lia.
    + simpl. rewrite Hpc. simpl. by apply NoDup_cons.
    + by apply Forall_cons.
    + intros i u' Hu' Hi Hni. simpl in Hni. rewrite Hpc in Hni. simpl in Hni.
      apply not_elem_of_cons in Hni as [Hne Hni].
      rewrite Hobs by done. apply Hdone; [done|lia|done].
  - intros o Hs Ho. unfold Inv. split_and!; try done; try lia.
    intros i u' Hu' Hi Hni. destruct (decide (i = k)) as [->|Hne].
    + simplify_eq. eauto.
    + rewrite Hobs by done. apply Hdone; [done|lia|done].
Qed.

Lemma Inv_shift_done k rest s it q' s' o :
  Inv k rest s → queue s = it :: q' → queue s' = q' →
  length (results s') = length (results s) →
  (∀ j, j ≠ k → obs j s' = obs j s) →
  sound (url it) o → obs k s' = done_obs (url it) o → Inv (S k) rest s'.
Proof.
  intros HInv Hq Hq' Hl Hobs Hs Ho.
  destruct (Inv_shift k rest s it q' s' HInv Hq Hq' Hl Hobs) as (_ & _ & _ & _ & _ & H).
  by apply (H o).
Qed.

Lemma Inv_shift_flight k rest s it q' s' pc :
  Inv k rest s → queue s = it :: q' → queue s' = q' →
  length (results s') = length (results s) →
  (∀ j, j ≠ k → obs j s' = obs j s) →
  pc_index pc = [k] → pc_ok (S k) s' pc → Inv (S k) (pc :: rest) s'.
Proof.
  intros HInv Hq Hq' Hl Hobs Hpc Hok.
  destruct (Inv_shift k rest s it q' s' HInv Hq Hq' Hl Hobs) as (_ & _ & _ & _ & H & _).
  by apply H.
Qed.

(** A suspended worker moves on with the same item. *)
Lemma Inv_move k pc rest s i pc' s' :
  Inv k (pc :: rest) s → pc_index pc = [i] →
  queue s' = queue s → length (results s') = length (results s) →
  (∀ j, j ≠ i → obs j s' = obs j s) →
  pc_index pc' = [i] → pc_ok k s' pc' → Inv k (pc' :: rest) s'.
Proof.
  intros (Hk & Hq & Hl & Hnd & HF & Hidle & Hdone) Hpc Hq' Hl' Hobs Hpc' Hok.
  simpl in Hnd. rewrite Hpc in Hnd. simpl in Hnd. apply NoDup_cons in Hnd as [Hni Hnd].
  apply Forall_cons in HF as [Hpcok HF].
  assert (Hik : i < k).
  { eapply pc_ok_index; [exact Hpcok|]. rewrite Hpc. by left. }
  unfold Inv. split_and!; try done; try congruence.
  - simpl. rewrite Hpc'. simpl. by apply NoDup_cons.
  - apply Forall_cons. split; [done|].
    eapply Forall_forall. intros pc0 Hin. rewrite Forall_forall in HF.
    eapply pc_ok_frame; [| |by apply HF]; [lia|].
    intros j Hj. apply Hobs. intros ->. apply Hni.
    apply list_elem_of_bind. eauto.
  - intros j Hj HjN. rewrite Hobs by lia. by apply Hidle.
  - intros j u Hu Hj Hnj. simpl in Hnj. rewrite Hpc' in Hnj. simpl in Hnj.
    apply not_elem_of_cons in Hnj as [Hne Hnj].
    rewrite Hobs by done. apply Hdone; [done..|].
    simpl. rewrite Hpc. simpl. by apply not_elem_of_cons.
Qed.

(** A suspended worker resolves its item. *)
Lemma Inv_finish k pc rest s i s' :
  Inv k (pc :: rest) s → pc_index pc = [i] →
  queue s' = queue s → length (results s') = length (results s) →
  (∀ j, j ≠ i → obs j s' = obs j s) →
  (∀ u, urls !! i = Some u → ∃ o, sound u o ∧ obs i s' = done_obs u o) →
  Inv k rest s'.
Proof.
  intros (Hk & Hq & Hl & Hnd & HF & Hidle & Hdone) Hpc Hq' Hl' Hobs Hfin.
  simpl in Hnd. rewrite Hpc in Hnd. simpl in Hnd. apply NoDup_cons in Hnd as [Hni Hnd].
  apply Forall_cons in HF as [Hpcok HF].
  assert (Hik : i < k).
  { eapply pc_ok_index; [exact Hpcok|]. rewrite Hpc. by left. }
  unfold Inv. split_and!; try done; try congruence.
  - eapply Forall_forall. intros pc0 Hin. rewrite Forall_forall in HF.
    eapply pc_ok_frame; [| |by apply HF]; [lia|].
    intros j Hj. apply Hobs. intros ->. apply Hni.
    apply list_elem_of_bind. eauto.
  - intros j Hj HjN. rewrite Hobs by lia. by apply Hidle.
  - intros j u Hu Hj Hnj. destruct (decide (j = i)) as [->|Hne]; [by apply Hfin|].
    rewrite Hobs by done. apply Hdone; [done..|].
    simpl. rewrite Hpc. simpl. by apply not_elem_of_cons.
Qed.

Lemma Inv_ext k pcs s s' :
  queue s' = queue s → results s' = results s → log s' = log s →
  Inv k pcs s → Inv k pcs s'.
Proof.
  intros Hq Hr Hl (Hk & Hq' & Hl' & Hnd & HF & Hidle & Hdone).
  assert (Hobs : ∀ j, obs j s' = obs j s).
  { intros j. unfold obs. by rewrite Hr, Hl. }
  unfold Inv. split_and!; try done; try congruence.
  - eapply Forall_impl; [exact HF|]. intros pc Hpc.
    eapply pc_ok_frame; [| |exact Hpc]; [lia|done].
  - intros j Hj HjN. rewrite Hobs. by apply Hidle.
  - intros j u Hu Hj Hnj. rewrite Hobs. by apply Hdone.
Qed.

(** ** What each kind of step shows *)

Lemma obs_resolve_ne i j v o s :
  i < length (results s) → j ≠ i →
  obs j (onDownloaded (emit (EvResolved i o) (set_result i v s))) = obs j s.
Proof.
  intros Hi Hne. rewrite obs_onDownloaded.
  rewrite obs_emit_other by (try done; intros o' [=]; congruence).
  by apply obs_set_result_ne.
Qed.

Lemma obs_resolve_eq i v o s r rs ats sl :
  i < length (results s) → obs i s = (r, rs, ats, sl) →
  obs i (onDownloaded (emit (EvResolved i o) (set_result i v s)))
  = (Some (Some v), rs ++ [o], ats, sl).
Proof.
  intros Hi Hobs. rewrite obs_onDownloaded.
  unfold obs in *. simpl. unfold resolutions, attempts, sleeps in *.
  rewrite !omap_app. simpl. rewrite decide_True by done. simpl.
  rewrite !app_nil_r. rewrite array_set_lookup by done.
  by simplify_eq.
Qed.

Lemma obs_start_ne it a j s :
  j ≠ index it → obs j (start_attempt it a s).2 = obs j s.
Proof.
  intros Hne. unfold Downloader.start_attempt. simpl.
  rewrite obs_emit_other by (try done; intros a' k' [=]; congruence).
  reflexivity.
Qed.

Lemma obs_start_eq it a s r rs ats sl :
  obs (index it) s = (r, rs, ats, sl) →
  obs (index it) (start_attempt it a s).2 = (r, rs, ats ++ [a], sl).
Proof.
  intros Hobs. unfold Downloader.start_attempt. simpl.
  unfold obs in *. simpl. unfold resolutions, attempts, sleeps in *.
  rewrite !omap_app. simpl. rewrite decide_True by done. simpl.
  rewrite !app_nil_r. by simplify_eq.
Qed.

Lemma obs_sleep_ne i ms j s : j ≠ i → obs j (emit (EvSleep i ms) s) = obs j s.
Proof.
  intros Hne. apply obs_emit_other; try done. intros ms' [=]; congruence.
Qed.

Lemma obs_sleep_eq i ms s r rs ats sl :
  obs i s = (r, rs, ats, sl) →
  obs i (emit (EvSleep i ms) s) = (r, rs, ats, sl ++ [ms]).
Proof.
  intros Hobs. unfold obs in *. simpl. unfold resolutions, attempts, sleeps in *.
  rewrite !omap_app. simpl. rewrite decide_True by done. simpl.
  rewrite !app_nil_r. by simplify_eq.
Qed.

Lemma seq_snoc a : seq 1 a ++ [S a] = seq 1 (S a).
Proof. by rewrite seq_S. Qed.

Lemma backoff_snoc n : backoff n ++ [(1500 * Z.of_nat (S n))%Z] = backoff (S n).
Proof. unfold backoff. by rewrite seq_S, fmap_app. Qed.

(** ** The invariant is kept by every step *)

Lemma Inv_queue_nil k pcs s : Inv k pcs s → queue s = [] → k = N.
Proof.
  intros (Hk & Hq & _) Hnil. rewrite Hnil in Hq.
  assert (length (drop k items) = 0) as Hlen by (rewrite <- Hq; done).
  rewrite length_drop, items_length in Hlen. lia.
Qed.

Lemma Inv_Finished k rest s : Inv k rest s → Inv k (Finished :: rest) s.
Proof.
  intros (Hk & Hq & Hl & Hnd & HF & Hidle & Hdone).
  unfold Inv. split_and!; try done. by apply Forall_cons.
Qed.

Lemma flying_url k s it a n : flying k s it a n → urls !! index it = Some (url it).
Proof.
  intros (Hit & _). rewrite items_lookup in Hit.
  destruct (urls !! index it) as [u|]; [|done].
  destruct it as [u' i']. simpl in *. congruence.
Qed.

Lemma worker_loop_Inv q : ∀ s k rest,
  queue s = q → Inv k rest s →
  ∃ k', k ≤ k' ∧ Inv k' ((worker_loop q s).1 :: rest) (worker_loop q s).2 ∧
        ((worker_loop q s).1 = Finished → k' = N).
Proof.
  induction q as [|it q' IH]; intros s k rest Hq HInv.
  - simpl. exists k. assert (k = N) by (by eapply Inv_queue_nil).
    split_and!; [lia| |done].
    apply Inv_Finished. eapply Inv_ext; [| | |exact HInv]; simpl; congruence.
  - simpl.
    destruct (Inv_shift k rest s it q' (set_queue q' s) HInv Hq)
      as (Hidx & Hu & HkN & Hidle & _); [done..|].
    assert (Hres : ∀ v o, sound (url it) o → v = value_of (url it) o →
              attempts_used o = 0 →
              Inv (S k) rest
                (onDownloaded (emit (EvResolved (index it) o)
                   (set_result (index it) v (set_queue q' s))))).
    { intros v o Hs -> Hused.
      eapply (Inv_shift_done k rest s it q'); [done..| | | |done|].
      - reflexivity.
      - simpl. by rewrite array_set_length by (rewrite Hidx; done).
      - intros j Hj. rewrite Hidx, obs_resolve_ne by done. reflexivity.
      - rewrite Hidx. erewrite obs_resolve_eq; [|done|exact Hidle].
        unfold done_obs. rewrite Hused. reflexivity. }
    assert (Hstart : ∀ s1, invalid_url (url it) = false →
              queue s1 = q' → length (results s1) = length (results s) →
              (∀ j, obs j s1 = obs j s) →
              Inv (S k) ((start_attempt it 1 s1).1 :: rest) (start_attempt it 1 s1).2).
    { intros s1 Hval Hq1 Hl1 Hobs1.
      eapply (Inv_shift_flight k rest s it q'); [done..| | | | |].
      - done.
      - done.
      - intros j Hj. rewrite obs_start_ne by congruence. apply Hobs1.
      - simpl. by rewrite Hidx.
      - simpl. unfold flying. rewrite items_lookup, Hidx, Hu. simpl.
        split_and!; try done; try lia.
        { destruct it; simpl in *; congruence. }
        assert (Hst := obs_start_eq it 1 s1 (Some None) [] [] []).
        rewrite Hobs1, Hidx in Hst. specialize (Hst Hidle).
        simpl in Hst. rewrite Hidx in Hst. exact Hst. }
    destruct (invalid_url (url it)) eqn:Hinv.
    { edestruct IH as (k' & Hk' & Hinv' & Hfin);
        [|apply (Hres "" Invalid Hinv eq_refl eq_refl)|]; [reflexivity|].
      exists k'. split_and!; [lia|done|done]. }
    destruct (fs s !! localPath (url it)) as [b|] eqn:Hfs.
    + destruct (decide (MIN_IMAGE_SIZE ≤ length b)) as [Hsz|Hsz].
      { edestruct IH as (k' & Hk' & Hinv' & Hfin);
          [|apply (Hres _ Cached Hinv eq_refl eq_refl)|]; [reflexivity|].
        exists k'. split_and!; [lia|exact Hinv'|exact Hfin]. }
      exists (S k). split_and!; [lia| |done].
      apply Hstart; [done|done|done|].
      intros j. unfold unlink. rewrite obs_set_fs, obs_emit_other by done. reflexivity.
    + exists (S k). split_and!; [lia| |done].
      by apply Hstart.
Qed.

(** The state after the [catch] block has logged the failure and removed
    the file at the cache path, if there is one. *)
Definition cleaned (p : string) (i a : nat) (s : State) : State :=
  match fs (emit (EvAttemptFailed i a) s) !! p with
  | Some _ => unlink p (emit (EvAttemptFailed i a) s)
  | None => emit (EvAttemptFailed i a) s
  end.

Lemma cleaned_queue p i a s : queue (cleaned p i a s) = queue s.
Proof. unfold cleaned. by destruct (fs _ !! p). Qed.

Lemma cleaned_results p i a s : results (cleaned p i a s) = results s.
Proof. unfold cleaned. by destruct (fs _ !! p). Qed.

Lemma cleaned_obs p i a s j : obs j (cleaned p i a s) = obs j s.
Proof.
  unfold cleaned. destruct (fs _ !! p); unfold unlink;
    rewrite ?obs_set_fs, obs_emit_other; done.
Qed.

Lemma cleaned_fs p i a s : fs (cleaned p i a s) = delete p (fs s).
Proof.
  unfold cleaned. simpl. destruct (fs s !! p) eqn:Hp; simpl; [done|].
  by rewrite delete_id.
Qed.

Lemma attempt_failed_eq it a s :
  attempt_failed it a s =
  let s2 := cleaned (localPath (url it)) (index it) a s in
  if decide (a < 3) then
    (AwaitSleep it a, emit (EvSleep (index it) (1500 * Z.of_nat a)) s2)
  else
    let s3 := onDownloaded (emit (EvResolved (index it) Exhausted)
                              (set_result (index it) "" s2)) in
    worker_loop (queue s3) s3.
Proof. reflexivity. Qed.

Lemma attempt_failed_Inv k pc it a rest s :
  Inv k (pc :: rest) s → pc_index pc = [index it] → flying k s it a (a - 1) →
  ∃ k', k ≤ k' ∧
        Inv k' ((attempt_failed it a s).1 :: rest) (attempt_failed it a s).2 ∧
        ((attempt_failed it a s).1 = Finished → k' = N).
Proof.
  intros HInv Hpc Hfly. rewrite attempt_failed_eq. cbv zeta.
  set (s2 := cleaned _ _ _ s).
  assert (Hq2 : queue s2 = queue s) by apply cleaned_queue.
  assert (Hr2 : results s2 = results s) by apply cleaned_results.
  assert (Ho2 : ∀ j, obs j s2 = obs j s) by apply cleaned_obs.
  destruct Hfly as (Hit & Hval & Hik & Ha & Hobs).
  assert (HlN : length (results s) = N) by apply HInv.
  assert (HkN : k ≤ N) by apply HInv.
  destruct (decide (a < 3)) as [Hlt|Hge].
  - exists k. split_and!; [lia| |done]. simpl.
    eapply (Inv_move k pc rest s (index it)); [done..| | | | |].
    + simpl. done.
    + simpl. by rewrite Hr2.
    + intros j Hj. rewrite obs_sleep_ne by done. apply Ho2.
    + done.
    + simpl. split; [|done]. unfold flying. split_and!; try done; try lia.
      erewrite obs_sleep_eq; [|rewrite Ho2; exact Hobs].
      unfold flight_obs. f_equal.
      destruct a as [|a']; [lia|]. simpl. rewrite Nat.sub_0_r. apply backoff_snoc.
  - assert (a = 3) as -> by lia.
    set (s3 := onDownloaded _).
    assert (HInv3 : Inv k rest s3).
    { eapply (Inv_finish k pc rest s (index it)); [done..| | | |].
      - simpl. done.
      - simpl. rewrite array_set_length; rewrite Hr2; [done|lia].
      - intros j Hj. unfold s3. rewrite obs_resolve_ne; [apply Ho2|rewrite Hr2; lia|done].
      - intros u Hu. exists Exhausted. 
        assert (u = url it) as ->.
        { rewrite items_lookup, Hu in Hit. simpl in Hit. destruct it; simpl in *; congruence. }
        split; [done|]. unfold s3.
        erewrite obs_resolve_eq; [|rewrite Hr2; lia|rewrite Ho2; exact Hobs].
        reflexivity. }
    apply worker_loop_Inv; done.
Qed.

Lemma resume_Inv k pc rest s :
  Inv k (pc :: rest) s →
  ∃ k', k ≤ k' ∧ Inv k' ((resume pc s).1 :: rest) (resume pc s).2 ∧
        ((resume pc s).1 = Finished → pc = Finished ∨ k' = N).
Proof.
  intros HInv.
  assert (Hok : pc_ok k s pc).
  { destruct HInv as (_ & _ & _ & _ & HF & _). by apply Forall_cons in HF as [? _]. }
  assert (HlN : length (results s) = N) by apply HInv.
  assert (HkN : k ≤ N) by apply HInv.
  destruct pc as [it a r|it a r|it a threw|it a|]; simpl in Hok.
  - (* the fetch settles *)
    assert (Hsame : ∀ pc', pc_index pc' = [index it] → pc_ok k s pc' →
              Inv k (pc' :: rest) s).
    { intros pc' Hpc' Hok'. eapply Inv_move; eauto. }
    exists k. split; [lia|].
    destruct r as [msg|r]; simpl; [split; [by apply Hsame|done]|].
    destruct (negb (Net.ok r)); simpl; [split; [by apply Hsame|done]|].
    destruct (Js.includes _ _); simpl; (split; [by apply Hsame|done]).
  - (* the body arrives *)
    exists k. split; [lia|]. simpl.
    destruct (Net.body r) as [b|]; simpl; (split; [|done]);
      eapply Inv_move; eauto.
  - (* [downloadFile] has settled *)
    destruct threw; simpl.
    + destruct (attempt_failed_Inv k _ it a rest s HInv eq_refl Hok) as (k' & ? & ? & ?).
      exists k'. split_and!; [done..|]. intros ?. right. auto.
    + destruct (decide (size_or_0 _ s < MIN_IMAGE_SIZE)).
      * destruct (attempt_failed_Inv k _ it a rest s HInv eq_refl Hok) as (k' & ? & ? & ?).
        exists k'. split_and!; [done..|]. intros ?. right. auto.
      * destruct Hok as (Hit & Hval & Hik & Ha & Hobs).
        set (s3 := onDownloaded _).
        assert (HInv3 : Inv k rest s3).
        { eapply (Inv_finish k _ rest s (index it)); [done..| | | |].
          - simpl. done.
          - simpl. rewrite array_set_length; [done|lia].
          - intros j Hj. unfold s3. rewrite obs_resolve_ne; [done|lia|done].
          - intros u Hu. exists (Downloaded a).
            assert (u = url it) as ->.
            { rewrite items_lookup, Hu in Hit. simpl in Hit.
              destruct it; simpl in *; congruence. }
            split; [done|]. unfold s3.
            erewrite obs_resolve_eq; [|lia|exact Hobs].
            unfold done_obs, flight_obs. simpl. reflexivity. }
        destruct (worker_loop_Inv (queue s3) s3 k rest eq_refl HInv3) as (k' & ? & ? & ?).
        exists k'. split_and!; [done..|]. intros ?. right. auto.
  - (* the wait is over *)
    destruct Hok as [(Hit & Hval & Hik & Ha & Hobs) Hlt].
    exists k. split; [lia|]. split; [|done].
    change (resume (AwaitSleep it a) s) with (start_attempt it (S a) s).
    eapply (Inv_move k _ rest s (index it)); [exact HInv|done|done|done| | |].
    + intros j Hj. by rewrite obs_start_ne.
    + done.
    + simpl. unfold flying. split_and!; try done; try lia.
      assert (Hst := obs_start_eq it (S a) s _ _ _ _ Hobs). simpl in Hst.
      rewrite Hst. unfold flight_obs. rewrite seq_snoc.
      by rewrite Nat.sub_0_r.
  - exists k. split; [lia|]. simpl. split; [done|]. by left.
Qed.

(** ** Every run ends *)

(** Resumptions a suspended worker still needs for its item, at most. *)
Definition pc_measure (pc : Pc) : nat :=
  match pc with
  | AwaitFetch _ a _ => 4 * (4 - a)
  | AwaitBody _ a _ => 4 * (4 - a) - 1
  | AwaitDownload _ a _ => 4 * (4 - a) - 2
  | AwaitSleep _ a => 4 * (4 - a) - 3
  | Finished => 0
  end.

Definition measure (pcs : list Pc) (s : State) : nat :=
  12 * length (queue s) + sum_list_with pc_measure pcs.

Lemma worker_loop_measure q : ∀ s,
  12 * length (queue (worker_loop q s).2) + pc_measure (worker_loop q s).1
  ≤ 12 * length q.
Proof.
  induction q as [|it q' IH]; intros s; simpl; [lia|].
  destruct (invalid_url (url it)); [etrans; [apply IH|lia]|].
  destruct (fs s !! localPath (url it)) as [b|]; [|simpl; lia].
  destruct (decide (MIN_IMAGE_SIZE ≤ length b)); [etrans; [apply IH|lia]|].
  simpl. lia.
Qed.

Lemma attempt_failed_measure it a s :
  1 ≤ a ≤ 3 →
  12 * length (queue (attempt_failed it a s).2) + pc_measure (attempt_failed it a s).1
  < 12 * length (queue s) + (4 * (4 - a) - 2).
Proof.
  intros Ha. rewrite attempt_failed_eq. cbv zeta.
  destruct (decide (a < 3)).
  - simpl. rewrite cleaned_queue. lia.
  - eapply Nat.le_lt_trans; [apply worker_loop_measure|].
    simpl. rewrite cleaned_queue. lia.
Qed.

Lemma resume_measure k s pc :
  pc_ok k s pc → pc ≠ Finished →
  12 * length (queue (resume pc s).2) + pc_measure (resume pc s).1
  < 12 * length (queue s) + pc_measure pc.
Proof.
  intros Hok Hne. destruct pc as [it a r|it a r|it a threw|it a|]; [| | | |done];
    simpl in Hok; unfold flying in Hok.
  - destruct r as [msg|r]; simpl; [lia|].
    destruct (negb (Net.ok r)); simpl; [lia|].
    destruct (Js.includes _ _); simpl; lia.
  - simpl. destruct (Net.body r); simpl; lia.
  - destruct threw; simpl.
    + apply attempt_failed_measure. tauto.
    + destruct (decide (size_or_0 _ s < MIN_IMAGE_SIZE)).
      * apply attempt_failed_measure. tauto.
      * eapply Nat.le_lt_trans; [apply worker_loop_measure|]. simpl. lia.
  - simpl. lia.
Qed.

Lemma insert_Permutation {A} (l : list A) i x y :
  l !! i = Some x → <[i := y]> l ≡ₚ y :: delete i l.
Proof.
  intros Hi. rewrite insert_take_drop by (by eapply lookup_lt_Some).
  rewrite delete_take_drop. by rewrite <- Permutation_middle.
Qed.

Lemma live_from_spec pcs : ∀ b j,
  j ∈ live_from b pcs ↔ ∃ pc, b ≤ j ∧ pcs !! (j - b) = Some pc ∧ is_finished pc = false.
Proof.
  induction pcs as [|pc pcs IH]; intros b j; simpl.
  - split; [by intros ?%elem_of_nil|]. by intros (? & _ & ? & _).
  - assert (Hrest : j ∈ live_from (S b) pcs ↔
              ∃ pc', b < j ∧ (pc :: pcs) !! (j - b) = Some pc' ∧ is_finished pc' = false).
    { rewrite IH. split; intros (pc' & Hj & Hl & Hf); exists pc'; split_and!; try done; try lia.
      - by replace (j - b) with (S (j - S b)) by lia.
      - by replace (j - b) with (S (j - S b)) in Hl by lia. }
    destruct (is_finished pc) eqn:Hfin.
    + rewrite Hrest. split; intros (pc' & Hj & Hl & Hf); exists pc'; split_and!; try done; try lia.
      destruct (decide (j = b)) as [->|]; [|lia].
      rewrite Nat.sub_diag in Hl. simpl in Hl. congruence.
    + rewrite elem_of_cons, Hrest. split.
      * intros [->|(pc' & Hj & Hl & Hf)].
        -- exists pc. rewrite Nat.sub_diag. done.
        -- exists pc'. split_and!; try done; lia.
      * intros (pc' & Hj & Hl & Hf). destruct (decide (j = b)) as [->|]; [by left|].
        right. exists pc'. split_and!; try done; lia.
Qed.

Lemma pick_Some c pcs i :
  pick c pcs = Some i → ∃ pc, pcs !! i = Some pc ∧ pc ≠ Finished.
Proof.
  unfold pick. intros Hi. apply list_elem_of_lookup_2 in Hi.
  apply live_from_spec in Hi as (pc & _ & Hl & Hf).
  rewrite Nat.sub_0_r in Hl. exists pc. split; [done|]. by intros ->.
Qed.

Lemma pick_None c pcs : pick c pcs = None → Forall (λ pc, pc = Finished) pcs.
Proof.
  unfold pick. intros Hn. apply lookup_ge_None in Hn.
  assert (Hnil : live_from 0 pcs = []).
  { destruct (live_from 0 pcs) as [|x l] eqn:Hl; [done|].
    assert (c `mod` length (x :: l) < length (x :: l))
      by (apply Nat.mod_upper_bound; simpl; lia).
    lia. }
  apply Forall_lookup. intros i pc Hi.
  destruct pc; try done;
    (assert (i ∈ live_from 0 pcs) as Hin
       by (apply live_from_spec; eexists; rewrite Nat.sub_0_r; split_and!; [lia|done|done]);
     rewrite Hnil in Hin; by apply elem_of_nil in Hin).
Qed.

Lemma run_total sched : ∀ fuel n pcs s k,
  Inv k pcs s → (pcs = [] ∨ Finished ∈ pcs → k = N) → measure pcs s ≤ fuel →
  ∃ s' pcs', run fuel n sched pcs s = Some s' ∧ Inv N pcs' s' ∧
             Forall (λ pc, pc = Finished) pcs'.
Proof.
  induction fuel as [|fuel IH]; intros n pcs s k HInv Hfin Hm.
  - simpl. destruct (pick (sched n) pcs) as [i|] eqn:Hp.
    + apply pick_Some in Hp as (pc & Hi & Hne).
      assert (HP : pcs ≡ₚ pc :: delete i pcs) by (by apply delete_Permutation).
      assert (Hok : pc_ok k s pc).
      { destruct HInv as (_ & _ & _ & _ & HF & _). rewrite Forall_forall in HF.
        apply HF. eapply list_elem_of_lookup_2; eauto. }
      unfold measure in Hm. rewrite HP in Hm. simpl in Hm.
      assert (0 < pc_measure pc); [|lia].
      destruct pc; simpl in *; unfold flying in *; try done; lia.
    + apply pick_None in Hp. exists s, pcs. split_and!; [done| |done].
      assert (k = N) as <-; [|done]. apply Hfin.
      destruct pcs as [|pc pcs']; [by left|right].
      apply Forall_cons in Hp as [-> _]. by left.
  - simpl. destruct (pick (sched n) pcs) as [i|] eqn:Hp.
    + apply pick_Some in Hp as (pc & Hi & Hne). rewrite Hi. simpl.
      assert (HP : pcs ≡ₚ pc :: delete i pcs) by (by apply delete_Permutation).
      assert (HInv' := Inv_perm _ _ _ _ HP HInv).
      assert (Hok : pc_ok k s pc).
      { destruct HInv' as (_ & _ & _ & _ & HF & _). by apply Forall_cons in HF as [? _]. }
      destruct (resume_Inv k pc (delete i pcs) s HInv') as (k' & Hk' & HInv2 & Hf2).
      assert (Hms := resume_measure k s pc Hok Hne).
      destruct (resume pc s) as [pc' s'] eqn:Hres. simpl in *.
      assert (HP' : <[i := pc']> pcs ≡ₚ pc' :: delete i pcs) by (by eapply insert_Permutation).
      apply (IH (S n) _ s' k').
      * eapply Inv_perm; [symmetry; exact HP'|done].
      * assert (Hk'N : k' ≤ N) by apply HInv2.
        intros [Hnil|Hin].
        { apply (f_equal length) in Hnil. rewrite length_insert in Hnil.
          apply lookup_lt_Some in Hi. simpl in Hnil. lia. }
        rewrite HP' in Hin. apply elem_of_cons in Hin as [<-|Hin].
        { destruct Hf2 as [?|?]; [done..|]. done. }
        assert (k = N); [|lia]. apply Hfin. right. rewrite HP. by right.
      * unfold measure in *. rewrite HP'. rewrite HP in Hm. simpl in *. lia.
    + apply pick_None in Hp. exists s, pcs. split_and!; [done| |done].
      assert (k = N) as <-; [|done]. apply Hfin.
      destruct pcs as [|pc pcs']; [by left|right].
      apply Forall_cons in Hp as [-> _]. by left.
Qed.

Lemma spawn_S rounds w s :
  spawn (S rounds) w s =
  if decide (w < concurrency `min` length (queue s)) then
    ((worker_loop (queue s) s).1 :: (spawn rounds (S w) (worker_loop (queue s) s).2).1,
     (spawn rounds (S w) (worker_loop (queue s) s).2).2)
  else ([], s).
Proof.
  simpl. case_decide; [|done].
  destruct (worker_loop _ _) as [pc s1]. simpl.
  by destruct (Downloader.spawn _ _ _ _ _ _) as [pcs s2].
Qed.

Lemma spawn_Inv rounds : ∀ w s k acc,
  Inv k acc s → (Finished ∈ acc → k = N) →
  ∃ k', k ≤ k' ∧ Inv k' ((spawn rounds w s).1 ++ acc) (spawn rounds w s).2 ∧
        (Finished ∈ (spawn rounds w s).1 ++ acc → k' = N) ∧
        12 * length (queue (spawn rounds w s).2)
          + sum_list_with pc_measure (spawn rounds w s).1 ≤ 12 * length (queue s).
Proof.
  induction rounds as [|rounds IH]; intros w s k acc HInv Hfin.
  - simpl. exists k. split_and!; [lia|done|done|lia].
  - rewrite spawn_S.
    destruct (decide (w < concurrency `min` length (queue s))) as [Hw|Hw];
      [|simpl; exists k; split_and!; [lia|done|done|lia]].
    destruct (worker_loop_Inv (queue s) s k acc eq_refl HInv) as (k1 & Hk1 & HInv1 & Hf1).
    assert (Hm1 := worker_loop_measure (queue s) s).
    destruct (worker_loop (queue s) s) as [pc s1] eqn:Hwl. cbn [fst snd] in *.
    assert (Hk1N : k1 ≤ N) by apply HInv1.
    assert (Hfin1 : Finished ∈ pc :: acc → k1 = N).
    { intros [<-|Hin]%elem_of_cons; [by apply Hf1|]. apply Hfin in Hin. lia. }
    destruct (IH (S w) s1 k1 (pc :: acc) HInv1 Hfin1) as (k2 & Hk2 & HInv2 & Hf2 & Hm2).
    destruct (spawn rounds (S w) s1) as [pcs s2] eqn:Hsp. cbn [fst snd] in *.
    simpl sum_list_with.
    assert (HP : pcs ++ pc :: acc ≡ₚ pc :: pcs ++ acc) by (by rewrite Permutation_middle).
    exists k2. split_and!; [lia| | |lia].
    + eapply Inv_perm; [exact HP|done].
    + intros Hin. apply Hf2. by rewrite HP.
Qed.

Lemma spawn_nil s :
  (spawn concurrency 0 s).1 = [] → queue s = [] ∧ (spawn concurrency 0 s).2 = s.
Proof.
  change concurrency with 2 at 1 2. rewrite spawn_S. case_decide as Hw; [done|].
  intros _. split; [|done]. destruct (queue s); [done|].
  unfold concurrency in Hw. simpl in Hw. lia.
Qed.

Lemma Inv_init fs0 : Inv 0 [] (init urls fs0).
Proof.
  unfold Inv. simpl. split_and!; try done; try lia.
  - unfold Js.new_Array. by rewrite length_replicate.
  - constructor.
  - intros i _ Hi. unfold obs, idle_obs. simpl. unfold Js.new_Array.
    by rewrite lookup_replicate_2.
Qed.

(** Every call of [downloadCharts] returns, with every worker at the
    end of its loop and the invariant of the run in force. *)
Lemma downloadCharts_Inv fs0 sched :
  ∃ s pcs, downloadCharts sha256_hex cacheDir net urls fs0 sched = Some s ∧
           Inv N pcs s ∧ Forall (λ pc, pc = Finished) pcs.
Proof.
  unfold downloadCharts, downloadCharts_run.
  destruct (spawn_Inv concurrency 0 (init urls fs0) 0 [] (Inv_init fs0))
    as (k & _ & HInv & Hfin & Hm); [by intros ?%elem_of_nil|].
  assert (Hnil : (spawn concurrency 0 (init urls fs0)).1 = [] → k = N).
  { intros Hsp. destruct (spawn_nil _ Hsp) as [Hq Hs].
    eapply Inv_queue_nil; [exact HInv|]. by rewrite Hs. }
  destruct (spawn concurrency 0 (init urls fs0)) as [pcs s] eqn:Hsp. simpl in *.
  rewrite app_nil_r in HInv, Hfin.
  apply (run_total sched _ 0 pcs s k HInv).
  - intros [->|Hin]; auto.
  - unfold measure. rewrite items_length in Hm. lia.
Qed.

(** ** The cache check (lines 67-82) *)

(** C4. When a worker takes an item with a well-formed URL whose cache path
    already holds a file: if the file has at least 1024 bytes, the item is
    resolved to the cache path at once ([Cached]), no fetch is issued, the
    disk is left as it is, and the worker goes on with the rest of the
    queue; if the file has fewer than 1024 bytes, the file is deleted and
    the first download attempt for the URL is started (the worker is
    suspended on the fetch it has just issued).  In particular 1024 bytes
    are accepted and 1023 bytes are not. *)
Theorem cache_size_boundary it q s b :
  invalid_url (url it) = false →
  fs s !! localPath (url it) = Some b →
  (MIN_IMAGE_SIZE ≤ length b →
   ∃ s1, worker_loop (it :: q) s = worker_loop q s1 ∧
         results s1 = Js.array_set (index it) (localPath (url it)) (results s) ∧
         log s1 = log s ++ [EvResolved (index it) Cached;
                            EvProgress (S (downloaded s)) (total s)] ∧
         nfetch s1 = nfetch s ∧ fs s1 = fs s ∧ queue s1 = q) ∧
  (length b < MIN_IMAGE_SIZE →
   ∃ s1, worker_loop (it :: q) s = (AwaitFetch it 1 (net (nfetch s) (url it)), s1) ∧
         fs s1 = delete (localPath (url it)) (fs s) ∧
         nfetch s1 = S (nfetch s) ∧
         results s1 = results s ∧
         log s1 = log s ++ [EvUnlinkSmall (index it) (length b);
                            EvFetch (index it) 1 (nfetch s)]) ∧
  MIN_IMAGE_SIZE = 1024.
Proof.
  intros Hval Hfs. split_and!; [| |done].
  - intros Hsz. eexists. simpl. rewrite Hval, Hfs.
    rewrite decide_True by done. split; [reflexivity|].
    simpl. by rewrite <- app_assoc.
  - intros Hsz. eexists. simpl. rewrite Hval, Hfs.
    rewrite decide_False by lia. split; [reflexivity|].
    simpl. by rewrite <- app_assoc.
Qed.

(** ** Retries (lines 84-117) *)

Lemma log_app_assoc_ev (l : list Event) e1 e2 : (l ++ [e1]) ++ [e2] = l ++ [e1; e2].
Proof. by rewrite <- app_assoc. Qed.

(** When the third attempt fails, the worker writes the empty string at the
    index of its item and nowhere else in the result list, leaves the queue
    as it is, and goes back to the head of its loop. *)
Lemma exhausted_goes_on it s :
  ∃ s3, attempt_failed it 3 s = worker_loop (queue s) s3 ∧
        queue s3 = queue s ∧
        results s3 = Js.array_set (index it) "" (results s) ∧
        fs s3 = delete (localPath (url it)) (fs s) ∧
        nfetch s3 = nfetch s ∧
        log s3 = log s ++ [EvAttemptFailed (index it) 3; EvResolved (index it) Exhausted;
                           EvProgress (S (downloaded s)) (total s)].
Proof.
  eexists. rewrite attempt_failed_eq. cbv zeta. rewrite decide_False by lia.
  assert (Hq := cleaned_queue (localPath (url it)) (index it) 3 s).
  assert (Hr := cleaned_results (localPath (url it)) (index it) 3 s).
  assert (Hf := cleaned_fs (localPath (url it)) (index it) 3 s).
  split; [simpl; rewrite Hq; reflexivity|].
  simpl. rewrite Hq, Hr, Hf. split_and!; try done.
  - unfold cleaned. by destruct (fs _ !! _).
  - unfold cleaned. destruct (fs _ !! _); simpl; by rewrite <- !app_assoc.
Qed.

(** After a failed first or second attempt the worker waits 1500 ms times
    the attempt number and then starts the next attempt. *)
Lemma failed_attempt_waits it a s :
  a < 3 →
  ∃ s2, attempt_failed it a s = (AwaitSleep it a, s2) ∧
        results s2 = results s ∧ queue s2 = queue s ∧
        log s2 = log s ++ [EvAttemptFailed (index it) a;
                           EvSleep (index it) (1500 * Z.of_nat a)] ∧
        (resume (AwaitSleep it a) s2).1
        = AwaitFetch it (S a) (net (nfetch s2) (url it)).
Proof.
  intros Ha. eexists. rewrite attempt_failed_eq. cbv zeta. rewrite decide_True by done.
  split; [reflexivity|]. simpl.
  rewrite cleaned_results, cleaned_queue. split_and!; try done.
  unfold cleaned. destruct (fs _ !! _); simpl; by rewrite <- !app_assoc.
Qed.

(** In every run, every item is resolved; the fetches issued for it are
    attempts 1, 2, ... up to at most 3, and the waits between them are
    1500 ms after attempt 1 and 3000 ms after attempt 2; an item whose
    three attempts failed is resolved to the empty string. *)
Lemma retry_discipline fs0 sched :
  ∃ s, downloadCharts sha256_hex cacheDir net urls fs0 sched = Some s ∧
       ∀ i u, urls !! i = Some u →
         ∃ o, resolutions i (log s) = [o] ∧
              attempts i (log s) = seq 1 (attempts_used o) ∧
              attempts_used o ≤ 3 ∧
              sleeps i (log s) = backoff (attempts_used o - 1) ∧
              (o = Exhausted →
               results s !! i = Some (Some "") ∧
               attempts i (log s) = [1; 2; 3] ∧
               sleeps i (log s) = [1500; 3000]%Z).
Proof.
  destruct (downloadCharts_Inv fs0 sched) as (s & pcs & Hrun & HInv & Hall).
  exists s. split; [done|].
  destruct HInv as (_ & _ & Hlen & _ & _ & _ & Hdone).
  intros i u Hu.
  assert (Hnone : pcs ≫= pc_index = []).
  { clear -Hall. induction Hall as [|pc pcs -> _ IH]; [done|]. by rewrite bind_cons, IH. }
  destruct (Hdone i u Hu) as (o & Hs & Ho).
  - by apply lookup_lt_Some in Hu.
  - rewrite Hnone. by intros ?%elem_of_nil.
  - exists o. unfold obs, done_obs in Ho. simplify_eq.
    split_and!; try done.
    + destruct o; simpl in *; lia.
    + intros ->. done.
Qed.

(** ** Where the files of the cache come from *)

(** Line 140: the content-type names HTML. *)
Definition is_html (r : Net.Response) : bool :=
  Js.includes (default "" (Net.contentType r)) "text/html".

(** [b] is the body of an OK response that is not HTML. *)
Definition genuine (b : list Byte.byte) : Prop :=
  ∃ k u r, net k u = Net.Resolved r ∧ Net.ok r = true ∧ is_html r = false ∧
           Net.body r = Some b.

Definition pc_src (pc : Pc) : Prop :=
  match pc with
  | AwaitFetch it _ r => ∃ k, r = net k (url it)
  | AwaitBody it _ r =>
      ∃ k, net k (url it) = Net.Resolved r ∧ Net.ok r = true ∧ is_html r = false
  | _ => True
  end.

Definition fs_src (fs0 : gmap string (list Byte.byte)) (s : State) : Prop :=
  ∀ p b, fs s !! p = Some b → fs0 !! p = Some b ∨ genuine b.

Lemma fs_src_sub fs0 s s' :
  (∀ p b, fs s' !! p = Some b → fs s !! p = Some b) → fs_src fs0 s → fs_src fs0 s'.
Proof. intros Hsub Hsrc p b Hp. apply Hsrc, Hsub, Hp. Qed.

(** The head of the loop writes no file. *)
Lemma worker_loop_fs q : ∀ s p b,
  fs (worker_loop q s).2 !! p = Some b → fs s !! p = Some b.
Proof.
  induction q as [|it q' IH]; intros s p b; simpl; [done|].
  destruct (invalid_url (url it)); [intros H%IH; exact H|].
  destruct (fs s !! localPath (url it)) as [b'|] eqn:Hfs; [|done].
  destruct (decide (MIN_IMAGE_SIZE ≤ length b')); [intros H%IH; exact H|].
  simpl. intros [_ H]%lookup_delete_Some. done.
Qed.

Lemma worker_loop_src q : ∀ s, pc_src (worker_loop q s).1.
Proof.
  induction q as [|it q' IH]; intros s; simpl; [done|].
  destruct (invalid_url (url it)); [apply IH|].
  destruct (fs s !! localPath (url it)) as [b'|]; [|simpl; eauto].
  destruct (decide (MIN_IMAGE_SIZE ≤ length b')); [apply IH|]. simpl. eauto.
Qed.

Lemma attempt_failed_fs it a s p b :
  fs (attempt_failed it a s).2 !! p = Some b →
  fs s !! p = Some b ∧ (a < 3 → p ≠ localPath (url it)).
Proof.
  rewrite attempt_failed_eq. cbv zeta. destruct (decide (a < 3)).
  - simpl. rewrite cleaned_fs. intros [? ?]%lookup_delete_Some. done.
  - intros H%worker_loop_fs. simpl in H. rewrite cleaned_fs in H.
    apply lookup_delete_Some in H as [? ?]. split; [done|lia].
Qed.

Lemma attempt_failed_src it a s : pc_src (attempt_failed it a s).1.
Proof.
  rewrite attempt_failed_eq. cbv zeta. destruct (decide (a < 3)); [done|].
  apply worker_loop_src.
Qed.

Lemma resume_src fs0 pc s :
  pc_src pc → fs_src fs0 s → pc_src (resume pc s).1 ∧ fs_src fs0 (resume pc s).2.
Proof.
  intros Hpc Hfs. destruct pc as [it a r|it a r|it a threw|it a|]; simpl in *.
  - destruct Hpc as [k ->]. destruct (net k (url it)) as [msg|r] eqn:Hnet; simpl; [done|].
    destruct (Net.ok r) eqn:Hok; simpl; [|done].
    destruct (Js.includes _ _) eqn:Hhtml; simpl; [done|]. split; [|done]. eauto.
  - destruct Hpc as (k & Hnet & Hok & Hhtml).
    destruct (Net.body r) as [b|] eqn:Hb; simpl; [|done]. split; [done|].
    intros p b' Hp. simpl in Hp.
    apply lookup_insert_Some in Hp as [[<- <-]|[_ Hp]]; [|by apply Hfs].
    right. exists k, (url it), r. done.
  - destruct threw; [|destruct (decide (size_or_0 _ s < MIN_IMAGE_SIZE))].
    + split; [apply attempt_failed_src|].
      eapply fs_src_sub; [|exact Hfs]. intros p b H. by apply attempt_failed_fs in H as [? _].
    + split; [apply attempt_failed_src|].
      eapply fs_src_sub; [|exact Hfs]. intros p b H. by apply attempt_failed_fs in H as [? _].
    + split; [apply worker_loop_src|].
      eapply fs_src_sub; [|exact Hfs]. intros p b H. by apply worker_loop_fs in H.
  - split; [eauto|done].
  - done.
Qed.

Lemma spawn_src fs0 rounds : ∀ w s,
  fs_src fs0 s → Forall pc_src (spawn rounds w s).1 ∧ fs_src fs0 (spawn rounds w s).2.
Proof.
  induction rounds as [|rounds IH]; intros w s Hfs; [done|].
  rewrite spawn_S. case_decide; [|done]. simpl.
  assert (Hfs1 : fs_src fs0 (worker_loop (queue s) s).2).
  { eapply fs_src_sub; [|exact Hfs]. intros p b Hp. by apply worker_loop_fs in Hp. }
  destruct (IH (S w) _ Hfs1) as [HF Hfs2]. split; [|done].
  apply Forall_cons. split; [apply worker_loop_src|done].
Qed.

Lemma run_src fs0 sched : ∀ fuel n pcs s s',
  Forall pc_src pcs → fs_src fs0 s → run fuel n sched pcs s = Some s' → fs_src fs0 s'.
Proof.
  induction fuel as [|fuel IH]; intros n pcs s s' HF Hfs; simpl;
    destruct (pick (sched n) pcs) as [i|] eqn:Hp; try done; try (by intros [= <-]).
  assert (Hpc : pc_src (default Finished (pcs !! i))).
  { destruct (pcs !! i) as [pc|] eqn:Hi; simpl; [|done].
    rewrite Forall_forall in HF. apply HF. by eapply list_elem_of_lookup_2. }
  destruct (resume_src fs0 _ s Hpc Hfs) as [Hpc' Hfs'].
  destruct (resume _ s) as [pc' s1]. simpl in *.
  apply IH; [|done].
  apply Forall_forall. intros pc0 Hin.
  apply list_elem_of_lookup_1 in Hin as [j Hj].
  apply list_lookup_insert_Some in Hj as [(-> & <- & _)|[_ Hj]]; [done|].
  rewrite Forall_forall in HF. apply HF. by eapply list_elem_of_lookup_2.
Qed.

(** C5. A fetch that settles with an OK status and a content-type containing
    [text/html] makes [downloadFile] throw before anything is written: the
    attempt is recorded as failed, the [catch] block leaves no file at the
    cache path of the item, and the attempt either leads to the wait before
    the next attempt (attempts 1 and 2) or, after attempt 3, to the empty
    string for the item.  Over a whole run, whatever the workers leave in
    the cache was there before the call or is the body of an OK response
    that is not HTML, so no HTML page is ever cached. *)
Theorem html_response_never_cached it a r s fs0 sched :
  Net.ok r = true →
  Js.includes (default "" (Net.contentType r)) "text/html" = true →
  resume (AwaitFetch it a (Net.Resolved r)) s = (AwaitDownload it a true, s) ∧
  resume (AwaitDownload it a true) s = attempt_failed it a s ∧
  (∀ b, fs (attempt_failed it a s).2 !! localPath (url it) ≠ Some b) ∧
  (a < 3 → ∃ s2, attempt_failed it a s = (AwaitSleep it a, s2) ∧ results s2 = results s) ∧
  (a = 3 → ∃ s3, attempt_failed it a s = worker_loop (queue s) s3 ∧
                 results s3 = Js.array_set (index it) "" (results s)) ∧
  (∀ sf, downloadCharts sha256_hex cacheDir net urls fs0 sched = Some sf →
         ∀ p b, fs sf !! p = Some b →
                fs0 !! p = Some b ∨
                ∃ k u r', net k u = Net.Resolved r' ∧ Net.ok r' = true ∧
                          Js.includes (default "" (Net.contentType r')) "text/html" = false ∧
                          Net.body r' = Some b).
Proof.
  intros Hok Hhtml. split_and!.
  - simpl. by rewrite Hok, Hhtml.
  - done.
  - intros b Hb. rewrite attempt_failed_eq in Hb. cbv zeta in Hb.
    destruct (decide (a < 3)).
    + simpl in Hb. rewrite cleaned_fs, lookup_delete_eq in Hb. done.
    + apply worker_loop_fs in Hb. simpl in Hb.
      rewrite cleaned_fs, lookup_delete_eq in Hb. done.
  - intros Ha. destruct (failed_attempt_waits it a s Ha) as (s2 & ? & ? & _). eauto.
  - intros ->. destruct (exhausted_goes_on it s) as (s3 & ? & _ & ? & _). eauto.
  - intros sf Hrun. unfold downloadCharts, downloadCharts_run in Hrun.
    assert (Hinit : fs_src fs0 (init urls fs0)) by (intros p b Hp; by left).
    destruct (spawn_src fs0 concurrency 0 _ Hinit) as [HF Hfs].
    destruct (spawn concurrency 0 (init urls fs0)) as [pcs s0]. simpl in *.
    apply (run_src fs0 sched _ _ _ _ _ HF Hfs Hrun).
Qed.

(** ** What stands behind each entry of the result *)

(** What [downloadFile] has to write once its fetch has settled (lines
    128-146): the body, when the fetch resolved with an OK status, with a
    content-type that does not contain [text/html] and with a body that
    could be read; nothing otherwise. *)
Definition payload (res : Net.FetchResult) : option (list Byte.byte) :=
  match res with
  | Net.Rejected _ => None
  | Net.Resolved r =>
      if negb (Net.ok r) then None
      else if Js.includes (default "" (Net.contentType r)) "text/html" then None
      else Net.body r
  end.

Section Evidence.

Variable fs0 : gmap string (list Byte.byte).

(** Another well-formed item of the batch has the cache path of item [i]
    (the same URL twice, or two URLs whose hashes agree on the first 16
    digits). *)
Definition shared (i : nat) : Prop :=
  ∃ j u u', j ≠ i ∧ urls !! i = Some u ∧ urls !! j = Some u' ∧
            invalid_url u' = false ∧ localPath u' = localPath u.

(** [b] is what a fetch of the run had to write at path [p]. *)
Definition written (l : list Event) (p : string) (b : list Byte.byte) : Prop :=
  ∃ j a k u, EvFetch j a k ∈ l ∧ urls !! j = Some u ∧ invalid_url u = false ∧
             localPath u = p ∧ payload (net k u) = Some b.

(** [b] was in the cache before the call, or was written during it. *)
Definition provided (l : list Event) (p : string) (b : list Byte.byte) : Prop :=
  fs0 !! p = Some b ∨ written l p b.

(** Attempt [a] for item [i] was made and did not succeed: its fetch gave
    nothing to write, or it gave fewer than 1024 bytes; on a shared path
    the file may also have been removed or replaced before the size check
    of line 91. *)
Definition failed (l : list Event) (i : nat) (u : string) (a : nat) : Prop :=
  ∃ k, EvFetch i a k ∈ l ∧
       (payload (net k u) = None ∨
        ∃ b, payload (net k u) = Some b ∧ (length b < MIN_IMAGE_SIZE ∨ shared i)).

(** What the run shows for an item resolved with outcome [o].
    [Cached]: a file of at least 1024 bytes was at the cache path, the one
    of the cache as it was before the call or, on a shared path, one that
    the run wrote.  [Downloaded a]: the attempts before [a] failed and the
    fetch of attempt [a] gave a body to write, of at least 1024 bytes; on a
    shared path the file that passed the size check may be one that
    another fetch of the run wrote.  [Exhausted]: three attempts were made
    and failed. *)
Definition evidence (l : list Event) (i : nat) (u : string) (o : Outcome) : Prop :=
  match o with
  | Invalid => invalid_url u = true
  | Cached =>
      invalid_url u = false ∧
      ∃ b, MIN_IMAGE_SIZE ≤ length b ∧
           (fs0 !! localPath u = Some b ∨ shared i ∧ written l (localPath u) b)
  | Downloaded a =>
      invalid_url u = false ∧ 1 ≤ a ≤ 3 ∧
      (∀ a', 1 ≤ a' < a → failed l i u a') ∧
      ∃ k b, EvFetch i a k ∈ l ∧ payload (net k u) = Some b ∧
             (MIN_IMAGE_SIZE ≤ length b ∨
              shared i ∧ ∃ b', MIN_IMAGE_SIZE ≤ length b' ∧ written l (localPath u) b')
  | Exhausted =>
      invalid_url u = false ∧ ∀ a, 1 ≤ a ≤ 3 → failed l i u a
  end.

Lemma written_mono l l' p b : l ⊆ l' → written l p b → written l' p b.
Proof. intros Hl (j & a & k & u & Hin & H). exists j, a, k, u. split; [by apply Hl|done]. Qed.

Lemma provided_mono l l' p b : l ⊆ l' → provided l p b → provided l' p b.
Proof. intros Hl [H|H]; [by left|right; by eapply written_mono]. Qed.

Lemma failed_mono l l' i u a : l ⊆ l' → failed l i u a → failed l' i u a.
Proof. intros Hl (k & Hin & H). exists k. split; [by apply Hl|done]. Qed.

Lemma evidence_mono l l' i u o : l ⊆ l' → evidence l i u o → evidence l' i u o.
Proof.
  intros Hl. destruct o as [| |a|]; simpl; [done| | |].
  - intros (Hv & b & Hb & [H|[Hs H]]); split; [done| |done|];
      exists b; (split; [done|]); [by left|right]. split; [done|by eapply written_mono].
  - intros (Hv & Ha & Hprior & k & b & Hin & Hp & H). split_and!; [done|lia|lia| |].
    + intros a' Ha'. eapply failed_mono; [done|by apply Hprior].
    + exists k, b. split_and!; [by apply Hl|done|].
      destruct H as [H|(Hs & b' & Hb' & Hw)]; [by left|right].
      split; [done|]. exists b'. split; [done|by eapply written_mono].
  - intros (Hv & H). split; [done|]. intros a Ha. eapply failed_mono; [done|by apply H].
Qed.

(** *** The invariant *)

Definition prior (l : list Event) (it : Item) (a : nat) : Prop :=
  ∀ a', 1 ≤ a' < a → failed l (index it) (url it) a'.

Definition item_ok (it : Item) : Prop :=
  urls !! index it = Some (url it) ∧ invalid_url (url it) = false.

(** What a suspended worker knows of the attempt it is in. *)
Definition pc_ev (s : State) (pc : Pc) : Prop :=
  match pc with
  | AwaitFetch it a res =>
      item_ok it ∧ 1 ≤ a ≤ 3 ∧ prior (log s) it a ∧
      ∃ n, EvFetch (index it) a n ∈ log s ∧ net n (url it) = res
  | AwaitBody it a r =>
      item_ok it ∧ 1 ≤ a ≤ 3 ∧ prior (log s) it a ∧
      ∃ n, EvFetch (index it) a n ∈ log s ∧ payload (net n (url it)) = Net.body r
  | AwaitDownload it a threw =>
      item_ok it ∧ 1 ≤ a ≤ 3 ∧ prior (log s) it a ∧
      ∃ n, EvFetch (index it) a n ∈ log s ∧
           if threw then payload (net n (url it)) = None
           else ∃ b, payload (net n (url it)) = Some b ∧
                     (fs s !! localPath (url it) = Some b ∨
                      shared (index it) ∧
                      ∀ b', fs s !! localPath (url it) = Some b' →
                            written (log s) (localPath (url it)) b')
  | AwaitSleep it a => item_ok it ∧ 1 ≤ a < 3 ∧ prior (log s) it (S a)
  | Finished => True
  end.

Record Ev (pcs : list Pc) (s : State) : Prop := mkEv {
  ev_items : NoDup ((index <$> queue s) ++ (pcs ≫= pc_index));
  ev_queue : ∀ it, it ∈ queue s → urls !! index it = Some (url it);
  ev_fs : ∀ p b, fs s !! p = Some b → provided (log s) p b;
  ev_idle : ∀ it, it ∈ queue s → invalid_url (url it) = false →
                  shared (index it) ∨ fs s !! localPath (url it) = fs0 !! localPath (url it);
  ev_pcs : Forall (pc_ev s) pcs;
  ev_done : ∀ i u o, urls !! i = Some u → EvResolved i o ∈ log s → evidence (log s) i u o }.

Lemma prior_mono l l' it a : l ⊆ l' → prior l it a → prior l' it a.
Proof. intros Hl H a' Ha'. eapply failed_mono; [done|by apply H]. Qed.

Lemma pc_ev_step it s s' pc :
  log s ⊆ log s' →
  urls !! index it = Some (url it) →
  index it ∉ pc_index pc →
  (∀ p, fs s' !! p = fs s !! p ∨
        (p = localPath (url it) ∧ invalid_url (url it) = false ∧
         ∀ b, fs s' !! p = Some b → written (log s') p b)) →
  pc_ev s pc → pc_ev s' pc.
Proof.
  intros Hlog Hit Hni Hfs.
  destruct pc as [it' a res|it' a r|it' a threw|it' a|]; simpl; try done.
  - intros (Hok & Ha & Hprior & n & Hn & Hres).
    split_and!; [done|lia|lia|by eapply prior_mono|]. exists n. split; [by apply Hlog|done].
  - intros (Hok & Ha & Hprior & n & Hn & Hres).
    split_and!; [done|lia|lia|by eapply prior_mono|]. exists n. split; [by apply Hlog|done].
  - intros (Hok & Ha & Hprior & n & Hn & Hthrew).
    split_and!; [done|lia|lia|by eapply prior_mono|]. exists n. split; [by apply Hlog|].
    destruct threw; [done|]. destruct Hthrew as (b & Hb & Hfile). exists b. split; [done|].
    destruct (Hfs (localPath (url it'))) as [Hsame|(Hp & Hval & Hw)].
    + rewrite Hsame. destruct Hfile as [?|[Hsh Hw']]; [by left|right]. split; [done|].
      intros b' Hb'. eapply written_mono; [done|]. by apply Hw'.
    + right. split; [|done]. destruct Hok as [Hu' _].
      exists (index it), (url it'), (url it). split_and!; try done.
      intros Heq. apply Hni. simpl. rewrite Heq. by left.
  - intros (Hok & Ha & Hprior). split_and!; [done|lia|lia|by eapply prior_mono].
Qed.

(** A step of an item that is neither queued nor held by one of [pcs]. *)
Lemma Ev_step it pcs s s' :
  Ev pcs s →
  urls !! index it = Some (url it) →
  index it ∉ (index <$> queue s) ++ (pcs ≫= pc_index) →
  queue s' = queue s → log s ⊆ log s' →
  (∀ p, fs s' !! p = fs s !! p ∨
        (p = localPath (url it) ∧ invalid_url (url it) = false ∧
         ∀ b, fs s' !! p = Some b → written (log s') p b)) →
  (∀ i o, EvResolved i o ∈ log s' →
          EvResolved i o ∈ log s ∨ ∀ u, urls !! i = Some u → evidence (log s') i u o) →
  Ev pcs s'.
Proof.
  intros [H1 H2 H3 H4 H5 H6] Hit Hout Hq Hlog Hfs Hres.
  apply not_elem_of_app in Hout as [Hoq Hop]. split; rewrite ?Hq; try done.
  - intros p b Hp. destruct (Hfs p) as [Hsame|(_ & _ & Hw)].
    + rewrite Hsame in Hp. eapply provided_mono; [done|by apply H3].
    + right. by apply Hw.
  - intros it' Hin Hval. destruct (H4 it' Hin Hval) as [Hsh|Hidle]; [by left|].
    destruct (Hfs (localPath (url it'))) as [Hsame|(Hp & Hv & _)]; [right; congruence|].
    left. exists (index it), (url it'), (url it). split_and!; try done; [|by apply H2].
    intros Heq. apply Hoq. rewrite Heq. apply list_elem_of_fmap. by exists it'.
  - apply Forall_forall. intros pc Hpc. rewrite Forall_forall in H5.
    eapply (pc_ev_step it); try done; [|by apply H5].
    intros Hin. apply Hop. apply list_elem_of_bind. eauto.
  - intros i u o Hu Hin. destruct (Hres i o Hin) as [Hold|Hnew]; [|by apply Hnew].
    eapply evidence_mono; [done|by apply H6].
Qed.

Lemma sub_snoc {A} (l : list A) e : l ⊆ l ++ [e].
Proof. intros x Hx. apply elem_of_app. by left. Qed.

Lemma sub_snoc2 {A} (l : list A) e e' : l ⊆ (l ++ [e]) ++ [e'].
Proof. intros x Hx. apply elem_of_app. left. apply elem_of_app. by left. Qed.

Lemma Ev_perm pcs pcs' s : pcs ≡ₚ pcs' → Ev pcs s → Ev pcs' s.
Proof.
  intros HP [H1 H2 H3 H4 H5 H6]. split; try done.
  - by rewrite <- HP.
  - by rewrite <- HP.
Qed.

(** States that agree on the queue, the files and the log. *)
Lemma Ev_ext pcs s s' :
  queue s' = queue s → fs s' = fs s → log s' = log s → Ev pcs s → Ev pcs s'.
Proof.
  intros Hq Hf Hl [H1 H2 H3 H4 H5 H6]. split; rewrite ?Hq, ?Hf, ?Hl; try done.
  eapply Forall_impl; [exact H5|]. intros pc.
  destruct pc; simpl; rewrite ?Hf, ?Hl; done.
Qed.

(** The head of the queue is taken. *)
Lemma Ev_take it q' rest s :
  queue s = it :: q' → Ev rest s →
  Ev rest (set_queue q' s) ∧
  urls !! index it = Some (url it) ∧
  (index it ∉ (index <$> q') ++ (rest ≫= pc_index)) ∧
  (invalid_url (url it) = false →
   shared (index it) ∨ fs s !! localPath (url it) = fs0 !! localPath (url it)).
Proof.
  intros Hq [H1 H2 H3 H4 H5 H6]. rewrite Hq in H1, H2, H4.
  rewrite fmap_cons in H1. simpl in H1. apply NoDup_cons in H1 as [Hni H1].
  split_and!; [split; simpl; try done| | |].
  - intros it' Hin. apply H2. by right.
  - intros it' Hin. apply H4. by right.
  - apply H2. by left.
  - done.
  - intros Hv. apply H4; [by left|done].
Qed.

(** A worker lets go of its item, and takes hold of one. *)
Lemma Ev_release pc rest s i :
  Ev (pc :: rest) s → pc_index pc = [i] →
  Ev rest s ∧ (i ∉ (index <$> queue s) ++ (rest ≫= pc_index)) ∧ pc_ev s pc.
Proof.
  intros [H1 H2 H3 H4 H5 H6] Hpc. simpl in H1. rewrite Hpc in H1. simpl in H1.
  rewrite <- Permutation_middle in H1. apply NoDup_cons in H1 as [Hni H1].
  apply Forall_cons in H5 as [Hpc5 H5]. split_and!; [split; done|done|done].
Qed.

Lemma Ev_hold pc pcs s i :
  Ev pcs s → pc_index pc = [i] → i ∉ (index <$> queue s) ++ (pcs ≫= pc_index) →
  pc_ev s pc → Ev (pc :: pcs) s.
Proof.
  intros [H1 H2 H3 H4 H5 H6] Hpc Hni Hev. split; try done.
  - simpl. rewrite Hpc. simpl. rewrite <- Permutation_middle. by apply NoDup_cons.
  - by apply Forall_cons.
Qed.

Lemma Ev_Finished pcs s : Ev pcs s → Ev (Finished :: pcs) s.
Proof. intros [H1 H2 H3 H4 H5 H6]. split; try done. by apply Forall_cons. Qed.

(** An item outside the queue and the workers is resolved (lines 58-59,
    72-73, 96 and 115-117). *)
Lemma Ev_resolved it pcs s o v :
  Ev pcs s → urls !! index it = Some (url it) →
  index it ∉ (index <$> queue s) ++ (pcs ≫= pc_index) →
  evidence (log s) (index it) (url it) o →
  Ev pcs (onDownloaded (emit (EvResolved (index it) o) (set_result (index it) v s))).
Proof.
  intros HE Hit Hout Hev. apply (Ev_step it pcs s); try done.
  - simpl. apply sub_snoc2.
  - intros p. by left.
  - intros i o'. simpl. rewrite !elem_of_app, !list_elem_of_singleton.
    intros [[?|[= -> ->]]|[=]]; [by left|right].
    intros u Hu. assert (u = url it) as -> by congruence.
    eapply evidence_mono; [|exact Hev]. apply sub_snoc2.
Qed.

(** An attempt starts (lines 86-88 and 124-132). *)
Lemma Ev_start it a pcs s :
  Ev pcs s → item_ok it →
  index it ∉ (index <$> queue s) ++ (pcs ≫= pc_index) →
  1 ≤ a ≤ 3 → prior (log s) it a →
  Ev ((start_attempt it a s).1 :: pcs) (start_attempt it a s).2.
Proof.
  intros HE [Hit Hv] Hout Ha Hprior. unfold Downloader.start_attempt. cbn [fst snd].
  apply (Ev_hold _ _ _ (index it)); [|done|done|].
  - apply (Ev_step it pcs s); try done.
    + simpl. apply sub_snoc.
    + intros p. by left.
    + intros i o. simpl. rewrite elem_of_app, list_elem_of_singleton.
      intros [?|[=]]. by left.
  - simpl. split_and!; [done|lia|lia| |].
    + eapply prior_mono; [|exact Hprior]. apply sub_snoc.
    + exists (nfetch s). split; [|done]. apply elem_of_app. right. by left.
Qed.

Lemma worker_loop_ev q : ∀ s rest,
  queue s = q → Ev rest s →
  Ev ((worker_loop q s).1 :: rest) (worker_loop q s).2.
Proof.
  induction q as [|it q' IH]; intros s rest Hq HE.
  - simpl. apply Ev_Finished. eapply Ev_ext; [| | |exact HE]; simpl; congruence.
  - destruct (Ev_take it q' rest s Hq HE) as (HE1 & Hit & Hout & Hidle).
    cbn [Downloader.worker_loop].
    destruct (invalid_url (url it)) eqn:Hv.
    { apply IH; [done|]. by apply Ev_resolved. }
    cbn [fs set_queue].
    destruct (fs s !! localPath (url it)) as [b|] eqn:Hb.
    + case_decide as Hsz.
      * apply IH; [done|]. apply Ev_resolved; [done..|].
        simpl. split; [done|]. exists b. split; [done|].
        destruct (Hidle eq_refl) as [Hsh|Hsame]; [|left; congruence].
        destruct (ev_fs _ _ HE _ _ Hb) as [?|Hw]; [by left|right]. done.
      * apply Ev_start; [|done|done|lia|intros a' ?; lia].
        apply (Ev_step it rest (set_queue q' s)); try done.
        -- simpl. apply sub_snoc.
        -- intros p. destruct (decide (p = localPath (url it))) as [->|Hne].
           ++ right. split_and!; [done|done|]. intros b'. simpl.
              by rewrite lookup_delete_eq.
           ++ left. simpl. by rewrite lookup_delete_ne.
        -- intros i o. simpl. rewrite elem_of_app, list_elem_of_singleton.
           intros [?|[=]]. by left.
    + apply Ev_start; [done|done|done|lia|intros a' ?; lia].
Qed.

Lemma attempt_failed_ev pc rest it a s :
  Ev (pc :: rest) s → pc_index pc = [index it] → item_ok it → 1 ≤ a ≤ 3 →
  prior (log s) it a → failed (log s) (index it) (url it) a →
  Ev ((attempt_failed it a s).1 :: rest) (attempt_failed it a s).2.
Proof.
  intros HE Hpc [Hit Hv] Ha Hprior Hfail.
  destruct (Ev_release pc rest s (index it) HE Hpc) as (HE0 & Hout & _).
  rewrite attempt_failed_eq. cbv zeta.
  set (s2 := cleaned _ _ _ s).
  assert (Hq2 : queue s2 = queue s) by apply cleaned_queue.
  assert (Hl2 : log s2 = log s ++ [EvAttemptFailed (index it) a]).
  { unfold s2, cleaned. simpl. by destruct (fs s !! localPath (url it)). }
  assert (HE2 : Ev rest s2).
  { apply (Ev_step it rest s); try done.
    - rewrite Hl2. apply sub_snoc.
    - intros p. unfold s2. rewrite cleaned_fs.
      destruct (decide (p = localPath (url it))) as [->|Hne].
      + right. split_and!; [done|done|]. intros b'. by rewrite lookup_delete_eq.
      + left. by rewrite lookup_delete_ne.
    - intros i o. rewrite Hl2, elem_of_app, list_elem_of_singleton.
      intros [?|[=]]. by left. }
  assert (Hprior2 : prior (log s2) it (S a)).
  { intros a' Ha'. eapply failed_mono; [rewrite Hl2; apply sub_snoc|].
    destruct (decide (a' = a)) as [->|Hne]; [done|]. apply Hprior. lia. }
  case_decide as Hlt.
  - cbn [fst snd]. apply (Ev_hold _ _ _ (index it)); [|done|simpl; by rewrite Hq2|].
    + apply (Ev_step it rest s2); try done.
      * by rewrite Hq2.
      * simpl. apply sub_snoc.
      * intros p. by left.
      * intros i o. simpl. rewrite elem_of_app, list_elem_of_singleton.
        intros [?|[=]]. by left.
    + simpl. split_and!; [by split|lia|lia|].
      eapply prior_mono; [|exact Hprior2]. apply sub_snoc.
  - apply worker_loop_ev; [done|].
    apply Ev_resolved; [done|done|by rewrite Hq2|].
    simpl. split; [done|]. intros a' Ha'. apply Hprior2. lia.
Qed.

Lemma resume_ev pc rest s :
  Ev (pc :: rest) s → Ev ((resume pc s).1 :: rest) (resume pc s).2.
Proof.
  intros HE.
  assert (Hpc : pc_ev s pc) by (apply ev_pcs in HE; by apply Forall_cons in HE as [? _]).
  destruct pc as [it a res|it a r|it a threw|it a|]; [| | | |done].
  - (* the fetch settles *)
    destruct Hpc as (Hok & Ha & Hprior & n & Hn & Hres).
    destruct (Ev_release _ rest s (index it) HE eq_refl) as (HE0 & Hout & _).
    assert (Hthrow : payload res = None → Ev (AwaitDownload it a true :: rest) s).
    { intros Hp. apply (Ev_hold _ _ _ (index it)); [done..|].
      simpl. split_and!; [done|lia|lia|done|]. exists n. by rewrite Hres. }
    simpl. destruct res as [msg|r]; [by apply Hthrow|].
    destruct (negb (Net.ok r)) eqn:Hnok; [apply Hthrow; simpl; by rewrite Hnok|].
    destruct (Js.includes _ _) eqn:Hhtml; [apply Hthrow; simpl; by rewrite Hnok, Hhtml|].
    apply (Ev_hold _ _ _ (index it)); [done..|].
    simpl. split_and!; [done|lia|lia|done|]. exists n. split; [done|].
    rewrite Hres. simpl. by rewrite Hnok, Hhtml.
  - (* the body arrives *)
    destruct Hpc as (Hok & Ha & Hprior & n & Hn & Hres).
    destruct (Ev_release _ rest s (index it) HE eq_refl) as (HE0 & Hout & _).
    simpl. destruct (Net.body r) as [b|] eqn:Hb.
    + cbn [fst snd]. destruct Hok as [Hit Hv].
      apply (Ev_hold _ _ _ (index it)); [|done|done|].
      * apply (Ev_step it rest s); try done.
        -- intros p. destruct (decide (p = localPath (url it))) as [->|Hne].
           ++ right. split_and!; [done|done|]. intros b'. simpl.
              rewrite lookup_insert_eq. intros [= <-].
              exists (index it), a, n, (url it). done.
           ++ left. simpl. by rewrite lookup_insert_ne.
        -- intros i o Hin. by left.
      * simpl. split_and!; [by split|lia|lia|done|]. exists n. split; [done|].
        exists b. split; [done|]. left. by rewrite lookup_insert_eq.
    + apply (Ev_hold _ _ _ (index it)); [done..|].
      simpl. split_and!; [done|lia|lia|done|]. by exists n.
  - (* [downloadFile] has settled *)
    destruct Hpc as (Hok & Ha & Hprior & n & Hn & Hthrew).
    destruct threw; simpl.
    + apply (attempt_failed_ev (AwaitDownload it a true)); try done.
      exists n. split; [done|by left].
    + destruct Hthrew as (b & Hb & Hfile).
      case_decide as Hsz.
      * apply (attempt_failed_ev (AwaitDownload it a false)); try done.
        exists n. split; [done|]. right. exists b. split; [done|].
        destruct Hfile as [Hf|[Hsh _]]; [left|by right].
        unfold size_or_0 in Hsz. by rewrite Hf in Hsz.
      * destruct (Ev_release _ rest s (index it) HE eq_refl) as (HE0 & Hout & _).
        destruct Hok as [Hit Hv].
        apply worker_loop_ev; [done|]. apply Ev_resolved; [done..|].
        simpl. split_and!; [done|lia|lia|done|]. exists n, b. split_and!; [done|done|].
        unfold size_or_0 in Hsz.
        destruct (fs s !! localPath (url it)) as [b'|] eqn:Hf;
          [|unfold MIN_IMAGE_SIZE in Hsz; simpl in Hsz; lia].
        destruct Hfile as [[= ->]|[Hsh Hw]]; [left; lia|right].
        split; [done|]. exists b'. split; [lia|by apply Hw].
  - (* the wait is over *)
    destruct Hpc as (Hok & Ha & Hprior).
    destruct (Ev_release _ rest s (index it) HE eq_refl) as (HE0 & Hout & _).
    change (resume (AwaitSleep it a) s) with (start_attempt it (S a) s).
    apply Ev_start; [done|done|done|lia|done].
Qed.

Lemma spawn_ev rounds : ∀ w s acc,
  Ev acc s → Ev ((spawn rounds w s).1 ++ acc) (spawn rounds w s).2.
Proof.
  induction rounds as [|rounds IH]; intros w s acc HE; [done|].
  rewrite spawn_S. case_decide; [|done]. simpl.
  eapply Ev_perm;
    [|apply (IH (S w) _ ((worker_loop (queue s) s).1 :: acc)), worker_loop_ev; done].
  by rewrite <- Permutation_middle.
Qed.

Lemma run_ev sched : ∀ fuel n pcs s s',
  Ev pcs s → run fuel n sched pcs s = Some s' → ∃ pcs', Ev pcs' s'.
Proof.
  induction fuel as [|fuel IH]; intros n pcs s s' HE; simpl;
    destruct (pick (sched n) pcs) as [i|] eqn:Hp; try done;
    try (intros [= <-]; by exists pcs).
  apply pick_Some in Hp as (pc & Hi & Hne). rewrite Hi. simpl.
  assert (HP : pcs ≡ₚ pc :: delete i pcs) by (by apply delete_Permutation).
  assert (HE' := resume_ev pc (delete i pcs) s (Ev_perm _ _ _ HP HE)).
  destruct (resume pc s) as [pc' s1]. simpl in HE'.
  apply IH. eapply Ev_perm; [|exact HE'].
  symmetry. by eapply insert_Permutation.
Qed.

Lemma Ev_init : Ev [] (init urls fs0).
Proof.
  assert (Hidx : index <$> make_queue urls = seq 0 N).
  { apply list_eq. intros i. rewrite list_lookup_fmap, items_lookup.
    destruct (urls !! i) as [u|] eqn:Hu; simpl.
    - symmetry. apply lookup_seq. split; [done|]. by eapply lookup_lt_Some.
    - symmetry. apply lookup_seq_ge. by apply lookup_ge_None in Hu. }
  split; simpl.
  - rewrite app_nil_r, Hidx. apply NoDup_seq.
  - intros it [i Hi]%list_elem_of_lookup. rewrite items_lookup in Hi.
    destruct (urls !! i) as [u|] eqn:Hu; [|done]. by injection Hi as <-.
  - intros p b Hp. by left.
  - intros it _ _. by right.
  - constructor.
  - intros i u o _ Hin. by apply elem_of_nil in Hin.
Qed.

(** The evidence at the end of a call. *)
Lemma downloadCharts_ev sched sf :
  downloadCharts sha256_hex cacheDir net urls fs0 sched = Some sf →
  ∀ i u o, urls !! i = Some u → EvResolved i o ∈ log sf → evidence (log sf) i u o.
Proof.
  unfold downloadCharts, downloadCharts_run. intros Hrun.
  assert (HE := spawn_ev concurrency 0 _ [] Ev_init).
  destruct (spawn concurrency 0 (init urls fs0)) as [pcs s1].
  simpl in HE. rewrite app_nil_r in HE.
  destruct (run_ev sched _ _ _ _ _ HE Hrun) as [pcs' HE']. apply HE'.
Qed.

Lemma resolutions_elem i o l : o ∈ resolutions i l → EvResolved i o ∈ l.
Proof.
  unfold resolutions. intros (e & He & Ho)%list_elem_of_omap.
  destruct e as [j o'| | | | |]; try done. case_decide; [|done]. by simplify_eq.
Qed.

End Evidence.

(** How the entry at position [i] came about, for the URL [u] of that
    position, as the state [s] at the end of the call shows it: the four
    places where the worker writes [results[item.index]]. *)
Definition Resolution (fs0 : gmap string (list Byte.byte)) (s : State) (i : nat) (u : string)
  : Prop :=
  (* line 58: the URL is empty or not http-prefixed *)
  (invalid_url u = true ∧
   results s !! i = Some (Some "") ∧ attempts i (log s) = []) ∨
  (* line 72: a file of at least 1024 bytes was at the cache path *)
  (invalid_url u = false ∧
   results s !! i = Some (Some (localPath u)) ∧ attempts i (log s) = [] ∧
   ∃ b, MIN_IMAGE_SIZE ≤ length b ∧
        (fs0 !! localPath u = Some b ∨ shared i ∧ written (log s) (localPath u) b)) ∨
  (* line 96: attempt [a] succeeded *)
  (invalid_url u = false ∧
   ∃ a, 1 ≤ a ≤ 3 ∧
        results s !! i = Some (Some (localPath u)) ∧ attempts i (log s) = seq 1 a ∧
        (∀ a', 1 ≤ a' < a → failed (log s) i u a') ∧
        ∃ k b, EvFetch i a k ∈ log s ∧ payload (net k u) = Some b ∧
               (MIN_IMAGE_SIZE ≤ length b ∨
                shared i ∧
                ∃ b', MIN_IMAGE_SIZE ≤ length b' ∧ written (log s) (localPath u) b')) ∨
  (* line 115: the three attempts failed *)
  (invalid_url u = false ∧
   results s !! i = Some (Some "") ∧ attempts i (log s) = [1; 2; 3] ∧
   ∀ a, 1 ≤ a ≤ 3 → failed (log s) i u a).



End Facts.

(** ** Concrete runs *)

(** A stand-in for the hash: the URL itself. *)
Definition demo_sha (u : string) : string := u.

Definition image_response (n : nat) : Net.Response :=
  Net.mkResponse true 200 "OK" (Some "image/png") (Some (replicate n Byte.x00)).

Definition html_response : Net.Response :=
  Net.mkResponse true 200 "OK" (Some "text/html; charset=utf-8")
                 (Some (replicate 2000 Byte.x3c)).

Definition demo_item : Item := mkItem "http://h/a.png" 0.

Definition demo_path : string := "/cache/http://h/a.png.png".

(** A one-item call whose cache path already holds [n] bytes. *)
Definition demo_state (n : nat) : State :=
  mkState [] (Js.new_Array 1) {[ demo_path := replicate n Byte.x00 ]} 0 1 0 [].

Definition always_html (k : nat) (u : string) : Net.FetchResult :=
  Net.Resolved html_response.

Lemma cache_size_boundary_witness :
  invalid_url (url demo_item) = false ∧
  fs (demo_state 1024) !! localPath demo_sha "/cache" (url demo_item)
    = Some (replicate 1024 Byte.x00) ∧
  fs (demo_state 1023) !! localPath demo_sha "/cache" (url demo_item)
    = Some (replicate 1023 Byte.x00) ∧
  (∃ s1, worker_loop demo_sha "/cache" always_html [demo_item] (demo_state 1024)
         = worker_loop demo_sha "/cache" always_html [] s1 ∧
         nfetch s1 = 0 ∧ fs s1 = fs (demo_state 1024)) ∧
  (∃ s1, worker_loop demo_sha "/cache" always_html [demo_item] (demo_state 1023)
         = (AwaitFetch demo_item 1 (Net.Resolved html_response), s1) ∧
         fs s1 = delete demo_path (fs (demo_state 1023)) ∧ nfetch s1 = 1).
Proof.
  assert (H0 : invalid_url (url demo_item) = false) by reflexivity.
  assert (H1 : fs (demo_state 1024) !! localPath demo_sha "/cache" (url demo_item)
               = Some (replicate 1024 Byte.x00)) by (vm_compute; reflexivity).
  assert (H2 : fs (demo_state 1023) !! localPath demo_sha "/cache" (url demo_item)
               = Some (replicate 1023 Byte.x00)) by (vm_compute; reflexivity).
  split_and!; [exact H0|exact H1|exact H2| |].
  - destruct (cache_size_boundary demo_sha "/cache" always_html demo_item []
                (demo_state 1024) _ H0 H1) as (Hbig & _ & _).
    destruct Hbig as (s1 & Heq & _ & _ & Hn & Hf & _).
    { rewrite length_replicate. unfold MIN_IMAGE_SIZE. lia. }
    exists s1. split_and!; [exact Heq|exact Hn|exact Hf].
  - destruct (cache_size_boundary demo_sha "/cache" always_html demo_item []
                (demo_state 1023) _ H0 H2) as (_ & Hsmall & _).
    destruct Hsmall as (s1 & Heq & Hf & Hn & _).
    { rewrite length_replicate. unfold MIN_IMAGE_SIZE. lia. }
    exists s1. split_and!; [exact Heq|exact Hf|exact Hn].
Defined.

Lemma html_response_never_cached_witness :
  Net.ok html_response = true ∧
  Js.includes (default "" (Net.contentType html_response)) "text/html" = true ∧
  resume demo_sha "/cache" always_html
    (AwaitFetch demo_item 1 (Net.Resolved html_response)) (demo_state 0)
  = (AwaitDownload demo_item 1 true, demo_state 0) ∧
  (∀ b, fs (attempt_failed demo_sha "/cache" always_html demo_item 1 (demo_state 0)).2
          !! localPath demo_sha "/cache" (url demo_item) ≠ Some b).
Proof.
  assert (H0 : Net.ok html_response = true) by reflexivity.
  assert (H1 : Js.includes (default "" (Net.contentType html_response)) "text/html" = true)
    by reflexivity.
  destruct (html_response_never_cached demo_sha "/cache" always_html [] demo_item 1
              html_response (demo_state 0) ∅ (λ _, 0) H0 H1) as (Ha & _ & Hb & _).
  split_and!; [exact H0|exact H1|exact Ha|exact Hb].
Defined.

(** *** A failed attempt removes the file a sibling item has downloaded *)

Definition dup_urls : list string :=
  ["http://h/a.png"; "http://h/a.png"; "http://h/b.png"; "http://h/a.png"].

(** The second fetch of the run delivers an image, every other fetch an
    HTML page with status 200. *)
Definition net_first_fails (k : nat) (u : string) : Net.FetchResult :=
  match k with
  | 1 => Net.Resolved (image_response 2000)
  | _ => Net.Resolved html_response
  end.

(** The same transport, except that the first fetch delivers an image too. *)
Definition net_first_ok (k : nat) (u : string) : Net.FetchResult :=
  match k with
  | 0 | 1 => Net.Resolved (image_response 2000)
  | _ => Net.Resolved html_response
  end.

(** Worker 1 is resumed three times, then worker 0 twice, then worker 1
    until it ends. *)
Definition dup_sched (n : nat) : nat :=
  if n <? 3 then 1 else if n <? 5 then 0 else 1.

(** C6 (the part the code breaks).  Four URLs, the first, second and
    fourth equal.  Under one and the same schedule, and with transports
    that differ only in the response to the first fetch of the run (the
    first attempt of item 0): when that attempt succeeds, item 3 is
    resolved to the cache path; when it fails, item 3 is resolved to the
    empty string, and the file that the entry of item 1 names is gone,
    because the [catch] block of item 0 removed the file item 1 had
    downloaded. *)
Theorem sibling_failure_changes_outcome :
  (∀ k u, k ≠ 0 → net_first_fails k u = net_first_ok k u) ∧
  (take 1 ∘ log <$> downloadCharts demo_sha "/cache" net_first_fails dup_urls ∅ dup_sched)
    = Some [EvFetch 0 1 0] ∧
  (results <$> downloadCharts demo_sha "/cache" net_first_ok dup_urls ∅ dup_sched)
    = Some [Some demo_path; Some demo_path; Some ""; Some demo_path] ∧
  (results <$> downloadCharts demo_sha "/cache" net_first_fails dup_urls ∅ dup_sched)
    = Some [Some ""; Some demo_path; Some ""; Some ""] ∧
  (fs <$> downloadCharts demo_sha "/cache" net_first_fails dup_urls ∅ dup_sched)
    = Some ∅.
Proof.
  split_and!.
  - intros [|[|k]] u Hk; done.
  - vm_compute. reflexivity.
  - vm_compute. reflexivity.
  - vm_compute. reflexivity.
  - vm_compute. reflexivity.
Qed.

End DownloaderFacts.

(** * Properties of the session automation controller *)

Module PrometeoFacts.
Import Prometeo.

Local Open Scope prog_scope.

(** ** What a run shows *)

(** The reads of the length of [arrLinkImmagini], with their times. *)
Definition step_read (en : Entry) : option (Z * option Z) :=
  match en with
  | Did _ t e x =>
      match e in Eff X return X → option (Z * option Z) with
      | Exec s =>
          match s in Script A return option A → option (Z * option Z) with
          | StepCount => λ r, Some (t, r)
          | _ => λ _, None
          end
      | _ => λ _, None
      end x
  | Granted _ _ => None
  end.

Definition step_reads (tr : list Entry) : list (Z * option Z) := omap step_read tr.

(** The reads that gave a positive length; the loop ignores the others. *)
Definition positive (r : Z * option Z) : option (Z * Z) :=
  match r.2 with
  | Some c => if (c >? 0)%Z then Some (r.1, c) else None
  | None => None
  end.

Definition positive_reads (tr : list Entry) : list (Z * Z) :=
  omap positive (step_reads tr).

(** Successful evaluations of the script that sets the product type. *)
Definition is_reload (en : Entry) : bool :=
  match en with
  | Did _ _ e x =>
      match e in Eff X return X → bool with
      | Exec s =>
          match s in Script A return option A → bool with
          | SetProductType _ => λ r, bool_decide (is_Some r)
          | _ => λ _, false
          end
      | _ => λ _, false
      end x
  | Granted _ _ => false
  end.

Definition reloads (tr : list Entry) : nat := length (filter is_reload tr).

(** Evaluations of that script, whether they succeeded or were rejected. *)
Definition is_set (en : Entry) : bool :=
  match en with
  | Did _ _ e x =>
      match e with
      | Exec s => match s with SetProductType _ => true | _ => false end
      | _ => false
      end
  | Granted _ _ => false
  end.

Definition set_evals (tr : list Entry) : nat := length (filter is_set tr).

(** Times at least 500 ms apart, in order. *)
Inductive Spaced : list Z → Prop :=
| Spaced_nil : Spaced []
| Spaced_one t : Spaced [t]
| Spaced_snoc l a b : Spaced (l ++ [a]) → (a + 500 ≤ b)%Z → Spaced (l ++ [a; b]).

(** The reads of the clock. *)
Definition clock_read (en : Entry) : option Z :=
  match en with
  | Did _ t e _ => match e with Now => Some t | _ => None end
  | Granted _ _ => None
  end.

Definition is_step_read (en : Entry) : bool := bool_decide (is_Some (step_read en)).

(** The clock reads that a read of the length follows at once.  In a
    stability wait these are the reads of the [while] test (lines 281 and,
    once the loop is left, 331): the other clock read of the loop, line
    289, is followed by a log line or by the wait of 500 ms. *)
Fixpoint loop_heads (tr : list Entry) : list Z :=
  match tr with
  | [] => []
  | en :: tr' =>
      match clock_read en, tr' with
      | Some t, en' :: _ => if is_step_read en' then t :: loop_heads tr' else loop_heads tr'
      | _, _ => loop_heads tr'
      end
  end.

Section Facts.

Context (Page : Type)
        (page_exec : ∀ A, Script A → Z → Page → option A * nat * Page)
        (page_url : Page → string)
        (page_load : Page → nat)
        (net : nat → string → Net.FetchResult).

Local Abbreviation World := (Prometeo.World Page).
Local Abbreviation handle := (Prometeo.handle page_exec page_url page_load net).
Local Abbreviation interp := (Prometeo.interp page_exec page_url page_load net).

(** ** Running composed programs *)

Lemma interp_bind {A B} me (p : Prog A) (f : A → Prog B) w :
  interp me (bind p f) w =
  match interp me p w with
  | (Ok a, w') => interp me (f a) w'
  | (Threw e, w') => (Threw e, w')
  | (Diverged, w') => (Diverged, w')
  | (Blocked, w') => (Blocked, w')
  end.
Proof.
  revert w. induction p as [a|e| |X e k IH]; intros w; simpl; try done.
  destruct (handle me e w) as [[[x|x] woken] w']; [apply IH|done].
Qed.

Lemma interp_try_catch {A} me (p : Prog A) h w :
  interp me (try_catch p h) w =
  match interp me p w with
  | (Threw e, w') => interp me (h e) w'
  | r => r
  end.
Proof.
  revert w. induction p as [a|e| |X e k IH]; intros w; simpl; try done.
  destruct (handle me e w) as [[[x|x] woken] w']; [apply IH|done].
Qed.

Lemma interp_try_finally {A} me (p : Prog A) (f : Prog unit) w :
  interp me (try_finally p f) w =
  match interp me p w with
  | (Ok a, w') => interp me (f ;; Ret a) w'
  | (Threw e, w') => interp me (f ;; Throw e) w'
  | r => r
  end.
Proof.
  revert w. induction p as [a|e| |X e k IH]; intros w; simpl; try done.
  destruct (handle me e w) as [[[x|x] woken] w']; [apply IH|done].
Qed.

(** ** The effect of each primitive *)



Definition exec_result {A} (s : Script A) (w : World) : option A :=
  (page_exec A s (now w) (page w)).1.1.

Definition exec_latency {A} (s : Script A) (w : World) : Z :=
  Z.of_nat (page_exec A s (now w) (page w)).1.2.

Definition exec_world {A} (me : nat) (s : Script A) (w : World) : World :=
  (handle me (Exec s) w).2.

Lemma interp_exec {A} me (s : Script A) w :
  interp me (exec s) w =
  (match exec_result s w with
   | Some a => Ok a
   | None => Threw "script evaluation failed"
   end, exec_world me s w).
Proof.
  unfold exec, exec_result, exec_world. simpl.
  destruct (page_exec A s (now w) (page w)) as [[[a|] lat] p']; reflexivity.
Qed.

Lemma exec_world_now {A} me (s : Script A) w :
  now (exec_world me s w) = (now w + exec_latency s w)%Z.
Proof.
  unfold exec_world, exec_latency. simpl.
  by destruct (page_exec A s (now w) (page w)) as [[r lat] p'].
Qed.

Lemma exec_world_trace {A} me (s : Script A) w :
  trace (exec_world me s w)
  = trace w ++ [Did me (now w + exec_latency s w)%Z (Exec s) (exec_result s w)].
Proof.
  unfold exec_world, exec_latency, exec_result. simpl.
  by destruct (page_exec A s (now w) (page w)) as [[r lat] p'].
Qed.

Lemma exec_world_fetchCount {A} me (s : Script A) w :
  fetchCount (exec_world me s w) = fetchCount w.
Proof.
  unfold exec_world. simpl.
  by destruct (page_exec A s (now w) (page w)) as [[r lat] p'].
Qed.

Lemma exec_world_mutex {A} me (s : Script A) w :
  mutex (exec_world me s w) = mutex w.
Proof.
  unfold exec_world. simpl.
  by destruct (page_exec A s (now w) (page w)) as [[r lat] p'].
Qed.

Lemma exec_latency_nonneg {A} (s : Script A) w : (0 ≤ exec_latency s w)%Z.
Proof. unfold exec_latency. lia. Qed.

Lemma interp_Ret {A} me (a : A) w : interp me (Ret a) w = (Ok a, w).
Proof. reflexivity. Qed.

Lemma interp_Throw {A} me e w : interp me (@Throw A e) w = (Threw e, w).
Proof. reflexivity. Qed.

Lemma interp_now me w :
  interp me (perform Now) w = (Ok (now w), did me Now (now w) w).
Proof. reflexivity. Qed.

Lemma interp_delay me ms w :
  interp me (delay ms) w = (Ok tt, did me (Delay ms) tt (advance ms w)).
Proof. reflexivity. Qed.

Lemma interp_console me m w :
  interp me (console m) w = (Ok tt, did me (Console m) tt w).
Proof. reflexivity. Qed.

Lemma interp_NextFetchCount me w :
  interp me (perform NextFetchCount) w =
  (Ok (S (fetchCount w)),
   did me NextFetchCount (S (fetchCount w))
       (mkWorld (now w) (page w) (loggedIn w) (S (fetchCount w)) (mutex w) (nfetch w)
                (trace w))).
Proof. reflexivity. Qed.

(** ** Calls that run to their end *)

(** From a logged-in world, [p] returns normally with a value that
    satisfies [Q], after [n] stability waits, and leaves the mutex fields
    alone. *)
Definition Runs {A} (p : Prog A) (Q : A → Prop) (n : nat) : Prop :=
  ∀ me w, loggedIn w = true →
    ∃ a w', interp me p w = (Ok a, w') ∧ Q a ∧
            mutex w' = mutex w ∧ fetchCount w' = fetchCount w + n ∧ loggedIn w' = true.

Lemma Runs_bind {A B} (p : Prog A) (f : A → Prog B) Q R n m :
  Runs p Q n → (∀ a, Q a → Runs (f a) R m) → Runs (bind p f) R (n + m).
Proof.
  intros Hp Hf me w Hw. destruct (Hp me w Hw) as (a & w1 & Hrun & Ha & Hm & Hc & Hl).
  destruct (Hf a Ha me w1 Hl) as (b & w2 & Hrun2 & Hb & Hm2 & Hc2 & Hl2).
  exists b, w2. rewrite interp_bind, Hrun. split_and!; try done; try congruence; try lia.
Qed.

Lemma Runs_weaken {A} (p : Prog A) (Q R : A → Prop) n :
  (∀ a, Q a → R a) → Runs p Q n → Runs p R n.
Proof.
  intros HQR Hp me w Hw. destruct (Hp me w Hw) as (a & w1 & ? & ? & ? & ? & ?).
  exists a, w1. split_and!; auto.
Qed.

Lemma Runs_Ret {A} (a : A) (Q : A → Prop) : Q a → Runs (Ret a) Q 0.
Proof.
  intros Ha me w Hw. exists a, w. rewrite interp_Ret. split_and!; try done; try lia.
Qed.

Lemma Runs_perform {X} (e : Eff X) :
  match e with Acquire | Release | NextFetchCount | GetStatus => False | _ => True end →
  Runs (perform e) (λ _, True) 0.
Proof.
  intros He me w Hw. unfold perform.
  destruct e; try done; simpl;
    try (eexists _, _; split_and!; [reflexivity|done|done|simpl; lia|done]).
  destruct (page_exec A s (now w) (page w)) as [[r lat] p'].
  eexists _, _; split_and!; [reflexivity|done|done|simpl; lia|done].
Qed.

Lemma Runs_delay ms : Runs (delay ms) (λ _, True) 0.
Proof. by apply (Runs_perform (Delay ms)). Qed.

Lemma Runs_console m : Runs (console m) (λ _, True) 0.
Proof. by apply (Runs_perform (Console m)). Qed.

(** The world after [acquireLock] found the mutex free, and after
    [releaseLock] found no waiter. *)
Definition acquired (me : nat) (w : World) : World :=
  record (Granted me (now w))
    (did me Acquire tt
       (mkWorld (now w) (page w) (loggedIn w) (fetchCount w)
                (mkMutex true (mutexQueue (mutex w))) (nfetch w) (trace w))).

Definition released (me : nat) (w : World) : World :=
  did me Release tt
    (mkWorld (now w) (page w) (loggedIn w) (fetchCount w) (mkMutex false []) (nfetch w)
             (trace w)).

Lemma interp_acquire_free me w :
  mutexLocked (mutex w) = false → interp me (perform Acquire) w = (Ok tt, acquired me w).
Proof. intros Hfree. unfold perform, acquired. simpl. unfold acquireLock. by rewrite Hfree. Qed.

Lemma interp_release_last me w :
  mutexQueue (mutex w) = [] → interp me releaseLock w = (Ok tt, released me w).
Proof.
  intros Hq. unfold releaseLock, perform, released. simpl.
  unfold releaseLock_fields. by rewrite Hq.
Qed.

Local Arguments Prometeo.interp : simpl never.
Local Arguments Prometeo.bind : simpl never.
Local Arguments Prometeo.try_catch : simpl never.
Local Arguments Prometeo.try_finally : simpl never.
Local Arguments Prometeo.stable_loop : simpl never.
Local Arguments Prometeo.waitForCondition_loop : simpl never.
Local Arguments Prometeo.label_loop : simpl never.
Local Arguments Prometeo.interpolate : simpl never.
Local Arguments Nat.leb : simpl never.
Local Arguments Z.leb : simpl never.
Local Arguments Z.ltb : simpl never.
Local Arguments Z.gtb : simpl never.
Local Arguments Z.geb : simpl never.
Local Arguments Z.eqb : simpl never.

(** ** The stability wait (lines 266-340) *)

Lemma step_reads_snoc_read tr me t (r : option Z) :
  step_reads (tr ++ [Did me t (Exec StepCount) r]) = step_reads tr ++ [(t, r)].
Proof. unfold step_reads. by rewrite omap_app. Qed.

Lemma step_reads_snoc_other tr en :
  step_read en = None → step_reads (tr ++ [en]) = step_reads tr.
Proof. intros H. unfold step_reads. rewrite omap_app. simpl. by rewrite H, app_nil_r. Qed.

Lemma positive_reads_snoc_other tr en :
  step_read en = None → positive_reads (tr ++ [en]) = positive_reads tr.
Proof. intros H. unfold positive_reads. by rewrite step_reads_snoc_other. Qed.

Lemma positive_reads_snoc_read tr me t (r : option Z) :
  positive_reads (tr ++ [Did me t (Exec StepCount) r])
  = positive_reads tr ++ match positive (t, r) with Some x => [x] | None => [] end.
Proof.
  unfold positive_reads. rewrite step_reads_snoc_read, omap_app. simpl.
  by destruct (positive (t, r)).
Qed.

Lemma Spaced_snoc_last l t' :
  Spaced l → (∀ t, last l = Some t → (t + 500 ≤ t')%Z) → Spaced (l ++ [t']).
Proof.
  intros Hs Hl. destruct l as [|x l0] using rev_ind; [apply Spaced_one|].
  rewrite <- app_assoc. simpl. apply Spaced_snoc; [done|].
  apply Hl. by rewrite last_snoc.
Qed.

Lemma replicate_snoc {A} n (x : A) : replicate n x ++ [x] = replicate (S n) x.
Proof. induction n as [|n IH]; simpl; [done|]. by rewrite IH. Qed.

Lemma replicate_ends {A} n m (x : A) :
  m ≤ n → ∃ pre, replicate n x = pre ++ replicate m x.
Proof.
  intros H. exists (replicate (n - m) x). rewrite <- replicate_add. f_equal. lia.
Qed.

Section Wait.

Variables (me : nat) (start maxWait minTotalWait : Z).

(** The state of the loop between two rounds, against the reads made so
    far: [stableChecks + 1] is the number of latest positive reads that
    all gave [lastCount]. *)
Definition Between (gap : Z) (tr : list Entry) (lastCount : Z) (stableChecks : nat)
    (t_now : Z) : Prop :=
  Spaced (step_reads tr).*1 ∧
  (∀ t, last (step_reads tr).*1 = Some t → (t + gap ≤ t_now)%Z) ∧
  ((lastCount ≤ 0)%Z ∧ stableChecks = 0 ∨
   (0 < lastCount)%Z ∧
   ∃ pre, (positive_reads tr).*2 = pre ++ replicate (S stableChecks) lastCount).

(** The wait returned [n] from inside the loop (line 306): its last four
    steps are the report that [n] looks stable after [elapsed] ms, with
    [elapsed] at least [minTotalWait], the wait of 1500 ms, the re-read,
    which gave [n] again, and the report that [n] is confirmed; and the
    last eight positive reads (the re-read and the seven before it, polls
    of the loop or an earlier re-read) all gave [n]. *)
Definition Accepted (tr : list Entry) (n : Z) : Prop :=
  ∃ pre t elapsed tc,
    tr = pre ++ [Did me t (Console (MAppearsStable n elapsed)) tt;
                 Did me (t + 1500)%Z (Delay 1500) tt;
                 Did me tc (Exec StepCount) (Some n);
                 Did me tc (Console (MConfirmedStable n)) tt] ∧
    elapsed = (t - start)%Z ∧ (minTotalWait ≤ elapsed)%Z ∧ (t + 1500 ≤ tc)%Z ∧
    (0 < n)%Z ∧
    Spaced (step_reads tr).*1 ∧
    ∃ vs, (positive_reads tr).*2 = vs ++ replicate 8 n.

(** The wait returned [n] after the ceiling (lines 331-339): the clock
    read that ended the loop was at least [maxWait] after the start, and
    [n] is what one more read gave (0 when that read gave nothing
    positive), whatever the earlier reads were. *)
Definition TimedOut (tr : list Entry) (n : Z) : Prop :=
  ∃ pre t c tc,
    tr = pre ++ [Did me t Now t; Did me tc (Exec StepCount) (Some c)]
             ++ (if (c >? 0)%Z then [Did me tc (Console (MTimeoutData c)) tt] else []) ∧
    (maxWait ≤ t - start)%Z ∧
    n = (if (c >? 0)%Z then c else 0%Z).

Lemma Between_other gap tr lc sc t en :
  step_read en = None → Between gap tr lc sc t → Between gap (tr ++ [en]) lc sc t.
Proof.
  intros Hen (Hs & Hl & Hv). unfold Between.
  by rewrite step_reads_snoc_other, positive_reads_snoc_other.
Qed.

Lemma Between_later gap gap' tr lc sc t t' :
  (t + gap' ≤ t' + gap)%Z → Between gap tr lc sc t → Between gap' tr lc sc t'.
Proof.
  intros Ht (Hs & Hl & Hv). unfold Between. split_and!; [done| |done].
  intros t0 H0. apply Hl in H0. lia.
Qed.

(** One round of the loop. *)
Lemma stable_round_spec w lc sc base tr :
  trace w = base ++ tr → Between 500 tr lc sc (now w) →
  ∃ res w' tr',
    interp me (stable_round start minTotalWait lc sc) w = (Ok res, w') ∧
    trace w' = base ++ tr' ∧ (now w ≤ now w')%Z ∧
    fetchCount w' = fetchCount w ∧ mutex w' = mutex w ∧
    match res with
    | inr (lc', sc') => Between 0 tr' lc' sc' (now w')
    | inl c => Accepted tr' c
    end.
Proof.
  intros Htr (Hs & Hl & Hv).
  unfold stable_round. rewrite interp_try_catch, interp_bind, interp_exec.
  set (w1 := exec_world me StepCount w).
  assert (Hlat := exec_latency_nonneg StepCount w).
  assert (Hn1 : now w1 = (now w + exec_latency StepCount w)%Z) by apply exec_world_now.
  assert (Ht1 : trace w1 = base ++ tr ++
            [Did me (now w1) (Exec StepCount) (exec_result StepCount w)]).
  { unfold w1. rewrite exec_world_trace, Htr, <- app_assoc.
    by rewrite <- exec_world_now with (me := me). }
  assert (Hf1 : fetchCount w1 = fetchCount w) by apply exec_world_fetchCount.
  assert (Hm1 : mutex w1 = mutex w) by apply exec_world_mutex.
  assert (Hs1 : Spaced (step_reads (tr ++
            [Did me (now w1) (Exec StepCount) (exec_result StepCount w)])).*1).
  { rewrite step_reads_snoc_read, fmap_app. simpl.
    apply Spaced_snoc_last; [done|]. intros t Ht. apply Hl in Ht. lia. }
  assert (Hl1 : ∀ t, last (step_reads (tr ++
            [Did me (now w1) (Exec StepCount) (exec_result StepCount w)])).*1 = Some t →
            (t + 0 ≤ now w1)%Z).
  { intros t. rewrite step_reads_snoc_read, fmap_app. simpl. rewrite last_snoc.
    intros [= <-]. lia. }
  destruct (exec_result StepCount w) as [c|] eqn:Hr; simpl.
  2: { (* the evaluation failed: the [catch] block, nothing changes *)
    rewrite ?interp_Ret.
    eexists (inr (lc, sc)), w1, _. split_and!; [done|exact Ht1|lia|done|done|].
    unfold Between. split_and!; [done|done|].
    rewrite positive_reads_snoc_read. simpl. by rewrite app_nil_r. }
  destruct (c >? 0)%Z eqn:Hpos; simpl.
  2: { (* nothing yet *)
    rewrite ?interp_Ret.
    eexists (inr (lc, sc)), w1, _. split_and!; [done|exact Ht1|lia|done|done|].
    unfold Between. split_and!; [done|done|].
    rewrite positive_reads_snoc_read. unfold positive. simpl. rewrite Hpos.
    by rewrite app_nil_r. }
  assert (Hc : (0 < c)%Z) by lia.
  assert (Hp1 : (positive_reads (tr ++ [Did me (now w1) (Exec StepCount) (Some c)])).*2
                = (positive_reads tr).*2 ++ [c]).
  { rewrite positive_reads_snoc_read. unfold positive. simpl. rewrite Hpos.
    by rewrite fmap_app. }
  destruct (c =? lc)%Z eqn:Heq; simpl.
  2: { (* the length changed *)
    rewrite ?interp_Ret.
    eexists (inr (c, 0)), w1, _. split_and!; [done|exact Ht1|lia|done|done|].
    unfold Between. split_and!; [done|done|].
    right. split; [done|]. exists (positive_reads tr).*2. by rewrite Hp1. }
  apply Z.eqb_eq in Heq. subst lc.
  destruct Hv as [[? _]|[_ [pre Hpre]]]; [lia|].
  assert (Hp2 : (positive_reads (tr ++ [Did me (now w1) (Exec StepCount) (Some c)])).*2
                = pre ++ replicate (S (S sc)) c).
  { rewrite Hp1, Hpre, <- app_assoc. by rewrite replicate_snoc. }
  set (en1 := Did me (now w1) (Exec StepCount) (Some c)) in *.
  rewrite interp_bind, interp_now. simpl.
  set (w2 := did me Now (now w1) w1).
  set (en2 := Did me (now w1) Now (now w1)).
  assert (Ht2 : trace w2 = base ++ tr ++ [en1; en2]).
  { unfold w2. simpl. rewrite Ht1. by rewrite <- !app_assoc. }
  destruct ((requiredStableChecks <=? S sc) && (minTotalWait <=? now w1 - start)%Z)
    eqn:Hgo; simpl.
  2: { (* one more stable check, not enough yet *)
    rewrite ?interp_Ret.
    exists (inr (c, S sc)), w2, (tr ++ [en1; en2]).
    split_and!; [done|done|simpl; lia|done|done|].
    change (tr ++ [en1; en2]) with (tr ++ [en1] ++ [en2]).
    rewrite app_assoc. apply Between_other; [done|].
    unfold Between. split_and!; [done|done|]. right. split; [done|]. eauto. }
  apply andb_true_iff in Hgo as [Hsc Hel].
  apply Nat.leb_le in Hsc. apply Z.leb_le in Hel.
  (* stable for long enough: lines 293-318 *)
  rewrite interp_try_catch, interp_bind, interp_console. simpl.
  rewrite interp_bind, interp_delay. simpl.
  set (w4 := did me (Delay 1500) tt (advance 1500 _)).
  rewrite interp_bind, interp_exec.
  set (w5 := exec_world me StepCount w4).
  assert (Hlat5 := exec_latency_nonneg StepCount w4).
  assert (Hn5 : now w5 = (now w1 + 1500 + exec_latency StepCount w4)%Z)
    by (unfold w5; rewrite exec_world_now; done).
  set (en3 := Did me (now w1) (Console (MAppearsStable c (now w1 - start))) tt).
  set (en4 := Did me (now w1 + 1500)%Z (Delay 1500) tt).
  set (tr4 := tr ++ [en1; en2; en3; en4]).
  assert (Ht5 : trace w5 = base ++ tr4 ++
                   [Did me (now w5) (Exec StepCount) (exec_result StepCount w4)]).
  { unfold w5. rewrite exec_world_trace. rewrite <- exec_world_now with (me := me).
    simpl. rewrite Ht1. unfold tr4. by rewrite <- !app_assoc. }
  assert (Hf5 : fetchCount w5 = fetchCount w)
    by (unfold w5; rewrite exec_world_fetchCount; done).
  assert (Hm5 : mutex w5 = mutex w) by (unfold w5; rewrite exec_world_mutex; done).
  assert (Hb4 : Between 1500 tr4 c (S sc) (now w1 + 1500)%Z).
  { unfold tr4.
    change (tr ++ [en1; en2; en3; en4]) with (tr ++ [en1] ++ [en2] ++ [en3] ++ [en4]).
    rewrite !app_assoc. do 3 (apply Between_other; [done|]).
    unfold Between. split_and!; [done| |right; split; [done|]; eauto].
    intros t Ht. apply Hl1 in Ht. lia. }
  destruct Hb4 as (Hs4 & Hl4 & Hv4).
  assert (Hs5 : Spaced (step_reads (tr4 ++
            [Did me (now w5) (Exec StepCount) (exec_result StepCount w4)])).*1).
  { rewrite step_reads_snoc_read, fmap_app. simpl.
    apply Spaced_snoc_last; [done|]. intros t Ht. apply Hl4 in Ht. lia. }
  assert (Hl5 : ∀ t, last (step_reads (tr4 ++
            [Did me (now w5) (Exec StepCount) (exec_result StepCount w4)])).*1 = Some t →
            (t + 0 ≤ now w5)%Z).
  { intros t. rewrite step_reads_snoc_read, fmap_app. simpl. rewrite last_snoc.
    intros [= <-]. lia. }
  destruct Hv4 as [[? _]|[_ [pre4 Hpre4]]]; [lia|].
  destruct (exec_result StepCount w4) as [c'|] eqn:Hr'; simpl.
  2: { (* the re-read failed: the [catch] block, after [stableChecks++] *)
    rewrite ?interp_Ret.
    eexists (inr (c, S sc)), w5, _. split_and!; [done|exact Ht5|lia|done|done|].
    unfold Between. split_and!; [done|done|]. right. split; [done|].
    rewrite positive_reads_snoc_read. simpl. rewrite app_nil_r. eauto. }
  destruct (c' =? c)%Z eqn:Heq'; simpl.
  - (* confirmed *)
    apply Z.eqb_eq in Heq'. subst c'.
    rewrite ?interp_bind, ?interp_console. simpl. rewrite ?interp_Ret.
    exists (inl c), (did me (Console (MConfirmedStable c)) tt w5),
      (tr4 ++ [Did me (now w5) (Exec StepCount) (Some c);
               Did me (now w5) (Console (MConfirmedStable c)) tt]).
    split_and!; [done| |simpl; lia|done|done|].
    + simpl. rewrite Ht5. by rewrite <- !app_assoc.
    + exists (tr ++ [en1; en2]), (now w1), (now w1 - start)%Z, (now w5).
      split_and!; try done; try lia.
      * unfold tr4. by rewrite <- !app_assoc.
      * change (tr4 ++ [Did me (now w5) (Exec StepCount) (Some c);
                        Did me (now w5) (Console (MConfirmedStable c)) tt])
          with (tr4 ++ [Did me (now w5) (Exec StepCount) (Some c)]
                    ++ [Did me (now w5) (Console (MConfirmedStable c)) tt]).
        rewrite app_assoc, step_reads_snoc_other by done. exact Hs5.
      * change (tr4 ++ [Did me (now w5) (Exec StepCount) (Some c);
                        Did me (now w5) (Console (MConfirmedStable c)) tt])
          with (tr4 ++ [Did me (now w5) (Exec StepCount) (Some c)]
                    ++ [Did me (now w5) (Console (MConfirmedStable c)) tt]).
        rewrite app_assoc, positive_reads_snoc_other by done.
        rewrite positive_reads_snoc_read. unfold positive. simpl. rewrite Hpos.
        rewrite fmap_app, Hpre4. change ([(now w5, c)].*2) with [c].
        rewrite <- app_assoc, replicate_snoc.
        destruct (replicate_ends (S (S (S sc))) 8 c) as [pre8 Hpre8].
        { unfold requiredStableChecks in Hsc. lia. }
        exists (pre4 ++ pre8). by rewrite Hpre8, app_assoc.
  - (* still growing: reset *)
    rewrite ?interp_bind, ?interp_console. simpl. rewrite ?interp_Ret.
    exists (inr (c', 0)), (did me (Console (MGrew c c')) tt w5),
      ((tr4 ++ [Did me (now w5) (Exec StepCount) (Some c')])
         ++ [Did me (now w5) (Console (MGrew c c')) tt]).
    split_and!; [done| |simpl; lia|done|done|].
    + simpl. rewrite Ht5. by rewrite <- !app_assoc.
    + apply Between_other; [done|]. unfold Between. split_and!; [done|exact Hl5|].
      destruct (decide (0 < c')%Z) as [Hc'|Hc']; [right|left; split; [lia|done]].
      split; [done|]. rewrite positive_reads_snoc_read. unfold positive. simpl.
      assert ((c' >? 0)%Z = true) as -> by lia.
      rewrite fmap_app. simpl. eauto.
Qed.

Lemma stable_loop_S fuel lc sc :
  stable_loop (S fuel) start maxWait minTotalWait lc sc =
  (t <- perform Now ;;
   if (t - start <? maxWait)%Z then
     r <- stable_round start minTotalWait lc sc ;;
     match r with
     | inl count => Ret count
     | inr (lastCount, stableChecks) =>
         delay 500 ;;
         stable_loop fuel start maxWait minTotalWait lastCount stableChecks
     end
   else
     finalCount <- exec StepCount ;;
     if (finalCount >? 0)%Z then
       console (MTimeoutData finalCount) ;;
       Ret finalCount
     else Ret 0%Z).
Proof. reflexivity. Qed.

(** Lines 331-339: the read after the ceiling. *)
Lemma ceiling_spec w0 t base tr :
  trace w0 = base ++ tr ++ [Did me t Now t] → (maxWait ≤ t - start)%Z →
  ∃ res w' tr',
    interp me (finalCount <- exec StepCount ;;
               if (finalCount >? 0)%Z then
                 console (MTimeoutData finalCount) ;; Ret finalCount
               else Ret 0%Z) w0 = (res, w') ∧
    trace w' = base ++ tr' ∧ fetchCount w' = fetchCount w0 ∧ mutex w' = mutex w0 ∧
    match res with
    | Ok n => TimedOut tr' n
    | Threw _ => True
    | _ => False
    end.
Proof.
  intros Ht0 Hmax. rewrite interp_bind, interp_exec.
  set (w1 := exec_world me StepCount w0).
  assert (Ht1 : trace w1 = base ++ tr ++
            [Did me t Now t; Did me (now w1) (Exec StepCount) (exec_result StepCount w0)]).
  { unfold w1. rewrite exec_world_trace, Ht0.
    rewrite <- exec_world_now with (me := me). by rewrite <- !app_assoc. }
  assert (Hf1 : fetchCount w1 = fetchCount w0) by apply exec_world_fetchCount.
  assert (Hm1 : mutex w1 = mutex w0) by apply exec_world_mutex.
  destruct (exec_result StepCount w0) as [c|] eqn:Hr; simpl.
  2: { eexists _, w1, _. split_and!; [done|exact Ht1|done|done|done]. }
  destruct (c >? 0)%Z eqn:Hpos; simpl.
  - rewrite ?interp_bind, ?interp_console. simpl. rewrite ?interp_Ret.
    eexists _, _, (tr ++ [Did me t Now t; Did me (now w1) (Exec StepCount) (Some c)]
                      ++ [Did me (now w1) (Console (MTimeoutData c)) tt]).
    split_and!; [done| |done|done|].
    + simpl. rewrite Ht1. by rewrite <- !app_assoc.
    + exists tr, t, c, (now w1). rewrite Hpos. done.
  - rewrite ?interp_Ret.
    eexists _, w1, (tr ++ [Did me t Now t; Did me (now w1) (Exec StepCount) (Some c)]).
    split_and!; [done|exact Ht1|done|done|].
    exists tr, t, c, (now w1). rewrite Hpos. split_and!; [by rewrite app_nil_r|done|done].
Qed.

(** The whole loop: with [fuel] rounds left and at most [500 * fuel] ms
    to the ceiling, it ends, and a returned length was either accepted in
    the loop or read after the ceiling. *)
Lemma stable_loop_spec fuel : ∀ w lc sc base tr,
  trace w = base ++ tr → Between 500 tr lc sc (now w) →
  (maxWait - (now w - start) ≤ 500 * Z.of_nat fuel)%Z →
  ∃ res w' tr',
    interp me (stable_loop (S fuel) start maxWait minTotalWait lc sc) w = (res, w') ∧
    trace w' = base ++ tr' ∧ fetchCount w' = fetchCount w ∧ mutex w' = mutex w ∧
    match res with
    | Ok n => Accepted tr' n ∨ TimedOut tr' n
    | Threw _ => True
    | _ => False
    end.
Proof.
  induction fuel as [|fuel IH]; intros w lc sc base tr Htr Hb Hfuel;
    rewrite stable_loop_S, interp_bind, interp_now; simpl;
    set (w0 := did me Now (now w) w);
    (assert (Ht0 : trace w0 = base ++ tr ++ [Did me (now w) Now (now w)])
       by (unfold w0; simpl; rewrite Htr; by rewrite <- app_assoc));
    (assert (Hb0 : Between 500 (tr ++ [Did me (now w) Now (now w)]) lc sc (now w0))
       by (by apply Between_other));
    destruct (now w - start <? maxWait)%Z eqn:Hlt.
  - lia.
  - destruct (ceiling_spec w0 (now w) base tr Ht0) as (res & w' & tr' & Hrun & ? & ? & ? & Hres);
      [lia|].
    exists res, w', tr'. split_and!; try done. destruct res; try done. by right.
  - (* one more round *)
    rewrite interp_bind.
    destruct (stable_round_spec w0 lc sc base _ Ht0 Hb0)
      as (res & w1 & tr1 & Hrun & Ht1 & Hn1 & Hf1 & Hm1 & Hres).
    rewrite Hrun. destruct res as [c|[lc' sc']].
    + rewrite interp_Ret. exists (Ok c), w1, tr1. split_and!; try done. by left.
    + rewrite interp_bind, interp_delay. simpl.
      set (w2 := did me (Delay 500) tt (advance 500 w1)).
      edestruct (IH w2 lc' sc' base (tr1 ++ [Did me (now w1 + 500)%Z (Delay 500) tt]))
        as (res & w3 & tr3 & Hrun3 & Ht3 & Hf3 & Hm3 & Hres3).
      * unfold w2. simpl. rewrite Ht1. by rewrite <- app_assoc.
      * apply Between_other; [done|]. eapply Between_later; [|exact Hres].
        unfold w2. simpl. lia.
      * unfold w2. simpl. simpl in Hn1. lia.
      * exists res, w3, tr3. rewrite Hrun3. split_and!; try done.
        -- rewrite Hf3. unfold w2. simpl. by rewrite Hf1.
        -- rewrite Hm3. unfold w2. simpl. by rewrite Hm1.
  - destruct (ceiling_spec w0 (now w) base tr Ht0) as (res & w' & tr' & Hrun & ? & ? & ? & Hres);
      [lia|].
    exists res, w', tr'. split_and!; try done. destruct res; try done. by right.
Qed.

End Wait.

(** ** The floor and the ceiling of a wait *)

Section Bounds.

Variables (me : nat) (start maxWait minTotalWait : Z).

(** Every round of the loop began with less than [maxWait] elapsed. *)
Definition Below (tr : list Entry) : Prop :=
  Forall (λ t, (t - start < maxWait)%Z) (loop_heads tr).

(** The wait returned [n] from inside the loop: the length looked stable
    at a time [t] with at least [minTotalWait] elapsed, was read again at
    least 1500 ms later and confirmed; and every round, the last one
    included, began below the ceiling. *)
Definition InLoop (tr : list Entry) (n : Z) : Prop :=
  ∃ pre t tc,
    tr = pre ++ [Did me t (Console (MAppearsStable n (t - start))) tt;
                 Did me (t + 1500)%Z (Delay 1500) tt;
                 Did me tc (Exec StepCount) (Some n);
                 Did me tc (Console (MConfirmedStable n)) tt] ∧
    (minTotalWait ≤ t - start)%Z ∧ (t + 1500 ≤ tc)%Z ∧ Below tr.

(** The wait left the loop at the ceiling: every round began below it,
    the clock read [t] that ended the loop showed at least [maxWait]
    elapsed, and one more read of the length, which gave [r], was the
    last. *)
Definition AtCeiling (tr : list Entry) (r : option Z) : Prop :=
  ∃ pre hs t tc,
    tr = pre ++ [Did me t Now t; Did me tc (Exec StepCount) r]
             ++ match r with
                | Some c => if (c >? 0)%Z then [Did me tc (Console (MTimeoutData c)) tt] else []
                | None => []
                end ∧
    loop_heads tr = hs ++ [t] ∧ Forall (λ h, (h - start < maxWait)%Z) hs ∧
    (maxWait ≤ t - start)%Z.

(** How a wait ends: with a length accepted in the loop, with the length
    read at the ceiling (0 when that read gave nothing positive), or with
    the error of that last read when its evaluation was rejected. *)
Definition Ended (tr : list Entry) (res : Res Z) : Prop :=
  match res with
  | Ok n => InLoop tr n ∨ ∃ c, AtCeiling tr (Some c) ∧ n = (if (c >? 0)%Z then c else 0%Z)
  | Threw _ => AtCeiling tr None
  | _ => False
  end.

Lemma loop_heads_app l1 l2 :
  match l2 with en :: _ => is_step_read en = false | [] => True end →
  loop_heads (l1 ++ l2) = loop_heads l1 ++ loop_heads l2.
Proof.
  intros H2. induction l1 as [|en l1 IH]; [done|].
  cbn [app loop_heads]. rewrite IH. destruct (clock_read en) as [t|]; [|done].
  destruct l1 as [|en' l1]; cbn [app]; [|by destruct (is_step_read en')].
  destruct l2 as [|en' l2]; [done|]. by rewrite H2.
Qed.

(** A round, the wait of 500 ms and what follows. *)
Lemma loop_heads_round t t1 r tail t2 rest :
  loop_heads tail = [] →
  loop_heads (Did me t Now t :: Did me t1 (Exec StepCount) r :: tail
                ++ Did me t2 (Delay 500) tt :: rest)
  = t :: loop_heads rest.
Proof.
  intros Htail. simpl. f_equal. by rewrite loop_heads_app, Htail.
Qed.

Lemma Ended_round t t1 r tail t2 rest res :
  loop_heads tail = [] → (t - start < maxWait)%Z →
  Ended rest res →
  Ended (Did me t Now t :: Did me t1 (Exec StepCount) r :: tail
           ++ Did me t2 (Delay 500) tt :: rest) res.
Proof.
  intros Htail Hlt Hres.
  set (round := Did me t Now t :: Did me t1 (Exec StepCount) r :: tail
                  ++ [Did me t2 (Delay 500) tt]).
  assert (Htr : Did me t Now t :: Did me t1 (Exec StepCount) r :: tail
                  ++ Did me t2 (Delay 500) tt :: rest = round ++ rest).
  { unfold round. rewrite !app_comm_cons, <- app_assoc. done. }
  assert (Hh := loop_heads_round t t1 r tail t2 rest Htail).
  assert (Hin : ∀ n, InLoop rest n → InLoop (round ++ rest) n).
  { intros n (pre & t0 & tc & -> & Hfl & Htc & Hb).
    exists (round ++ pre), t0, tc. rewrite <- app_assoc. split_and!; try done.
    unfold Below. rewrite <- Htr, Hh. by constructor. }
  assert (Hce : ∀ r0, AtCeiling rest r0 → AtCeiling (round ++ rest) r0).
  { intros r0 (pre & hs & t0 & tc & -> & Hhs & Hall & Hmax).
    exists (round ++ pre), (t :: hs), t0, tc. rewrite <- app_assoc.
    split_and!; try done; [|by constructor].
    rewrite <- Htr, Hh, Hhs. done. }
  rewrite Htr. destruct res as [n|e| |]; simpl in *; try done; [|by apply Hce].
  destruct Hres as [Hn|(c & Hc & ->)]; [left; by apply Hin|].
  right. exists c. split; [by apply Hce|done].
Qed.

(** One round of the loop, as the entries it adds to the trace: the read
    of the length, and after it nothing that counts as the head of a
    round.  A round that returns has found the floor reached. *)
Lemma stable_round_tail w lc sc :
  ∃ res w' t1 r tail,
    interp me (stable_round start minTotalWait lc sc) w = (Ok res, w') ∧
    trace w' = trace w ++ Did me t1 (Exec StepCount) r :: tail ∧
    loop_heads tail = [] ∧ (now w ≤ now w')%Z ∧ fetchCount w' = fetchCount w ∧
    match res with
    | inl c =>
        ∃ t tc,
          tail = [Did me t Now t;
                  Did me t (Console (MAppearsStable c (t - start))) tt;
                  Did me (t + 1500)%Z (Delay 1500) tt;
                  Did me tc (Exec StepCount) (Some c);
                  Did me tc (Console (MConfirmedStable c)) tt] ∧
          (minTotalWait ≤ t - start)%Z ∧ (t + 1500 ≤ tc)%Z
    | inr _ => True
    end.
Proof.
  unfold stable_round. rewrite interp_try_catch, interp_bind, interp_exec.
  set (w1 := exec_world me StepCount w).
  assert (Hlat := exec_latency_nonneg StepCount w).
  assert (Hn1 : now w1 = (now w + exec_latency StepCount w)%Z) by apply exec_world_now.
  assert (Ht1 : trace w1 = trace w ++
            [Did me (now w1) (Exec StepCount) (exec_result StepCount w)]).
  { unfold w1. rewrite exec_world_trace. by rewrite <- exec_world_now with (me := me). }
  assert (Hf1 : fetchCount w1 = fetchCount w) by apply exec_world_fetchCount.
  destruct (exec_result StepCount w) as [c|] eqn:Hr; simpl.
  2: { rewrite ?interp_Ret. exists (inr (lc, sc)), w1, (now w1), None, [].
       split_and!; [done|exact Ht1|done|lia|done|done]. }
  destruct (c >? 0)%Z eqn:Hpos; simpl.
  2: { rewrite ?interp_Ret. exists (inr (lc, sc)), w1, (now w1), (Some c), [].
       split_and!; [done|exact Ht1|done|lia|done|done]. }
  destruct (c =? lc)%Z eqn:Heq; simpl.
  2: { rewrite ?interp_Ret. exists (inr (c, 0)), w1, (now w1), (Some c), [].
       split_and!; [done|exact Ht1|done|lia|done|done]. }
  apply Z.eqb_eq in Heq. subst lc.
  rewrite interp_bind, interp_now. simpl.
  set (w2 := did me Now (now w1) w1).
  destruct ((requiredStableChecks <=? S sc) && (minTotalWait <=? now w1 - start)%Z)
    eqn:Hgo; simpl.
  2: { rewrite ?interp_Ret.
       exists (inr (c, S sc)), w2, (now w1), (Some c), [Did me (now w1) Now (now w1)].
       split_and!; [done| |done|simpl; lia|done|done].
       unfold w2. simpl. rewrite Ht1, <- app_assoc. done. }
  apply andb_true_iff in Hgo as [_ Hel]. apply Z.leb_le in Hel.
  rewrite interp_try_catch, interp_bind, interp_console. simpl.
  rewrite interp_bind, interp_delay. simpl.
  set (w4 := did me (Delay 1500) tt (advance 1500 _)).
  rewrite interp_bind, interp_exec.
  set (w5 := exec_world me StepCount w4).
  assert (Hlat5 := exec_latency_nonneg StepCount w4).
  assert (Hn5 : now w5 = (now w1 + 1500 + exec_latency StepCount w4)%Z)
    by (unfold w5; rewrite exec_world_now; done).
  assert (Hf5 : fetchCount w5 = fetchCount w)
    by (unfold w5; rewrite exec_world_fetchCount; done).
  assert (Ht5 : trace w5 = trace w ++
            Did me (now w1) (Exec StepCount) (Some c)
            :: [Did me (now w1) Now (now w1);
                Did me (now w1) (Console (MAppearsStable c (now w1 - start))) tt;
                Did me (now w1 + 1500)%Z (Delay 1500) tt;
                Did me (now w5) (Exec StepCount) (exec_result StepCount w4)]).
  { unfold w5. rewrite exec_world_trace. rewrite <- exec_world_now with (me := me).
    simpl. rewrite Ht1, <- !app_assoc. done. }
  set (en2 := Did me (now w1) Now (now w1)) in *.
  set (en3 := Did me (now w1) (Console (MAppearsStable c (now w1 - start))) tt) in *.
  set (en4 := Did me (now w1 + 1500)%Z (Delay 1500) tt) in *.
  destruct (exec_result StepCount w4) as [c'|] eqn:Hr'; simpl.
  2: { rewrite ?interp_Ret.
       exists (inr (c, S sc)), w5, (now w1), (Some c),
         [en2; en3; en4; Did me (now w5) (Exec StepCount) None].
       split_and!; [done|exact Ht5|done|lia|done|done]. }
  destruct (c' =? c)%Z eqn:Heq'; simpl.
  - apply Z.eqb_eq in Heq'. subst c'.
    rewrite ?interp_bind, ?interp_console. simpl. rewrite ?interp_Ret.
    exists (inl c), (did me (Console (MConfirmedStable c)) tt w5), (now w1), (Some c),
      [en2; en3; en4; Did me (now w5) (Exec StepCount) (Some c);
       Did me (now w5) (Console (MConfirmedStable c)) tt].
    split_and!; [done| |done|simpl; lia|done|].
    + simpl. rewrite Ht5, <- app_assoc. done.
    + exists (now w1), (now w5). split_and!; [done|done|lia].
  - rewrite ?interp_bind, ?interp_console. simpl. rewrite ?interp_Ret.
    exists (inr (c', 0)), (did me (Console (MGrew c c')) tt w5), (now w1), (Some c),
      [en2; en3; en4; Did me (now w5) (Exec StepCount) (Some c');
       Did me (now w5) (Console (MGrew c c')) tt].
    split_and!; [done| |done|simpl; lia|done|done].
    simpl. rewrite Ht5, <- app_assoc. done.
Qed.

(** Lines 331-339, reached with the ceiling passed. *)
Lemma ceiling_ended w :
  (maxWait ≤ now w - start)%Z →
  ∃ res w' tr,
    interp me (finalCount <- exec StepCount ;;
               if (finalCount >? 0)%Z then
                 console (MTimeoutData finalCount) ;; Ret finalCount
               else Ret 0%Z) (did me Now (now w) w) = (res, w') ∧
    trace w' = trace w ++ tr ∧ fetchCount w' = fetchCount w ∧ Ended tr res.
Proof.
  intros Hmax. rewrite interp_bind, interp_exec.
  set (w0 := did me Now (now w) w).
  set (w1 := exec_world me StepCount w0).
  assert (Ht1 : trace w1 = trace w ++
            [Did me (now w) Now (now w);
             Did me (now w1) (Exec StepCount) (exec_result StepCount w0)]).
  { unfold w1. rewrite exec_world_trace. rewrite <- exec_world_now with (me := me).
    unfold w0. simpl. by rewrite <- app_assoc. }
  assert (Hf1 : fetchCount w1 = fetchCount w) by (unfold w1; by rewrite exec_world_fetchCount).
  destruct (exec_result StepCount w0) as [c|] eqn:Hr; simpl.
  2: { eexists _, w1, _. split_and!; [done|exact Ht1|done|].
       exists [], [], (now w), (now w1). split_and!; [done|done|constructor|done]. }
  destruct (c >? 0)%Z eqn:Hpos; simpl.
  - rewrite ?interp_bind, ?interp_console. simpl. rewrite ?interp_Ret.
    eexists _, _, _. split_and!; [done| |done|].
    + simpl. rewrite Ht1, <- app_assoc. reflexivity.
    + right. exists c. rewrite Hpos. split; [|done].
      exists [], [], (now w), (now w1). rewrite Hpos. split_and!; [done|done|constructor|done].
  - rewrite ?interp_Ret. eexists _, w1, _. split_and!; [done|exact Ht1|done|].
    right. exists c. rewrite Hpos. split; [|done].
    exists [], [], (now w), (now w1). rewrite Hpos. split_and!; [done|done|constructor|done].
Qed.

(** The whole loop, with [fuel] rounds left and at most [500 * fuel] ms to
    the ceiling: it ends, in one of the ways of [Ended]. *)
Lemma stable_loop_ended fuel : ∀ w lc sc,
  (maxWait - (now w - start) ≤ 500 * Z.of_nat fuel)%Z →
  ∃ res w' tr,
    interp me (stable_loop (S fuel) start maxWait minTotalWait lc sc) w = (res, w') ∧
    trace w' = trace w ++ tr ∧ fetchCount w' = fetchCount w ∧ Ended tr res.
Proof.
  induction fuel as [|fuel IH]; intros w lc sc Hfuel;
    rewrite stable_loop_S, interp_bind, interp_now; simpl;
    destruct (now w - start <? maxWait)%Z eqn:Hlt.
  - lia.
  - apply ceiling_ended. lia.
  - rewrite interp_bind.
    destruct (stable_round_tail (did me Now (now w) w) lc sc)
      as (res & w1 & t1 & r & tail & Hrun & Ht1 & Htail & Hn1 & Hf1 & Hres).
    rewrite Hrun. simpl in Ht1, Hn1, Hf1. destruct res as [c|[lc' sc']].
    + rewrite interp_Ret. exists (Ok c), w1, (Did me (now w) Now (now w)
                                               :: Did me t1 (Exec StepCount) r :: tail).
      split_and!; [done| |done|].
      * rewrite Ht1, <- app_assoc. done.
      * left. destruct Hres as (t & tc & -> & Hfl & Htc).
        exists [Did me (now w) Now (now w); Did me t1 (Exec StepCount) r; Did me t Now t], t, tc.
        split_and!; [done|done|done|].
        unfold Below. simpl. constructor; [lia|constructor].
    + rewrite interp_bind, interp_delay. simpl.
      set (w2 := did me (Delay 500) tt (advance 500 w1)).
      destruct (IH w2 lc' sc') as (res & w3 & tr3 & Hrun3 & Ht3 & Hf3 & Hres3).
      { unfold w2. simpl. lia. }
      rewrite Hrun3.
      exists res, w3, (Did me (now w) Now (now w) :: Did me t1 (Exec StepCount) r :: tail
                         ++ Did me (now w1 + 500)%Z (Delay 500) tt :: tr3).
      split_and!; [done| | |].
      * rewrite Ht3. unfold w2. simpl. rewrite Ht1, <- !app_assoc. done.
      * rewrite Hf3. unfold w2. simpl. done.
      * apply Ended_round; [done|lia|done].
  - apply ceiling_ended. lia.
Qed.

End Bounds.

(** ** [fetchImage] (lines 757-786) *)

(** Lines 761-764: the URL that is fetched. *)
Definition absolute_url (imageUrl : string) : string :=
  if Js.startsWith imageUrl "http" then imageUrl
  else PROMETEO_BASE_URL +:+ "/" +:+ Js.strip_leading_slash imageUrl.

(** The world after the one fetch of [fetchImage]. *)
Definition fetched (me : nat) (imageUrl : string) (w : World) : World :=
  did me (Fetch (absolute_url imageUrl)) (net (nfetch w) (absolute_url imageUrl))
      (mkWorld (now w) (page w) (loggedIn w) (fetchCount w) (mutex w) (S (nfetch w))
               (trace w)).

(** C10. [fetchImage] fetches the input URL, made absolute by prefixing the
    portal base URL after dropping one leading slash when it does not start
    with [http], and does nothing else: its only effect is that one fetch,
    so it writes no file.  When the fetch yields a response whose body can
    be read, the call throws exactly when the status is not OK; otherwise
    it returns the data URL made of the content-type (or [image/png] when
    the header is absent or empty) and the base64 of the body, whatever the
    content-type and however short the body.  So a 200 [text/html] page
    comes back as a data URL, while the downloader fails the attempt on the
    same response. *)
Theorem fetchImage_unguarded me imageUrl w r buffer :
  net (nfetch w) (absolute_url imageUrl) = Net.Resolved r →
  Net.body r = Some buffer →
  interp me (fetchImage imageUrl) w =
    (if Net.ok r then
       Ok ("data:" +:+ or_else (Net.contentType r) "image/png" +:+ ";base64,"
             +:+ Js.base64 buffer)
     else
       Threw ("Failed to fetch image: " +:+ pretty (Net.status r) +:+ " "
                +:+ Net.statusText r),
     fetched me imageUrl w) ∧
  trace (fetched me imageUrl w)
    = trace w ++ [Did me (now w) (Fetch (absolute_url imageUrl)) (Net.Resolved r)] ∧
  absolute_url "/img/a.png" = "https://prometeo2.meteoam.it/img/a.png" ∧
  absolute_url "img/a.png" = "https://prometeo2.meteoam.it/img/a.png" ∧
  absolute_url "//img/a.png" = "https://prometeo2.meteoam.it//img/a.png" ∧
  absolute_url "https://h/a.png" = "https://h/a.png" ∧
  (Net.ok r = true →
   Js.includes (default "" (Net.contentType r)) "text/html" = true →
   ∀ sha cacheDir dnet it a s,
     (Downloader.resume sha cacheDir dnet
        (Downloader.AwaitFetch it a (Net.Resolved r)) s).1
     = Downloader.AwaitDownload it a true).
Proof.
  intros Hnet Hbody. split_and!; try reflexivity.
  - unfold fetchImage, fetched. fold (absolute_url imageUrl).
    rewrite interp_bind. unfold perform. simpl. rewrite Hnet.
    destruct (Net.ok r); simpl; [|done]. by rewrite Hbody.
  - unfold fetched. simpl. by rewrite Hnet.
  - intros Hok Hhtml sha cacheDir dnet it a s. simpl. by rewrite Hok, Hhtml.
Qed.

(** The world when the loop of [_waitForStableArray] starts: the counter
    incremented, the start time read, the cold start reported. *)
Definition prelude (me : nat) (w : World) : World :=
  let n := S (fetchCount w) in
  let w1 := did me NextFetchCount n
              (mkWorld (now w) (page w) (loggedIn w) n (mutex w) (nfetch w) (trace w)) in
  let w2 := did me Now (now w) w1 in
  if isFirstFetch n then did me (Console MFirstFetch) tt w2 else w2.

Lemma prelude_fields me w :
  now (prelude me w) = now w ∧ fetchCount (prelude me w) = S (fetchCount w) ∧
  mutex (prelude me w) = mutex w ∧ ∃ pre, trace (prelude me w) = trace w ++ pre.
Proof.
  unfold prelude. destruct (isFirstFetch _); simpl; split_and!; try done;
    eexists; rewrite <- ?app_assoc; reflexivity.
Qed.

Lemma waitForStableArray_unfold me w :
  interp me _waitForStableArray w =
  interp me (stable_loop (S (rounds (maxWait_of (isFirstFetch (S (fetchCount w)))) 500))
               (now w)
               (maxWait_of (isFirstFetch (S (fetchCount w))))
               (minTotalWait_of (isFirstFetch (S (fetchCount w)))) 0 0)
         (prelude me w).
Proof.
  unfold _waitForStableArray, prelude.
  rewrite interp_bind, interp_NextFetchCount. simpl.
  rewrite interp_bind, interp_now. simpl.
  rewrite interp_bind. destruct (isFirstFetch (S (fetchCount w))); reflexivity.
Qed.

Lemma waitForStableArray_spec me w :
  ∃ res w' tr,
    interp me _waitForStableArray w = (res, w') ∧
    trace w' = trace (prelude me w) ++ tr ∧
    fetchCount w' = S (fetchCount w) ∧ mutex w' = mutex w ∧
    match res with
    | Ok n =>
        Accepted me (now w) (minTotalWait_of (isFirstFetch (S (fetchCount w)))) tr n ∨
        TimedOut me (now w) (maxWait_of (isFirstFetch (S (fetchCount w)))) tr n
    | Threw _ => True
    | _ => False
    end.
Proof.
  rewrite waitForStableArray_unfold.
  destruct (prelude_fields me w) as (Hn & Hf & Hm & _).
  edestruct (stable_loop_spec me (now w)
               (maxWait_of (isFirstFetch (S (fetchCount w))))
               (minTotalWait_of (isFirstFetch (S (fetchCount w))))
               (rounds (maxWait_of (isFirstFetch (S (fetchCount w)))) 500)
               (prelude me w) 0 0 (trace (prelude me w)) [])
    as (res & w' & tr & Hrun & Ht & Hf' & Hm' & Hres).
  - by rewrite app_nil_r.
  - unfold Between. simpl. split_and!; [constructor|done|left; done].
  - rewrite Hn. replace (now w - now w)%Z with 0%Z by lia.
    destruct (isFirstFetch _); vm_compute; congruence.
  - exists res, w', tr. split_and!; try done; congruence.
Qed.

(** ** A page that never shows any step *)

Section Empty.

(** No script evaluation rejects, and the step array stays empty. *)
Hypothesis Hok : ∀ A (s : Script A) t p, is_Some (page_exec A s t p).1.1.
Hypothesis Hzero : ∀ t p, (page_exec Z StepCount t p).1.1 = Some 0%Z.

Lemma Runs_exec {A} (s : Script A) : Runs (exec s) (λ _, True) 0.
Proof.
  intros me w Hw. rewrite interp_exec. unfold exec_result.
  destruct (Hok A s (now w) (page w)) as [a Ha]. rewrite Ha.
  exists a, (exec_world me s w). split_and!; try done.
  - apply exec_world_mutex.
  - rewrite exec_world_fetchCount. lia.
  - unfold exec_world. simpl. by destruct (page_exec A s (now w) (page w)) as [[r lat] p'].
Qed.

Lemma Runs_ensureSearchPage : Runs ensureSearchPage (λ _, True) 0.
Proof.
  intros me w Hw. unfold ensureSearchPage.
  rewrite interp_bind. unfold perform at 1. simpl. rewrite Hw. simpl.
  set (w1 := did me GetStatus true w).
  assert (Hrest : Runs (currentUrl <- perform GetURL ;;
                        if negb (Js.includes currentUrl "ricercaProdotto") then
                          exec Navigate ;; perform (WaitLoad 15000) ;; delay 3000 ;;
                          _ <- perform GetURL ;; Ret tt
                        else Ret tt) (λ _, True) 0).
  { change 0 with (0 + 0). eapply Runs_bind; [by apply (Runs_perform GetURL)|].
    intros url _. destruct (negb _); [|by apply Runs_Ret].
    change 0 with (0 + (0 + (0 + (0 + 0)))).
    eapply Runs_bind; [apply Runs_exec|]. intros _ _.
    eapply Runs_bind; [by apply (Runs_perform (WaitLoad 15000))|]. intros _ _.
    eapply Runs_bind; [apply Runs_delay|]. intros _ _.
    eapply Runs_bind; [by apply (Runs_perform GetURL)|]. intros _ _.
    by apply Runs_Ret. }
  destruct (Hrest me w1) as (a & w' & Hrun & _ & Hm & Hc & Hl); [done|].
  exists a, w'. split_and!; try done.
Qed.

Lemma stable_round_zero me start minTotalWait w :
  interp me (stable_round start minTotalWait 0 0) w
  = (Ok (inr (0%Z, 0)), exec_world me StepCount w).
Proof.
  unfold stable_round. rewrite interp_try_catch, interp_bind, interp_exec.
  unfold exec_result. rewrite Hzero. simpl. by rewrite ?interp_Ret.
Qed.

Lemma stable_loop_zero me start maxWait minTotalWait fuel : ∀ w,
  loggedIn w = true →
  (maxWait - (now w - start) ≤ 500 * Z.of_nat fuel)%Z →
  ∃ w', interp me (stable_loop (S fuel) start maxWait minTotalWait 0 0) w = (Ok 0%Z, w') ∧
        mutex w' = mutex w ∧ fetchCount w' = fetchCount w ∧ loggedIn w' = true.
Proof.
  induction fuel as [|fuel IH]; intros w Hw Hfuel;
    rewrite stable_loop_S, interp_bind, interp_now; simpl;
    destruct (now w - start <? maxWait)%Z eqn:Hlt; try lia.
  - rewrite interp_bind, interp_exec. unfold exec_result. rewrite Hzero. simpl.
    rewrite ?interp_Ret. eexists. split_and!; [reflexivity| | |].
    + by rewrite exec_world_mutex.
    + by rewrite exec_world_fetchCount.
    + unfold exec_world. simpl.
      by destruct (page_exec Z StepCount _ _) as [[r lat] p'].
  - rewrite interp_bind, stable_round_zero. rewrite interp_bind, interp_delay. simpl.
    set (w1 := exec_world me StepCount (did me Now (now w) w)).
    assert (Hn1 : (now w ≤ now w1)%Z).
    { unfold w1. rewrite exec_world_now. simpl.
      assert (H := exec_latency_nonneg StepCount (did me Now (now w) w)). simpl in H. lia. }
    assert (Hl1 : loggedIn w1 = true).
    { unfold w1, exec_world. simpl.
      by destruct (page_exec Z StepCount _ _) as [[r lat] p']. }
    edestruct (IH (did me (Delay 500) tt (advance 500 w1))) as (w' & Hrun & Hm & Hc & Hl).
    + done.
    + simpl. lia.
    + exists w'. rewrite Hrun. split_and!; [done| | |done].
      * rewrite Hm. simpl. unfold w1. by rewrite exec_world_mutex.
      * rewrite Hc. simpl. unfold w1. by rewrite exec_world_fetchCount.
  - rewrite interp_bind, interp_exec. unfold exec_result. rewrite Hzero. simpl.
    rewrite ?interp_Ret. eexists. split_and!; [reflexivity| | |].
    + by rewrite exec_world_mutex.
    + by rewrite exec_world_fetchCount.
    + unfold exec_world. simpl.
      by destruct (page_exec Z StepCount _ _) as [[r lat] p'].
Qed.

Lemma Runs_wait_zero : Runs _waitForStableArray (λ n, n = 0%Z) 1.
Proof.
  intros me w Hw. rewrite waitForStableArray_unfold.
  destruct (prelude_fields me w) as (Hn & Hf & Hm & _).
  edestruct (stable_loop_zero me (now w)
               (maxWait_of (isFirstFetch (S (fetchCount w))))
               (minTotalWait_of (isFirstFetch (S (fetchCount w))))
               (rounds (maxWait_of (isFirstFetch (S (fetchCount w)))) 500)
               (prelude me w)) as (w' & Hrun & Hm' & Hc' & Hl').
  - unfold prelude. by destruct (isFirstFetch _).
  - rewrite Hn. replace (now w - now w)%Z with 0%Z by lia.
    destruct (isFirstFetch _); vm_compute; congruence.
  - exists 0%Z, w'. split_and!; try done; try congruence; try lia.
Qed.

Lemma Runs_select_product productId : Runs (select_product productId) (λ _, True) 0.
Proof.
  unfold select_product.
  change 0 with (0 + (0 + (0 + (0 + (0 + 0))))).
  eapply Runs_bind; [apply Runs_ensureSearchPage|]. intros _ _.
  eapply Runs_bind; [apply Runs_exec|]. intros _ _.
  eapply Runs_bind; [apply Runs_exec|]. intros _ _.
  eapply Runs_bind; [apply Runs_delay|]. intros _ _.
  eapply Runs_bind; [apply Runs_exec|]. intros selectedVal _.
  destruct (negb _); [|by apply Runs_Ret].
  change 0 with (0 + (0 + (0 + (0 + (0 + 0))))).
  eapply Runs_bind; [apply Runs_console|]. intros _ _.
  eapply Runs_bind; [apply Runs_delay|]. intros _ _.
  eapply Runs_bind; [apply Runs_exec|]. intros _ _.
  eapply Runs_bind; [apply Runs_delay|]. intros _ _.
  eapply Runs_bind; [apply Runs_exec|]. intros _ _.
  by apply Runs_Ret.
Qed.

Lemma Runs_search_fallback : Runs search_fallback (λ n, n = 0%Z) 1.
Proof.
  unfold search_fallback. change 1 with (0 + (0 + (0 + 1))).
  eapply Runs_bind; [apply Runs_console|]. intros _ _.
  eapply Runs_bind; [apply Runs_exec|]. intros _ _.
  eapply Runs_bind; [apply Runs_delay|]. intros _ _.
  apply Runs_wait_zero.
Qed.

Lemma Runs_fetchChartUrls_empty productId :
  Runs (_fetchChartUrls productId) (λ r, r = emptyResult) 2.
Proof.
  unfold _fetchChartUrls.
  change 2 with (0 + (1 + (1 + 0))).
  eapply Runs_bind; [apply Runs_select_product|]. intros _ _.
  eapply Runs_bind; [apply Runs_wait_zero|]. intros lastCount ->.
  eapply Runs_bind with (Q := λ n, n = 0%Z); [apply Runs_search_fallback|].
  intros lastCount ->. simpl. change 0 with (0 + 0).
  eapply Runs_bind; [apply Runs_console|]. intros _ _.
  by apply Runs_Ret.
Qed.

(** A public operation around a body that runs to its end: the mutex is
    taken, the body runs, the mutex is free again. *)
Lemma locked_call_runs {A} (body : Prog A) Q n me w :
  Runs body Q n → loggedIn w = true → mutex w = mkMutex false [] →
  ∃ a w', interp me (perform Acquire ;; try_finally body releaseLock) w = (Ok a, w') ∧
          Q a ∧ mutex w' = mkMutex false [] ∧ fetchCount w' = fetchCount w + n.
Proof.
  intros Hbody Hw Hm. rewrite interp_bind, interp_acquire_free by (by rewrite Hm).
  rewrite interp_try_finally.
  destruct (Hbody me (acquired me w)) as (a & w1 & Hrun & Ha & Hm1 & Hc1 & Hl1); [done|].
  rewrite Hrun, interp_bind, interp_release_last.
  - rewrite interp_Ret. exists a, (released me w1). split_and!; try done.
  - rewrite Hm1. simpl. by rewrite Hm.
Qed.

(** On a page whose script evaluations never reject and whose step array
    stays empty, with the user logged in and the mutex free,
    [fetchChartUrls] runs to its end: it makes two stability waits (the
    second in the fallback), returns the empty result and leaves the mutex
    free. *)
Lemma fetchChartUrls_on_empty_page me productId w :
  loggedIn w = true → mutex w = mkMutex false [] →
  ∃ w', interp me (fetchChartUrls productId) w = (Ok (mkChart "" "" []), w') ∧
        mutex w' = mkMutex false [] ∧ fetchCount w' = fetchCount w + 2.
Proof.
  intros Hw Hm.
  destruct (locked_call_runs (_fetchChartUrls productId) _ 2 me w
              (Runs_fetchChartUrls_empty productId) Hw Hm)
    as (a & w' & Hrun & -> & Hm' & Hc').
  exists w'. done.
Qed.

End Empty.

(** [releaseLock] in a [finally] lets the value through. *)
Lemma interp_release_then_Ret {A} me (a : A) w :
  (interp me (releaseLock ;; Ret a) w).1 = Ok a.
Proof.
  unfold releaseLock, perform.
  lazy beta iota zeta delta [bind Prometeo.interp Prometeo.handle releaseLock_fields].
  by destruct (mutexQueue (mutex w)).
Qed.

(** C7. Whatever the page does: when the product selection has run, the
    stability wait has returned 0, and the fallback (the explicit search
    and the wait after it) has returned 0 too, [_fetchChartUrls] logs that
    the array was not populated and returns the empty result
    [{productName: '', date: '', steps: []}]; and [fetchChartUrls], which
    runs it under the mutex, returns that value normally. *)
Theorem empty_result_when_no_steps me productId w w1 w2 w3 :
  mutexLocked (mutex w) = false →
  interp me (select_product productId) (acquired me w) = (Ok tt, w1) →
  interp me _waitForStableArray w1 = (Ok 0%Z, w2) →
  interp me search_fallback w2 = (Ok 0%Z, w3) →
  interp me (_fetchChartUrls productId) (acquired me w)
    = (Ok (mkChart "" "" []), did me (Console MNotPopulated) tt w3) ∧
  (interp me (fetchChartUrls productId) w).1 = Ok (mkChart "" "" []).
Proof.
  intros Hfree Hsel Hwait Hfall.
  assert (Hbody : interp me (_fetchChartUrls productId) (acquired me w)
                  = (Ok (mkChart "" "" []), did me (Console MNotPopulated) tt w3)).
  { unfold _fetchChartUrls. rewrite interp_bind, Hsel, interp_bind, Hwait.
    rewrite interp_bind. change (0 =? 0)%Z with true. cbv iota.
    rewrite Hfall. change (0 =? 0)%Z with true. cbv iota.
    by rewrite interp_bind, interp_console, interp_Ret. }
  split; [exact Hbody|].
  unfold fetchChartUrls.
  rewrite interp_bind, interp_acquire_free, interp_try_finally, Hbody by done.
  apply interp_release_then_Ret.
Qed.

(** ** The lightweight product-type switch (lines 524-573) *)

Lemma reloads_snoc tr en :
  reloads (tr ++ [en]) = reloads tr + (if is_reload en then 1 else 0).
Proof.
  unfold reloads. rewrite filter_app, length_app. f_equal.
  rewrite filter_cons, filter_nil.
  destruct (decide (is_reload en)) as [Hen|Hen]; destruct (is_reload en); done.
Qed.

Lemma set_evals_snoc tr en :
  set_evals (tr ++ [en]) = set_evals tr + (if is_set en then 1 else 0).
Proof.
  unfold set_evals. rewrite filter_app, length_app. f_equal.
  rewrite filter_cons, filter_nil.
  destruct (decide (is_set en)) as [Hen|Hen]; destruct (is_set en); done.
Qed.

Lemma is_reload_is_set en : is_set en = false → is_reload en = false.
Proof.
  destruct en as [who t X e x|]; [|done].
  destruct e; try done. destruct s; done.
Qed.

Lemma exec_world_page {A} me (s : Script A) w :
  page (exec_world me s w) = (page_exec A s (now w) (page w)).2.
Proof.
  unfold exec_world. simpl. by destruct (page_exec A s (now w) (page w)) as [[r lat] p'].
Qed.

Lemma waitForCondition_loop_S fuel cond start maxWaitMs intervalMs :
  waitForCondition_loop (S fuel) cond start maxWaitMs intervalMs =
  (t <- perform Now ;;
   if (t - start <? maxWaitMs)%Z then
     result <- try_catch (exec cond) (λ _, Ret false) ;;
     if result then Ret true
     else delay intervalMs ;; waitForCondition_loop fuel cond start maxWaitMs intervalMs
   else Ret false).
Proof. reflexivity. Qed.

Section Idempotent.

(** What is assumed of the page: [Shows v p] says that the form on page
    [p] holds the product type [v].  Setting the field makes the form
    show the value; reading a form that shows [v] gives [v]; neither
    reading nor polling the product list changes what the form shows; and
    a page whose form shows a value is the search page. *)
Variable Shows : string → Page → Prop.
Hypothesis Hset : ∀ v t p,
  (page_exec unit (SetProductType v) t p).1.1 = Some tt →
  Shows v (page_exec unit (SetProductType v) t p).2.
Hypothesis Hread : ∀ v t p,
  Shows v p →
  (page_exec string ReadProductType t p).1.1 = Some v ∧
  Shows v (page_exec string ReadProductType t p).2.
Hypothesis Hpoll : ∀ v t p, Shows v p → Shows v (page_exec bool ListLoaded t p).2.
Hypothesis Hhere : ∀ v p, Shows v p → Js.includes (page_url p) "ricercaProdotto" = true.

(** The set script was not evaluated and the form shows what it showed. *)
Definition Quiet (w w' : World) : Prop :=
  reloads (trace w') = reloads (trace w) ∧
  set_evals (trace w') = set_evals (trace w) ∧
  ∀ v, Shows v (page w) → Shows v (page w').

Lemma Quiet_refl w : Quiet w w.
Proof. by repeat split. Qed.

Lemma Quiet_trans w1 w2 w3 : Quiet w1 w2 → Quiet w2 w3 → Quiet w1 w3.
Proof. intros (H1 & H1' & H1'') (H2 & H2' & H2''). repeat split; [congruence..|auto]. Qed.

Lemma Quiet_snoc w w' en :
  trace w' = trace w ++ [en] → page w' = page w → is_set en = false → Quiet w w'.
Proof.
  intros Htr Hpg Hen. unfold Quiet.
  rewrite Htr, Hpg, reloads_snoc, set_evals_snoc, Hen, (is_reload_is_set _ Hen).
  repeat split; [lia..|done].
Qed.

Lemma Quiet_did {X} me (e : Eff X) x w :
  is_set (Did me (now w) e x) = false → Quiet w (did me e x w).
Proof. by apply Quiet_snoc. Qed.

Lemma Quiet_advance {X} me (e : Eff X) x dt w :
  is_set (Did me (now w + dt)%Z e x) = false → Quiet w (did me e x (advance dt w)).
Proof. by apply Quiet_snoc. Qed.

Lemma Quiet_exec {A} me (s : Script A) w :
  is_set (Did me 0%Z (Exec s) None) = false →
  (∀ v, Shows v (page w) → Shows v (page_exec A s (now w) (page w)).2) →
  Quiet w (exec_world me s w).
Proof.
  intros Hs Hp. unfold Quiet.
  rewrite exec_world_trace, reloads_snoc, set_evals_snoc, exec_world_page.
  assert (He : is_set (Did me (now w + exec_latency s w)%Z (Exec s) (exec_result s w))
               = false) by (by destruct s).
  rewrite He, (is_reload_is_set _ He). repeat split; [lia..|done].
Qed.

Lemma Quiet_poll me w : Quiet w (exec_world me ListLoaded w).
Proof. apply Quiet_exec; [done|]. intros v. apply Hpoll. Qed.

Lemma Quiet_read me w : Quiet w (exec_world me ReadProductType w).
Proof. apply Quiet_exec; [done|]. intros v Hv. by apply Hread. Qed.

Lemma waitForCondition_loop_quiet me start maxWaitMs intervalMs fuel : ∀ w r w',
  interp me (waitForCondition_loop fuel ListLoaded start maxWaitMs intervalMs) w = (r, w') →
  Quiet w w'.
Proof.
  induction fuel as [|fuel IH]; intros w r w' Hrun.
  - simpl in Hrun. injection Hrun as _ <-. apply Quiet_refl.
  - rewrite waitForCondition_loop_S, interp_bind, interp_now in Hrun. simpl in Hrun.
    assert (Q0 : Quiet w (did me Now (now w) w)) by (by apply Quiet_did).
    destruct (now w - start <? maxWaitMs)%Z.
    2: { rewrite interp_Ret in Hrun. injection Hrun as _ <-. done. }
    rewrite interp_bind, interp_try_catch, interp_exec in Hrun.
    assert (Q1 := Quiet_poll me (did me Now (now w) w)).
    assert (Hcase : ∃ b, (match
              match exec_result ListLoaded (did me Now (now w) w) with
              | Some a => Ok a
              | None => Threw "script evaluation failed"
              end with
            | Threw e => interp me (Ret false) (exec_world me ListLoaded (did me Now (now w) w))
            | r0 => (r0, exec_world me ListLoaded (did me Now (now w) w))
            end) = (Ok b, exec_world me ListLoaded (did me Now (now w) w))).
    { destruct (exec_result ListLoaded _); simpl; rewrite ?interp_Ret; eauto. }
    destruct Hcase as [b Hb]. simpl in Hb, Hrun. rewrite Hb in Hrun.
    destruct b.
    + rewrite interp_Ret in Hrun. injection Hrun as _ <-. by eapply Quiet_trans.
    + rewrite interp_bind, interp_delay in Hrun. simpl in Hrun.
      apply IH in Hrun. eapply Quiet_trans; [exact Q0|].
      eapply Quiet_trans; [exact Q1|]. eapply Quiet_trans; [|exact Hrun].
      by apply Quiet_advance.
Qed.

Lemma waitForCondition_quiet me maxWaitMs intervalMs w r w' :
  interp me (waitForCondition ListLoaded maxWaitMs intervalMs) w = (r, w') → Quiet w w'.
Proof.
  unfold waitForCondition. rewrite interp_bind, interp_now. simpl. intros Hrun.
  apply waitForCondition_loop_quiet in Hrun.
  eapply Quiet_trans; [|exact Hrun]. by apply Quiet_did.
Qed.

(** [ensureSearchPage] does not touch the form's field, and on a page
    whose form shows a value it does not navigate. *)
Lemma ensureSearchPage_quiet me w r w' :
  interp me ensureSearchPage w = (r, w') → Quiet w w'.
Proof.
  unfold ensureSearchPage. rewrite interp_bind. unfold perform at 1. simpl.
  assert (Q0 : Quiet w (did me GetStatus (loggedIn w) w)) by (by apply Quiet_did).
  destruct (loggedIn w) eqn:Hl; simpl.
  2: { rewrite interp_Throw. by intros [= <- <-]. }
  rewrite interp_bind. unfold perform at 1. simpl.
  set (w1 := did me GetURL _ (did me GetStatus true w)).
  assert (Q1 : Quiet w w1).
  { eapply Quiet_trans; [exact Q0|]. by apply Quiet_did. }
  destruct (Js.includes (page_url (page w)) "ricercaProdotto") eqn:Hinc; simpl.
  { rewrite interp_Ret. by intros [= <- <-]. }
  assert (Hno : ∀ v, ¬ Shows v (page w)).
  { intros v Hv. apply Hhere in Hv. congruence. }
  assert (Q2 : Quiet w (exec_world me Navigate w1)).
  { eapply Quiet_trans; [exact Q1|]. apply Quiet_exec; [done|].
    intros v Hv. by destruct (Hno v). }
  rewrite interp_bind, interp_exec.
  destruct (exec_result Navigate w1); simpl.
  2: { by intros [= <- <-]. }
  rewrite interp_bind. unfold perform at 1. simpl.
  rewrite interp_bind, interp_delay. simpl.
  rewrite interp_bind. unfold perform at 1. simpl. rewrite interp_Ret.
  intros [= <- <-]. destruct Q2 as (R2 & E2 & _). unfold Quiet. simpl.
  rewrite !reloads_snoc, !set_evals_snoc. simpl.
  repeat split; [lia..|]. intros v Hv. by destruct (Hno v).
Qed.

(** One call evaluates the set script at most once; the evaluation is then
    either rejected, and the call throws, or it succeeds, and the form
    shows the value of the requested type when the call ends. *)
Lemma ensureProductType_once me productType w r w' :
  interp me (_ensureProductType productType) w = (r, w') →
  Quiet w w' ∨
  set_evals (trace w') = set_evals (trace w) + 1 ∧
  (reloads (trace w') = reloads (trace w) ∧ r = Threw "script evaluation failed" ∨
   reloads (trace w') = reloads (trace w) + 1 ∧
   Shows (interpolate (typeValue_of productType)) (page w')).
Proof.
  unfold _ensureProductType. rewrite interp_bind.
  destruct (interp me ensureSearchPage w) as [r0 w0] eqn:Hens.
  apply ensureSearchPage_quiet in Hens as Q0.
  destruct r0 as [[]|e| |]; try (intros [= <- <-]; by left).
  rewrite interp_bind, interp_exec.
  assert (Q1 : Quiet w (exec_world me ReadProductType w0)).
  { eapply Quiet_trans; [exact Q0|]. apply Quiet_read. }
  destruct (exec_result ReadProductType w0) as [cur|]; simpl.
  2: { intros [= <- <-]. by left. }
  destruct (same_value cur (typeValue_of productType)).
  { rewrite interp_bind, interp_console. simpl. rewrite interp_Ret.
    intros [= <- <-]. left. eapply Quiet_trans; [exact Q1|]. by apply Quiet_did. }
  rewrite interp_bind, interp_console. simpl.
  rewrite interp_bind, interp_exec.
  set (w2 := did me (Console _) tt (exec_world me ReadProductType w0)).
  assert (Q2 : Quiet w w2).
  { eapply Quiet_trans; [exact Q1|]. by apply Quiet_did. }
  destruct Q2 as (R2 & E2 & _).
  set (w3 := exec_world me (SetProductType (interpolate (typeValue_of productType))) w2).
  assert (E3 : set_evals (trace w3) = set_evals (trace w) + 1).
  { unfold w3. rewrite exec_world_trace, set_evals_snoc, E2. simpl. lia. }
  destruct (exec_result (SetProductType (interpolate (typeValue_of productType))) w2)
    as [[]|] eqn:Hres;
    simpl.
  2: { intros [= <- <-]. right. split; [done|]. left. split; [|done].
       unfold w3. rewrite exec_world_trace, reloads_snoc, Hres, R2. simpl. lia. }
  assert (R3 : reloads (trace w3) = reloads (trace w) + 1).
  { unfold w3. rewrite exec_world_trace, reloads_snoc, Hres, R2. simpl. lia. }
  assert (S3 : Shows (interpolate (typeValue_of productType)) (page w3)).
  { unfold w3. rewrite exec_world_page. apply Hset. exact Hres. }
  rewrite interp_bind.
  destruct (interp me (waitForCondition ListLoaded 8000 500) w3) as [r4 w4] eqn:Hwait.
  apply waitForCondition_quiet in Hwait as (R4 & E4 & S4).
  destruct r4 as [b|e| |];
    try (intros [= <- <-]; right; split; [lia|]; right; split; [lia|auto]).
  rewrite interp_delay. intros [= <- <-]. right. simpl.
  rewrite reloads_snoc, set_evals_snoc. simpl.
  split; [lia|]. right. split; [lia|auto].
Qed.

(** On a page whose form already shows the value, a call changes nothing. *)
Lemma ensureProductType_skip me productType v w r w' :
  typeValue_of productType = TypeString v →
  Shows v (page w) →
  interp me (_ensureProductType productType) w = (r, w') →
  Quiet w w'.
Proof.
  intros Htv Hshow. unfold _ensureProductType. rewrite interp_bind.
  destruct (interp me ensureSearchPage w) as [r0 w0] eqn:Hens.
  apply ensureSearchPage_quiet in Hens as Q0.
  destruct r0 as [[]|e| |]; try (intros [= <- <-]; done).
  assert (Hshow0 : Shows v (page w0)) by (by apply Q0).
  rewrite interp_bind, interp_exec.
  assert (Q1 : Quiet w (exec_world me ReadProductType w0)).
  { eapply Quiet_trans; [exact Q0|]. apply Quiet_read. }
  destruct (Hread _ (now w0) (page w0) Hshow0) as [Hr _].
  unfold exec_result. rewrite Hr, Htv. simpl.
  rewrite bool_decide_true by done.
  rewrite interp_bind, interp_console. simpl. rewrite interp_Ret.
  intros [= <- <-]. eapply Quiet_trans; [exact Q1|]. by apply Quiet_did.
Qed.

(** A product type whose mapped value is a string: a key of the map, or
    a name that [Object.prototype] does not hold, which is mapped to ['1']. *)
Lemma typeValue_of_string productType :
  productType ∉ Object_prototype →
  ∃ v, typeValue_of productType = TypeString v.
Proof.
  intros Hp. unfold typeValue_of. destruct (typeValueMap !! productType); [eauto|].
  rewrite bool_decide_eq_false_2 by done. eauto.
Qed.

(** For a product type whose mapped value is a string,
    [_ensureProductType] reads the form's field first and, when the value
    read is the one mapped to the requested type, logs the fact and
    returns: the trace of the call ends with the read and the log line.
    On a portal whose form keeps the value it is given, two calls in a row
    with the same type therefore evaluate the script that sets the field
    and fires its change event at most once with success; and at most once
    at all when the first call returned normally. *)
Lemma ensureProductType_idempotent me productType v w r1 w1 r2 w2 :
  typeValue_of productType = TypeString v →
  interp me (_ensureProductType productType) w = (r1, w1) →
  interp me (_ensureProductType productType) w1 = (r2, w2) →
  (∀ w0, interp me ensureSearchPage w = (Ok tt, w0) →
         exec_result ReadProductType w0 = Some v →
         r1 = Ok tt ∧
         trace w1 = trace w0 ++
           [Did me (now w0 + exec_latency ReadProductType w0)%Z
                (Exec ReadProductType) (Some v);
            Did me (now w0 + exec_latency ReadProductType w0)%Z
                (Console (MAlreadySet productType)) tt]) ∧
  reloads (trace w2) ≤ reloads (trace w) + 1 ∧
  (r1 = Ok tt → set_evals (trace w2) ≤ set_evals (trace w) + 1).
Proof.
  intros Htv Hrun1 Hrun2. split.
  { intros w0 Hens Hcur. revert Hrun1. unfold _ensureProductType.
    rewrite interp_bind, Hens, interp_bind, interp_exec, Hcur, Htv. simpl.
    rewrite bool_decide_true by done.
    rewrite interp_bind, interp_console. simpl. rewrite interp_Ret.
    intros [= <- <-]. split; [done|]. simpl.
    rewrite exec_world_trace, Hcur, exec_world_now, <- app_assoc. done. }
  destruct (ensureProductType_once _ _ _ _ _ Hrun1)
    as [(R1 & E1 & _)|(E1 & [(R1 & Hr1)|(R1 & S1)])].
  - destruct (ensureProductType_once _ _ _ _ _ Hrun2)
      as [(R2 & E2 & _)|(E2 & [(R2 & _)|(R2 & _)])]; split; intros; lia.
  - destruct (ensureProductType_once _ _ _ _ _ Hrun2)
      as [(R2 & E2 & _)|(E2 & [(R2 & _)|(R2 & _)])]; split; try lia;
      intros ->; discriminate.
  - rewrite Htv in S1. cbn [interpolate] in S1.
    destruct (ensureProductType_skip _ _ _ _ _ _ Htv S1 Hrun2) as (R2 & E2 & _).
    split; intros; lia.
Qed.

(** For a name that [Object.prototype] holds the comparison of line 547
    never succeeds: a call that gets to read the field always goes on to
    evaluate the set script, whatever the field holds. *)
Lemma ensureProductType_inherited me productType key w w0 cur r w' :
  typeValue_of productType = Inherited key →
  interp me ensureSearchPage w = (Ok tt, w0) →
  exec_result ReadProductType w0 = Some cur →
  interp me (_ensureProductType productType) w = (r, w') →
  set_evals (trace w') = set_evals (trace w) + 1.
Proof.
  intros Htv Hens Hcur. unfold _ensureProductType.
  rewrite interp_bind, Hens, interp_bind, interp_exec, Hcur, Htv. simpl.
  apply ensureSearchPage_quiet in Hens as Q0.
  assert (Q1 : Quiet w (exec_world me ReadProductType w0)).
  { eapply Quiet_trans; [exact Q0|]. apply Quiet_read. }
  rewrite interp_bind, interp_console. simpl.
  rewrite interp_bind, interp_exec.
  set (w2 := did me (Console _) tt (exec_world me ReadProductType w0)).
  assert (Q2 : Quiet w w2).
  { eapply Quiet_trans; [exact Q1|]. by apply Quiet_did. }
  destruct Q2 as (_ & E2 & _).
  set (w3 := exec_world me (SetProductType (interpolate (Inherited key))) w2).
  assert (E3 : set_evals (trace w3) = set_evals (trace w) + 1).
  { unfold w3. rewrite exec_world_trace, set_evals_snoc, E2. simpl. lia. }
  destruct (exec_result (SetProductType (interpolate (Inherited key))) w2) as [[]|]; simpl.
  2: { by intros [= <- <-]. }
  rewrite interp_bind.
  destruct (interp me (waitForCondition ListLoaded 8000 500) w3) as [r4 w4] eqn:Hwait.
  apply waitForCondition_quiet in Hwait as (_ & E4 & _).
  destruct r4 as [b|e| |]; try (intros [= <- <-]; lia).
  rewrite interp_delay. intros [= <- <-]. simpl.
  rewrite set_evals_snoc. simpl. lia.
Qed.

End Idempotent.

(** Fewer than two waits have run on this service. *)
Definition cold (w : World) : bool := bool_decide (fetchCount w < 2).

(** Every wait ends, counts as one, and is held to the floor and the
    ceiling that go with the number of waits made before it. *)
Lemma waitForStableArray_ended me w :
  ∃ res w' tr,
    interp me _waitForStableArray w = (res, w') ∧
    trace w' = trace (prelude me w) ++ tr ∧
    fetchCount w' = S (fetchCount w) ∧
    Ended me (now w) (if cold w then 30000 else 20000)%Z
          (if cold w then 4000 else 2000)%Z tr res.
Proof.
  rewrite waitForStableArray_unfold.
  destruct (prelude_fields me w) as (Hn & Hf & Hm & _).
  assert (bool_decide (S (fetchCount w) ≤ 2) = cold w) as Heq
    by (apply bool_decide_ext; lia).
  unfold isFirstFetch. rewrite Heq.
  destruct (stable_loop_ended me (now w) (maxWait_of (cold w)) (minTotalWait_of (cold w))
              (rounds (maxWait_of (cold w)) 500) (prelude me w) 0 0)
    as (res & w' & tr & Hrun & Ht & Hf' & Hres).
  { rewrite Hn. replace (now w - now w)%Z with 0%Z by lia.
    destruct (cold w); vm_compute; congruence. }
  exists res, w', tr. split_and!; [done|done|congruence|].
  unfold maxWait_of, minTotalWait_of in Hres. by destruct (cold w).
Qed.


End Facts.

Arguments prelude {Page} me w.
Arguments exec_result {Page} page_exec {A} s w.
Arguments exec_world {Page} page_exec page_url page_load net {A} me s w.
Arguments cold {Page} w.
Arguments fetched {Page} net me imageUrl w.

(** ** A concrete page *)

(** A small stand-in for the portal page: where it is, what its two form
    fields hold, and how many entries [arrLinkImmagini] (and the label
    cells) have at each time. *)
Record SimplePage := mkSimplePage {
  sp_url : string;
  sp_type : string;
  sp_selected : string;
  sp_steps : Z → Z }.

Definition simple_exec (A : Type) (s : Script A) (t : Z) (p : SimplePage)
  : option A * nat * SimplePage :=
  match s in Script A return option A * nat * SimplePage with
  | Navigate =>
      (Some tt, 0, mkSimplePage PROMETEO_SEARCH_URL "" "" (sp_steps p))
  | SetProductType v =>
      if Js.includes (sp_url p) "ricercaProdotto" then
        (Some tt, 0, mkSimplePage (sp_url p) v (sp_selected p) (sp_steps p))
      else (None, 0, p)   (* no form, no jQuery: the evaluation is rejected *)
  | ReadProductType => (Some (sp_type p), 0, p)
  | ListLoaded => (Some true, 0, p)
  | ExtractCatalog => (Some (mkCatalogData [] [] [] []), 0, p)
  | ResetSteps => (Some tt, 0, p)
  | SelectProduct id =>
      (Some tt, 0, mkSimplePage (sp_url p) (sp_type p) id (sp_steps p))
  | ReadSelected => (Some (sp_selected p), 0, p)
  | StepCount => (Some (sp_steps p t), 0, p)
  | TriggerSearch => (Some tt, 0, p)
  | LabelCount => (Some (sp_steps p t), 0, p)
  | HasInlineLabels => (Some false, 0, p)
  | ExtractCharts => (Some (mkChart "demo" "2026-01-01" []), 0, p)
  end.

Definition no_net (k : nat) (u : string) : Net.FetchResult := Net.Rejected "offline".

(** A logged-in, idle service at time 0 on the search page, with the
    given history of the step array. *)
Definition simple_world (steps : Z → Z) : World SimplePage :=
  mkWorld 0 (mkSimplePage PROMETEO_SEARCH_URL "1" "" steps) true 0 (mkMutex false []) 0 [].

Definition instant (p : SimplePage) : nat := 0.

Abbreviation simple_interp := (interp simple_exec sp_url instant no_net 0).

(** *** Three histories of the step array *)

(** Five entries from the start. *)
Definition steady (t : Z) : Z := 5.

(** One more entry every 500 ms, for ever. *)
Definition growing (t : Z) : Z := t / 500 + 1.

(** Five entries, except that the array is empty between 2000 and 3000 ms. *)
Definition dipping (t : Z) : Z := if (2000 <=? t)%Z && (t <? 3000)%Z then 0 else 5.



(** Three entries, and a fourth from 4200 ms on. *)
Definition late (t : Z) : Z := if (t <? 4200)%Z then 3 else 4.

(** On the late array the first confirmation is rejected: the re-read at
    5500 ms gives 4.  That re-read then stands for the first of the equal
    reads: six polls of the loop that read 4, from 6000 ms to 8500 ms, are
    enough for the second confirmation, and 4 is returned at 10000 ms. *)
Lemma wait_accepts_after_rejected_confirmation :
  (simple_interp _waitForStableArray (simple_world late)).1 = Ok 4%Z ∧
  step_reads (trace (simple_interp _waitForStableArray (simple_world late)).2)
  = [(0, Some 3); (500, Some 3); (1000, Some 3); (1500, Some 3); (2000, Some 3);
     (2500, Some 3); (3000, Some 3); (3500, Some 3); (4000, Some 3);
     (5500, Some 4);
     (6000, Some 4); (6500, Some 4); (7000, Some 4); (7500, Some 4); (8000, Some 4);
     (8500, Some 4);
     (10000, Some 4)]%Z ∧
  loop_heads (trace (simple_interp _waitForStableArray (simple_world late)).2)
  = [0; 500; 1000; 1500; 2000; 2500; 3000; 3500; 4000;
     6000; 6500; 7000; 7500; 8000; 8500]%Z.
Proof. split_and!; vm_compute; reflexivity. Qed.

(** *** A page that never has steps *)

(** The search page with an empty step array at all times; it has no
    state of its own. *)
Definition blank_exec (A : Type) (s : Script A) (t : Z) (p : unit)
  : option A * nat * unit :=
  let '(r, lat, _) :=
    simple_exec A s t (mkSimplePage PROMETEO_SEARCH_URL "1" "" (λ _, 0%Z)) in
  (r, lat, tt).

Definition blank_url (p : unit) : string := PROMETEO_SEARCH_URL.

Definition blank_world : World unit :=
  mkWorld 0 tt true 0 (mkMutex false []) 0 [].

Lemma blank_exec_ok A (s : Script A) t p : is_Some (blank_exec A s t p).1.1.
Proof. destruct s; vm_compute; eauto. Qed.

Lemma pair_from_fst {A B} (x : A * B) (a : A) : x.1 = a → x = (a, x.2).
Proof. intros <-. by destruct x. Qed.

Abbreviation blank_interp := (interp blank_exec blank_url (λ _, 0) no_net 0).

Lemma empty_result_when_no_steps_witness :
  (blank_interp (fetchChartUrls "42") blank_world).1 = Ok (mkChart "" "" []).
Proof.
  refine (proj2 (empty_result_when_no_steps unit blank_exec blank_url (λ _, 0) no_net
                   0 "42" blank_world _ _ _ eq_refl
                   (pair_from_fst _ _ _) (pair_from_fst _ _ _) (pair_from_fst _ _ _)));
    vm_compute; reflexivity.
Defined.


(** *** An error page served with status 200 *)

Definition login_page : Net.Response :=
  Net.mkResponse true 200 "OK" (Some "text/html")
    (Some [Byte.x3c; Byte.x68; Byte.x74; Byte.x6d; Byte.x6c; Byte.x3e]).

Definition html_net (k : nat) (u : string) : Net.FetchResult := Net.Resolved login_page.

Lemma fetchImage_unguarded_witness :
  interp simple_exec sp_url instant html_net 0 (fetchImage "/img/a.png")
    (simple_world steady)
  = (Ok "data:text/html;base64,PGh0bWw+",
     fetched html_net 0 "/img/a.png" (simple_world steady)).
Proof.
  exact (proj1 (fetchImage_unguarded SimplePage simple_exec sp_url instant html_net
                  0 "/img/a.png" (simple_world steady) login_page
                  [Byte.x3c; Byte.x68; Byte.x74; Byte.x6d; Byte.x6c; Byte.x3e]
                  eq_refl eq_refl)).
Defined.

(** *** Switching the product type twice *)

(** The form of the simple page holds a value when the page is the search
    page and its type field has that value. *)
Definition simple_shows (v : string) (p : SimplePage) : Prop :=
  sp_type p = v ∧ Js.includes (sp_url p) "ricercaProdotto" = true.

Lemma simple_set v t p :
  (simple_exec unit (SetProductType v) t p).1.1 = Some tt →
  simple_shows v (simple_exec unit (SetProductType v) t p).2.
Proof.
  unfold simple_shows. simpl.
  destruct (Js.includes (sp_url p) "ricercaProdotto") eqn:Hu; simpl; [|done].
  by rewrite Hu.
Qed.

Lemma simple_read v t p :
  simple_shows v p →
  (simple_exec string ReadProductType t p).1.1 = Some v ∧
  simple_shows v (simple_exec string ReadProductType t p).2.
Proof. intros [<- Hu]. by repeat split. Qed.

Lemma simple_poll v t p :
  simple_shows v p → simple_shows v (simple_exec bool ListLoaded t p).2.
Proof. done. Qed.

Lemma simple_here v p :
  simple_shows v p → Js.includes (sp_url p) "ricercaProdotto" = true.
Proof. by intros [_ Hu]. Qed.

Lemma ensureProductType_idempotent_witness :
  reloads (trace (simple_interp (_ensureProductType "SATELLITE")
                    (simple_interp (_ensureProductType "SATELLITE")
                       (simple_world steady)).2).2)
  ≤ reloads (trace (simple_world steady)) + 1.
Proof.
  exact (proj1 (proj2
    (ensureProductType_idempotent SimplePage simple_exec sp_url instant no_net
       simple_shows simple_set simple_read simple_poll simple_here
       0 "SATELLITE" "2" (simple_world steady) _ _ _ _ eq_refl
       (surjective_pairing _) (surjective_pairing _)))).
Defined.

(** The simple page after two calls of [_ensureProductType] in a row. *)
Definition switched_twice (productType : string) : World SimplePage :=
  (simple_interp (_ensureProductType productType)
     (simple_interp (_ensureProductType productType) (simple_world steady)).2).2.

(** C8 (the part the code breaks).  ["constructor"] is not a key of
    [typeValueMap], and the lookup of line 540 finds the function that
    every object inherits under that name, so the default ['1'] does not
    apply.  A function is never identical to the string read from the
    form: on the simple page, whose form keeps the value it is given, each
    of two calls in a row with ["constructor"] returns normally after it
    has set the field, to the source text of that function, and fired the
    reload.  With ["SATELLITE"] the second call sets nothing, and with a
    name that nothing holds, which is mapped to ['1'], the value the form
    already shows, neither call does. *)
Theorem inherited_type_is_set_twice :
  typeValue_of "constructor" = Inherited "constructor" ∧
  (simple_interp (_ensureProductType "constructor") (simple_world steady)).1 = Ok tt ∧
  (simple_interp (_ensureProductType "constructor")
     (simple_interp (_ensureProductType "constructor") (simple_world steady)).2).1 = Ok tt ∧
  reloads (trace (simple_interp (_ensureProductType "constructor")
                    (simple_world steady)).2) = 1 ∧
  reloads (trace (switched_twice "constructor")) = 2 ∧
  sp_type (page (switched_twice "constructor")) = "function Object() { [native code] }" ∧
  reloads (trace (switched_twice "SATELLITE")) = 1 ∧
  typeValue_of "NO SUCH TYPE" = TypeString "1" ∧
  reloads (trace (switched_twice "NO SUCH TYPE")) = 0.
Proof. split_and!; vm_compute; reflexivity. Qed.

End PrometeoFacts.

(** * The mutex under concurrent calls *)

Module MutexFacts.
Import Prometeo.
Local Open Scope prog_scope.

(** ** What a run of a fair lock looks like

    A monitor reads the trace of a run from left to right and keeps: the
    call that holds the lock, the calls that have asked for it and have
    not been served, oldest first, the calls that have asked and the
    calls that have been granted it, both in order, and the calls that
    have released.  It accepts a trace in which a call asks at
    most once, the lock is granted only when nobody holds it and only to
    the oldest pending call, and a call touches the session, or releases,
    only while it is the holder, and does nothing once it has released. *)
Record Monitor := mkMonitor {
  holder : option nat;
  pending : list nat;
  arrived : list nat;
  granted : list nat;
  finished : list nat }.

Definition is_acquire {X} (e : Eff X) : bool :=
  match e with Acquire => true | _ => false end.

Definition is_release {X} (e : Eff X) : bool :=
  match e with Release => true | _ => false end.

Definition is_mutex {X} (e : Eff X) : bool := is_acquire e || is_release e.

Definition monitor_step (st : Monitor) (en : Entry) : option Monitor :=
  match en with
  | Did i _ e _ =>
      if is_acquire e then
        if bool_decide (i ∈ arrived st) then None
        else Some (mkMonitor (holder st) (pending st ++ [i]) (arrived st ++ [i]) (granted st)
                        (finished st))
      else if bool_decide (holder st = Some i ∧ i ∉ finished st) then
        if is_release e then
          Some (mkMonitor None (pending st) (arrived st) (granted st) (i :: finished st))
        else Some st
      else None
  | Granted j _ =>
      match holder st, pending st with
      | None, j' :: rest =>
          if bool_decide (j' = j) then
            Some (mkMonitor (Some j) rest (arrived st) (granted st ++ [j]) (finished st))
          else None
      | _, _ => None
      end
  end.

Definition monitor_from (st : option Monitor) (tr : list Entry) : option Monitor :=
  foldl (λ st en, st ≫= λ s, monitor_step s en) st tr.

Definition monitor (tr : list Entry) : option Monitor :=
  monitor_from (Some (mkMonitor None [] [] [] [])) tr.

(** ** The shape of the method bodies *)

(** A program that never touches the mutex. *)
Fixpoint NoMutex {A} (p : Prog A) : Prop :=
  match p with
  | Vis e k => is_mutex e = false ∧ ∀ x, NoMutex (k x)
  | _ => True
  end.

(** A call that has returned or thrown. *)
Definition Done {A} (p : Prog A) : Prop :=
  match p with
  | Ret _ | Throw _ => True
  | _ => False
  end.

(** What is left of a call that holds the lock: some effects that do not
    touch the mutex, then one [releaseLock], then nothing. *)
Fixpoint InCrit {A} (p : Prog A) : Prop :=
  match p with
  | Vis e k =>
      is_release e = true ∧ (∀ x, Done (k x)) ∨
      is_mutex e = false ∧ (∀ x, InCrit (k x))
  | Diverge => True
  | _ => False
  end.

(** A call that has not started: it asks for the lock first. *)
Definition Initial {A} (p : Prog A) : Prop :=
  match p with
  | Vis e k => is_acquire e = true ∧ ∀ x, InCrit (k x)
  | _ => False
  end.

(** Where caller [i] stands, given the monitor's reading of the trace and
    the queue of the mutex. *)
Definition phase {A} (st : Monitor) (q : list nat) (i : nat) (th : Thread A) : Prop :=
  match th with
  | Runnable p =>
      (Initial p ∧ (i ∉ arrived st) ∧ (i ∉ finished st)) ∨
      (InCrit p ∧ holder st = Some i ∧ (i ∉ finished st)) ∨
      (Done p ∧ holder st ≠ Some i ∧ (i ∈ finished st))
  | Waiting p => InCrit p ∧ (i ∈ q) ∧ (i ∉ finished st)
  end.

(** A call has ended when it has returned or thrown. *)
Definition ended {A} (th : Thread A) : Prop :=
  match th with
  | Runnable p => Done p
  | Waiting _ => False
  end.

Lemma monitor_snoc tr en :
  monitor (tr ++ [en]) = monitor tr ≫= λ s, monitor_step s en.
Proof. unfold monitor, monitor_from. by rewrite foldl_app. Qed.

Lemma monitor_from_None tr : monitor_from None tr = None.
Proof. by induction tr. Qed.

Lemma monitor_from_cons st en tr :
  monitor_from (Some st) (en :: tr) = monitor_from (monitor_step st en) tr.
Proof. reflexivity. Qed.

Lemma monitor_from_app st tr1 tr2 :
  monitor_from st (tr1 ++ tr2) = monitor_from (monitor_from st tr1) tr2.
Proof. apply foldl_app. Qed.

(** The calls served and the calls waiting are, in this order, the calls
    that arrived. *)
Lemma monitor_step_fifo st en st' :
  monitor_step st en = Some st' →
  arrived st = granted st ++ pending st → arrived st' = granted st' ++ pending st'.
Proof.
  destruct en as [i t X e x|j t]; simpl; intros Hstep Hfifo.
  - repeat case_match; simplify_eq; simpl; [|done..].
    by rewrite Hfifo, app_assoc.
  - repeat case_match; simplify_eq; simpl.
    match goal with H : bool_decide _ = true |- _ =>
      apply bool_decide_eq_true in H as -> end.
    by rewrite <- app_assoc.
Qed.

Lemma monitor_fifo tr st :
  monitor tr = Some st → arrived st = granted st ++ pending st.
Proof.
  revert st. induction tr as [|en tr IH] using rev_ind; intros st.
  - by intros [= <-].
  - rewrite monitor_snoc. destruct (monitor tr) as [s|]; [|done]. simpl.
    intros Hstep. eapply monitor_step_fifo; eauto.
Qed.

(** Who may appear in the trace between two session effects of call [i]:
    call [i] itself, and calls that arrive. *)
Definition own_or_arrival (i : nat) (en : Entry) : Prop :=
  match en with
  | Did j _ e _ => j = i ∨ is_acquire e = true
  | Granted _ _ => False
  end.

Lemma monitor_step_finished st en st' i :
  monitor_step st en = Some st' → i ∈ finished st → i ∈ finished st'.
Proof.
  destruct en as [j t X e x|j t]; simpl; intros Hstep Hi;
    repeat case_match; simplify_eq; simpl; try done.
  by right.
Qed.

Lemma monitor_from_finished tr : ∀ st st' i,
  monitor_from (Some st) tr = Some st' → i ∈ finished st → i ∈ finished st'.
Proof.
  induction tr as [|en tr IH]; intros st st' i; [by intros [= <-]|].
  rewrite monitor_from_cons. destruct (monitor_step st en) as [s|] eqn:Hs.
  - intros Hrun Hi. eapply IH; [exact Hrun|]. by eapply monitor_step_finished.
  - by rewrite monitor_from_None.
Qed.

Lemma monitor_step_after_release {X} st i t (e : Eff X) x :
  is_acquire e = false → i ∈ finished st → monitor_step st (Did i t e x) = None.
Proof.
  intros He Hi. simpl. rewrite He. rewrite bool_decide_false; [done|]. by intros [_ ?].
Qed.

Lemma monitor_window i tr : ∀ st st' t X (e : Eff X) x,
  holder st = Some i →
  monitor_from (Some st) (tr ++ [Did i t e x]) = Some st' → is_acquire e = false →
  Forall (own_or_arrival i) tr.
Proof.
  induction tr as [|en tr IH]; intros st st' t X e x Hh Hrun He; [done|].
  rewrite <- app_comm_cons, monitor_from_cons in Hrun.
  destruct (monitor_step st en) as [s|] eqn:Hs; [|by rewrite monitor_from_None in Hrun].
  destruct en as [j tj Y ej xj|j tj]; simpl in Hs.
  - destruct (is_acquire ej) eqn:Ha.
    + case_match; simplify_eq. constructor; [by right|].
      eapply IH; [|exact Hrun|exact He]. exact Hh.
    + case_match; [|done].
      match goal with H : bool_decide _ = true |- _ =>
        apply bool_decide_eq_true in H as [Hj Hfin] end.
      assert (j = i) as -> by congruence.
      constructor; [by left|].
      destruct (is_release ej); simplify_eq; [|by eapply IH; [|exact Hrun|exact He]].
      exfalso. rewrite monitor_from_app in Hrun.
      destruct (monitor_from _ tr) as [s'|] eqn:Hs'; [|done].
      rewrite monitor_from_cons, monitor_step_after_release in Hrun; [done..|].
      eapply monitor_from_finished; [exact Hs'|]. by left.
  - rewrite Hh in Hs. done.
Qed.

(** Between two session effects of the same call nothing happens but that
    call's own effects and arrivals of other calls. *)
Lemma monitor_no_interleaving tr1 tr2 tr3 i t1 t2 {X1 X2} (e1 : Eff X1) (e2 : Eff X2)
    x1 x2 st :
  monitor (tr1 ++ Did i t1 e1 x1 :: tr2 ++ Did i t2 e2 x2 :: tr3) = Some st →
  is_acquire e1 = false → is_acquire e2 = false →
  Forall (own_or_arrival i) tr2.
Proof.
  unfold monitor. intros Hrun He1 He2.
  rewrite monitor_from_app in Hrun.
  destruct (monitor_from _ tr1) as [s1|] eqn:Hs1; [|by rewrite monitor_from_None in Hrun].
  rewrite monitor_from_cons in Hrun.
  destruct (monitor_step s1 _) as [s2|] eqn:Hs2; [|by rewrite monitor_from_None in Hrun].
  replace (tr2 ++ Did i t2 e2 x2 :: tr3) with ((tr2 ++ [Did i t2 e2 x2]) ++ tr3) in Hrun
    by (by rewrite <- app_assoc).
  rewrite monitor_from_app in Hrun.
  destruct (monitor_from (Some s2) _) as [s3|] eqn:Hs3;
    [|by rewrite monitor_from_None in Hrun].
  simpl in Hs2. rewrite He1 in Hs2. case_match; [|done].
  match goal with H : bool_decide _ = true |- _ =>
    apply bool_decide_eq_true in H as [Hh Hfin] end.
  destruct (is_release e1); simplify_eq;
    [|by eapply monitor_window; [|exact Hs3|exact He2]].
  exfalso. rewrite monitor_from_app in Hs3.
  destruct (monitor_from _ tr2) as [s'|] eqn:Hs'; [|done].
  rewrite monitor_from_cons, monitor_step_after_release in Hs3; [done..|].
  eapply monitor_from_finished; [exact Hs'|]. by left.
Qed.

Lemma monitor_step_plain {X} st i t (e : Eff X) x :
  is_mutex e = false → holder st = Some i → i ∉ finished st →
  monitor_step st (Did i t e x) = Some st.
Proof.
  intros He Hh Hf. unfold is_mutex in He. apply orb_false_iff in He as [Ha Hr].
  unfold monitor_step. rewrite Ha, Hr, bool_decide_true by done. done.
Qed.

Lemma NoMutex_bind {A B} (p : Prog A) (f : A → Prog B) :
  NoMutex p → (∀ a, NoMutex (f a)) → NoMutex (bind p f).
Proof.
  intros Hp Hf. induction p as [a|e| |X e k IH]; simpl; auto.
  destruct Hp as [He Hk]. split; [done|]. intros x. by apply IH.
Qed.

Lemma NoMutex_try_catch {A} (p : Prog A) (h : string → Prog A) :
  NoMutex p → (∀ e, NoMutex (h e)) → NoMutex (try_catch p h).
Proof.
  intros Hp Hh. induction p as [a|e| |X e k IH]; simpl; auto.
  destruct Hp as [He Hk]. split; [done|]. intros x. by apply IH.
Qed.

Lemma NoMutex_perform {X} (e : Eff X) : is_mutex e = false → NoMutex (perform e).
Proof. by split. Qed.

Lemma NoMutex_exec {A} (s : Script A) : NoMutex (exec s).
Proof. split; [done|]. by intros [a|]. Qed.

Ltac nomutex_step :=
  match goal with
  | |- ∀ _, _ => intro
  | |- NoMutex (bind _ _) => apply NoMutex_bind
  | |- NoMutex (try_catch _ _) => apply NoMutex_try_catch
  | |- NoMutex (exec _) => apply NoMutex_exec
  | |- NoMutex (perform _) => by apply NoMutex_perform
  | |- NoMutex (delay _) => by apply NoMutex_perform
  | |- NoMutex (console _) => by apply NoMutex_perform
  | |- NoMutex (Ret _) => exact I
  | |- NoMutex (Throw _) => exact I
  | |- NoMutex Diverge => exact I
  | |- NoMutex (if ?b then _ else _) => destruct b
  | |- NoMutex (match ?x with _ => _ end) => destruct x
  | H : ∀ _, NoMutex _ |- NoMutex _ => apply H
  end.

Ltac nomutex := repeat nomutex_step.

Lemma NoMutex_ensureSearchPage : NoMutex ensureSearchPage.
Proof. unfold ensureSearchPage. nomutex. Qed.

Lemma NoMutex_waitForCondition_loop fuel cond start maxWaitMs intervalMs :
  NoMutex (waitForCondition_loop fuel cond start maxWaitMs intervalMs).
Proof. induction fuel as [|fuel IH]; [exact I|]. cbn [waitForCondition_loop]. nomutex. exact IH. Qed.

Lemma NoMutex_waitForCondition cond maxWaitMs intervalMs :
  NoMutex (waitForCondition cond maxWaitMs intervalMs).
Proof. unfold waitForCondition. nomutex. apply NoMutex_waitForCondition_loop. Qed.

Lemma NoMutex_stable_round start minTotalWait lastCount stableChecks :
  NoMutex (stable_round start minTotalWait lastCount stableChecks).
Proof. unfold stable_round. nomutex. Qed.

Lemma NoMutex_stable_loop fuel : ∀ start maxWait minTotalWait lastCount stableChecks,
  NoMutex (stable_loop fuel start maxWait minTotalWait lastCount stableChecks).
Proof.
  induction fuel as [|fuel IH]; intros; [exact I|]. cbn [stable_loop].
  nomutex; try apply NoMutex_stable_round; apply IH.
Qed.

Lemma NoMutex_waitForStableArray : NoMutex _waitForStableArray.
Proof. unfold _waitForStableArray. nomutex; apply NoMutex_stable_loop. Qed.

Lemma NoMutex_label_loop fuel labelWaitStart expectedCount :
  NoMutex (label_loop fuel labelWaitStart expectedCount).
Proof. induction fuel as [|fuel IH]; [exact I|]. cbn [label_loop]. nomutex; exact IH. Qed.

Lemma NoMutex_fetchProductCatalog filter : NoMutex (_fetchProductCatalog filter).
Proof.
  unfold _fetchProductCatalog.
  nomutex; first [apply NoMutex_ensureSearchPage | apply NoMutex_waitForCondition].
Qed.

Lemma NoMutex_ensureProductType productType : NoMutex (_ensureProductType productType).
Proof.
  unfold _ensureProductType.
  nomutex; first [apply NoMutex_ensureSearchPage | apply NoMutex_waitForCondition].
Qed.

Lemma NoMutex_fetchChartUrls productId : NoMutex (_fetchChartUrls productId).
Proof.
  unfold _fetchChartUrls, select_product, search_fallback.
  nomutex;
    first [apply NoMutex_ensureSearchPage | apply NoMutex_waitForStableArray
          | apply NoMutex_label_loop].
Qed.

(** The body of a public operation holds the lock until the single
    [releaseLock] of its [finally]. *)
Lemma InCrit_finally {A B} (body : Prog A) (f : A → Prog B) :
  NoMutex body → (∀ a, Done (f a)) →
  InCrit (bind (try_finally body releaseLock) f).
Proof.
  intros Hb Hf. induction body as [a|e| |X e k IH]; simpl.
  - left. split; [done|]. intros x. apply Hf.
  - left. split; [done|]. by intros x.
  - done.
  - destruct Hb as [He Hk]. right. split; [done|]. intros x. by apply IH.
Qed.

Lemma Initial_locked {A B} (body : Prog A) (f : A → Prog B) :
  NoMutex body → (∀ a, Done (f a)) →
  Initial (bind (bind (perform Acquire) (λ _, try_finally body releaseLock)) f).
Proof.
  intros Hb Hf. split; [done|]. intros x. cbn [bind]. by apply InCrit_finally.
Qed.

Lemma Initial_run_call c : Initial (run_call c).
Proof.
  destruct c; apply Initial_locked; try done; nomutex;
    first [apply NoMutex_fetchProductCatalog | apply NoMutex_fetchChartUrls
          | apply NoMutex_ensureProductType].
Qed.

(** ** The invariant of a concurrent run *)

Section Run.

Context {Page : Type}.
Context (page_exec : ∀ A, Script A → Z → Page → option A * nat * Page).
Context (page_url : Page → string) (page_load : Page → nat).
Context (net : nat → string → Net.FetchResult).

Local Abbreviation handle := (Prometeo.handle page_exec page_url page_load net).
Local Abbreviation cstep := (Prometeo.cstep page_exec page_url page_load net).
Local Abbreviation csteps := (Prometeo.csteps page_exec page_url page_load net).

(** An effect that is not a mutex call goes on at once, wakes nobody,
    leaves the mutex as it is and adds one line to the trace. *)
Lemma handle_plain {X} i (e : Eff X) (w : World Page) :
  is_mutex e = false →
  ∃ x t w', handle i e w = (Continue x, None, w') ∧
            mutex w' = mutex w ∧ trace w' = trace w ++ [Did i t e x].
Proof.
  intros He. destruct e; try discriminate He; simpl; eauto 10.
  destruct (page_exec A s (now w) (page w)) as [[r lat] p']. simpl. eauto 10.
Qed.

Record Inv {A} (ts : list (Thread A)) (w : World Page) (st : Monitor) : Prop := mkInv {
  inv_monitor : monitor (trace w) = Some st;
  inv_queue : pending st = mutexQueue (mutex w);
  inv_locked : mutexLocked (mutex w) = bool_decide (is_Some (holder st));
  inv_idle : mutexLocked (mutex w) = false → mutexQueue (mutex w) = [];
  inv_nodup : NoDup (mutexQueue (mutex w));
  inv_waiting : ∀ j, j ∈ mutexQueue (mutex w) → ∃ p, ts !! j = Some (Waiting p);
  inv_holder : ∀ i, holder st = Some i → ∃ p, ts !! i = Some (Runnable p) ∧ InCrit p;
  inv_phase : ∀ i th, ts !! i = Some th → phase st (mutexQueue (mutex w)) i th }.

Lemma not_elem_of_snoc (l : list nat) i j : j ∉ l → i ≠ j → j ∉ l ++ [i].
Proof.
  intros Hl Hne [Hin|Hin]%elem_of_app; [done|].
  apply list_elem_of_singleton in Hin. congruence.
Qed.

Lemma not_elem_of_push (l : list nat) i j : j ∉ l → i ≠ j → j ∉ i :: l.
Proof. intros Hl Hne. apply not_elem_of_cons. split; [congruence|done]. Qed.

Lemma elem_of_tail (l : list nat) i j : j ∈ i :: l → i ≠ j → j ∈ l.
Proof. intros [Heq|Hin]%elem_of_cons Hne; [congruence|done]. Qed.

Lemma Initial_not_InCrit {A} (p : Prog A) : Initial p → InCrit p → False.
Proof.
  destruct p as [a|e| |X e k]; try done. intros [Ha _] [[Hr _]|[Hm _]].
  - by destruct e.
  - unfold is_mutex in Hm. by rewrite Ha in Hm.
Qed.

Lemma Done_not_InCrit {A} (p : Prog A) : Done p → InCrit p → False.
Proof. by destruct p. Qed.

(** The call that asks finds the lock held and joins the queue. *)
Lemma Inv_enqueue {A} (ts : list (Thread A)) w st i (k : unit → Prog A) :
  Inv ts w st → ts !! i = Some (Runnable (Vis Acquire k)) →
  mutexLocked (mutex w) = true →
  Inv (<[i := Waiting (k tt)]> ts)
      (did i Acquire tt
         (mkWorld (now w) (page w) (loggedIn w) (fetchCount w)
                  (mkMutex (mutexLocked (mutex w)) (mutexQueue (mutex w) ++ [i]))
                  (nfetch w) (trace w)))
      (mkMonitor (holder st) (pending st ++ [i]) (arrived st ++ [i]) (granted st)
                 (finished st)).
Proof.
  intros [Hmon Hq Hl Hidle Hnd Hwait Hhold Hph] Hi Hlocked.
  assert (Hlen : i < length ts) by (by eapply lookup_lt_Some).
  destruct (Hph _ _ Hi) as [(Hini & Harr & Hfin)|[(Hc & _)|(Hd & _)]]; [| |done].
  2: { destruct Hc as [[Hr _]|[Hm _]]; done. }
  destruct Hini as [_ Hk].
  assert (Hiq : i ∉ mutexQueue (mutex w)).
  { intros Hin. destruct (Hwait _ Hin) as [p Hp]. congruence. }
  split; simpl.
  - rewrite monitor_snoc, Hmon. simpl. by rewrite bool_decide_false.
  - by rewrite Hq.
  - done.
  - intros Hf. congruence.
  - apply NoDup_app. split_and!; [done| |apply NoDup_singleton].
    intros j Hj ->%list_elem_of_singleton. done.
  - intros j [Hj| ->%list_elem_of_singleton]%elem_of_app.
    + destruct (Hwait _ Hj) as [p Hp]. exists p.
      rewrite list_lookup_insert_ne; [done|]. intros ->. done.
    + exists (k tt). by rewrite list_lookup_insert_eq.
  - intros o Ho. destruct (Hhold _ Ho) as (p & Hp & Hcp). exists p. split; [|done].
    rewrite list_lookup_insert_ne; [done|]. intros ->.
    rewrite Hi in Hp. injection Hp as <-. destruct Hcp as [[Hr _]|[Hm _]]; done.
  - intros j th [(-> & <- & _)|(Hne & Hj)]%list_lookup_insert_Some.
    + simpl. split_and!; [apply Hk|set_solver|done].
    + specialize (Hph _ _ Hj). destruct th as [p|p]; simpl in *.
      * destruct Hph as [(Hp1 & Hp2 & Hp3)|[Hp|Hp]]; [left|right; by left|right; by right].
        split_and!; [done| |done]. by apply not_elem_of_snoc.
      * destruct Hph as (Hp1 & Hp2 & Hp3). split_and!; [done|set_solver|done].
Qed.

(** The call that asks finds the lock free and takes it. *)
Lemma Inv_take {A} (ts : list (Thread A)) w st i (k : unit → Prog A) :
  Inv ts w st → ts !! i = Some (Runnable (Vis Acquire k)) →
  mutexLocked (mutex w) = false →
  Inv (<[i := Runnable (k tt)]> ts)
      (record (Granted i (now w))
         (did i Acquire tt
            (mkWorld (now w) (page w) (loggedIn w) (fetchCount w)
                     (mkMutex true (mutexQueue (mutex w))) (nfetch w) (trace w))))
      (mkMonitor (Some i) [] (arrived st ++ [i]) (granted st ++ [i]) (finished st)).
Proof.
  intros [Hmon Hq Hl Hidle Hnd Hwait Hhold Hph] Hi Hfree.
  assert (Hlen : i < length ts) by (by eapply lookup_lt_Some).
  destruct (Hph _ _ Hi) as [(Hini & Harr & Hfin)|[(Hc & _)|(Hd & _)]]; [| |done].
  2: { destruct Hc as [[Hr _]|[Hm _]]; done. }
  destruct Hini as [_ Hk].
  assert (Hq0 := Hidle Hfree).
  assert (Hnone : holder st = None).
  { rewrite Hfree in Hl. destruct (holder st); [|done].
    by rewrite bool_decide_true in Hl. }
  split; simpl.
  - rewrite !monitor_snoc, Hmon. simpl. rewrite bool_decide_false by done. simpl.
    rewrite Hnone, Hq, Hq0. simpl. by rewrite bool_decide_true.
  - by rewrite Hq0.
  - done.
  - done.
  - done.
  - intros j Hj. rewrite Hq0 in Hj. by apply elem_of_nil in Hj.
  - intros o [= <-]. exists (k tt). by rewrite list_lookup_insert_eq.
  - intros j th [(-> & <- & _)|(Hne & Hj)]%list_lookup_insert_Some.
    + simpl. right. left. done.
    + specialize (Hph _ _ Hj). destruct th as [p|p]; simpl in *.
      * destruct Hph as [(Hp1 & Hp2 & Hp3)|[(Hp1 & Hp2 & Hp3)|(Hp1 & Hp2 & Hp3)]].
        -- left. split_and!; [done| |done]. by apply not_elem_of_snoc.
        -- congruence.
        -- right. right. split_and!; [done| |done]. congruence.
      * destruct Hph as (_ & Hp2 & _). rewrite Hq0 in Hp2. by apply elem_of_nil in Hp2.
Qed.

(** The holder performs an effect that is not a mutex call. *)
Lemma Inv_plain {A X} (ts : list (Thread A)) w w' st i t (e : Eff X) x (k : X → Prog A) :
  Inv ts w st → ts !! i = Some (Runnable (Vis e k)) →
  is_mutex e = false →
  mutex w' = mutex w → trace w' = trace w ++ [Did i t e x] →
  Inv (<[i := Runnable (k x)]> ts) w' st.
Proof.
  intros [Hmon Hq Hl Hidle Hnd Hwait Hhold Hph] Hi He Hm Htr.
  assert (Hlen : i < length ts) by (by eapply lookup_lt_Some).
  destruct (Hph _ _ Hi) as [(Hini & _)|[(Hc & Hh & Hfin)|(Hd & _)]]; [| |done].
  { destruct Hini as [Ha _]. unfold is_mutex in He. by rewrite Ha in He. }
  destruct Hc as [[Hr _]|[_ Hk]].
  { unfold is_mutex in He. rewrite Hr, orb_true_r in He. done. }
  split; rewrite ?Hm; try done.
  - rewrite Htr, monitor_snoc, Hmon. exact (monitor_step_plain st i t e x He Hh Hfin).
  - intros j Hj. destruct (Hwait _ Hj) as [p Hp]. exists p.
    rewrite list_lookup_insert_ne; [done|]. intros ->. congruence.
  - intros o Ho. assert (o = i) as -> by congruence.
    exists (k x). by rewrite list_lookup_insert_eq.
  - intros j th [(-> & <- & _)|(Hne & Hj)]%list_lookup_insert_Some.
    + simpl. right. left. done.
    + by apply Hph.
Qed.

(** The holder releases and nobody is waiting. *)
Lemma Inv_release {A} (ts : list (Thread A)) w st i (k : unit → Prog A) :
  Inv ts w st → ts !! i = Some (Runnable (Vis Release k)) →
  mutexQueue (mutex w) = [] →
  Inv (<[i := Runnable (k tt)]> ts)
      (did i Release tt
         (mkWorld (now w) (page w) (loggedIn w) (fetchCount w) (mkMutex false [])
                  (nfetch w) (trace w)))
      (mkMonitor None (pending st) (arrived st) (granted st) (i :: finished st)).
Proof.
  intros [Hmon Hq Hl Hidle Hnd Hwait Hhold Hph] Hi Hq0.
  assert (Hlen : i < length ts) by (by eapply lookup_lt_Some).
  destruct (Hph _ _ Hi) as [(Hini & _)|[(Hc & Hh & Hfin)|(Hd & _)]]; [| |done].
  { by destruct Hini as [Ha _]. }
  destruct Hc as [[_ Hk]|[Hm _]]; [|done].
  split; simpl.
  - rewrite monitor_snoc, Hmon. simpl. by rewrite bool_decide_true.
  - by rewrite Hq.
  - done.
  - done.
  - apply NoDup_nil_2.
  - intros j Hj. by apply elem_of_nil in Hj.
  - done.
  - intros j th [(-> & <- & _)|(Hne & Hj)]%list_lookup_insert_Some.
    + simpl. right. right. split_and!; [apply Hk|done|set_solver].
    + specialize (Hph _ _ Hj). destruct th as [p|p]; simpl in *.
      * destruct Hph as [(Hp1 & Hp2 & Hp3)|[(Hp1 & Hp2 & Hp3)|(Hp1 & Hp2 & Hp3)]].
        -- left. split_and!; [done|done|]. by apply not_elem_of_push.
        -- congruence.
        -- right. right. split_and!; [done|done|]. set_solver.
      * destruct Hph as (_ & Hp2 & _). rewrite Hq0 in Hp2. by apply elem_of_nil in Hp2.
Qed.

(** The holder releases and hands the lock to the oldest waiter. *)
Lemma Inv_handoff {A} (ts : list (Thread A)) w st i j q (k : unit → Prog A) pj :
  Inv ts w st → ts !! i = Some (Runnable (Vis Release k)) →
  mutexQueue (mutex w) = j :: q → ts !! j = Some (Waiting pj) →
  Inv (<[j := Runnable pj]> (<[i := Runnable (k tt)]> ts))
      (record (Granted j (now w))
         (did i Release tt
            (mkWorld (now w) (page w) (loggedIn w) (fetchCount w)
                     (mkMutex (mutexLocked (mutex w)) q) (nfetch w) (trace w))))
      (mkMonitor (Some j) q (arrived st) (granted st ++ [j]) (i :: finished st)).
Proof.
  intros [Hmon Hq Hl Hidle Hnd Hwait Hhold Hph] Hi Hq0 Hj.
  assert (Hlen : i < length ts) by (by eapply lookup_lt_Some).
  assert (Hlenj : j < length ts) by (by eapply lookup_lt_Some).
  assert (Hij : i ≠ j) by (intros ->; congruence).
  destruct (Hph _ _ Hi) as [(Hini & _)|[(Hc & Hh & Hfin)|(Hd & _)]]; [| |done].
  { by destruct Hini as [Ha _]. }
  destruct Hc as [[_ Hk]|[Hm _]]; [|done].
  destruct (Hph _ _ Hj) as (Hcj & _ & Hfj).
  rewrite Hq0 in Hnd. apply NoDup_cons in Hnd as [Hjq Hnd].
  assert (Hlocked : mutexLocked (mutex w) = true).
  { destruct (mutexLocked (mutex w)) eqn:E; [done|]. specialize (Hidle eq_refl). congruence. }
  split; simpl.
  - rewrite !monitor_snoc, Hmon. simpl. rewrite bool_decide_true by done. simpl.
    rewrite Hq, Hq0. by rewrite bool_decide_true.
  - done.
  - exact Hlocked.
  - congruence.
  - done.
  - intros o Ho. destruct (Hwait o) as [p Hp]; [rewrite Hq0; set_solver|].
    exists p. rewrite !list_lookup_insert_ne; [done|congruence|].
    intros ->. done.
  - intros o [= <-]. exists pj. split; [|done].
    rewrite list_lookup_insert_eq; [done|]. by rewrite length_insert.
  - intros o th [(-> & <- & _)|(Hne & Ho)]%list_lookup_insert_Some.
    { simpl. right. left. split_and!; [done|done|]. by apply not_elem_of_push. }
    apply list_lookup_insert_Some in Ho as [(-> & <- & _)|(Hne' & Ho)].
    { simpl. right. right. split_and!; [apply Hk|congruence|set_solver]. }
    specialize (Hph _ _ Ho). destruct th as [p|p]; simpl in *.
    + destruct Hph as [(Hp1 & Hp2 & Hp3)|[(Hp1 & Hp2 & Hp3)|(Hp1 & Hp2 & Hp3)]].
      * left. split_and!; [done|done|]. by apply not_elem_of_push.
      * congruence.
      * right. right. split_and!; [done|congruence|set_solver].
    + destruct Hph as (Hp1 & Hp2 & Hp3). rewrite Hq0 in Hp2.
      split_and!; [done|by eapply elem_of_tail|by apply not_elem_of_push].
Qed.

(** One step of the event loop keeps the invariant. *)
Lemma Inv_cstep {A} i (c : Config Page A) st :
  Inv (threads c) (world c) st →
  ∃ st', Inv (threads (cstep i c)) (world (cstep i c)) st'.
Proof.
  intros HI. unfold Prometeo.cstep.
  destruct (threads c !! i) as [[p|p]|] eqn:Hi; [|by eauto..].
  destruct p as [a|err| |X e k]; [by eauto..|].
  destruct (is_mutex e) eqn:He.
  2: { destruct (handle_plain i e (world c) He) as (x & t & w' & Hh & Hm & Htr).
       rewrite Hh. simpl. eexists. by eapply Inv_plain. }
  destruct e; try discriminate He; simpl.
  - unfold acquireLock. destruct (mutexLocked (mutex (world c))) eqn:Hl; simpl.
    + eexists. rewrite <- Hl. by apply Inv_enqueue.
    + eexists. by apply Inv_take.
  - unfold releaseLock_fields. destruct (mutexQueue (mutex (world c))) as [|j q] eqn:Hq; simpl.
    + eexists. by apply Inv_release.
    + destruct (inv_waiting _ _ _ HI j) as [pj Hj]; [rewrite Hq; by left|].
      assert (Hij : i ≠ j) by (intros ->; congruence).
      rewrite list_lookup_insert_ne, Hj by done.
      eexists. by eapply Inv_handoff.
Qed.

Lemma Inv_csteps {A} sched : ∀ (c : Config Page A) st,
  Inv (threads c) (world c) st →
  ∃ st', Inv (threads (csteps sched c)) (world (csteps sched c)) st'.
Proof.
  induction sched as [|i sched IH]; intros c st HI; [by eauto|].
  destruct (Inv_cstep i c st HI) as [st' HI']. exact (IH _ _ HI').
Qed.

(** Before anything has run: nobody holds the lock, nobody has asked. *)
Lemma Inv_start (calls : list Call) (w : World Page) :
  mutex w = mkMutex false [] → trace w = [] →
  Inv ((λ call, Runnable (run_call call)) <$> calls) w (mkMonitor None [] [] [] []).
Proof.
  intros Hm Htr. split; rewrite ?Hm, ?Htr; simpl; try done.
  - apply NoDup_nil_2.
  - intros j Hj. by apply elem_of_nil in Hj.
  - intros i th Hi. apply list_lookup_fmap_Some in Hi as (call & -> & _).
    left. split_and!; [apply Initial_run_call|apply not_elem_of_nil..].
Qed.

(** C2. Any number of public session operations, started in any order and
    interleaved in any way by the event loop, on a service whose mutex is
    free.  At every point of the run the trace is one that the monitor
    accepts: a call performs an effect on the session, or releases, only
    while it holds the lock; the lock is granted only when nobody holds it,
    to the oldest call waiting.  The calls served so far followed by the
    calls in the queue are the calls in their order of arrival.  Between
    two effects of one call nothing happens but effects of that call and
    arrivals of others; so the two sub-steps of [fetchCatalogAndChartUrls]
    are not interleaved with another operation's work.  A call that has
    returned or thrown has released and does not hold the lock; and when
    all calls have returned or thrown, the mutex is free again. *)
Theorem session_operations_serialized (calls : list Call) (sched : list nat)
    (w : World Page) :
  mutex w = mkMutex false [] → trace w = [] →
  ∃ st,
    let c := csteps sched (mkConfig ((λ call, Runnable (run_call call)) <$> calls) w) in
    monitor (trace (world c)) = Some st ∧
    pending st = mutexQueue (mutex (world c)) ∧
    mutexLocked (mutex (world c)) = bool_decide (is_Some (holder st)) ∧
    arrived st = granted st ++ mutexQueue (mutex (world c)) ∧
    (∀ tr1 tr2 tr3 i t1 t2 X1 X2 (e1 : Eff X1) (e2 : Eff X2) x1 x2,
       trace (world c) = tr1 ++ Did i t1 e1 x1 :: tr2 ++ Did i t2 e2 x2 :: tr3 →
       is_acquire e1 = false → is_acquire e2 = false →
       Forall (own_or_arrival i) tr2) ∧
    (∀ i th, threads c !! i = Some th → ended th →
             i ∈ finished st ∧ holder st ≠ Some i) ∧
    ((∀ i th, threads c !! i = Some th → ended th) →
     mutex (world c) = mkMutex false []).
Proof.
  intros Hm Htr.
  destruct (Inv_csteps sched
              (mkConfig ((λ call, Runnable (run_call call)) <$> calls) w) _
              (Inv_start calls w Hm Htr)) as [st HI].
  exists st. cbv zeta.
  set (c := csteps sched _) in *.
  destruct HI as [Hmon Hq Hl Hidle Hnd Hwait Hhold Hph].
  split_and!; try done.
  - rewrite <- Hq. by eapply monitor_fifo.
  - intros tr1 tr2 tr3 i t1 t2 X1 X2 e1 e2 x1 x2 Hsplit He1 He2.
    rewrite Hsplit in Hmon. by eapply monitor_no_interleaving.
  - intros i [p|p] Hi He; [|done]. simpl in He.
    destruct (Hph _ _ Hi) as [(Hini & _)|[(Hc & _)|(_ & Hh & Hf)]]; [| |done].
    + by destruct p.
    + by destruct (Done_not_InCrit p).
  - intros Hall.
    assert (Hnone : holder st = None).
    { destruct (holder st) as [i|] eqn:Hh; [|done].
      destruct (Hhold i eq_refl) as (p & Hi & Hc).
      destruct (Done_not_InCrit p (Hall _ _ Hi) Hc). }
    rewrite Hnone in Hl. specialize (Hidle Hl). clear -Hl Hidle.
    destruct (mutex (world c)) as [lk qu]. simpl in Hl, Hidle.
    rewrite Hl, Hidle. reflexivity.
Qed.

End Run.

(** ** Two calls on a service that is not logged in *)

Definition logged_out : World PrometeoFacts.SimplePage :=
  mkWorld 0 (PrometeoFacts.mkSimplePage PROMETEO_SEARCH_URL "1" "" (λ _, 0%Z))
          false 0 (mkMutex false []) 0 [].

Definition two_calls : list Call :=
  [CallFetchChartUrls "42"; CallFetchCatalogAndChartUrls (mkFilter "CHARTS" None None None None) "42"].

(** Call 0 takes the lock, call 1 arrives and waits; call 0 finds that the
    user is not logged in, throws and releases; call 1 is served, throws
    and releases. *)
Abbreviation two_calls_end :=
  (csteps PrometeoFacts.simple_exec PrometeoFacts.sp_url PrometeoFacts.instant
          PrometeoFacts.no_net [0; 1; 0; 0; 1; 1]
          (mkConfig ((λ call, Runnable (run_call call)) <$> two_calls) logged_out)).

Lemma two_calls_threw :
  threads two_calls_end
  = [Runnable (Throw "Non connesso a Prometeo"); Runnable (Throw "Non connesso a Prometeo")].
Proof. vm_compute. reflexivity. Qed.

Lemma session_operations_serialized_witness :
  (∀ i th, threads two_calls_end !! i = Some th → ended th) ∧
  mutex (world two_calls_end) = mkMutex false [].
Proof.
  assert (Hall : ∀ i th, threads two_calls_end !! i = Some th → ended th).
  { rewrite two_calls_threw. intros [|[|i]] th [= <-]; exact I. }
  split; [exact Hall|].
  destruct (session_operations_serialized PrometeoFacts.simple_exec PrometeoFacts.sp_url
              PrometeoFacts.instant PrometeoFacts.no_net two_calls [0; 1; 0; 0; 1; 1]
              logged_out eq_refl eq_refl) as (st & _ & _ & _ & _ & _ & _ & Hfree).
  exact (Hfree Hall).
Defined.

End MutexFacts.

(** * More on the downloader: what a batch costs and what it touches *)

Module DownloaderMore.
Import Downloader.

(** The attempts a suspended worker may still make for its item. *)
Definition remaining (pc : Pc) : nat :=
  match pc with
  | AwaitFetch _ a _ | AwaitBody _ a _ | AwaitDownload _ a _ | AwaitSleep _ a => 3 - a
  | Finished => 0
  end.

Definition live (pc : Pc) : nat := if is_finished pc then 0 else 1.

(** The calls of [onProgress], as [(downloaded, total)], in order. *)
Definition progress_events (l : list Event) : list (nat * nat) :=
  omap (λ e, match e with EvProgress d t => Some (d, t) | _ => None end) l.

(** The fetches issued, by the index of their item, in order. *)
Definition fetch_events (l : list Event) : list nat :=
  omap (λ e, match e with EvFetch i _ _ => Some i | _ => None end) l.

(** The URLs that pass the check of line 56. *)
Definition well_formed (urls : list string) : list string :=
  filter (λ u, invalid_url u = false) urls.

Definition valid_items (q : list Item) : nat :=
  length (filter (λ it, invalid_url (url it) = false) q).

Section More.

Context (sha256_hex : string → string) (cacheDir : string)
        (net : nat → string → Net.FetchResult).

Local Abbreviation localPath := (Downloader.localPath sha256_hex cacheDir).
Local Abbreviation worker_loop := (Downloader.worker_loop sha256_hex cacheDir net).
Local Abbreviation start_attempt := (Downloader.start_attempt net).
Local Abbreviation attempt_failed := (Downloader.attempt_failed sha256_hex cacheDir net).
Local Abbreviation resume := (Downloader.resume sha256_hex cacheDir net).
Local Abbreviation spawn := (Downloader.spawn sha256_hex cacheDir net).
Local Abbreviation run := (Downloader.run sha256_hex cacheDir net).
Local Abbreviation downloadCharts := (Downloader.downloadCharts sha256_hex cacheDir net).

Variable urls : list string.
Variable fs0 : gmap string (list Byte.byte).

Local Abbreviation N := (length urls).

(** The cache paths of the well-formed URLs of the batch. *)
Definition batch_path (p : string) : Prop :=
  ∃ u, u ∈ urls ∧ invalid_url u = false ∧ p = localPath u.

Definition pc_acct (pc : Pc) : Prop :=
  match pc with
  | AwaitSleep it a => a < 3 ∧ url it ∈ urls ∧ invalid_url (url it) = false
  | AwaitFetch it _ _ | AwaitBody it _ _ | AwaitDownload it _ _ =>
      url it ∈ urls ∧ invalid_url (url it) = false
  | Finished => True
  end.

(** The books of a run: fetches issued plus the attempts still allowed
    never exceed three per well-formed URL; every item is in the queue, in
    the hands of a worker, or reported; [onProgress] has been called with
    1, 2, ... up to the number of items reported; and no file outside the
    cache paths of the batch has changed. *)
Record Acct (pcs : list Pc) (s : State) : Prop := mkAcct {
  acct_fetch : nfetch s + 3 * valid_items (queue s) + sum_list_with remaining pcs
               ≤ 3 * length (well_formed urls);
  acct_done : downloaded s + length (queue s) + sum_list_with live pcs = N;
  acct_log : length (fetch_events (log s)) = nfetch s;
  acct_total : total s = N;
  acct_progress : progress_events (log s) = (λ d, (d, N)) <$> seq 1 (downloaded s);
  acct_queue : ∀ it, it ∈ queue s → url it ∈ urls;
  acct_pcs : Forall pc_acct pcs;
  acct_fs : ∀ p, ¬ batch_path p → fs s !! p = fs0 !! p }.

Lemma valid_items_cons it q :
  valid_items (it :: q) = (if invalid_url (url it) then 0 else 1) + valid_items q.
Proof.
  unfold valid_items. rewrite filter_cons.
  destruct (invalid_url (url it)) eqn:Hv.
  - by rewrite decide_False by done.
  - by rewrite decide_True by done.
Qed.

Lemma progress_events_snoc l e :
  progress_events (l ++ [e])
  = progress_events l ++ match e with EvProgress d t => [(d, t)] | _ => [] end.
Proof. unfold progress_events. rewrite omap_app. by destruct e. Qed.

Lemma fetch_events_snoc l e :
  fetch_events (l ++ [e])
  = fetch_events l ++ match e with EvFetch i _ _ => [i] | _ => [] end.
Proof. unfold fetch_events. rewrite omap_app. by destruct e. Qed.

Lemma progress_next l d n :
  progress_events l = (λ d, (d, n)) <$> seq 1 d →
  progress_events l ++ [(S d, n)] = (λ d, (d, n)) <$> seq 1 (S d).
Proof. intros ->. by rewrite seq_S, fmap_app. Qed.

Lemma Acct_perm pcs pcs' s : pcs ≡ₚ pcs' → Acct pcs s → Acct pcs' s.
Proof.
  intros HP [H1 H2 H8 H3 H4 H5 H6 H7]. split; try done.
  - by rewrite <- HP.
  - by rewrite <- HP.
  - by rewrite <- HP.
Qed.

(** An item leaves the queue and is reported at once (lines 56-61 and
    70-74). *)
Lemma Acct_report_queued rest s it q' o v :
  queue s = it :: q' → Acct rest s →
  Acct rest (onDownloaded (emit (EvResolved (index it) o)
                             (set_result (index it) v (set_queue q' s)))).
Proof.
  intros Hq [H1 H2 H8 H3 H4 H5 H6 H7]. rewrite Hq in H1, H2, H5.
  rewrite valid_items_cons in H1. split; simpl; try done.
  - destruct (invalid_url (url it)); lia.
  - simpl in H2. lia.
  - by rewrite !fetch_events_snoc, !app_nil_r.
  - rewrite !progress_events_snoc, app_nil_r, H3. by apply progress_next.
  - intros it' Hit. apply H5. by right.
Qed.

(** A worker reports the item it holds (lines 96 and 115-116). *)
Lemma Acct_report_held pc rest s i o v :
  live pc = 1 → Acct (pc :: rest) s →
  Acct rest (onDownloaded (emit (EvResolved i o) (set_result i v s))).
Proof.
  intros Hl [H1 H2 H8 H3 H4 H5 H6 H7]. simpl in H1, H2. rewrite Hl in H2.
  apply Forall_cons in H6 as [_ H6]. split; simpl; try done.
  - lia.
  - lia.
  - by rewrite !fetch_events_snoc, !app_nil_r.
  - rewrite !progress_events_snoc, app_nil_r, H3. by apply progress_next.
Qed.

(** A first attempt starts for a well-formed item taken from the queue. *)
Lemma Acct_start_queued rest s s1 it q' :
  queue s = it :: q' → invalid_url (url it) = false → Acct rest s →
  queue s1 = q' → nfetch s1 = nfetch s → downloaded s1 = downloaded s →
  total s1 = total s → progress_events (log s1) = progress_events (log s) →
  fetch_events (log s1) = fetch_events (log s) →
  (∀ p, p ≠ localPath (url it) → fs s1 !! p = fs s !! p) →
  Acct ((start_attempt it 1 s1).1 :: rest) (start_attempt it 1 s1).2.
Proof.
  intros Hq Hv [H1 H2 H8 H3 H4 H5 H6 H7] Hq1 Hn1 Hd1 Ht1 Hp1 He1 Hf1.
  rewrite Hq in H1, H2, H5. rewrite valid_items_cons, Hv in H1.
  assert (Hin : url it ∈ urls) by (apply H5; by left).
  split; simpl; rewrite ?Hq1, ?Hn1, ?Hd1, ?Ht1; try done.
  - lia.
  - simpl in H2. lia.
  - rewrite fetch_events_snoc, length_app, He1. simpl. lia.
  - rewrite progress_events_snoc, app_nil_r, Hp1. done.
  - intros it' Hit. apply H5. by right.
  - by apply Forall_cons.
  - intros p Hp. rewrite Hf1; [by apply H7|].
    intros ->. apply Hp. by exists (url it).
Qed.

Lemma worker_loop_acct q : ∀ s rest,
  queue s = q → Acct rest s →
  Acct ((worker_loop q s).1 :: rest) (worker_loop q s).2.
Proof.
  induction q as [|it q' IH]; intros s rest Hq HA.
  - destruct HA as [H1 H2 H8 H3 H4 H5 H6 H7]. rewrite Hq in H1, H2, H5.
    split; simpl; try done. by apply Forall_cons.
  - cbn [Downloader.worker_loop].
    destruct (invalid_url (url it)) eqn:Hv.
    { apply IH; [done|]. by apply Acct_report_queued. }
    cbn [fs set_queue].
    destruct (fs s !! localPath (url it)) as [b|] eqn:Hb.
    + case_decide.
      * apply IH; [done|]. by apply Acct_report_queued.
      * eapply Acct_start_queued; try done.
        -- simpl. by rewrite progress_events_snoc, app_nil_r.
        -- simpl. by rewrite fetch_events_snoc, app_nil_r.
        -- intros p Hp. simpl. by rewrite lookup_delete_ne.
    + by eapply Acct_start_queued.
Qed.

(** Changes that the books do not record. *)
Lemma Acct_frame pcs s s' :
  Acct pcs s →
  queue s' = queue s → nfetch s' = nfetch s → downloaded s' = downloaded s →
  total s' = total s → progress_events (log s') = progress_events (log s) →
  fetch_events (log s') = fetch_events (log s) →
  (∀ p, ¬ batch_path p → fs s' !! p = fs s !! p) →
  Acct pcs s'.
Proof.
  intros [H1 H2 H8 H3 H4 H5 H6 H7] Hq Hn Hd Ht Hp He Hf.
  split; rewrite ?Hq, ?Hn, ?Hd, ?Ht, ?Hp, ?He; try done.
  intros p Hpath. rewrite Hf by done. by apply H7.
Qed.

Lemma Acct_swap pc pc' rest s :
  Acct (pc :: rest) s → remaining pc' = remaining pc → live pc' = live pc →
  pc_acct pc' → Acct (pc' :: rest) s.
Proof.
  intros [H1 H2 H8 H3 H4 H5 H6 H7] Hr Hl Hpc. simpl in H1, H2.
  apply Forall_cons in H6 as [_ H6]. split; simpl; rewrite ?Hr, ?Hl; try done.
  by apply Forall_cons.
Qed.

(** The state after the [catch] block has logged the failure and removed
    the file at the cache path (lines 101-107). *)
Definition after_catch (it : Item) (attempt : nat) (s : State) : State :=
  match fs (emit (EvAttemptFailed (index it) attempt) s) !! localPath (url it) with
  | Some _ => unlink (localPath (url it)) (emit (EvAttemptFailed (index it) attempt) s)
  | None => emit (EvAttemptFailed (index it) attempt) s
  end.

Lemma Acct_after_catch pcs it a s :
  url it ∈ urls → invalid_url (url it) = false →
  Acct pcs s → Acct pcs (after_catch it a s).
Proof.
  intros Hin Hv HA. unfold after_catch. simpl.
  destruct (fs s !! localPath (url it)) eqn:Hf;
    (eapply Acct_frame; [exact HA|simpl; try done..]).
  - by rewrite progress_events_snoc, app_nil_r.
  - by rewrite fetch_events_snoc, app_nil_r.
  - intros p Hp. rewrite lookup_delete_ne; [done|].
    intros <-. apply Hp. by exists (url it).
  - by rewrite progress_events_snoc, app_nil_r.
  - by rewrite fetch_events_snoc, app_nil_r.
Qed.

Lemma attempt_failed_acct pc rest it a s :
  Acct (pc :: rest) s → remaining pc = 3 - a → live pc = 1 →
  url it ∈ urls → invalid_url (url it) = false →
  Acct ((attempt_failed it a s).1 :: rest) (attempt_failed it a s).2.
Proof.
  intros HA Hr Hl Hin Hv.
  assert (HA1 := Acct_after_catch _ it a s Hin Hv HA).
  unfold Downloader.attempt_failed. cbv zeta. fold (after_catch it a s).
  case_decide.
  - simpl. eapply (Acct_swap pc).
    + eapply Acct_frame; [exact HA1|simpl; try done..].
      * by rewrite progress_events_snoc, app_nil_r.
      * by rewrite fetch_events_snoc, app_nil_r.
    + simpl. lia.
    + done.
    + done.
  - apply worker_loop_acct; [done|].
    by eapply Acct_report_held.
Qed.

Lemma resume_acct pc rest s :
  Acct (pc :: rest) s → Acct ((resume pc s).1 :: rest) (resume pc s).2.
Proof.
  intros HA.
  assert (Hpc : pc_acct pc).
  { destruct HA as [_ _ _ _ _ _ H6 _]. by apply Forall_cons in H6 as [? _]. }
  destruct pc as [it a r|it a r|it a threw|it a|]; simpl in Hpc |- *.
  - destruct r as [msg|r]; [by eapply Acct_swap|].
    destruct (negb (Net.ok r)); [by eapply Acct_swap|].
    destruct (Js.includes _ _); by eapply Acct_swap.
  - destruct (Net.body r) as [b|]; [|by eapply Acct_swap].
    simpl. eapply (Acct_swap (AwaitBody it a r)); [|done..].
    eapply Acct_frame; [exact HA|simpl; try done..].
    intros p Hp. rewrite lookup_insert_ne; [done|].
    intros <-. apply Hp. destruct Hpc. by exists (url it).
  - destruct Hpc as [Hin Hv].
    destruct threw; [by eapply attempt_failed_acct|].
    case_decide; [by eapply attempt_failed_acct|].
    apply worker_loop_acct; [done|].
    by eapply (Acct_report_held (AwaitDownload it a false)).
  - destruct Hpc as (Ha & Hin & Hv).
    destruct HA as [H1 H2 H8 H3 H4 H5 H6 H7]. simpl in H1, H2.
    apply Forall_cons in H6 as [_ H6]. split; simpl; try done.
    + lia.
    + rewrite fetch_events_snoc, length_app. simpl. lia.
    + by rewrite progress_events_snoc, app_nil_r.
    + by apply Forall_cons.
  - done.
Qed.

Lemma spawn_acct rounds : ∀ w s acc,
  Acct acc s → Acct ((spawn rounds w s).1 ++ acc) (spawn rounds w s).2.
Proof.
  induction rounds as [|rounds IH]; intros w s acc HA; [done|].
  rewrite DownloaderFacts.spawn_S. case_decide; [|done]. simpl.
  eapply Acct_perm;
    [|apply (IH (S w) _ ((worker_loop (queue s) s).1 :: acc)), worker_loop_acct; done].
  by rewrite <- Permutation_middle.
Qed.

Lemma run_acct sched : ∀ fuel n pcs s s',
  Acct pcs s → run fuel n sched pcs s = Some s' →
  ∃ pcs', Acct pcs' s' ∧ Forall (λ pc, pc = Finished) pcs'.
Proof.
  induction fuel as [|fuel IH]; intros n pcs s s' HA; simpl;
    destruct (pick (sched n) pcs) as [i|] eqn:Hp; try done;
    try (intros [= <-]; exists pcs; split; [done|by eapply DownloaderFacts.pick_None]).
  apply DownloaderFacts.pick_Some in Hp as (pc & Hi & Hne). rewrite Hi. simpl.
  assert (HP : pcs ≡ₚ pc :: delete i pcs) by (by apply delete_Permutation).
  assert (HA' := resume_acct pc (delete i pcs) s (Acct_perm _ _ _ HP HA)).
  destruct (resume pc s) as [pc' s1]. simpl in HA'.
  apply IH. eapply Acct_perm; [|exact HA'].
  symmetry. by eapply DownloaderFacts.insert_Permutation.
Qed.

Lemma valid_items_imap (f : nat → nat) (l : list string) :
  valid_items (imap (λ i u, mkItem u (f i)) l) = length (well_formed l).
Proof.
  revert f. induction l as [|u l IH]; intros f; [done|].
  rewrite imap_cons, valid_items_cons. simpl.
  unfold well_formed. rewrite filter_cons.
  specialize (IH (f ∘ S)). unfold well_formed in IH. simpl in IH.
  destruct (invalid_url u) eqn:Hv.
  - rewrite decide_False by done. exact IH.
  - rewrite decide_True by done. simpl. f_equal. exact IH.
Qed.

Lemma Acct_init : Acct [] (init urls fs0).
Proof.
  split; simpl; try done.
  - assert (H := valid_items_imap id urls). unfold make_queue. simpl in H. lia.
  - unfold make_queue. rewrite length_imap. lia.
  - intros it Hit. unfold make_queue in Hit.
    apply list_elem_of_lookup_1 in Hit as [i Hi].
    rewrite list_lookup_imap in Hi.
    destruct (urls !! i) as [u|] eqn:Hu; [|done]. simpl in Hi.
    injection Hi as <-. simpl. by eapply list_elem_of_lookup_2.
Qed.

(** The books at the end of a call. *)
Lemma downloadCharts_acct sched sf :
  downloadCharts urls fs0 sched = Some sf →
  queue sf = [] ∧ ∃ pcs, Acct pcs sf ∧ Forall (λ pc, pc = Finished) pcs.
Proof.
  intros Hrun.
  destruct (DownloaderFacts.downloadCharts_Inv sha256_hex cacheDir net urls fs0 sched)
    as (s & pcs0 & Hrun0 & HInv & _).
  rewrite Hrun in Hrun0. injection Hrun0 as <-.
  split.
  { destruct HInv as (_ & Hq & _). rewrite Hq. apply drop_ge.
    unfold make_queue. by rewrite length_imap. }
  unfold Downloader.downloadCharts, downloadCharts_run in Hrun.
  assert (HA := spawn_acct concurrency 0 _ [] Acct_init).
  destruct (spawn concurrency 0 (init urls fs0)) as [pcs s1].
  simpl in HA. rewrite app_nil_r in HA.
  by eapply run_acct.
Qed.

Lemma attempts_fetch_events i l :
  i ∉ fetch_events l → attempts i l = [].
Proof.
  induction l as [|e l IH]; [done|]. unfold fetch_events, attempts in *.
  destruct e as [| |j a k| | |]; simpl; try exact IH.
  intros Hi. apply not_elem_of_cons in Hi as [Hne Hi].
  rewrite decide_False by done. by apply IH.
Qed.

Lemma fetch_events_attempts i l :
  attempts i l = [] → i ∉ fetch_events l.
Proof.
  induction l as [|e l IH]; [intros _; apply not_elem_of_nil|].
  unfold fetch_events, attempts in *.
  destruct e as [| |j a k| | |]; simpl; try exact IH.
  case_decide; [done|]. intros H0. apply not_elem_of_cons. split; [done|by apply IH].
Qed.

(** What the run shows of index [i] once the call has ended. *)
Lemma final_obs sched sf i u :
  downloadCharts urls fs0 sched = Some sf → urls !! i = Some u →
  length (results sf) = N ∧
  ∃ o, DownloaderFacts.sound u o ∧
       results sf !! i = Some (Some (value_of sha256_hex cacheDir u o)) ∧
       attempts i (log sf) = seq 1 (attempts_used o).
Proof.
  intros Hrun Hu.
  destruct (DownloaderFacts.downloadCharts_Inv sha256_hex cacheDir net urls fs0 sched)
    as (s & pcs & Hrun0 & HInv & Hall).
  rewrite Hrun in Hrun0. injection Hrun0 as <-.
  destruct HInv as (_ & _ & Hlen & _ & _ & _ & Hdone). split; [done|].
  assert (Hnone : pcs ≫= DownloaderFacts.pc_index = []).
  { clear -Hall. induction Hall as [|pc pcs -> _ IH]; [done|]. by rewrite bind_cons, IH. }
  destruct (Hdone i u Hu) as (o & Hs & Ho).
  - by apply lookup_lt_Some in Hu.
  - rewrite Hnone. apply not_elem_of_nil.
  - exists o. unfold DownloaderFacts.obs, DownloaderFacts.done_obs in Ho.
    by simplify_eq.
Qed.

Lemma downloadCharts_total sched : ∃ sf, downloadCharts urls fs0 sched = Some sf.
Proof.
  destruct (DownloaderFacts.downloadCharts_Inv sha256_hex cacheDir net urls fs0 sched)
    as (s & pcs & Hrun & _). by exists s.
Qed.

(** X1. Whatever the transport answers and however the workers are
    scheduled, a call of [downloadCharts] ends, and it has issued no more
    fetches than three times the number of well-formed URLs of the batch,
    and none for an item whose URL is empty or not http-prefixed. *)
Theorem fetch_budget sched :
  ∃ sf, downloadCharts urls fs0 sched = Some sf ∧
        length (fetch_events (log sf)) = nfetch sf ∧
        nfetch sf ≤ 3 * length (well_formed urls) ∧
        ∀ i u, urls !! i = Some u → invalid_url u = true → i ∉ fetch_events (log sf).
Proof.
  destruct (downloadCharts_total sched) as [sf Hrun]. exists sf.
  destruct (downloadCharts_acct sched sf Hrun) as (Hq & pcs & HA & Hall).
  destruct HA as [H1 H2 H8 H3 H4 H5 H6 H7]. split_and!; [done|done|lia|].
  intros i u Hu Hinv.
  destruct (final_obs sched sf i u Hrun Hu) as (_ & o & Hs & _ & Hat).
  apply fetch_events_attempts. rewrite Hat.
  destruct o as [| |a|]; simpl in Hs |- *; try done; try congruence.
  destruct Hs as [Hv _]. congruence.
Qed.

(** X2. [onProgress] is called once for every item of the batch, resolved
    or failed, with [downloaded] counting 1, 2, ..., N in this order and
    [total] equal to N throughout, whatever the order in which the workers
    finish. *)
Theorem progress_counts_every_item sched :
  ∃ sf, downloadCharts urls fs0 sched = Some sf ∧
        progress_events (log sf) = (λ d, (d, length urls)) <$> seq 1 (length urls).
Proof.
  destruct (downloadCharts_total sched) as [sf Hrun]. exists sf. split; [done|].
  destruct (downloadCharts_acct sched sf Hrun) as (Hq & pcs & HA & Hall).
  destruct HA as [H1 H2 H8 H3 H4 H5 H6 H7].
  assert (Hlive : sum_list_with live pcs = 0).
  { clear -Hall. induction Hall as [|pc pcs -> _ IH]; [done|]. simpl. exact IH. }
  rewrite Hq, Hlive in H2. simpl in H2.
  rewrite H4. replace (downloaded sf) with N by lia. done.
Qed.

(** X3. A call of [downloadCharts] creates, overwrites or deletes files
    only at the cache paths of the well-formed URLs of its batch: every
    other path of the cache directory is after the call as it was before. *)
Theorem only_batch_paths_touched sched :
  ∃ sf, downloadCharts urls fs0 sched = Some sf ∧
        ∀ p, (∀ u, u ∈ urls → invalid_url u = false → p ≠ localPath u) →
             fs sf !! p = fs0 !! p.
Proof.
  destruct (downloadCharts_total sched) as [sf Hrun]. exists sf. split; [done|].
  destruct (downloadCharts_acct sched sf Hrun) as (Hq & pcs & HA & Hall).
  intros p Hp. apply (acct_fs _ _ HA).
  intros (u & Hu & Hv & ->). by apply (Hp u).
Qed.

(** ** A warm cache *)

Lemma worker_loop_warm q : ∀ s,
  (∀ it, it ∈ q → invalid_url (url it) = false →
         ∃ b, fs s !! localPath (url it) = Some b ∧ MIN_IMAGE_SIZE ≤ length b) →
  (worker_loop q s).1 = Finished ∧ queue (worker_loop q s).2 = [] ∧
  fs (worker_loop q s).2 = fs s ∧ nfetch (worker_loop q s).2 = nfetch s.
Proof.
  induction q as [|it q' IH]; intros s Hwarm; [done|].
  cbn [Downloader.worker_loop].
  assert (Hrec : ∀ s', fs s' = fs s → nfetch s' = nfetch s →
            (worker_loop q' s').1 = Finished ∧ queue (worker_loop q' s').2 = [] ∧
            fs (worker_loop q' s').2 = fs s ∧ nfetch (worker_loop q' s').2 = nfetch s).
  { intros s' Hf Hn. rewrite <- Hf, <- Hn. apply IH.
    intros it' Hit Hv'. rewrite Hf. apply Hwarm; [by right|done]. }
  destruct (invalid_url (url it)) eqn:Hv; [by apply Hrec|].
  destruct (Hwarm it) as (b & Hb & Hsize); [by left|done|].
  cbn [fs set_queue]. rewrite Hb. rewrite decide_True by done.
  by apply Hrec.
Qed.

Lemma run_all_finished fuel n sched pcs s :
  Forall (λ pc, pc = Finished) pcs → run fuel n sched pcs s = Some s.
Proof.
  intros Hall.
  assert (Hlive : ∀ b, live_from b pcs = []).
  { induction Hall as [|pc pcs -> _ IH]; intros b; [done|]. simpl. apply IH. }
  assert (Hp : pick (sched n) pcs = None).
  { unfold pick. by rewrite Hlive. }
  destruct fuel; simpl; by rewrite Hp.
Qed.

(** X4. When the cache already holds a file of at least 1024 bytes for
    every well-formed URL of the batch, [downloadCharts] issues no fetch and
    leaves the cache directory exactly as it was; the result holds the cache
    path at the position of every well-formed URL and the empty string at
    the others. *)
Theorem warm_cache_needs_no_network sched :
  (∀ u, u ∈ urls → invalid_url u = false →
        ∃ b, fs0 !! localPath u = Some b ∧ MIN_IMAGE_SIZE ≤ length b) →
  ∃ sf, downloadCharts urls fs0 sched = Some sf ∧
        nfetch sf = 0 ∧ fetch_events (log sf) = [] ∧ fs sf = fs0 ∧
        results sf = (λ u, Some (if invalid_url u then "" else localPath u)) <$> urls.
Proof.
  intros Hwarm.
  destruct (downloadCharts_total sched) as [sf Hrun]. exists sf. split; [done|].
  assert (Hcalm : nfetch sf = 0 ∧ fs sf = fs0).
  { revert Hrun. unfold Downloader.downloadCharts, downloadCharts_run.
    destruct (worker_loop_warm (make_queue urls) (init urls fs0)) as (Hpc & Hq & Hfs & Hn).
    { intros it Hit Hv. simpl. apply Hwarm; [|done].
      apply (acct_queue _ _ Acct_init it Hit). }
    change concurrency with 2. rewrite DownloaderFacts.spawn_S.
    change (queue (init urls fs0)) with (make_queue urls).
    case_decide.
    - rewrite DownloaderFacts.spawn_S, Hq. cbn [length Nat.min]. rewrite Hpc.
      rewrite decide_False by lia.
      rewrite run_all_finished by (by repeat constructor).
      intros [= <-]. by rewrite Hfs, Hn.
    - rewrite run_all_finished by constructor. by intros [= <-]. }
  destruct Hcalm as [Hn Hfs].
  assert (Hno : fetch_events (log sf) = []).
  { apply length_zero_iff_nil.
    destruct (downloadCharts_acct sched sf Hrun) as (_ & pcs & HA & _).
    by rewrite (acct_log _ _ HA). }
  split_and!; try done.
  apply list_eq. intros i. rewrite list_lookup_fmap.
  destruct (urls !! i) as [u|] eqn:Hu; simpl.
  - destruct (final_obs sched sf i u Hrun Hu) as (_ & o & Hs & Hres & Hat).
    rewrite Hres. do 2 f_equal.
    rewrite attempts_fetch_events in Hat by (rewrite Hno; apply not_elem_of_nil).
    destruct o as [| |a|]; simpl in Hs, Hat |- *.
    + by rewrite Hs.
    + by rewrite Hs.
    + destruct Hs as [_ Ha]. destruct a; [lia|done].
    + done.
  - apply lookup_ge_None.
    assert (Hany : length (results sf) = N).
    { destruct (DownloaderFacts.downloadCharts_Inv sha256_hex cacheDir net urls fs0 sched)
        as (s & pcs & Hrun0 & HInv & _).
      rewrite Hrun in Hrun0. injection Hrun0 as <-. apply HInv. }
    rewrite Hany. by apply lookup_ge_None.
Qed.

(** ** How many workers are started *)

Lemma worker_loop_queue_shorter q : ∀ s,
  length (queue (worker_loop q s).2) ≤ pred (length q).
Proof.
  induction q as [|it q' IH]; intros s; [done|].
  cbn [Downloader.worker_loop].
  assert (Hrec : ∀ s', length (queue (worker_loop q' s').2) ≤ length q').
  { intros s'. specialize (IH s'). lia. }
  destruct (invalid_url (url it)); [apply Hrec|].
  cbn [fs set_queue]. destruct (fs s !! localPath (url it)); [case_decide|];
    first [apply Hrec|simpl; lia].
Qed.

(** X5. The loop that starts the workers reads [queue.length] again on
    every round, after the worker it has just started has taken its first
    item: a batch of one or two URLs is served by a single worker. *)
Theorem small_batch_single_worker :
  length urls ≤ 2 → length (spawn concurrency 0 (init urls fs0)).1 ≤ 1.
Proof.
  intros Hn. change concurrency with 2. rewrite DownloaderFacts.spawn_S.
  case_decide; [|simpl; lia]. cbn [fst length].
  rewrite DownloaderFacts.spawn_S.
  assert (Hq := worker_loop_queue_shorter (queue (init urls fs0)) (init urls fs0)).
  change (queue (init urls fs0)) with (make_queue urls) in Hq.
  unfold make_queue in Hq at 2. rewrite length_imap in Hq.
  rewrite decide_False; [simpl; lia|].
  change (queue (init urls fs0)) with (make_queue urls). lia.
Qed.

(** X23. With three URLs or more, the first of which is well formed and
    not in the cache, both workers are started: the first is suspended in
    its fetch when the loop reads [queue.length] again, and two items or
    more are still queued. *)
Theorem large_batch_two_workers u rest :
  urls = u :: rest → 2 ≤ length rest →
  invalid_url u = false → fs0 !! localPath u = None →
  length (spawn concurrency 0 (init urls fs0)).1 = 2.
Proof.
  intros -> Hrest Hv Hf. change concurrency with 2. rewrite DownloaderFacts.spawn_S.
  assert (Hw : (worker_loop (queue (init (u :: rest) fs0)) (init (u :: rest) fs0)).1
               ≠ Finished ∧
               queue (worker_loop (queue (init (u :: rest) fs0)) (init (u :: rest) fs0)).2
               = imap (λ i u, mkItem u (S i)) rest).
  { simpl. rewrite Hv. simpl. rewrite Hf. simpl. done. }
  destruct Hw as [_ Hq].
  rewrite decide_True by (simpl; lia). cbn [fst length].
  rewrite DownloaderFacts.spawn_S, Hq, length_imap.
  rewrite decide_True by (change concurrency with 2; lia). simpl. done.
Qed.

(** X6. Every item of the batch is attempted 1, 2, ... up to at most three
    times, with a wait of 1500 ms after a failed first attempt and of
    3000 ms after a failed second one, and an item whose three attempts
    failed is reported with the empty string. *)
Theorem item_retry_schedule sched :
  ∃ sf, downloadCharts urls fs0 sched = Some sf ∧
        ∀ i u, urls !! i = Some u →
          ∃ o, resolutions i (log sf) = [o] ∧
               attempts i (log sf) = seq 1 (attempts_used o) ∧
               attempts_used o ≤ 3 ∧
               sleeps i (log sf) = backoff (attempts_used o - 1) ∧
               (o = Exhausted →
                results sf !! i = Some (Some "") ∧
                attempts i (log sf) = [1; 2; 3] ∧
                sleeps i (log sf) = [1500; 3000]%Z).
Proof. exact (DownloaderFacts.retry_discipline sha256_hex cacheDir net urls fs0 sched). Qed.

End More.

(** ** Examples *)

Definition plain_sha (u : string) : string := u.

Definition offline (k : nat) (u : string) : Net.FetchResult := Net.Rejected "offline".

Definition cached_urls : list string := ["http://h/a.png"; ""; "ftp://h/b.png"].

Definition cached_fs : gmap string (list Byte.byte) :=
  {[ "/cache/http://h/a.png.png" := replicate 1024 Byte.x00 ]}.

Lemma warm_cache_needs_no_network_witness :
  ∃ sf, Downloader.downloadCharts plain_sha "/cache" offline cached_urls cached_fs
          (λ _, 0) = Some sf ∧
        nfetch sf = 0 ∧ fetch_events (log sf) = [] ∧ fs sf = cached_fs ∧
        results sf
        = (λ u, Some (if invalid_url u then ""
                      else Downloader.localPath plain_sha "/cache" u)) <$> cached_urls.
Proof.
  apply (warm_cache_needs_no_network plain_sha "/cache" offline cached_urls cached_fs).
  intros u Hu Hv. exists (replicate 1024 Byte.x00).
  apply elem_of_cons in Hu as [->|Hu]; [by vm_compute|].
  apply elem_of_cons in Hu as [->|Hu]; [done|].
  apply elem_of_cons in Hu as [->|Hu]; [done|].
  by apply elem_of_nil in Hu.
Defined.

Lemma small_batch_single_worker_witness :
  length (Downloader.spawn plain_sha "/cache" offline concurrency 0
            (init ["http://h/a.png"; "http://h/b.png"] ∅)).1 ≤ 1.
Proof.
  apply (small_batch_single_worker plain_sha "/cache" offline
           ["http://h/a.png"; "http://h/b.png"] ∅).
  simpl. lia.
Defined.

Lemma large_batch_two_workers_witness :
  length (Downloader.spawn plain_sha "/cache" offline concurrency 0
            (init ["http://h/a.png"; "http://h/b.png"; "http://h/c.png"] ∅)).1 = 2.
Proof.
  apply (large_batch_two_workers plain_sha "/cache" offline
           ["http://h/a.png"; "http://h/b.png"; "http://h/c.png"] ∅
           "http://h/a.png" ["http://h/b.png"; "http://h/c.png"]).
  - reflexivity.
  - simpl. lia.
  - reflexivity.
  - reflexivity.
Defined.

End DownloaderMore.

(** * More on the session controller *)

Module PrometeoMore.
Import Prometeo.
Local Open Scope prog_scope.

(** ** Effects a program never performs *)

(** No effect of the program is one of [bad]. *)
Fixpoint Avoids {A} (bad : ∀ X, Eff X → bool) (p : Prog A) : Prop :=
  match p with
  | Vis e k => bad _ e = false ∧ ∀ x, Avoids bad (k x)
  | _ => True
  end.

Definition entry_avoids (bad : ∀ X, Eff X → bool) (en : Entry) : Prop :=
  match en with
  | Did _ _ e _ => bad _ e = false
  | Granted _ _ => True
  end.

(** The evaluation of the script that sets the product type and fires
    the change event (lines 378-380 and 561-563). *)
Definition is_set_eff (X : Type) (e : Eff X) : bool :=
  match e with
  | Exec s => match s with SetProductType _ => true | _ => false end
  | _ => false
  end.

(** What a poll of the product list gave; the condition of lines 385 and
    568 is the only one [waitForCondition] is called with. *)
Definition poll_of (en : Entry) : option (option bool) :=
  match en with
  | Did _ _ e x =>
      match e in Eff X return X → option (option bool) with
      | Exec s =>
          match s in Script A return option A → option (option bool) with
          | ListLoaded => λ r, Some r
          | _ => λ _, None
          end
      | _ => λ _, None
      end x
  | Granted _ _ => None
  end.

Definition polls (tr : list Entry) : list (option bool) := omap poll_of tr.

Lemma Avoids_bind {A B} (bad : ∀ X, Eff X → bool) (p : Prog A) (f : A → Prog B) :
  Avoids bad p → (∀ a, Avoids bad (f a)) → Avoids bad (bind p f).
Proof.
  intros Hp Hf. induction p as [a|e| |X e k IH]; simpl; auto.
  destruct Hp as [He Hk]. split; [done|]. intros x. by apply IH.
Qed.

Lemma Avoids_try_catch {A} (bad : ∀ X, Eff X → bool) (p : Prog A) (h : string → Prog A) :
  Avoids bad p → (∀ e, Avoids bad (h e)) → Avoids bad (try_catch p h).
Proof.
  intros Hp Hh. induction p as [a|e| |X e k IH]; simpl; auto.
  destruct Hp as [He Hk]. split; [done|]. intros x. by apply IH.
Qed.

Lemma Avoids_perform {X} (bad : ∀ X, Eff X → bool) (e : Eff X) : bad _ e = false → Avoids bad (perform e).
Proof. by split. Qed.

Lemma Avoids_exec {A} (bad : ∀ X, Eff X → bool) (s : Script A) : bad _ (Exec s) = false → Avoids bad (exec s).
Proof. split; [done|]. by intros [a|]. Qed.

Ltac avoids_step :=
  match goal with
  | |- ∀ _, _ => intro
  | |- Avoids _ (bind _ _) => apply Avoids_bind
  | |- Avoids _ (try_catch _ _) => apply Avoids_try_catch
  | |- Avoids _ (exec _) => by apply Avoids_exec
  | |- Avoids _ (perform _) => by apply Avoids_perform
  | |- Avoids _ (delay _) => by apply Avoids_perform
  | |- Avoids _ (console _) => by apply Avoids_perform
  | |- Avoids _ (Ret _) => exact I
  | |- Avoids _ (Throw _) => exact I
  | |- Avoids _ Diverge => exact I
  | |- Avoids _ (if ?b then _ else _) => destruct b
  | |- Avoids _ (match ?x with _ => _ end) => destruct x
  | H : ∀ _, Avoids _ _ |- Avoids _ _ => apply H
  end.

Ltac avoids := repeat avoids_step.

Lemma ensureSearchPage_never_sets : Avoids is_set_eff ensureSearchPage.
Proof. unfold ensureSearchPage. avoids. Qed.

Lemma waitForCondition_loop_never_sets fuel start maxWaitMs intervalMs :
  Avoids is_set_eff (waitForCondition_loop fuel ListLoaded start maxWaitMs intervalMs).
Proof.
  induction fuel as [|fuel IH]; [exact I|]. cbn [waitForCondition_loop]. avoids. exact IH.
Qed.

Lemma waitForCondition_never_sets maxWaitMs intervalMs :
  Avoids is_set_eff (waitForCondition ListLoaded maxWaitMs intervalMs).
Proof. unfold waitForCondition. avoids. apply waitForCondition_loop_never_sets. Qed.

Section More.

Context (Page : Type)
        (page_exec : ∀ A, Script A → Z → Page → option A * nat * Page)
        (page_url : Page → string)
        (page_load : Page → nat)
        (net : nat → string → Net.FetchResult).

Local Abbreviation World := (Prometeo.World Page).
Local Abbreviation handle := (Prometeo.handle page_exec page_url page_load net).
Local Abbreviation interp := (Prometeo.interp page_exec page_url page_load net).
Local Abbreviation acquired := (PrometeoFacts.acquired Page).
Local Abbreviation released := (PrometeoFacts.released Page).
Local Abbreviation exec_result := (PrometeoFacts.exec_result page_exec).
Local Abbreviation exec_world := (PrometeoFacts.exec_world page_exec page_url page_load net).
Local Abbreviation exec_latency := (PrometeoFacts.exec_latency Page page_exec).

(** What one effect adds to the trace. *)
Lemma handle_trace {X} me (e : Eff X) (w : World) :
  ∃ t x grants,
    trace (handle me e w).2 = trace w ++ Did me t e x :: grants ∧
    Forall (λ en, ∃ j t', en = Granted j t') grants.
Proof.
  destruct e; simpl; try (by eexists _, _, []; split; [rewrite <- ?app_assoc|]).
  - destruct (page_exec A s (now w) (page w)) as [[r lat] p']. simpl.
    by eexists _, _, [].
  - unfold acquireLock. destruct (negb (mutexLocked (mutex w))); simpl.
    + eexists _, _, [_]. rewrite <- app_assoc. split; [done|].
      repeat constructor. eauto.
    + by eexists _, _, [].
  - unfold releaseLock_fields. destruct (mutexQueue (mutex w)) as [|j q]; simpl.
    + by eexists _, _, [].
    + eexists _, _, [_]. rewrite <- app_assoc. split; [done|].
      repeat constructor. eauto.
Qed.

Lemma interp_avoids {A} (bad : ∀ X, Eff X → bool) me (p : Prog A) : ∀ w,
  Avoids bad p →
  ∃ tr, trace (interp me p w).2 = trace w ++ tr ∧ Forall (entry_avoids bad) tr.
Proof.
  induction p as [a|e| |X e k IH]; intros w Hp;
    try (exists []; by rewrite app_nil_r).
  destruct Hp as [He Hk]. simpl.
  destruct (handle_trace me e w) as (t & x & grants & Htr & Hg).
  assert (Hown : Forall (entry_avoids bad) (Did me t e x :: grants)).
  { constructor; [done|]. eapply Forall_impl; [exact Hg|].
    by intros en (j & t' & ->). }
  destruct (handle me e w) as [[[y|y] woken] w1]; simpl in Htr.
  - destruct (IH y w1 (Hk y)) as (tr & Htr' & Hav).
    exists ((Did me t e x :: grants) ++ tr). rewrite Htr', Htr, <- app_assoc.
    split; [done|]. by apply Forall_app.
  - exists (Did me t e x :: grants). done.
Qed.

Lemma set_evals_avoids tr tr' :
  Forall (entry_avoids is_set_eff) tr' →
  PrometeoFacts.set_evals (tr ++ tr') = PrometeoFacts.set_evals tr.
Proof.
  induction tr' as [|en tr' IH] using rev_ind; intros HF; [by rewrite app_nil_r|].
  apply Forall_app in HF as [HF Hen]. apply Forall_cons_1 in Hen as [Hen _].
  rewrite app_assoc, PrometeoFacts.set_evals_snoc, IH by done.
  assert (PrometeoFacts.is_set en = false) as ->; [|lia].
  destruct en; [exact Hen|done].
Qed.

(** ** The product catalog always reloads *)

Lemma exec_set_then_quiet {B} me v (k : unit → Prog B) w :
  (∀ x, Avoids is_set_eff (k x)) →
  ∃ t r tr,
    trace (interp me (bind (exec (SetProductType v)) k) w).2
    = trace w ++ Did me t (Exec (SetProductType v)) r :: tr ∧
    Forall (entry_avoids is_set_eff) tr.
Proof.
  intros Hk. rewrite PrometeoFacts.interp_bind, PrometeoFacts.interp_exec.
  assert (Htr := PrometeoFacts.exec_world_trace Page page_exec page_url page_load net
                   me (SetProductType v) w).
  destruct (PrometeoFacts.exec_result page_exec (SetProductType v) w) as [[]|] eqn:Hres.
  - destruct (interp_avoids is_set_eff me (k tt) (exec_world me (SetProductType v) w)
                (Hk tt)) as (tr & Htr' & Hav).
    eexists _, _, tr. rewrite Htr', Htr, <- app_assoc. split; [reflexivity|done].
  - eexists _, _, []. split; [exact Htr|done].
Qed.

(** X7. Unlike the lightweight switch, [_fetchProductCatalog] does not
    look at what the form holds: once the search page is there, it
    evaluates the script that sets the product type exactly once, and it
    does so first.  The value in the script is the text the template
    literal makes of [typeValueMap[productType] || '1']: the mapped value
    for a key of the map, the source text of the inherited member for a
    name that [Object.prototype] holds, and ['1'] for any other name. *)
Theorem catalog_always_sets_type me filter w w0 :
  interp me ensureSearchPage w = (Ok tt, w0) →
  PrometeoFacts.set_evals (trace (interp me (_fetchProductCatalog filter) w).2)
  = PrometeoFacts.set_evals (trace w) + 1 ∧
  ∃ t r tr,
    trace (interp me (_fetchProductCatalog filter) w).2
    = trace w0 ++
      Did me t (Exec (SetProductType (interpolate (typeValue_of (f_productType filter))))) r
      :: tr ∧
    interpolate (typeValue_of "SATELLITE") = "2" ∧
    interpolate (typeValue_of "NO SUCH TYPE") = "1" ∧
    interpolate (typeValue_of "constructor") = "function Object() { [native code] }".
Proof.
  intros Hens. unfold _fetchProductCatalog. cbv zeta.
  rewrite PrometeoFacts.interp_bind, Hens.
  destruct (interp_avoids is_set_eff me ensureSearchPage w ensureSearchPage_never_sets)
    as (tr0 & Htr0 & Hav0).
  rewrite Hens in Htr0. simpl in Htr0.
  match goal with
  | |- context [Prometeo.interp _ _ _ _ me (bind (exec (SetProductType ?v)) ?k) w0] =>
      destruct (exec_set_then_quiet me v k w0) as (t & r & tr & Htr & Hav)
  end.
  { intros []. avoids. apply waitForCondition_never_sets. }
  rewrite Htr. split; [|by exists t, r, tr].
  rewrite Htr0.
  replace (Did me t (Exec (SetProductType (interpolate (typeValue_of (f_productType filter))))) r :: tr)
    with ([Did me t (Exec (SetProductType (interpolate (typeValue_of (f_productType filter))))) r] ++ tr)
    by done.
  rewrite !app_assoc, set_evals_avoids by done.
  rewrite PrometeoFacts.set_evals_snoc, set_evals_avoids by done. done.
Qed.

(** ** Calls made while not logged in *)

Lemma ensureSearchPage_logged_out me w :
  loggedIn w = false →
  interp me ensureSearchPage w
  = (Threw "Non connesso a Prometeo", did me GetStatus false w).
Proof.
  intros Hl. unfold ensureSearchPage. rewrite PrometeoFacts.interp_bind.
  unfold perform at 1. simpl. by rewrite Hl.
Qed.

Lemma locked_call_throws {A} me (body : Prog A) e w w1 :
  mutex w = mkMutex false [] →
  interp me body (acquired me w) = (Threw e, w1) → mutex w1 = mkMutex true [] →
  interp me (perform Acquire ;; try_finally body releaseLock) w
  = (Threw e, released me w1).
Proof.
  intros Hm Hbody Hm1.
  rewrite PrometeoFacts.interp_bind, PrometeoFacts.interp_acquire_free by (by rewrite Hm).
  rewrite PrometeoFacts.interp_try_finally, Hbody.
  rewrite PrometeoFacts.interp_bind, PrometeoFacts.interp_release_last by (by rewrite Hm1).
  done.
Qed.

(** X8. While the user is not logged in, each of the four public session
    operations throws "Non connesso a Prometeo" having done nothing but
    take the mutex, read the login status and release the mutex: no script
    is evaluated in the portal page, nothing is fetched, no time passes,
    and the mutex is free again. *)
Theorem not_logged_in_touches_nothing me call w :
  loggedIn w = false → mutex w = mkMutex false [] →
  ∃ w', interp me (run_call call) w = (Threw "Non connesso a Prometeo", w') ∧
        trace w' = trace w ++ [Did me (now w) Acquire tt; Granted me (now w);
                               Did me (now w) GetStatus false;
                               Did me (now w) Release tt] ∧
        mutex w' = mkMutex false [] ∧ page w' = page w ∧ now w' = now w ∧
        nfetch w' = nfetch w ∧ fetchCount w' = fetchCount w.
Proof.
  intros Hl Hm.
  assert (Hens : interp me ensureSearchPage (acquired me w)
                 = (Threw "Non connesso a Prometeo", did me GetStatus false (acquired me w)))
    by (by apply ensureSearchPage_logged_out).
  exists (released me (did me GetStatus false (acquired me w))).
  split; [|simpl; by rewrite <- !app_assoc].
  destruct call; unfold run_call;
    rewrite PrometeoFacts.interp_bind;
    [unfold fetchProductCatalog|unfold fetchChartUrls|unfold fetchCatalogAndChartUrls
    |unfold fetchChartUrlsForPpt];
    (erewrite locked_call_throws; [reflexivity|done| |simpl; by rewrite Hm]).
  - unfold _fetchProductCatalog. by rewrite PrometeoFacts.interp_bind, Hens.
  - unfold _fetchChartUrls, select_product.
    by rewrite !PrometeoFacts.interp_bind, Hens.
  - unfold _fetchProductCatalog. by rewrite !PrometeoFacts.interp_bind, Hens.
  - unfold _ensureProductType. by rewrite !PrometeoFacts.interp_bind, Hens.
Qed.

(** ** Waiting for the product list *)

Lemma polls_snoc tr en :
  polls (tr ++ [en]) = polls tr ++ match poll_of en with Some r => [r] | None => [] end.
Proof. unfold polls. rewrite omap_app. simpl. by destruct (poll_of en). Qed.

Lemma waitForCondition_loop_spec me start maxWaitMs intervalMs :
  (0 < intervalMs)%Z →
  ∀ fuel w base tr,
    trace w = base ++ tr → (Some true ∉ polls tr) →
    (maxWaitMs - (now w - start) ≤ intervalMs * Z.of_nat fuel)%Z →
    ∃ b w' tr',
      interp me (waitForCondition_loop (S fuel) ListLoaded start maxWaitMs intervalMs) w
      = (Ok b, w') ∧
      trace w' = base ++ tr' ∧ mutex w' = mutex w ∧
      if b then ∃ pre, polls tr' = pre ++ [Some true] ∧ (Some true ∉ pre)
      else (Some true ∉ polls tr') ∧ (maxWaitMs ≤ now w' - start)%Z.
Proof.
  intros Hint. induction fuel as [|fuel IH]; intros w base tr Htr Hno Hfuel;
    rewrite PrometeoFacts.waitForCondition_loop_S, PrometeoFacts.interp_bind,
      PrometeoFacts.interp_now;
    destruct (now w - start <? maxWaitMs)%Z eqn:Hlt; try lia.
  - rewrite PrometeoFacts.interp_Ret. eexists false, _, (tr ++ [_]).
    split; [reflexivity|]. split; [simpl; by rewrite Htr, <- app_assoc|].
    split; [done|]. rewrite polls_snoc, app_nil_r. simpl. split; [done|lia].
  - rewrite PrometeoFacts.interp_bind, PrometeoFacts.interp_try_catch,
      PrometeoFacts.interp_exec.
    set (w1 := did me Now (now w) w).
    assert (Ht1 : trace (exec_world me ListLoaded w1)
                  = base ++ tr ++ [Did me (now w) Now (now w);
                                   Did me (now w + exec_latency ListLoaded w1)%Z
                                       (Exec ListLoaded) (exec_result ListLoaded w1)]).
    { rewrite PrometeoFacts.exec_world_trace. unfold w1. simpl.
      by rewrite Htr, <- !app_assoc. }
    assert (Hp1 : polls (tr ++ [Did me (now w) Now (now w);
                                Did me (now w + exec_latency ListLoaded w1)%Z
                                    (Exec ListLoaded) (exec_result ListLoaded w1)])
                  = polls tr ++ [exec_result ListLoaded w1]).
    { unfold polls. by rewrite omap_app. }
    assert (Hm1 : mutex (exec_world me ListLoaded w1) = mutex w)
      by (by rewrite PrometeoFacts.exec_world_mutex).
    assert (Hn1 : (now w ≤ now (exec_world me ListLoaded w1))%Z).
    { rewrite PrometeoFacts.exec_world_now.
      assert (H := PrometeoFacts.exec_latency_nonneg Page page_exec ListLoaded w1).
      unfold w1 at 1. simpl. lia. }
    assert (Hgo : ∀ r, r ≠ Some true → exec_result ListLoaded w1 = r →
              ∃ b w' tr',
                interp me (delay intervalMs ;;
                           waitForCondition_loop (S fuel) ListLoaded start maxWaitMs
                             intervalMs) (exec_world me ListLoaded w1) = (Ok b, w') ∧
                trace w' = base ++ tr' ∧ mutex w' = mutex w ∧
                if b then ∃ pre, polls tr' = pre ++ [Some true] ∧ (Some true ∉ pre)
                else (Some true ∉ polls tr') ∧ (maxWaitMs ≤ now w' - start)%Z).
    { intros r Hr Hres.
      rewrite PrometeoFacts.interp_bind, PrometeoFacts.interp_delay.
      edestruct (IH (did me (Delay intervalMs) tt
                       (advance intervalMs (exec_world me ListLoaded w1))) base)
        as (b & w' & tr' & Hrun & Htr' & Hm' & Hb).
      - simpl. rewrite Ht1, <- !app_assoc, (app_assoc tr). reflexivity.
      - rewrite polls_snoc, app_nil_r, Hp1, Hres.
        intros [Hin|Hin]%elem_of_app; [done|].
        apply list_elem_of_singleton in Hin. congruence.
      - simpl. lia.
      - exists b, w', tr'. rewrite Hrun. split; [done|]. split; [done|].
        split; [by rewrite Hm'|done]. }
    destruct (exec_result ListLoaded w1) as [[|]|] eqn:Hres; simpl.
    + eexists true, _, _.
      split; [reflexivity|]. split; [exact Ht1|]. split; [done|].
      exists (polls tr). by rewrite Hp1.
    + by apply (Hgo (Some false)).
    + by apply (Hgo None).
  - rewrite PrometeoFacts.interp_Ret. eexists false, _, (tr ++ [_]).
    split; [reflexivity|]. split; [simpl; by rewrite Htr, <- app_assoc|].
    split; [done|]. rewrite polls_snoc, app_nil_r. simpl. split; [done|lia].
Qed.

(** X9. [waitForCondition], with a positive polling interval, never throws
    and never goes on for ever: it returns [true] right after the first
    poll of the product list that gave [true], and [false] only when no
    poll gave [true] and at least [maxWaitMs] have passed; a poll whose
    evaluation is rejected counts as one that gave [false]. *)
Theorem waitForCondition_returns me maxWaitMs intervalMs w :
  (0 < intervalMs)%Z →
  ∃ b w' tr,
    interp me (waitForCondition ListLoaded maxWaitMs intervalMs) w = (Ok b, w') ∧
    trace w' = trace w ++ tr ∧ mutex w' = mutex w ∧
    if b then ∃ pre, polls tr = pre ++ [Some true] ∧ (Some true ∉ pre)
    else (Some true ∉ polls tr) ∧ (maxWaitMs ≤ now w' - now w)%Z.
Proof.
  intros Hint. unfold waitForCondition.
  rewrite PrometeoFacts.interp_bind, PrometeoFacts.interp_now.
  edestruct (waitForCondition_loop_spec me (now w) maxWaitMs intervalMs Hint
               (rounds maxWaitMs intervalMs) (did me Now (now w) w) (trace w)
               [Did me (now w) Now (now w)])
    as (b & w' & tr' & Hrun & Htr' & Hm' & Hb).
  - done.
  - unfold polls. simpl. apply not_elem_of_nil.
  - simpl. unfold rounds. rewrite Nat2Z.inj_succ.
    destruct (Z.le_gt_cases 0 maxWaitMs) as [Hpos|Hneg].
    + rewrite Z2Nat.id by (apply Z.div_pos; lia).
      assert (H := Z.mul_succ_div_gt maxWaitMs intervalMs Hint). lia.
    + assert (0 ≤ Z.of_nat (Z.to_nat (maxWaitMs / intervalMs)))%Z by lia. nia.
  - exists b, w', tr'. by rewrite Hrun.
Qed.

End More.

(** ** Examples on the simple page *)

Abbreviation plain_interp :=
  (interp PrometeoFacts.simple_exec PrometeoFacts.sp_url PrometeoFacts.instant
          PrometeoFacts.no_net 0).

Definition charts_filter : PrometeoProductFilter := mkFilter "SATELLITE" None None None None.

(** The simple page at time 0, with nobody logged in. *)
Definition signed_out : World PrometeoFacts.SimplePage :=
  mkWorld 0 (PrometeoFacts.mkSimplePage PROMETEO_SEARCH_URL "1" "" (λ _, 0%Z))
          false 0 (mkMutex false []) 0 [].

Lemma pair_of_fst {A B} (x : A * B) (a : A) : x.1 = a → x = (a, x.2).
Proof. intros <-. by destruct x. Qed.

Lemma catalog_always_sets_type_witness :
  PrometeoFacts.set_evals
    (trace (plain_interp (_fetchProductCatalog charts_filter)
              (PrometeoFacts.simple_world PrometeoFacts.steady)).2)
  = PrometeoFacts.set_evals (trace (PrometeoFacts.simple_world PrometeoFacts.steady)) + 1.
Proof.
  refine (proj1 (catalog_always_sets_type PrometeoFacts.SimplePage PrometeoFacts.simple_exec
                   PrometeoFacts.sp_url PrometeoFacts.instant PrometeoFacts.no_net
                   0 charts_filter (PrometeoFacts.simple_world PrometeoFacts.steady) _
                   (pair_of_fst _ _ _))).
  vm_compute. reflexivity.
Defined.

Lemma not_logged_in_touches_nothing_witness :
  ∃ w', plain_interp (run_call (CallFetchChartUrls "42")) signed_out
        = (Threw "Non connesso a Prometeo", w') ∧
        trace w' = trace signed_out ++
                   [Did 0 (now signed_out) Acquire tt;
                    Granted 0 (now signed_out);
                    Did 0 (now signed_out) GetStatus false;
                    Did 0 (now signed_out) Release tt] ∧
        mutex w' = mkMutex false [] ∧ page w' = page signed_out ∧
        now w' = now signed_out ∧
        nfetch w' = nfetch signed_out ∧
        fetchCount w' = fetchCount signed_out.
Proof.
  exact (not_logged_in_touches_nothing PrometeoFacts.SimplePage PrometeoFacts.simple_exec
           PrometeoFacts.sp_url PrometeoFacts.instant PrometeoFacts.no_net
           0 (CallFetchChartUrls "42") signed_out eq_refl eq_refl).
Defined.

Lemma waitForCondition_returns_witness :
  ∃ b w' tr,
    plain_interp (waitForCondition ListLoaded 8000 500)
      (PrometeoFacts.simple_world PrometeoFacts.steady) = (Ok b, w') ∧
    trace w' = trace (PrometeoFacts.simple_world PrometeoFacts.steady) ++ tr ∧
    mutex w' = mutex (PrometeoFacts.simple_world PrometeoFacts.steady) ∧
    if b then ∃ pre, polls tr = pre ++ [Some true] ∧ (Some true ∉ pre)
    else (Some true ∉ polls tr) ∧
         (8000 ≤ now w' - now (PrometeoFacts.simple_world PrometeoFacts.steady))%Z.
Proof.
  apply (waitForCondition_returns PrometeoFacts.SimplePage PrometeoFacts.simple_exec
           PrometeoFacts.sp_url PrometeoFacts.instant PrometeoFacts.no_net
           0 8000 500 (PrometeoFacts.simple_world PrometeoFacts.steady)).
  lia.
Defined.

End PrometeoMore.

(** * The IPC handlers ([main/ipc/prometeo.ipc.ts]) *)

Module Ipc.
Import Prometeo.
Local Open Scope prog_scope.

(** What a handler hands to the renderer: the fields of the result, and
    the [error] field when there is one. *)
Record Response (A : Type) := mkResponse { payload : A; error : option string }.

Arguments mkResponse {A} payload error.
Arguments payload {A} r.
Arguments error {A} r.

(** The shape the four session handlers share (lines 11-19, 26-37, 44-51
    and 56-63):
    [try { return JSON.parse(JSON.stringify(await op)) }
     catch (err) { return { ...empty, error: msg } }].
    The results are records of strings, numbers and arrays, which the JSON
    round trip leaves as they are; [msg] is the message the error carries.
    The [console.error] line of the [catch] is left out. *)
Definition respond {A} (op : Prog A) (empty : A) : Prog (Response A) :=
  try_catch (result <- op ;; Ret (mkResponse result None))
            (λ msg, Ret (mkResponse empty (Some msg))).

Definition emptyCatalog : ProductCatalogResult := mkCatalog [] [] [] [].

(** Lines 8-21 *)
Definition on_fetchCatalog (filter : PrometeoProductFilter) :=
  respond (fetchProductCatalog filter) emptyCatalog.

(** Lines 23-39 *)
Definition on_fetchCatalogAndChartUrls (filter : PrometeoProductFilter) (productId : string) :=
  respond (fetchCatalogAndChartUrls filter productId) (emptyCatalog, emptyResult).

(** Lines 41-53 *)
Definition on_fetchChartUrlsForPpt (productType productId : string) :=
  respond (fetchChartUrlsForPpt productType productId) emptyResult.

(** Lines 55-64 *)
Definition on_fetchChartUrls (productId : string) :=
  respond (fetchChartUrls productId) emptyResult.

(** Lines 66-75: [{ dataUrl }], or [{ dataUrl: null, error: msg }] *)
Definition on_fetchImage (imageUrl : string) : Prog (Response (option string)) :=
  try_catch (dataUrl <- fetchImage imageUrl ;; Ret (mkResponse (Some dataUrl) None))
            (λ msg, Ret (mkResponse None (Some msg))).

End Ipc.

(** * Every session operation ends *)

Module PrometeoEnds.
Import Prometeo.
Local Open Scope prog_scope.

(** The call returned or threw: it neither used up a loop bound nor was
    left in the mutex queue. *)
Definition settled {A} (r : Res A) : Prop :=
  match r with
  | Ok _ | Threw _ => True
  | Diverged | Blocked => False
  end.

Lemma label_loop_S fuel labelWaitStart expectedCount :
  label_loop (S fuel) labelWaitStart expectedCount =
  (t <- perform Now ;;
   if (t - labelWaitStart <? 8000)%Z then
     labelCount <- exec LabelCount ;;
     if (labelCount >=? expectedCount)%Z then Ret tt
     else if (labelCount >? 0)%Z then
       t' <- perform Now ;;
       if (t' - labelWaitStart >? 4000)%Z then Ret tt
       else delay 500 ;; label_loop fuel labelWaitStart expectedCount
     else delay 500 ;; label_loop fuel labelWaitStart expectedCount
   else Ret tt).
Proof. reflexivity. Qed.

Section Ends.

Context (Page : Type)
        (page_exec : ∀ A, Script A → Z → Page → option A * nat * Page)
        (page_url : Page → string)
        (page_load : Page → nat)
        (net : nat → string → Net.FetchResult).

Local Abbreviation World := (Prometeo.World Page).
Local Abbreviation handle := (Prometeo.handle page_exec page_url page_load net).
Local Abbreviation interp := (Prometeo.interp page_exec page_url page_load net).
Local Abbreviation acquired := (PrometeoFacts.acquired Page).
Local Abbreviation released := (PrometeoFacts.released Page).
Local Abbreviation exec_world := (PrometeoFacts.exec_world page_exec page_url page_load net).

(** From a world that satisfies [P], whoever runs the program sees it
    return or throw, with the mutex as it was. *)
Definition SettlesIf {A} (P : World → Prop) (p : Prog A) : Prop :=
  ∀ me w, P w →
    settled (interp me p w).1 ∧ mutex (interp me p w).2 = mutex w.

Definition Settles {A} (p : Prog A) : Prop := SettlesIf (λ _, True) p.

Lemma SettlesIf_weaken {A} (P : World → Prop) (p : Prog A) : Settles p → SettlesIf P p.
Proof. intros H me w _. by apply H. Qed.

Lemma SettlesIf_bind {A B} (P : World → Prop) (p : Prog A) (f : A → Prog B) :
  SettlesIf P p → (∀ a, Settles (f a)) → SettlesIf P (bind p f).
Proof.
  intros Hp Hf me w HP. rewrite PrometeoFacts.interp_bind.
  destruct (Hp me w HP) as [Hs Hm].
  destruct (interp me p w) as [[a|e| |] w1]; simpl in *; try done.
  destruct (Hf a me w1 I) as [Hs' Hm']. by rewrite Hm'.
Qed.

Lemma Settles_bind {A B} (p : Prog A) (f : A → Prog B) :
  Settles p → (∀ a, Settles (f a)) → Settles (bind p f).
Proof. apply SettlesIf_bind. Qed.

Lemma Settles_try_catch {A} (p : Prog A) (h : string → Prog A) :
  Settles p → (∀ e, Settles (h e)) → Settles (try_catch p h).
Proof.
  intros Hp Hh me w _. rewrite PrometeoFacts.interp_try_catch.
  destruct (Hp me w I) as [Hs Hm].
  destruct (interp me p w) as [[a|e| |] w1]; simpl in *; try done.
  destruct (Hh e me w1 I) as [Hs' Hm']. by rewrite Hm'.
Qed.

Lemma Settles_perform {X} (e : Eff X) : MutexFacts.is_mutex e = false → Settles (perform e).
Proof.
  intros He me w _. unfold perform. simpl.
  destruct (MutexFacts.handle_plain page_exec page_url page_load net me e w He)
    as (x & t & w' & -> & Hm & _).
  done.
Qed.

Lemma Settles_exec {A} (s : Script A) : Settles (exec s).
Proof.
  intros me w _. rewrite PrometeoFacts.interp_exec. simpl.
  rewrite PrometeoFacts.exec_world_mutex.
  by destruct (PrometeoFacts.exec_result page_exec s w).
Qed.

Lemma Settles_Ret {A} (a : A) : Settles (Ret a).
Proof. by intros me w _. Qed.

Lemma Settles_Throw {A} (e : string) : Settles (@Throw A e).
Proof. by intros me w _. Qed.

(** What follows a reading of the clock starts no earlier than the
    time read. *)
Lemma Settles_bind_now {B} (k : Z → Prog B) :
  (∀ start, SettlesIf (λ w, (start ≤ now w)%Z) (k start)) → Settles (bind (perform Now) k).
Proof.
  intros Hk me w _. rewrite PrometeoFacts.interp_bind, PrometeoFacts.interp_now.
  destruct (Hk (now w) me (did me Now (now w) w)) as [Hs Hm]; [simpl; lia|].
  by rewrite Hm.
Qed.

(** *** The three polling loops

    Each round that does not leave the loop ends in a [delay], so the
    clock moves on by at least the polling interval and the time limit of
    the loop is reached within the rounds counted by [rounds]. *)

Lemma after_exec {A} me (s : Script A) (w : World) :
  mutex (exec_world me s w) = mutex w ∧ (now w ≤ now (exec_world me s w))%Z.
Proof.
  rewrite PrometeoFacts.exec_world_mutex, PrometeoFacts.exec_world_now.
  assert (H := PrometeoFacts.exec_latency_nonneg Page page_exec s w). split; [done|lia].
Qed.

Lemma rounds_enough maxWaitMs intervalMs :
  (0 < intervalMs)%Z → (maxWaitMs ≤ intervalMs * Z.of_nat (rounds maxWaitMs intervalMs))%Z.
Proof.
  intros Hint. unfold rounds. rewrite Nat2Z.inj_succ.
  destruct (Z.le_gt_cases 0 maxWaitMs) as [Hpos|Hneg].
  - rewrite Z2Nat.id by (apply Z.div_pos; lia).
    assert (H := Z.mul_succ_div_gt maxWaitMs intervalMs Hint). lia.
  - assert (0 ≤ Z.of_nat (Z.to_nat (maxWaitMs / intervalMs)))%Z by lia. nia.
Qed.

Lemma waitForCondition_loop_settles (jsCondition : Script bool) start maxWaitMs intervalMs :
  (0 < intervalMs)%Z →
  ∀ fuel me w,
    (maxWaitMs - (now w - start) ≤ intervalMs * Z.of_nat fuel)%Z →
    settled (interp me (waitForCondition_loop (S fuel) jsCondition start maxWaitMs
                          intervalMs) w).1 ∧
    mutex (interp me (waitForCondition_loop (S fuel) jsCondition start maxWaitMs
                        intervalMs) w).2 = mutex w.
Proof.
  intros Hint. induction fuel as [|fuel IH]; intros me w Hfuel;
    rewrite PrometeoFacts.waitForCondition_loop_S, PrometeoFacts.interp_bind,
      PrometeoFacts.interp_now;
    destruct (now w - start <? maxWaitMs)%Z eqn:Hlt; try lia; try done.
  rewrite PrometeoFacts.interp_bind, PrometeoFacts.interp_try_catch,
    PrometeoFacts.interp_exec.
  set (w1 := did me Now (now w) w).
  destruct (after_exec me jsCondition w1) as [Hm1 Hn1].
  assert (Hgo : settled (interp me (delay intervalMs ;;
                           waitForCondition_loop (S fuel) jsCondition start maxWaitMs
                             intervalMs) (exec_world me jsCondition w1)).1 ∧
                mutex (interp me (delay intervalMs ;;
                           waitForCondition_loop (S fuel) jsCondition start maxWaitMs
                             intervalMs) (exec_world me jsCondition w1)).2 = mutex w).
  { rewrite PrometeoFacts.interp_bind, PrometeoFacts.interp_delay.
    destruct (IH me (did me (Delay intervalMs) tt
                       (advance intervalMs (exec_world me jsCondition w1)))) as [Hs Hm].
    - simpl. simpl in Hn1. lia.
    - split; [done|]. rewrite Hm. simpl. by rewrite Hm1. }
  destruct (PrometeoFacts.exec_result page_exec jsCondition w1) as [[|]|]; simpl.
  - by rewrite Hm1.
  - exact Hgo.
  - exact Hgo.
Qed.

Lemma Settles_waitForCondition (jsCondition : Script bool) maxWaitMs intervalMs :
  (0 < intervalMs)%Z → Settles (waitForCondition jsCondition maxWaitMs intervalMs).
Proof.
  intros Hint. unfold waitForCondition. apply Settles_bind_now. intros start me w Hw.
  apply waitForCondition_loop_settles; [done|].
  assert (H := rounds_enough maxWaitMs intervalMs Hint). lia.
Qed.

Lemma Settles_waitForStableArray : Settles _waitForStableArray.
Proof.
  intros me w _.
  destruct (PrometeoFacts.waitForStableArray_spec Page page_exec page_url page_load net me w)
    as (res & w' & tr & -> & _ & _ & Hm & Hres).
  simpl. split; [|done]. by destruct res.
Qed.

Lemma label_loop_settles start expectedCount :
  ∀ fuel me w,
    (8000 - (now w - start) ≤ 500 * Z.of_nat fuel)%Z →
    settled (interp me (label_loop (S fuel) start expectedCount) w).1 ∧
    mutex (interp me (label_loop (S fuel) start expectedCount) w).2 = mutex w.
Proof.
  induction fuel as [|fuel IH]; intros me w Hfuel;
    rewrite label_loop_S, PrometeoFacts.interp_bind, PrometeoFacts.interp_now;
    destruct (now w - start <? 8000)%Z eqn:Hlt; try lia; try done.
  rewrite PrometeoFacts.interp_bind, PrometeoFacts.interp_exec.
  set (w1 := did me Now (now w) w).
  destruct (after_exec me LabelCount w1) as [Hm1 Hn1].
  assert (Hgo : ∀ w2, mutex w2 = mutex w → (now w ≤ now w2)%Z →
            settled (interp me (delay 500 ;; label_loop (S fuel) start expectedCount) w2).1 ∧
            mutex (interp me (delay 500 ;; label_loop (S fuel) start expectedCount) w2).2
            = mutex w).
  { intros w2 Hm2 Hn2. rewrite PrometeoFacts.interp_bind, PrometeoFacts.interp_delay.
    destruct (IH me (did me (Delay 500) tt (advance 500 w2))) as [Hs Hm].
    - simpl. lia.
    - split; [done|]. rewrite Hm. simpl. done. }
  destruct (PrometeoFacts.exec_result page_exec LabelCount w1) as [labelCount|];
    cbn [fst snd]; [|by rewrite Hm1].
  destruct (labelCount >=? expectedCount)%Z; [by cbn [interp fst snd]; rewrite Hm1|].
  destruct (labelCount >? 0)%Z.
  - rewrite PrometeoFacts.interp_bind, PrometeoFacts.interp_now. cbv beta iota.
    destruct (now (exec_world me LabelCount w1) - start >? 4000)%Z.
    + by cbn [interp fst snd].
    + apply Hgo; [done|]. simpl in *. lia.
  - apply Hgo; [done|]. simpl in Hn1. lia.
Qed.

Lemma SettlesIf_label_loop start expectedCount :
  SettlesIf (λ w, (start ≤ now w)%Z) (label_loop (S (rounds 8000 500)) start expectedCount).
Proof.
  intros me w Hw. apply label_loop_settles.
  assert (H := rounds_enough 8000 500). lia.
Qed.

(** *** The method bodies *)

Ltac settles_step :=
  match goal with
  | |- ∀ _, _ => intro
  | |- Settles (bind _ _) => apply Settles_bind
  | |- Settles (try_catch _ _) => apply Settles_try_catch
  | |- Settles (exec _) => apply Settles_exec
  | |- Settles (perform _) => by apply Settles_perform
  | |- Settles (delay _) => by apply Settles_perform
  | |- Settles (console _) => by apply Settles_perform
  | |- Settles (waitForCondition _ _ _) => apply Settles_waitForCondition; lia
  | |- Settles _waitForStableArray => apply Settles_waitForStableArray
  | |- Settles (Ret _) => apply Settles_Ret
  | |- Settles (Throw _) => apply Settles_Throw
  | |- Settles (if ?b then _ else _) => destruct b
  | |- Settles (match ?x with _ => _ end) => destruct x
  end.

Ltac settles := repeat settles_step.

Lemma Settles_ensureSearchPage : Settles ensureSearchPage.
Proof. unfold ensureSearchPage. settles. Qed.

Lemma Settles_fetchProductCatalog_body filter : Settles (_fetchProductCatalog filter).
Proof.
  unfold _fetchProductCatalog. cbv zeta.
  apply Settles_bind; [apply Settles_ensureSearchPage|]. settles.
Qed.

Lemma Settles_ensureProductType productType : Settles (_ensureProductType productType).
Proof.
  unfold _ensureProductType. cbv zeta.
  apply Settles_bind; [apply Settles_ensureSearchPage|]. settles.
Qed.

Lemma Settles_select_product productId : Settles (select_product productId).
Proof.
  unfold select_product.
  apply Settles_bind; [apply Settles_ensureSearchPage|]. settles.
Qed.

Lemma Settles_search_fallback : Settles search_fallback.
Proof. unfold search_fallback. settles. Qed.

Lemma Settles_fetchChartUrls_body productId : Settles (_fetchChartUrls productId).
Proof.
  unfold _fetchChartUrls.
  apply Settles_bind; [apply Settles_select_product|]. intros _.
  apply Settles_bind; [apply Settles_waitForStableArray|]. intros lastCount.
  apply Settles_bind.
  { destruct (lastCount =? 0)%Z; [apply Settles_search_fallback|apply Settles_Ret]. }
  intros lastCount'. destruct (lastCount' =? 0)%Z; [settles|]. cbv zeta.
  apply Settles_bind_now. intros start.
  apply SettlesIf_bind; [apply SettlesIf_label_loop|]. settles.
Qed.

(** The bodies the four public operations run under the mutex. *)
Lemma Settles_public_bodies filter productType productId :
  Settles (_fetchProductCatalog filter) ∧
  Settles (_fetchChartUrls productId) ∧
  Settles (catalog <- _fetchProductCatalog filter ;;
           chartUrls <- _fetchChartUrls productId ;;
           Ret (catalog, chartUrls)) ∧
  Settles (_ensureProductType productType ;; _fetchChartUrls productId).
Proof.
  split_and!.
  - apply Settles_fetchProductCatalog_body.
  - apply Settles_fetchChartUrls_body.
  - apply Settles_bind; [apply Settles_fetchProductCatalog_body|]. intros catalog.
    apply Settles_bind; [apply Settles_fetchChartUrls_body|]. intros. apply Settles_Ret.
  - apply Settles_bind; [apply Settles_ensureProductType|]. intros.
    apply Settles_fetchChartUrls_body.
Qed.

(** *** The public operations *)

Lemma locked_call_settles {A} (body : Prog A) me w :
  Settles body → mutex w = mkMutex false [] →
  settled (interp me (perform Acquire ;; try_finally body releaseLock) w).1 ∧
  mutex (interp me (perform Acquire ;; try_finally body releaseLock) w).2 = mkMutex false [].
Proof.
  intros Hbody Hm.
  rewrite PrometeoFacts.interp_bind, PrometeoFacts.interp_acquire_free by (by rewrite Hm).
  rewrite PrometeoFacts.interp_try_finally.
  destruct (Hbody me (acquired me w) I) as [Hs Hm1].
  assert (Hq : mutex (acquired me w) = mkMutex true []) by (simpl; by rewrite Hm).
  rewrite Hq in Hm1.
  destruct (interp me body (acquired me w)) as [[a|e| |] w1]; simpl in Hs, Hm1; try done;
    rewrite PrometeoFacts.interp_bind, PrometeoFacts.interp_release_last
      by (by rewrite Hm1);
    done.
Qed.

(** X10. Started while the mutex is free, each of the four public session
    operations comes to an end, whatever the portal page answers: it
    returns or throws, and never stays in one of its polling loops or in
    the mutex queue; when it ends the mutex is free again and nobody
    waits for it. *)
Theorem session_operation_ends me call w :
  mutex w = mkMutex false [] →
  settled (interp me (run_call call) w).1 ∧
  mutex (interp me (run_call call) w).2 = mkMutex false [].
Proof.
  intros Hm.
  assert (Hop : ∀ A (op : Prog A) (f : A → Reply),
            (settled (interp me op w).1 ∧ mutex (interp me op w).2 = mkMutex false []) →
            settled (interp me (r <- op ;; Ret (f r)) w).1 ∧
            mutex (interp me (r <- op ;; Ret (f r)) w).2 = mkMutex false []).
  { intros A op f [Hs Hm']. rewrite PrometeoFacts.interp_bind.
    by destruct (interp me op w) as [[a|e| |] w1]. }
  destruct call; unfold run_call; apply Hop.
  - apply (locked_call_settles (_fetchProductCatalog filter)); [|done].
    apply (Settles_public_bodies filter "" "").
  - apply (locked_call_settles (_fetchChartUrls productId)); [|done].
    apply (Settles_public_bodies (mkFilter "" None None None None) "" productId).
  - apply (locked_call_settles
             (catalog <- _fetchProductCatalog filter ;;
              chartUrls <- _fetchChartUrls productId ;;
              Ret (catalog, chartUrls))); [|done].
    apply (Settles_public_bodies filter "" productId).
  - apply (locked_call_settles (_ensureProductType productType ;; _fetchChartUrls productId));
      [|done].
    apply (Settles_public_bodies (mkFilter "" None None None None) productType productId).
Qed.

(** *** The handlers *)

(** The handler [h] of the operation [op] answers: with the result of
    [op] and no error, or with the empty result and the message of what
    [op] threw. *)
Definition Answers {A} (h : Prog (Ipc.Response A)) (op : Prog A) (empty : A)
    (me : nat) (w : World) : Prop :=
  ∃ r w', interp me h w = (Ok r, w') ∧ mutex w' = mkMutex false [] ∧
          ((interp me op w = (Ok (Ipc.payload r), w') ∧ Ipc.error r = None) ∨
           (∃ msg, interp me op w = (Threw msg, w') ∧ r = Ipc.mkResponse empty (Some msg))).

Lemma respond_answers {A} (op : Prog A) (empty : A) me w :
  settled (interp me op w).1 ∧ mutex (interp me op w).2 = mkMutex false [] →
  Answers (Ipc.respond op empty) op empty me w.
Proof.
  intros [Hs Hm]. unfold Answers, Ipc.respond.
  rewrite PrometeoFacts.interp_try_catch, PrometeoFacts.interp_bind.
  destruct (interp me op w) as [[a|e| |] w1]; simpl in Hs, Hm; try done.
  - eexists _, _. split; [reflexivity|]. split; [done|]. by left.
  - eexists _, _. split; [reflexivity|]. split; [done|]. right. by exists e.
Qed.

(** X11. Called while the mutex is free, each of the four session
    handlers resolves, and with a reply: the result of the service call
    without an [error] field when the call returned, the empty result
    together with the message when it threw.  No handler rejects or stays
    pending, and the mutex is free when it has answered. *)
Theorem session_handlers_always_answer me filter productType productId w :
  mutex w = mkMutex false [] →
  Answers (Ipc.on_fetchCatalog filter) (fetchProductCatalog filter) Ipc.emptyCatalog me w ∧
  Answers (Ipc.on_fetchCatalogAndChartUrls filter productId)
          (fetchCatalogAndChartUrls filter productId) (Ipc.emptyCatalog, emptyResult) me w ∧
  Answers (Ipc.on_fetchChartUrlsForPpt productType productId)
          (fetchChartUrlsForPpt productType productId) emptyResult me w ∧
  Answers (Ipc.on_fetchChartUrls productId) (fetchChartUrls productId) emptyResult me w.
Proof.
  intros Hm.
  pose proof (Settles_public_bodies filter productType productId) as (H1 & H2 & H3 & H4).
  split_and!; apply respond_answers.
  - by apply (locked_call_settles (_fetchProductCatalog filter)).
  - by apply (locked_call_settles
                (catalog <- _fetchProductCatalog filter ;;
                 chartUrls <- _fetchChartUrls productId ;;
                 Ret (catalog, chartUrls))).
  - by apply (locked_call_settles (_ensureProductType productType ;; _fetchChartUrls productId)).
  - by apply (locked_call_settles (_fetchChartUrls productId)).
Qed.

(** X12. The image handler always resolves, after exactly one request to
    the network and without touching the portal page, the clock or the
    mutex: with the data URL and no [error] field when [fetchImage]
    returned, with a null [dataUrl] and the message when it threw, be it
    because the request was rejected, the status was not OK or the body
    could not be read. *)
Theorem image_handler_always_answers me imageUrl w :
  ∃ r w',
    interp me (Ipc.on_fetchImage imageUrl) w = (Ok r, w') ∧
    nfetch w' = S (nfetch w) ∧ page w' = page w ∧ now w' = now w ∧ mutex w' = mutex w ∧
    ((∃ dataUrl, interp me (fetchImage imageUrl) w = (Ok dataUrl, w') ∧
                 r = Ipc.mkResponse (Some dataUrl) None) ∨
     (∃ msg, interp me (fetchImage imageUrl) w = (Threw msg, w') ∧
             r = Ipc.mkResponse None (Some msg))).
Proof.
  assert (Hf : ∃ res, interp me (fetchImage imageUrl) w
                      = (res, PrometeoFacts.fetched net me imageUrl w) ∧ settled res).
  { unfold fetchImage, PrometeoFacts.fetched. fold (PrometeoFacts.absolute_url imageUrl).
    rewrite PrometeoFacts.interp_bind. unfold perform. cbn [Prometeo.interp Prometeo.handle].
    destruct (net (nfetch w) (PrometeoFacts.absolute_url imageUrl)) as [msg|response];
      cbn [Prometeo.interp]; [by eexists|].
    destruct (negb (Net.ok response)); cbn [Prometeo.interp]; [by eexists|].
    destruct (Net.body response) as [buffer|]; cbn [Prometeo.interp]; by eexists. }
  destruct Hf as (res & Hf & Hs).
  unfold Ipc.on_fetchImage.
  rewrite PrometeoFacts.interp_try_catch, PrometeoFacts.interp_bind, Hf.
  destruct res as [dataUrl|msg| |]; try done; cbn [Prometeo.interp].
  - eexists _, _. split; [reflexivity|]. split_and!; try done. left. by eexists.
  - eexists _, _. split; [reflexivity|]. split_and!; try done. right. by eexists.
Qed.

End Ends.

(** ** Examples on the simple page *)

Lemma session_operation_ends_witness :
  settled (Prometeo.interp PrometeoFacts.simple_exec PrometeoFacts.sp_url
             PrometeoFacts.instant PrometeoFacts.no_net 0
             (run_call (CallFetchChartUrls "42"))
             (PrometeoFacts.simple_world PrometeoFacts.steady)).1 ∧
  mutex (Prometeo.interp PrometeoFacts.simple_exec PrometeoFacts.sp_url
           PrometeoFacts.instant PrometeoFacts.no_net 0
           (run_call (CallFetchChartUrls "42"))
           (PrometeoFacts.simple_world PrometeoFacts.steady)).2 = mkMutex false [].
Proof.
  exact (session_operation_ends PrometeoFacts.SimplePage PrometeoFacts.simple_exec
           PrometeoFacts.sp_url PrometeoFacts.instant PrometeoFacts.no_net
           0 (CallFetchChartUrls "42") (PrometeoFacts.simple_world PrometeoFacts.steady)
           eq_refl).
Defined.

Lemma session_handlers_always_answer_witness :
  Answers PrometeoFacts.SimplePage PrometeoFacts.simple_exec PrometeoFacts.sp_url
    PrometeoFacts.instant PrometeoFacts.no_net
    (Ipc.on_fetchChartUrls "42") (fetchChartUrls "42") emptyResult 0
    (PrometeoFacts.simple_world PrometeoFacts.steady).
Proof.
  exact (proj2 (proj2 (proj2
           (session_handlers_always_answer PrometeoFacts.SimplePage PrometeoFacts.simple_exec
              PrometeoFacts.sp_url PrometeoFacts.instant PrometeoFacts.no_net
              0 (mkFilter "CHARTS" None None None None) "CHARTS" "42"
              (PrometeoFacts.simple_world PrometeoFacts.steady) eq_refl)))).
Defined.

End PrometeoEnds.

(** * The chart extraction script (lines 673-742) *)

Module Extraction.
Import Prometeo.

(** [s.split(sep)] for a separator that is not empty: [cur] is the piece
    being read, [skip] the characters of a separator just found that are
    still to be passed over. *)
Fixpoint split_go (sep s : string) (skip : nat) (cur : string) : list string :=
  match s with
  | EmptyString => [cur]
  | String c s' =>
      match skip with
      | S k => split_go sep s' k cur
      | 0 =>
          if Js.startsWith s sep then cur :: split_go sep s' (String.length sep - 1) ""
          else split_go sep s' 0 (cur +:+ String c "")
      end
  end.

Definition split (sep s : string) : list string := split_go sep s 0 "".

(** [String(i).padStart(3, '0')] *)
Definition padStart3 (i : nat) : string :=
  let s := pretty i in
  String.concat "" (replicate (3 - String.length s) "0") +:+ s.

(** The prefix the script puts before a relative path. *)
Definition absolute (relativePath : string) : string :=
  if Js.startsWith relativePath "http" then relativePath
  else PROMETEO_BASE_URL +:+ "/" +:+ relativePath.

Section Script.

(** [String.prototype.trim] and the helper [labelFromPath] of lines
    688-698 (a regular expression and a [Date]) are taken as they come. *)
Variable trim : string → string.
Variable labelFromPath : string → string.

(** What the script reads in the page: the entries of [arrLinkImmagini],
    and the [textContent] of the cells matched by
    [td[onclick*="changeImgValidity"]] and of the validity buttons. *)
Variables (arrLinkImmagini tds validBtns : list string).

(** [a[i] && a[i].textContent.trim()] *)
Definition text_at (a : list string) (i : nat) : string :=
  match a !! i with
  | Some t => trim t
  | None => ""
  end.

(** Lines 700-730: the body of the [for] loop, for entry [i]. *)
Definition step_of (i : nat) (entry : string) : TimeStep :=
  let parts := split "---" entry in
  let relativePath := default "" (parts !! 0) in
  let label := match parts !! 1 with Some p => trim p | None => "" end in
  let label :=
    if bool_decide (label = "") then
      if negb (bool_decide (text_at tds i = "")) then text_at tds i
      else if negb (bool_decide (text_at validBtns i = "")) then text_at validBtns i
      else
        let label := labelFromPath relativePath in
        if bool_decide (label = "") then "T+" +:+ padStart3 i else label
    else label in
  mkStep label (Z.of_nat i) (absolute relativePath).

(** The [steps] of the object the script returns. *)
Definition extract_steps : list TimeStep := imap step_of arrLinkImmagini.

End Script.

End Extraction.

(** ** Facts about the extraction *)

Module ExtractionFacts.
Import Prometeo Extraction.

Lemma append_cons c s t : String c s +:+ t = String c (s +:+ t).
Proof. reflexivity. Qed.

Lemma append_nil_r s : s +:+ "" = s.
Proof. induction s as [|c s IH]; [done|]. by rewrite append_cons, IH. Qed.

Lemma append_assoc s t u : (s +:+ t) +:+ u = s +:+ (t +:+ u).
Proof. induction s as [|c s IH]; [done|]. by rewrite !append_cons, IH. Qed.

Lemma startsWith_app s p : Js.startsWith (p +:+ s) p = true.
Proof.
  induction p as [|c p IH]; [by destruct s|].
  rewrite append_cons. simpl. by rewrite Ascii.eqb_refl.
Qed.

Lemma startsWith_spec s p : Js.startsWith s p = true ↔ ∃ r, s = p +:+ r.
Proof.
  split.
  - revert s. induction p as [|c p IH]; intros s H; [by exists s|].
    destruct s as [|d s]; simpl in H; [done|].
    destruct (Ascii.eqb c d) eqn:Hc; [|done]. apply Ascii.eqb_eq in Hc as ->.
    destruct (IH s H) as [r ->]. by exists r.
  - intros [r ->]. apply startsWith_app.
Qed.

Lemma startsWith_longer s r p : Js.startsWith s p = true → Js.startsWith (s +:+ r) p = true.
Proof.
  intros [t ->]%startsWith_spec. rewrite append_assoc. apply startsWith_app.
Qed.

Lemma absolute_http relativePath : Js.startsWith (absolute relativePath) "http" = true.
Proof.
  unfold absolute. destruct (Js.startsWith relativePath "http") eqn:H; [done|].
  reflexivity.
Qed.

(** The part of [s] before the first occurrence of [sep]; all of [s] when
    [sep] does not occur in it. *)
Fixpoint before_first (sep s : string) : string :=
  if Js.startsWith s sep then ""
  else match s with
       | EmptyString => ""
       | String c s' => String c (before_first sep s')
       end.

(** [s] without its first [n] characters *)
Fixpoint skip (n : nat) (s : string) : string :=
  match n, s with
  | S n', String _ s' => skip n' s'
  | _, _ => s
  end.

(** What follows the first occurrence of [sep] in [s], when there is one. *)
Fixpoint after_first (sep s : string) : option string :=
  if Js.startsWith s sep then Some (skip (String.length sep) s)
  else match s with
       | EmptyString => None
       | String _ s' => after_first sep s'
       end.

Lemma startsWith_length s p : Js.startsWith s p = true → String.length p ≤ String.length s.
Proof.
  revert s. induction p as [|c p IH]; intros s; [simpl; lia|].
  destruct s as [|d s]; simpl; [done|]. destruct (Ascii.eqb c d); [|done].
  intros H%IH. lia.
Qed.

Lemma split_go_skip sep s : ∀ k cur,
  k ≤ String.length s → split_go sep s k cur = split_go sep (skip k s) 0 cur.
Proof.
  induction s as [|c s IH]; intros k cur Hk.
  - simpl in Hk. by replace k with 0 by lia.
  - destruct k as [|k]; [done|]. simpl. apply IH. simpl in Hk. lia.
Qed.

(** [split] cuts at the first occurrence of the separator and goes on
    with what follows it. *)
Lemma split_go_first sep s : sep ≠ "" → ∀ cur,
  split_go sep s 0 cur
  = (cur +:+ before_first sep s)
      :: match after_first sep s with
         | Some rest => split_go sep rest 0 ""
         | None => []
         end.
Proof.
  intros Hsep. induction s as [|c s IH]; intros cur.
  - destruct sep; [done|]. simpl. by rewrite append_nil_r.
  - cbn [split_go before_first after_first].
    destruct (Js.startsWith (String c s) sep) eqn:Hst.
    + rewrite append_nil_r. f_equal.
      apply startsWith_length in Hst. destruct sep as [|d sep]; [done|].
      simpl in Hst. simpl. rewrite Nat.sub_0_r. apply split_go_skip. lia.
    + by rewrite IH, append_assoc.
Qed.

Lemma split_pieces sep s : sep ≠ "" →
  split sep s !! 0 = Some (before_first sep s) ∧
  split sep s !! 1 = before_first sep <$> after_first sep s.
Proof.
  intros Hsep. unfold split. rewrite (split_go_first sep s Hsep ""). split; [done|].
  cbn [lookup list_lookup]. destruct (after_first sep s) as [rest|]; [|done].
  by rewrite (split_go_first sep rest Hsep "").
Qed.

(** [before_first] is what its name says: the string is that part
    followed by a rest that is empty or begins with the separator, and the
    separator does not begin anywhere inside the part. *)
Lemma before_first_spec sep s : sep ≠ "" →
  ∃ rest, s = before_first sep s +:+ rest ∧
          (rest = "" ∨ Js.startsWith rest sep = true) ∧
          ∀ a b, before_first sep s = a +:+ b → b ≠ "" →
                 Js.startsWith (b +:+ rest) sep = false.
Proof.
  intros Hsep. induction s as [|c s IH].
  - exists "". destruct sep as [|d sep]; [done|]. simpl. split_and!; [done|by left|].
    intros x y Hxy. by destruct x, y.
  - cbn [before_first]. destruct (Js.startsWith (String c s) sep) eqn:Hst.
    + exists (String c s). split_and!; [done|by right|].
      intros x y Hxy. by destruct x, y.
    + destruct IH as (rest & Hs & Hrest & Hno). exists rest. split_and!.
      * by rewrite append_cons, <- Hs.
      * done.
      * intros a b Hab Hb. destruct a as [|d a'].
        -- change ("" +:+ b) with b in Hab. subst b. by rewrite append_cons, <- Hs.
        -- rewrite append_cons in Hab. injection Hab as -> Hab. by apply (Hno a' b).
Qed.

Section Facts.

Variable trim : string → string.
Variable labelFromPath : string → string.
Variables (arrLinkImmagini tds validBtns : list string).

Local Abbreviation step_of := (Extraction.step_of trim labelFromPath tds validBtns).
Local Abbreviation extract_steps :=
  (Extraction.extract_steps trim labelFromPath arrLinkImmagini tds validBtns).

Lemma step_of_label i entry : label (step_of i entry) ≠ "".
Proof.
  unfold Extraction.step_of. cbn [label].
  repeat case_bool_decide; simpl; try done.
Qed.

Lemma extract_steps_lookup i :
  extract_steps !! i = step_of i <$> arrLinkImmagini !! i.
Proof. unfold Extraction.extract_steps. apply list_lookup_imap. Qed.

Lemma extract_steps_length : length extract_steps = length arrLinkImmagini.
Proof. apply length_imap. Qed.

(** X13. The extraction script yields one step per entry of
    [arrLinkImmagini], in the order of the array and numbered from 0.  The
    image URL of a step is the part of its entry before the first [---]
    (the whole entry when it has none), taken as it is when it starts with
    [http] and put after the portal base URL and a slash otherwise.  The
    label of a step is never empty, and when the entry has a [---] and the
    text between the first [---] and the next one (or the end of the
    entry), trimmed, is not empty, the label is that trimmed text. *)
Theorem extracted_steps_follow_entries :
  length extract_steps = length arrLinkImmagini ∧
  ∀ i entry, arrLinkImmagini !! i = Some entry →
    ∃ st rest,
      extract_steps !! i = Some st ∧ index st = Z.of_nat i ∧
      entry = before_first "---" entry +:+ rest ∧
      (rest = "" ∨ Js.startsWith rest "---" = true) ∧
      (∀ a b, before_first "---" entry = a +:+ b → b ≠ "" →
              Js.startsWith (b +:+ rest) "---" = false) ∧
      imageUrl st = (if Js.startsWith (before_first "---" entry) "http"
                     then before_first "---" entry
                     else PROMETEO_BASE_URL +:+ "/" +:+ before_first "---" entry) ∧
      label st ≠ "" ∧
      (∀ after, after_first "---" entry = Some after →
                trim (before_first "---" after) ≠ "" →
                label st = trim (before_first "---" after)).
Proof.
  split; [apply extract_steps_length|]. intros i entry Hi.
  destruct (before_first_spec "---" entry ltac:(done)) as (rest & Hentry & Hrest & Hno).
  destruct (split_pieces "---" entry ltac:(done)) as [H0 H1].
  exists (step_of i entry), rest.
  rewrite extract_steps_lookup, Hi. split_and!; try done.
  - unfold Extraction.step_of. by rewrite H0.
  - apply step_of_label.
  - intros after Hafter Hne. unfold Extraction.step_of. cbn [label].
    rewrite H1, Hafter. simpl. by rewrite bool_decide_eq_false_2.
Qed.

Section Download.

Context (sha256_hex : string → string) (cacheDir : string)
        (net : nat → string → Net.FetchResult)
        (fs0 : gmap string (list Byte.byte)).

Local Abbreviation localPath := (Downloader.localPath sha256_hex cacheDir).
Local Abbreviation downloadCharts := (Downloader.downloadCharts sha256_hex cacheDir net).

(** X14. Every URL the extraction script yields is well formed for the
    two consumers.  [fetchImage] fetches it as it is; and when the URLs of
    the extracted steps are handed to [downloadCharts], in the order of the
    steps, no item is set aside as invalid: each step either gets its cache
    path, or the empty string after exactly three failed fetches. *)
Theorem extracted_urls_are_downloadable sched :
  ∃ sf, downloadCharts (imageUrl <$> extract_steps) fs0 sched = Some sf ∧
        ∀ i st, extract_steps !! i = Some st →
          Downloader.invalid_url (imageUrl st) = false ∧
          PrometeoFacts.absolute_url (imageUrl st) = imageUrl st ∧
          (Downloader.results sf !! i = Some (Some (localPath (imageUrl st))) ∨
           (Downloader.results sf !! i = Some (Some "") ∧
            Downloader.attempts i (Downloader.log sf) = [1; 2; 3])).
Proof.
  destruct (DownloaderMore.downloadCharts_total sha256_hex cacheDir net
              (imageUrl <$> extract_steps) fs0 sched) as [sf Hrun].
  exists sf. split; [done|]. intros i st Hst.
  assert (Hhttp : Js.startsWith (imageUrl st) "http" = true).
  { rewrite extract_steps_lookup in Hst.
    destruct (arrLinkImmagini !! i) as [entry|]; [|done]. injection Hst as <-.
    apply absolute_http. }
  assert (Hv : Downloader.invalid_url (imageUrl st) = false).
  { unfold Downloader.invalid_url. rewrite Hhttp. by destruct (imageUrl st). }
  split; [done|]. split; [unfold PrometeoFacts.absolute_url; by rewrite Hhttp|].
  destruct (DownloaderMore.final_obs sha256_hex cacheDir net (imageUrl <$> extract_steps)
              fs0 sched sf i (imageUrl st) Hrun) as (_ & o & Hs & Hres & Hat).
  { by rewrite list_lookup_fmap, Hst. }
  destruct o as [| |a|]; simpl in Hs, Hres, Hat.
  - congruence.
  - by left.
  - by left.
  - right. done.
Qed.

End Download.

End Facts.

End ExtractionFacts.

(** * The step selection of the renderer ([renderer/src/stores/products.store.ts]) *)

Module Store.
Import Prometeo.

(** The fields of the store the step selection works on.  The indexes
    are those the step list hands out, natural numbers. *)
Record ProductsState := mkProductsState {
  availableSteps : list TimeStep;
  selectedStepIndexes : list nat }.

Definition set_selected (sel : list nat) (st : ProductsState) : ProductsState :=
  mkProductsState (availableSteps st) sel.

(** [[...current, index].sort((a, b) => a - b)]: the numbers in ascending
    order. *)
Definition sort_numbers (l : list nat) : list nat := merge_sort (≤) l.

(** Lines 113-120 *)
Definition toggleStep (index : nat) (st : ProductsState) : ProductsState :=
  let current := selectedStepIndexes st in
  if bool_decide (index ∈ current) then
    set_selected (filter (λ i, i ≠ index) current) st
  else
    set_selected (sort_numbers (current ++ [index])) st.

(** Lines 122-124: [availableSteps.map((_, i) => i)] *)
Definition selectAllSteps (st : ProductsState) : ProductsState :=
  set_selected (imap (λ i _, i) (availableSteps st)) st.

(** Lines 126-128 *)
Definition deselectAllSteps (st : ProductsState) : ProductsState :=
  set_selected [] st.

(** Lines 131-132: the URLs [downloadSelected] asks for;
    [availableSteps[i].imageUrl] throws when there is no step [i]. *)
Definition selected_urls (st : ProductsState) : option (list string) :=
  mapM (λ i, imageUrl <$> availableSteps st !! i) (selectedStepIndexes st).

(** What the user does to the selection of a loaded product. *)
Inductive Action :=
| Toggle (index : nat)
| SelectAll
| DeselectAll.

Definition act (st : ProductsState) (a : Action) : ProductsState :=
  match a with
  | Toggle index => toggleStep index st
  | SelectAll => selectAllSteps st
  | DeselectAll => deselectAllSteps st
  end.

(** Lines 98-106: a product has just been selected and its steps have
    arrived; nothing is selected yet. *)
Definition loaded (steps : list TimeStep) : ProductsState := mkProductsState steps [].

End Store.

Module StoreFacts.
Import Prometeo Store.

(** The selection is in ascending order without repetition, and every
    index in it names a step. *)
Definition Tidy (st : ProductsState) : Prop :=
  StronglySorted lt (selectedStepIndexes st) ∧
  Forall (λ i, i < length (availableSteps st)) (selectedStepIndexes st).

Lemma StronglySorted_lt_le l : StronglySorted lt l → StronglySorted le l.
Proof.
  induction 1 as [|x l _ IH Hx]; constructor; [done|].
  eapply Forall_impl; [exact Hx|]. intros y. simpl. lia.
Qed.

Lemma StronglySorted_lt_NoDup l : StronglySorted lt l → NoDup l.
Proof.
  induction 1 as [|x l _ IH Hx]; constructor; [|done].
  intros Hin. rewrite Forall_forall in Hx. specialize (Hx x Hin). lia.
Qed.

Lemma StronglySorted_le_NoDup_lt l : StronglySorted le l → NoDup l → StronglySorted lt l.
Proof.
  induction 1 as [|x l _ IH Hx]; intros Hnd; constructor.
  - apply IH. by apply NoDup_cons in Hnd as [_ ?].
  - apply NoDup_cons in Hnd as [Hx' _]. rewrite Forall_forall in Hx |- *.
    intros y Hy. specialize (Hx y Hy). assert (x ≠ y) by (by intros ->). lia.
Qed.

Lemma Forall_filter_keep {A} (Q P : A → Prop) `{∀ x, Decision (P x)} l :
  Forall Q l → Forall Q (filter P l).
Proof.
  induction 1 as [|x l Hx _ IH]; [constructor|].
  rewrite filter_cons. case_decide; [by constructor|done].
Qed.

Lemma StronglySorted_filter {A} (R : relation A) (P : A → Prop) `{∀ x, Decision (P x)} l :
  StronglySorted R l → StronglySorted R (filter P l).
Proof.
  induction 1 as [|x l _ IH Hx]; [constructor|].
  rewrite filter_cons. case_decide; [|done]. constructor; [done|].
  by apply Forall_filter_keep.
Qed.

Lemma sort_numbers_sorted l : StronglySorted le (sort_numbers l).
Proof. apply StronglySorted_merge_sort; apply _. Qed.

Lemma sort_numbers_perm l : sort_numbers l ≡ₚ l.
Proof. apply merge_sort_Permutation. Qed.

Lemma seq_imap {A} (l : list A) : imap (λ i _, i) l = seq 0 (length l).
Proof.
  apply list_eq. intros i. rewrite list_lookup_imap.
  destruct (l !! i) as [x|] eqn:Hi; simpl.
  - symmetry. apply lookup_seq. split; [done|]. by apply lookup_lt_Some in Hi.
  - symmetry. apply lookup_seq_ge. by apply lookup_ge_None in Hi.
Qed.

Lemma StronglySorted_seq j n : StronglySorted lt (seq j n).
Proof.
  revert j. induction n as [|n IH]; intros j; simpl; constructor; [apply IH|].
  apply Forall_forall. intros i [? ?]%elem_of_seq. lia.
Qed.

Lemma toggleStep_sorted index st :
  StronglySorted lt (selectedStepIndexes st) →
  StronglySorted lt (selectedStepIndexes (toggleStep index st)).
Proof.
  intros Hs. unfold toggleStep. cbv zeta. case_bool_decide as Hin; simpl.
  - by apply StronglySorted_filter.
  - apply StronglySorted_le_NoDup_lt; [apply sort_numbers_sorted|].
    rewrite sort_numbers_perm. apply NoDup_app. split_and!.
    + by apply StronglySorted_lt_NoDup.
    + by intros x Hx ->%list_elem_of_singleton.
    + apply NoDup_singleton.
Qed.

Lemma toggleStep_elem index st j :
  j ∈ selectedStepIndexes (toggleStep index st) ↔
  (j = index ∧ index ∉ selectedStepIndexes st) ∨
  (j ≠ index ∧ j ∈ selectedStepIndexes st).
Proof.
  unfold toggleStep. cbv zeta. case_bool_decide as Hin; simpl.
  - rewrite list_elem_of_filter. split.
    + intros [? ?]. by right.
    + intros [[_ ?]|[? ?]]; done.
  - rewrite sort_numbers_perm, elem_of_app, list_elem_of_singleton. split.
    + intros [?| ->]; [right|by left]. split; [|done]. by intros ->.
    + intros [[-> _]|[_ ?]]; [by right|by left].
Qed.

Lemma toggleStep_steps index st : availableSteps (toggleStep index st) = availableSteps st.
Proof. unfold toggleStep. cbv zeta. by case_bool_decide. Qed.

Lemma Tidy_act steps st a :
  availableSteps st = steps →
  match a with Toggle index => index < length steps | _ => True end →
  Tidy st → availableSteps (act st a) = steps ∧ Tidy (act st a).
Proof.
  intros <- Ha [Hs Hr]. destruct a as [index| |]; simpl.
  - split; [apply toggleStep_steps|]. split; [by apply toggleStep_sorted|].
    rewrite toggleStep_steps. apply Forall_forall. intros j Hj.
    apply toggleStep_elem in Hj as [[-> _]|[_ Hj]]; [done|].
    rewrite Forall_forall in Hr. by apply Hr.
  - split; [done|]. split; simpl; rewrite seq_imap; [apply StronglySorted_seq|].
    apply Forall_forall. intros j [_ ?]%elem_of_seq. lia.
  - split; [done|]. split; simpl; constructor.
Qed.

(** Reading a list at ascending positions gives a sublist of it. *)
Lemma lookups_sublist {A} (l : list A) sel : ∀ k,
  StronglySorted lt sel → Forall (λ i, k ≤ i < length l) sel →
  ∃ us, mapM (λ i, l !! i) sel = Some us ∧ length us = length sel ∧
        us `sublist_of` drop k l.
Proof.
  induction sel as [|i sel IH]; intros k Hs Hr.
  - exists []. split_and!; [done|done|apply sublist_nil_l].
  - apply StronglySorted_inv in Hs as [Hs Hi]. apply Forall_cons_1 in Hr as [[Hk Hlen] Hr].
    destruct (lookup_lt_is_Some_2 l i Hlen) as [x Hx].
    destruct (IH (S i) Hs) as (us & Hus & Hl & Hsub).
    { rewrite Forall_forall in Hi, Hr |- *. intros j Hj.
      specialize (Hi j Hj). specialize (Hr j Hj). lia. }
    exists (x :: us). split_and!.
    + rewrite mapM_Some. constructor; [done|]. by apply mapM_Some.
    + simpl. by rewrite Hl.
    + transitivity (drop i l).
      * rewrite (drop_S l x i Hx). by apply sublist_skip.
      * replace i with (k + (i - k)) by lia. rewrite <- drop_drop. apply sublist_drop.
Qed.

(** X15. Starting from a freshly loaded product, whatever the user
    toggles (among the steps that exist), selects or deselects, the
    selection stays in ascending order without repetition and within the
    steps; so [downloadSelected] never fails on a missing step, and the
    URLs it asks for are the image URLs of the selected steps in step
    order: one per selected index, a sublist of those of all steps. *)
Theorem selection_stays_tidy steps actions :
  Forall (λ a, match a with Toggle index => index < length steps | _ => True end) actions →
  availableSteps (foldl act (loaded steps) actions) = steps ∧
  Tidy (foldl act (loaded steps) actions) ∧
  ∃ urls, selected_urls (foldl act (loaded steps) actions) = Some urls ∧
          length urls = length (selectedStepIndexes (foldl act (loaded steps) actions)) ∧
          urls `sublist_of` (imageUrl <$> steps).
Proof.
  intros Hact.
  assert (Hinv : availableSteps (foldl act (loaded steps) actions) = steps ∧
                 Tidy (foldl act (loaded steps) actions)).
  { revert Hact. induction actions as [|a actions IH] using rev_ind; intros Hact.
    - split; [done|]. split; simpl; constructor.
    - apply Forall_app in Hact as [Hact Ha]. apply Forall_cons_1 in Ha as [Ha _].
      rewrite foldl_snoc. destruct (IH Hact) as [Hst HT]. by apply Tidy_act. }
  destruct Hinv as [Hst [Hs Hr]]. split; [done|]. split; [done|].
  destruct (lookups_sublist (imageUrl <$> steps)
              (selectedStepIndexes (foldl act (loaded steps) actions)) 0 Hs)
    as (urls & Hurls & Hlen & Hsub).
  { eapply Forall_impl; [exact Hr|]. intros i Hi. simpl in Hi.
    rewrite length_fmap, <- Hst. lia. }
  exists urls. split_and!; [|done|done].
  unfold selected_urls. rewrite <- Hurls, Hst. apply mapM_ext.
  intros i. by rewrite list_lookup_fmap.
Qed.

(** X16. [toggleStep] puts the index in when it is not selected and
    takes it out when it is, leaving the other indexes alone; on a
    selection in ascending order without repetition, toggling the same
    index twice gives back the selection as it was. *)
Theorem toggle_twice_restores index st :
  StronglySorted lt (selectedStepIndexes st) →
  (∀ j, j ∈ selectedStepIndexes (toggleStep index st) ↔
        (j = index ∧ index ∉ selectedStepIndexes st) ∨
        (j ≠ index ∧ j ∈ selectedStepIndexes st)) ∧
  toggleStep index (toggleStep index st) = st.
Proof.
  intros Hs. split; [intros j; apply toggleStep_elem|].
  assert (Hsel : selectedStepIndexes (toggleStep index (toggleStep index st))
                 = selectedStepIndexes st).
  { apply (StronglySorted_unique_strong lt).
    - intros; lia.
    - by do 2 apply toggleStep_sorted.
    - done.
    - apply NoDup_Permutation.
      + apply StronglySorted_lt_NoDup. by do 2 apply toggleStep_sorted.
      + by apply StronglySorted_lt_NoDup.
      + intros j. rewrite !toggleStep_elem.
        destruct (decide (j = index)) as [->|Hne];
          destruct (decide (index ∈ selectedStepIndexes st)); tauto. }
  assert (Hst : availableSteps (toggleStep index (toggleStep index st)) = availableSteps st)
    by (by rewrite !toggleStep_steps).
  destruct st as [steps sel], (toggleStep index (toggleStep index _)) as [steps' sel'].
  simpl in *. by subst.
Qed.

(** ** Examples *)

Definition demo_steps : list TimeStep :=
  [mkStep "Mon 09 06:00" 0 "https://prometeo2.meteoam.it/img/a_2026020906.png";
   mkStep "Mon 09 12:00" 1 "https://prometeo2.meteoam.it/img/a_2026020912.png";
   mkStep "Mon 09 18:00" 2 "https://prometeo2.meteoam.it/img/a_2026020918.png"].

Definition demo_actions : list Action := [Toggle 2; Toggle 0; Toggle 2; Toggle 1].

Lemma selection_stays_tidy_witness :
  availableSteps (foldl act (loaded demo_steps) demo_actions) = demo_steps ∧
  Tidy (foldl act (loaded demo_steps) demo_actions) ∧
  ∃ urls, selected_urls (foldl act (loaded demo_steps) demo_actions) = Some urls ∧
          length urls = length (selectedStepIndexes (foldl act (loaded demo_steps) demo_actions)) ∧
          urls `sublist_of` (imageUrl <$> demo_steps).
Proof.
  apply (selection_stays_tidy demo_steps demo_actions).
  repeat constructor; simpl; lia.
Defined.

Lemma toggle_twice_restores_witness :
  toggleStep 1 (toggleStep 1 (mkProductsState demo_steps [0; 2]))
  = mkProductsState demo_steps [0; 2].
Proof.
  refine (proj2 (toggle_twice_restores 1 (mkProductsState demo_steps [0; 2]) _)).
  repeat constructor; simpl; lia.
Defined.

End StoreFacts.

(** * The slides of the composer ([renderer/src/stores/template.store.ts]) *)

Module Composer.

(** Lines 16-28 *)
Record AssignedChart := mkAssignedChart {
  ac_id : string;
  ac_slideId : string;
  ac_slotIndex : nat;
  ac_productId : string;
  ac_productName : string;
  ac_productType : string;
  ac_stepLabel : string;
  ac_stepIndex : Z;
  ac_imageUrl : string;
  ac_stale : option bool }.

(** [Omit<AssignedChart, 'id' | 'slideId' | 'slotIndex'>] *)
Record ChartData := mkChartData {
  n_productId : string;
  n_productName : string;
  n_productType : string;
  n_stepLabel : string;
  n_stepIndex : Z;
  n_imageUrl : string;
  n_stale : option bool }.

(** Lines 45-50 *)
Record ComposerSlide := mkSlide {
  s_id : string;
  s_order : nat;
  s_title : string;
  s_charts : list AssignedChart }.

Definition set_order (i : nat) (s : ComposerSlide) : ComposerSlide :=
  mkSlide (s_id s) i (s_title s) (s_charts s).
Definition set_title (t : string) (s : ComposerSlide) : ComposerSlide :=
  mkSlide (s_id s) (s_order s) t (s_charts s).
Definition set_charts (cs : list AssignedChart) (s : ComposerSlide) : ComposerSlide :=
  mkSlide (s_id s) (s_order s) (s_title s) cs.
Definition set_slotIndex (i : nat) (c : AssignedChart) : AssignedChart :=
  mkAssignedChart (ac_id c) (ac_slideId c) i (ac_productId c) (ac_productName c)
                  (ac_productType c) (ac_stepLabel c) (ac_stepIndex c) (ac_imageUrl c)
                  (ac_stale c).

(** [charts.map((c, i) => ({ ...c, slotIndex: i }))] *)
Definition reindex (cs : list AssignedChart) : list AssignedChart := imap set_slotIndex cs.

(** [slides.find((s) => s.id === slideId)] *)
Definition find_slide (slideId : string) (slides : list ComposerSlide) : option ComposerSlide :=
  List.find (λ s, bool_decide (s_id s = slideId)) slides.

(** Lines 384-397; [uuid] is what [uuidv4()] gave. *)
Definition addSlide (uuid : string) (slides : list ComposerSlide) : list ComposerSlide :=
  slides ++ [mkSlide uuid (length slides) ("Slide " +:+ pretty (length slides + 1)) []].

(** Lines 399-411 *)
Definition removeSlide (slideId : string) (slides : list ComposerSlide) : list ComposerSlide :=
  imap set_order (filter (λ s, s_id s ≠ slideId) slides).

(** Lines 413-418 *)
Definition setSlideTitle (slideId title : string) (slides : list ComposerSlide)
  : list ComposerSlide :=
  (λ s, if bool_decide (s_id s = slideId) then set_title title s else s) <$> slides.

(** Where [a.splice(start, ...)] starts in an array of length [len], for
    an integer [start]: a negative one counts from the end, and the
    position is kept within [0 .. len]. *)
Definition splice_start (start : Z) (len : nat) : nat :=
  if (start <? 0)%Z then Z.to_nat (Z.max (Z.of_nat len + start) 0)
  else Z.to_nat (Z.min start (Z.of_nat len)).

(** Lines 425-432, for integer indexes.  [updated.splice(fromIndex, 1)]
    takes out the slide at its start position, which is [moved], and
    [updated.splice(toIndex, 0, moved)] puts it in.  When the first start
    position is the end of the array, nothing is taken out and [moved] is
    [undefined]: what the code stores then has an element [{order: i}]
    with no identifier, title or charts.  That is not a list of slides,
    and is [None] here. *)
Definition reorderSlides (fromIndex toIndex : Z) (slides : list ComposerSlide)
  : option (list ComposerSlide) :=
  let from := splice_start fromIndex (length slides) in
  moved ← slides !! from;
  let updated := delete from slides in
  let to := splice_start toIndex (length updated) in
  Some (imap set_order (take to updated ++ moved :: drop to updated)).

(** Lines 436-460 *)
Definition assignChartToSlide (uuid slideId : string) (chartData : ChartData)
    (slides : list ComposerSlide) : list ComposerSlide :=
  match find_slide slideId slides with
  | None => slides
  | Some slide =>
      if decide (6 ≤ length (s_charts slide)) then slides
      else
        let newChart :=
          mkAssignedChart uuid slideId (length (s_charts slide))
            (n_productId chartData) (n_productName chartData) (n_productType chartData)
            (n_stepLabel chartData) (n_stepIndex chartData) (n_imageUrl chartData)
            (n_stale chartData) in
        (λ s, if bool_decide (s_id s = slideId) then set_charts (s_charts s ++ [newChart]) s
              else s) <$> slides
  end.

(** Lines 462-474 *)
Definition removeChartFromSlide (slideId chartId : string) (slides : list ComposerSlide)
  : list ComposerSlide :=
  (λ s, if bool_decide (s_id s ≠ slideId) then s
        else set_charts (reindex (filter (λ c, ac_id c ≠ chartId) (s_charts s))) s)
    <$> slides.

(** Lines 476-510 *)
Definition moveChart (chartId fromSlideId toSlideId : string) (slides : list ComposerSlide)
  : list ComposerSlide :=
  match find_slide fromSlideId slides, find_slide toSlideId slides with
  | Some fromSlide, Some toSlide =>
      if decide (6 ≤ length (s_charts toSlide)) then slides
      else
        match List.find (λ c, bool_decide (ac_id c = chartId)) (s_charts fromSlide) with
        | None => slides
        | Some chart =>
            let movedChart :=
              mkAssignedChart (ac_id chart) toSlideId (length (s_charts toSlide))
                (ac_productId chart) (ac_productName chart) (ac_productType chart)
                (ac_stepLabel chart) (ac_stepIndex chart) (ac_imageUrl chart)
                (ac_stale chart) in
            (λ s, if bool_decide (s_id s = fromSlideId) then
                    set_charts (reindex (filter (λ c, ac_id c ≠ chartId) (s_charts s))) s
                  else if bool_decide (s_id s = toSlideId) then
                    set_charts (s_charts s ++ [movedChart]) s
                  else s) <$> slides
        end
  | _, _ => slides
  end.

Definition set_step (stepLabel : string) (stepIndex : Z) (imageUrl : string)
    (c : AssignedChart) : AssignedChart :=
  mkAssignedChart (ac_id c) (ac_slideId c) (ac_slotIndex c) (ac_productId c)
                  (ac_productName c) (ac_productType c) stepLabel stepIndex imageUrl
                  (Some false).
Definition set_stale (c : AssignedChart) : AssignedChart :=
  mkAssignedChart (ac_id c) (ac_slideId c) (ac_slotIndex c) (ac_productId c)
                  (ac_productName c) (ac_productType c) (ac_stepLabel c) (ac_stepIndex c)
                  (ac_imageUrl c) (Some true).
Definition set_imageUrl (imageUrl : string) (c : AssignedChart) : AssignedChart :=
  mkAssignedChart (ac_id c) (ac_slideId c) (ac_slotIndex c) (ac_productId c)
                  (ac_productName c) (ac_productType c) (ac_stepLabel c) (ac_stepIndex c)
                  imageUrl (ac_stale c).

(** [newSteps.find((s) => s.index === chart.stepIndex)] *)
Definition find_step (stepIndex : Z) (newSteps : list Prometeo.TimeStep)
  : option Prometeo.TimeStep :=
  List.find (λ s, bool_decide (Prometeo.index s = stepIndex)) newSteps.

(** Lines 566-613: what [refreshChartsForProduct] makes of one chart *)
Definition refresh_chart (productId : string) (newSteps : list Prometeo.TimeStep)
    (chart : AssignedChart) : AssignedChart :=
  if bool_decide (ac_productId chart ≠ productId) then chart
  else
    match find_step (ac_stepIndex chart) newSteps with
    | Some matchedStep =>
        set_step (Prometeo.label matchedStep) (Prometeo.index matchedStep)
                 (Prometeo.imageUrl matchedStep) chart
    | None =>
        match last newSteps with
        | Some lastStep =>
            set_step (Prometeo.label lastStep) (Prometeo.index lastStep)
                     (Prometeo.imageUrl lastStep) chart
        | None => set_stale chart
        end
    end.

(** Lines 561-620.  When no chart is of the product the store is left as
    it is, which is also what the mapping gives. *)
Definition refreshChartsForProduct (productId : string) (newSteps : list Prometeo.TimeStep)
    (slides : list ComposerSlide) : list ComposerSlide :=
  (λ slide, set_charts (refresh_chart productId newSteps <$> s_charts slide) slide)
    <$> slides.

(** Lines 624-647 *)
Definition updateChartUrls (productId : string) (newSteps : list Prometeo.TimeStep)
    (slides : list ComposerSlide) : list ComposerSlide :=
  (λ slide,
     set_charts
       ((λ chart,
           if bool_decide (ac_productId chart ≠ productId) then chart
           else
             match find_step (ac_stepIndex chart) newSteps with
             | Some matchedStep =>
                 if bool_decide (Prometeo.imageUrl matchedStep ≠ ac_imageUrl chart)
                 then set_imageUrl (Prometeo.imageUrl matchedStep) chart
                 else chart
             | None => chart
             end) <$> s_charts slide) slide)
    <$> slides.

(** What the user, or a refresh of the steps, does to the slides. *)
Inductive Action :=
| AddSlide (uuid : string)
| RemoveSlide (slideId : string)
| SetSlideTitle (slideId title : string)
| ReorderSlides (fromIndex toIndex : Z)
| AssignChart (uuid slideId : string) (chartData : ChartData)
| RemoveChart (slideId chartId : string)
| MoveChart (chartId fromSlideId toSlideId : string)
| RefreshCharts (productId : string) (newSteps : list Prometeo.TimeStep)
| UpdateChartUrls (productId : string) (newSteps : list Prometeo.TimeStep).

(** The slides after an action; [None] when what the store holds
    afterwards is not a list of slides (see [reorderSlides]). *)
Definition act (slides : list ComposerSlide) (a : Action) : option (list ComposerSlide) :=
  match a with
  | AddSlide uuid => Some (addSlide uuid slides)
  | RemoveSlide slideId => Some (removeSlide slideId slides)
  | SetSlideTitle slideId title => Some (setSlideTitle slideId title slides)
  | ReorderSlides fromIndex toIndex => reorderSlides fromIndex toIndex slides
  | AssignChart uuid slideId chartData =>
      Some (assignChartToSlide uuid slideId chartData slides)
  | RemoveChart slideId chartId => Some (removeChartFromSlide slideId chartId slides)
  | MoveChart chartId fromSlideId toSlideId =>
      Some (moveChart chartId fromSlideId toSlideId slides)
  | RefreshCharts productId newSteps =>
      Some (refreshChartsForProduct productId newSteps slides)
  | UpdateChartUrls productId newSteps => Some (updateChartUrls productId newSteps slides)
  end.

(** Actions one after the other. *)
Fixpoint acts (slides : list ComposerSlide) (actions : list Action)
  : option (list ComposerSlide) :=
  match actions with
  | [] => Some slides
  | a :: actions' => slides' ← act slides a; acts slides' actions'
  end.

(** What is assumed of [uuidv4()]: the identifier of a new slide is not
    that of a slide already there. *)
Fixpoint fresh_ids (slides : list ComposerSlide) (actions : list Action) : Prop :=
  match actions with
  | [] => True
  | a :: actions' =>
      match a with AddSlide uuid => uuid ∉ s_id <$> slides | _ => True end ∧
      match act slides a with
      | Some slides' => fresh_ids slides' actions'
      | None => True
      end
  end.

End Composer.

Module ComposerFacts.
Import Composer.

(** The shape the slides keep: distinct identifiers, [order] equal to the
    position, at most six charts on a slide, each with [slotIndex] equal
    to its position and [slideId] that of its slide. *)
Definition charts_ok (s : ComposerSlide) : Prop :=
  length (s_charts s) ≤ 6 ∧
  ∀ j c, s_charts s !! j = Some c → ac_slotIndex c = j ∧ ac_slideId c = s_id s.

Definition Shaped (slides : list ComposerSlide) : Prop :=
  NoDup (s_id <$> slides) ∧
  (∀ i s, slides !! i = Some s → s_order s = i) ∧
  Forall charts_ok slides.

Lemma find_by_key {A K} (key : A → K) (P : A → bool) (l : list A) i x :
  NoDup (key <$> l) → l !! i = Some x → (∀ y, P y = true ↔ key y = key x) →
  List.find P l = Some x.
Proof.
  intros Hnd Hi HP. revert i Hnd Hi. induction l as [|y l IH]; intros i Hnd Hi; [done|].
  rewrite fmap_cons in Hnd. apply NoDup_cons in Hnd as [Hy Hnd]. simpl.
  destruct i as [|i]; simpl in Hi.
  - injection Hi as ->. by rewrite (proj2 (HP x)).
  - destruct (P y) eqn:HPy; [|by apply (IH i)].
    exfalso. apply Hy. apply HP in HPy. rewrite HPy.
    apply list_elem_of_fmap. exists x. split; [done|]. by eapply list_elem_of_lookup_2.
Qed.

Lemma find_slide_Some slideId slides slide :
  find_slide slideId slides = Some slide → slide ∈ slides ∧ s_id slide = slideId.
Proof.
  intros H. apply find_some in H as [Hin Hid].
  split; [by apply list_elem_of_In|]. by apply bool_decide_eq_true in Hid.
Qed.

Lemma same_id slides s s' :
  NoDup (s_id <$> slides) → s ∈ slides → s' ∈ slides → s_id s = s_id s' → s = s'.
Proof.
  intros Hnd [i Hi]%list_elem_of_lookup [j Hj]%list_elem_of_lookup Hid.
  assert (i = j) as ->; [|congruence].
  apply (NoDup_lookup _ i j (s_id s) Hnd); rewrite list_lookup_fmap.
  - by rewrite Hi.
  - by rewrite Hj, Hid.
Qed.

(** An update of some slides that keeps their identifiers and orders. *)
Lemma Shaped_update (g : ComposerSlide → ComposerSlide) slides :
  (∀ s, s_id (g s) = s_id s) → (∀ s, s_order (g s) = s_order s) →
  (∀ s, s ∈ slides → charts_ok s → charts_ok (g s)) →
  Shaped slides → Shaped (g <$> slides).
Proof.
  intros Hid Hord Hg (Hnd & Ho & Hc). split_and!.
  - rewrite <- list_fmap_compose. erewrite list_fmap_ext; [exact Hnd|].
    intros i s _. apply Hid.
  - intros i s. rewrite list_lookup_fmap. destruct (slides !! i) as [s0|] eqn:Hi; [|done].
    intros [= <-]. rewrite Hord. by apply Ho.
  - apply Forall_fmap, Forall_forall. intros s Hs. apply Hg; [done|].
    rewrite Forall_forall in Hc. by apply Hc.
Qed.

Lemma charts_ok_append s c :
  charts_ok s → length (s_charts s) < 6 →
  ac_slotIndex c = length (s_charts s) → ac_slideId c = s_id s →
  charts_ok (set_charts (s_charts s ++ [c]) s).
Proof.
  intros [Hlen Hcs] Hlt Hslot Hsl. split; simpl.
  - rewrite length_app. simpl. lia.
  - intros j c' Hj. apply lookup_app_Some in Hj as [Hj|[Hge Hj]]; [by apply Hcs|].
    apply list_lookup_singleton_Some in Hj as [Hj <-]. split; [lia|done].
Qed.

Lemma charts_ok_remove s chartId :
  charts_ok s →
  charts_ok (set_charts (reindex (filter (λ c, ac_id c ≠ chartId) (s_charts s))) s).
Proof.
  intros [Hlen Hcs]. split; simpl.
  - unfold reindex. rewrite length_imap.
    etransitivity; [apply length_filter|done].
  - intros j c. unfold reindex. rewrite list_lookup_imap.
    destruct (filter _ _ !! j) as [c0|] eqn:Hj; [|done]. intros [= <-]. simpl.
    split; [done|].
    apply list_elem_of_lookup_2, list_elem_of_filter in Hj as [_ Hin].
    apply list_elem_of_lookup in Hin as [j' Hj']. by apply (Hcs j').
Qed.

Lemma charts_ok_map (g : AssignedChart → AssignedChart) s :
  (∀ c, ac_slotIndex (g c) = ac_slotIndex c) → (∀ c, ac_slideId (g c) = ac_slideId c) →
  charts_ok s → charts_ok (set_charts (g <$> s_charts s) s).
Proof.
  intros Hslot Hsl [Hlen Hcs]. split; simpl; [by rewrite length_fmap|].
  intros j c. rewrite list_lookup_fmap.
  destruct (s_charts s !! j) as [c0|] eqn:Hj; [|done]. intros [= <-].
  rewrite Hslot, Hsl. by apply Hcs.
Qed.

Lemma Shaped_reorder (slides l : list ComposerSlide) :
  l ≡ₚ slides → Shaped slides → Shaped (imap set_order l).
Proof.
  intros Hp (Hnd & Ho & Hc). split_and!.
  - assert (s_id <$> imap set_order l = s_id <$> l) as ->.
    { apply list_eq. intros i. rewrite !list_lookup_fmap, list_lookup_imap.
      by destruct (l !! i). }
    by rewrite Hp.
  - intros i s. rewrite list_lookup_imap. destruct (l !! i); [|done]. by intros [= <-].
  - rewrite Forall_forall. intros s [i Hi]%list_elem_of_lookup.
    rewrite list_lookup_imap in Hi. destruct (l !! i) as [s0|] eqn:Hl; [|done].
    injection Hi as <-. rewrite Forall_forall in Hc.
    apply (Hc s0). rewrite <- Hp. by eapply list_elem_of_lookup_2.
Qed.

Lemma Shaped_act slides a slides' :
  match a with AddSlide uuid => uuid ∉ s_id <$> slides | _ => True end →
  Shaped slides → act slides a = Some slides' → Shaped slides'.
Proof.
  intros Hcov HS Hact.
  destruct a as [uuid|slideId|slideId title|fromIndex toIndex
                |uuid slideId chartData|slideId chartId
                |chartId fromSlideId toSlideId
                |productId newSteps|productId newSteps]; simpl in Hact;
    try (injection Hact as <-).
  - destruct HS as (Hnd & Ho & Hc). unfold addSlide. split_and!.
    + rewrite fmap_app. apply NoDup_app. split_and!; [done| |apply NoDup_singleton].
      intros x Hx ->%list_elem_of_singleton. done.
    + intros i s [Hi|[Hge Hi]]%lookup_app_Some; [by apply Ho|].
      apply list_lookup_singleton_Some in Hi as [Hi <-]. simpl. lia.
    + apply Forall_app. split; [done|]. constructor; [|constructor].
      split; simpl; [lia|]. intros j c. by rewrite lookup_nil.
  - destruct HS as (Hnd & Ho & Hc). unfold removeSlide.
    assert (Hsub : filter (λ s, s_id s ≠ slideId) slides `sublist_of` slides)
      by apply sublist_filter.
    split_and!.
    + assert (s_id <$> imap set_order (filter (λ s, s_id s ≠ slideId) slides)
              = s_id <$> filter (λ s, s_id s ≠ slideId) slides) as ->.
      { apply list_eq. intros i. rewrite !list_lookup_fmap, list_lookup_imap.
        by destruct (filter _ slides !! i). }
      eapply sublist_NoDup; [exact Hnd|by apply fmap_sublist].
    + intros i s. rewrite list_lookup_imap.
      destruct (filter _ slides !! i); [|done]. by intros [= <-].
    + rewrite Forall_forall. intros s [i Hi]%list_elem_of_lookup.
      rewrite list_lookup_imap in Hi.
      destruct (filter _ slides !! i) as [s0|] eqn:Hl; [|done]. injection Hi as <-.
      rewrite Forall_forall in Hc. apply (Hc s0).
      apply list_elem_of_lookup_2, list_elem_of_filter in Hl. tauto.
  - apply Shaped_update; [| |by intros s _; case_bool_decide|done];
      intros s; by case_bool_decide.
  - unfold reorderSlides in Hact.
    destruct (slides !! splice_start fromIndex (length slides)) as [moved|] eqn:Hm;
      simpl in Hact; [|done].
    injection Hact as <-. apply (Shaped_reorder slides); [|done].
    rewrite <- Permutation_middle, take_drop. symmetry. by apply delete_Permutation.
  - unfold assignChartToSlide.
    destruct (find_slide slideId slides) as [slide|] eqn:Hf; [|done].
    apply find_slide_Some in Hf as [Hin Hid]. case_decide as Hfull; [done|].
    apply Shaped_update; [| | |done]; try (intros s; by case_bool_decide).
    intros s Hs Hok. case_bool_decide as Hsid; [|done].
    assert (s = slide) as -> by (apply (same_id slides); [apply HS|done|done|congruence]).
    apply charts_ok_append; [done|lia|done|done].
  - unfold removeChartFromSlide.
    apply Shaped_update; [| | |done]; try (intros s; by case_bool_decide).
    intros s Hs Hok. case_bool_decide; [done|]. by apply charts_ok_remove.
  - unfold moveChart.
    destruct (find_slide fromSlideId slides) as [fromSlide|] eqn:Hf; [|done].
    destruct (find_slide toSlideId slides) as [toSlide|] eqn:Ht; [|done].
    apply find_slide_Some in Ht as [Hin Hid]. case_decide as Hfull; [done|].
    destruct (List.find _ (s_charts fromSlide)) as [chart|]; [|done].
    apply Shaped_update; [| | |done]; try (intros s; by repeat case_bool_decide).
    intros s Hs Hok. case_bool_decide as Hfrom; [by apply charts_ok_remove|].
    case_bool_decide as Hto; [|done].
    assert (s = toSlide) as -> by (apply (same_id slides); [apply HS|done|done|congruence]).
    apply charts_ok_append; [done|lia|done|done].
  - apply Shaped_update; [done|done| |done]. intros s _ Hok.
    apply charts_ok_map; [| |done]; intros c; unfold refresh_chart;
      case_bool_decide; [done| |done|]; destruct (find_step _ _); try done;
      by destruct (last newSteps).
  - apply Shaped_update; [done|done| |done]. intros s _ Hok.
    apply charts_ok_map; [| |done]; intros c;
      case_bool_decide; [done| |done|]; destruct (find_step _ _); try done;
      by case_bool_decide.
Qed.

(** The one action after which the store does not hold slides. *)
Lemma act_None slides a :
  act slides a = None ↔
  ∃ fromIndex toIndex, a = ReorderSlides fromIndex toIndex ∧
                       length slides ≤ splice_start fromIndex (length slides).
Proof.
  split.
  - destruct a; try done. simpl. unfold reorderSlides. intros H.
    exists fromIndex, toIndex. split; [done|].
    destruct (slides !! splice_start fromIndex (length slides)) eqn:Hm; [done|].
    by apply lookup_ge_None in Hm.
  - intros (fromIndex & toIndex & -> & Hge). simpl. unfold reorderSlides.
    by rewrite (proj2 (lookup_ge_None _ _) Hge).
Qed.

(** X17. The actions of the composer on its slides (adding, removing,
    renaming and reordering slides; assigning, removing and moving charts;
    refreshing the charts of a product from new steps) keep the slides in
    shape: identifiers stay distinct, [order] is the position of the slide,
    no slide carries more than six charts, and the [slotIndex] of a chart
    is its position on the slide whose identifier it bears.  This holds as
    long as a new slide gets an identifier no slide has, and as long as
    every reordering takes a slide out.  A reordering that takes nothing
    out leaves an element in the store that is no slide; it is the only
    action to do so, and it does so exactly when its [fromIndex] (an
    integer, counted from the end when negative) is at least the number of
    slides, or there is no slide at all. *)
Theorem slides_stay_in_shape slides actions slides' :
  Shaped slides → fresh_ids slides actions → acts slides actions = Some slides' →
  Shaped slides' ∧
  ∀ a, (act slides' a = None ↔
        ∃ fromIndex toIndex, a = ReorderSlides fromIndex toIndex ∧
          ((Z.of_nat (length slides') ≤ fromIndex)%Z ∨ slides' = [])).
Proof.
  intros HS Hfresh Hacts. split.
  - revert slides HS Hfresh Hacts.
    induction actions as [|a actions IH]; intros slides HS Hfresh Hacts.
    + by injection Hacts as <-.
    + simpl in Hacts, Hfresh. destruct Hfresh as [Ha Hfresh].
      destruct (act slides a) as [slides1|] eqn:Hact; [|done]. simpl in Hacts.
      apply (IH slides1); [|done..]. by eapply Shaped_act.
  - intros a. rewrite act_None. unfold splice_start.
    split; intros (fromIndex & toIndex & -> & H); exists fromIndex, toIndex;
      (split; [done|]); destruct (fromIndex <? 0)%Z eqn:Hneg.
    + right. destruct slides' as [|s l]; [done|]. simpl length in H. lia.
    + left. lia.
    + destruct H as [H| ->]; [lia|]. simpl. lia.
    + destruct H as [H| ->]; [lia|]. simpl. lia.
Qed.

(** ** Moving a chart *)

(** The number of charts on all slides. *)
Definition total_charts (slides : list ComposerSlide) : nat :=
  sum_list_with (λ s, length (s_charts s)) slides.

(** An update of the one slide with a given identifier changes the total
    by what it does to that slide. *)
Lemma total_charts_update (g : ComposerSlide → ComposerSlide) slideId slides slide :
  NoDup (s_id <$> slides) → slide ∈ slides → s_id slide = slideId →
  total_charts ((λ s, if bool_decide (s_id s = slideId) then g s else s) <$> slides)
  + length (s_charts slide)
  = total_charts slides + length (s_charts (g slide)).
Proof.
  intros Hnd Hin Hid. unfold total_charts.
  induction slides as [|s slides IH]; [by apply elem_of_nil in Hin|].
  rewrite fmap_cons in Hnd. apply NoDup_cons in Hnd as [Hs Hnd].
  rewrite fmap_cons. simpl. apply elem_of_cons in Hin as [<-|Hin].
  - rewrite bool_decide_eq_true_2 by done.
    assert (Hrest : (λ s, if bool_decide (s_id s = slideId) then g s else s) <$> slides
                    = slides).
    { rewrite <- (list_fmap_id slides) at 2. apply list_fmap_ext. intros i s Hi.
      rewrite bool_decide_eq_false_2; [done|]. intros Heq. apply Hs.
      rewrite Hid, <- Heq. apply list_elem_of_fmap. exists s.
      split; [done|]. by eapply list_elem_of_lookup_2. }
    rewrite Hrest. simpl. lia.
  - rewrite bool_decide_eq_false_2.
    + specialize (IH Hnd Hin). simpl in *. lia.
    + intros Heq. apply Hs. rewrite Heq, <- Hid. apply list_elem_of_fmap. by exists slide.
Qed.

Lemma find_chart_Some chartId (charts : list AssignedChart) chart :
  List.find (λ c, bool_decide (ac_id c = chartId)) charts = Some chart →
  chart ∈ charts ∧ ac_id chart = chartId.
Proof.
  intros H. apply find_some in H as [Hin Hid].
  split; [by apply list_elem_of_In|]. by apply bool_decide_eq_true in Hid.
Qed.

(** Taking out the one chart with a given identifier. *)
Lemma length_remove_chart chartId (charts : list AssignedChart) chart :
  NoDup (ac_id <$> charts) → chart ∈ charts → ac_id chart = chartId →
  length (reindex (filter (λ c, ac_id c ≠ chartId) charts)) + 1 = length charts.
Proof.
  intros Hnd Hin Hid. unfold reindex. rewrite length_imap.
  induction charts as [|c charts IH]; [by apply elem_of_nil in Hin|].
  rewrite fmap_cons in Hnd. apply NoDup_cons in Hnd as [Hc Hnd].
  rewrite filter_cons. apply elem_of_cons in Hin as [<-|Hin].
  - rewrite decide_False by (by intros ?). simpl.
    assert (Hrest : filter (λ c, ac_id c ≠ chartId) charts = charts).
    { clear IH. induction charts as [|c' charts IH']; [done|].
      rewrite filter_cons, decide_True.
      - f_equal. apply IH'.
        + intros Hx. apply Hc. rewrite fmap_cons. by right.
        + rewrite fmap_cons in Hnd. by apply NoDup_cons in Hnd as [_ ?].
      - intros Heq. apply Hc. rewrite fmap_cons, Hid, <- Heq. by left. }
    rewrite Hrest. lia.
  - rewrite decide_True.
    + simpl. specialize (IH Hnd Hin). lia.
    + intros Heq. apply Hc. rewrite Heq, <- Hid. apply list_elem_of_fmap. by exists chart.
Qed.

(** X25. Moving a chart from one slide to another, when the chart is on
    the first, the second has room and the charts of the first have
    distinct identifiers, neither loses nor duplicates a chart: the first
    slide has one chart less, the second one more, and the total is as it
    was.  "Moving" the chart to the slide it is on takes it off that slide:
    there is one chart less in all. *)
Theorem move_keeps_the_charts chartId fromSlideId toSlideId slides fromSlide toSlide chart :
  NoDup (s_id <$> slides) →
  find_slide fromSlideId slides = Some fromSlide →
  find_slide toSlideId slides = Some toSlide →
  length (s_charts toSlide) < 6 →
  List.find (λ c, bool_decide (ac_id c = chartId)) (s_charts fromSlide) = Some chart →
  NoDup (ac_id <$> s_charts fromSlide) →
  total_charts (moveChart chartId fromSlideId toSlideId slides)
  = (if bool_decide (fromSlideId = toSlideId) then total_charts slides - 1
     else total_charts slides) ∧
  (fromSlideId ≠ toSlideId →
   ∃ fromSlide' toSlide',
     find_slide fromSlideId (moveChart chartId fromSlideId toSlideId slides)
     = Some fromSlide' ∧
     find_slide toSlideId (moveChart chartId fromSlideId toSlideId slides)
     = Some toSlide' ∧
     length (s_charts fromSlide') + 1 = length (s_charts fromSlide) ∧
     ac_id <$> s_charts toSlide' = (ac_id <$> s_charts toSlide) ++ [chartId]).
Proof.
  intros Hnd Hf Ht Hroom Hc Hcharts.
  unfold moveChart. rewrite Hf, Ht, Hc. rewrite decide_False by lia. cbv zeta.
  destruct (find_slide_Some _ _ _ Hf) as [Hfin Hfid].
  destruct (find_slide_Some _ _ _ Ht) as [Htin Htid].
  destruct (find_chart_Some _ _ _ Hc) as [Hcin Hcid].
  match goal with |- context [?f <$> slides] => set (h := f) end.
  pose (F := λ s, set_charts (reindex (filter (λ c, ac_id c ≠ chartId) (s_charts s))) s).
  pose (moved := mkAssignedChart (ac_id chart) toSlideId (length (s_charts toSlide))
                   (ac_productId chart) (ac_productName chart) (ac_productType chart)
                   (ac_stepLabel chart) (ac_stepIndex chart) (ac_imageUrl chart)
                   (ac_stale chart)).
  pose (T := λ s, set_charts (s_charts s ++ [moved]) s).
  assert (Hh : ∀ s, h s = if bool_decide (s_id s = fromSlideId) then F s
                          else if bool_decide (s_id s = toSlideId) then T s else s)
    by done.
  clearbody h.
  assert (Hlen : length (s_charts (F fromSlide)) + 1 = length (s_charts fromSlide))
    by (by apply (length_remove_chart chartId _ chart)).
  assert (H1 := total_charts_update F fromSlideId slides fromSlide Hnd Hfin Hfid).
  split.
  - case_bool_decide as Hsame.
    + assert (Hmap : h <$> slides
                     = (λ s, if bool_decide (s_id s = fromSlideId) then F s else s)
                       <$> slides).
      { apply list_fmap_ext. intros i s _. rewrite Hh, <- Hsame. by case_bool_decide. }
      rewrite Hmap. lia.
    + assert (Hmap : h <$> slides
                     = (λ s, if bool_decide (s_id s = toSlideId) then T s else s)
                       <$> ((λ s, if bool_decide (s_id s = fromSlideId) then F s else s)
                              <$> slides)).
      { rewrite <- list_fmap_compose. apply list_fmap_ext. intros i s _. rewrite Hh. simpl.
        case_bool_decide as Hfrom; [|done]. rewrite bool_decide_eq_false_2; [done|].
        simpl. congruence. }
      rewrite Hmap.
      assert (Hnd' : NoDup (s_id <$> ((λ s, if bool_decide (s_id s = fromSlideId) then F s
                                            else s) <$> slides))).
      { rewrite <- list_fmap_compose. erewrite list_fmap_ext; [exact Hnd|].
        intros i s _. simpl. by case_bool_decide. }
      assert (Htin' : toSlide ∈ (λ s, if bool_decide (s_id s = fromSlideId) then F s else s)
                                  <$> slides).
      { apply list_elem_of_fmap. exists toSlide. split; [|done].
        rewrite bool_decide_eq_false_2; [done|congruence]. }
      assert (H2 := total_charts_update T toSlideId _ toSlide Hnd' Htin' Htid).
      simpl in H2. rewrite length_app in H2. simpl in H2. lia.
  - intros Hne.
    assert (Hid : ∀ s, s_id (h s) = s_id s).
    { intros s. rewrite Hh. by repeat case_bool_decide. }
    assert (Hfind : ∀ slideId slide,
              slide ∈ slides → s_id slide = slideId →
              find_slide slideId (h <$> slides) = Some (h slide)).
    { intros slideId slide [i Hi]%list_elem_of_lookup Hsid. unfold find_slide.
      apply (find_by_key s_id _ (h <$> slides) i).
      - rewrite <- list_fmap_compose. erewrite list_fmap_ext; [exact Hnd|].
        intros j s _. simpl. apply Hid.
      - by rewrite list_lookup_fmap, Hi.
      - intros s. by rewrite bool_decide_eq_true, Hid, Hsid. }
    exists (h fromSlide), (h toSlide). split_and!.
    + by apply Hfind.
    + by apply Hfind.
    + by rewrite Hh, bool_decide_eq_true_2.
    + rewrite Hh, bool_decide_eq_false_2 by congruence.
      rewrite bool_decide_eq_true_2 by done. simpl. rewrite fmap_app. simpl.
      by rewrite Hcid.
Qed.

(** ** Example *)

Definition demo_chart : ChartData :=
  mkChartData "42" "Geopotenziale 500 hPa" "CHARTS" "Mon 09 06:00" 0
              "https://prometeo2.meteoam.it/img/a_2026020906.png" None.

Definition demo_editing : list Action :=
  [AddSlide "s1"; AddSlide "s2"; AssignChart "c1" "s1" demo_chart;
   AssignChart "c2" "s1" demo_chart; MoveChart "c1" "s1" "s2"; ReorderSlides 0 1;
   AddSlide "s3"; ReorderSlides (-1) 0;
   RefreshCharts "42" []; RemoveChart "s1" "c2"; RemoveSlide "s1"].

Lemma slides_stay_in_shape_witness : Shaped (default [] (acts [] demo_editing)).
Proof.
  refine (proj1 (slides_stay_in_shape [] demo_editing _ _ _ _)).
  - split_and!; [constructor|done|constructor].
  - simpl. split_and!; try exact I;
      apply (bool_decide_unpack _); vm_compute; exact I.
  - vm_compute. reflexivity.
Defined.

Definition demo_slides : list ComposerSlide :=
  default [] (acts [] [AddSlide "s1"; AddSlide "s2"; AssignChart "c1" "s1" demo_chart;
                       AssignChart "c2" "s1" demo_chart]).

Lemma move_keeps_the_charts_witness :
  total_charts (moveChart "c1" "s1" "s2" demo_slides) = total_charts demo_slides.
Proof.
  refine (proj1 (move_keeps_the_charts "c1" "s1" "s2" demo_slides
                   (mkSlide "s1" 0 "Slide 1"
                      [mkAssignedChart "c1" "s1" 0 "42" "Geopotenziale 500 hPa" "CHARTS"
                         "Mon 09 06:00" 0
                         "https://prometeo2.meteoam.it/img/a_2026020906.png" None;
                       mkAssignedChart "c2" "s1" 1 "42" "Geopotenziale 500 hPa" "CHARTS"
                         "Mon 09 06:00" 0
                         "https://prometeo2.meteoam.it/img/a_2026020906.png" None])
                   (mkSlide "s2" 1 "Slide 2" [])
                   (mkAssignedChart "c1" "s1" 0 "42" "Geopotenziale 500 hPa" "CHARTS"
                      "Mon 09 06:00" 0
                      "https://prometeo2.meteoam.it/img/a_2026020906.png" None)
                   _ _ _ _ _ _)).
  - apply (bool_decide_unpack _). vm_compute. exact I.
  - vm_compute. reflexivity.
  - vm_compute. reflexivity.
  - simpl. lia.
  - vm_compute. reflexivity.
  - apply (bool_decide_unpack _). vm_compute. exact I.
Defined.

End ComposerFacts.

(** * From the slides to the presentation

    The download step of [generatePpt] (the composer page), the slide
    definitions it builds, and the loop of [pptx.service.ts] that puts the
    images on a slide. *)

Module Generation.
Import Composer.

(** [generatePpt], lines 65-76: one entry per chart of every slide. *)
Record ChartJob := mkJob {
  j_slideId : string;
  j_slotId : string;
  j_imageUrl : string;
  j_title : string }.

(** [chart.stepLabel || chart.productName] *)
Definition title_of (chart : AssignedChart) : string :=
  match ac_stepLabel chart with
  | EmptyString => ac_productName chart
  | label => label
  end.

Definition allCharts (slides : list ComposerSlide) : list ChartJob :=
  slides ≫= λ slide,
    (λ chart, mkJob (s_id slide) (ac_id chart) (ac_imageUrl chart) (title_of chart))
      <$> s_charts slide.

(** [shared/types/pptx.types.ts] *)
Record ResolvedChart := mkResolved {
  rc_slotId : string;
  rc_slideId : string;
  rc_imagePath : string;
  rc_title : string }.

(** How the download step ends: one constructor per [return] of lines
    78-107, and the array of line 110. *)
Inductive Checked :=
| NoCharts                                  (* line 80 *)
| LengthMismatch                            (* line 92 *)
| FailedDownloads (count : nat) (names : string)   (* line 104 *)
| Resolved (resolvedCharts : list ResolvedChart).

(** [!p] on an entry of [localPaths] *)
Definition falsy (p : option string) : bool :=
  match p with
  | Some (String _ _) => false
  | _ => true
  end.

(** Lines 97-99: [localPaths.map((p, i) => (!p ? allCharts[i] : null)).filter(Boolean)] *)
Definition failedDownloads (jobs : list ChartJob) (localPaths : Js.array string)
  : list ChartJob :=
  omap id (imap (λ i p, if falsy p then jobs !! i else None) localPaths).

(** Lines 78-115, on what [downloadCharts] gave for the URLs of the jobs *)
Definition check_downloads (jobs : list ChartJob) (localPaths : Js.array string) : Checked :=
  if bool_decide (length jobs = 0) then NoCharts
  else if bool_decide (length localPaths ≠ length jobs) then LengthMismatch
  else
    let failed := failedDownloads jobs localPaths in
    if bool_decide (0 < length failed) then
      FailedDownloads (length failed) (String.concat ", " (j_title <$> failed))
    else
      Resolved (imap (λ i chart,
                        mkResolved (j_slotId chart) (j_slideId chart)
                                   (default "" (mjoin (localPaths !! i))) (j_title chart))
                     jobs).

Inductive LayoutType := SINGLE | ROW_2 | ROW_3 | COLUMN_2 | GRID_2x2 | GRID_3x2 | CUSTOM.

(** Lines 120-126 (and [template.store.ts], lines 54-60) *)
Definition autoLayout (count : nat) : LayoutType :=
  if decide (count ≤ 1) then SINGLE
  else if decide (count = 2) then ROW_2
  else if decide (count = 3) then ROW_3
  else if decide (count = 4) then GRID_2x2
  else GRID_3x2.

(** [shared/types/template.types.ts] *)
Inductive StepSelector :=
| Fixed (stepIndex : Z)
| Label (label : string)
| Relative (offset : Z).

Record ChartReference := mkChartReference {
  cr_productId : string;
  cr_productName : string;
  cr_productType : string;
  cr_category : string;
  cr_type : string;
  cr_area : string;
  cr_stepSelector : StepSelector;
  cr_imageUrl : string }.

Record ChartSlot := mkSlot {
  slot_id : string;
  slot_slotIndex : nat;
  slot_chartRef : ChartReference;
  slot_titleOverride : option string;
  slot_titleVisible : bool }.

Record SlideDefinition := mkSlideDefinition {
  sd_id : string;
  sd_order : nat;
  sd_layout : LayoutType;
  sd_title : option string;
  sd_chartSlots : list ChartSlot }.

(** Lines 133-147 (and [template.store.ts], lines 300-314): the slot
    made of the chart at position [idx] of its slide *)
Definition chart_slot (idx : nat) (chart : AssignedChart) : ChartSlot :=
  mkSlot (ac_id chart) idx
         (mkChartReference (ac_productId chart) (ac_productName chart) (ac_productType chart)
                           "" "" "" (Fixed (ac_stepIndex chart)) (ac_imageUrl chart))
         (Some (ac_stepLabel chart)) true.

(** Lines 128-149 (and [template.store.ts], lines 295-316, where the
    slides are saved) *)
Definition slide_definition (cs : ComposerSlide) : SlideDefinition :=
  mkSlideDefinition (s_id cs) (s_order cs) (autoLayout (length (s_charts cs)))
                    (Some (s_title cs)) (imap chart_slot (s_charts cs)).

(** [v || ''] on a string that may be absent *)
Definition or_empty (v : option string) : string := default "" v.

(** [template.store.ts], lines 172-194: the chart made of a saved slot.
    [productId] and [imageUrl] are strings, which [|| ''] leaves as they
    are; the chart made has no [stale] field. *)
Definition slot_chart (slideId : string) (slot : ChartSlot) : AssignedChart :=
  let sel := cr_stepSelector (slot_chartRef slot) in
  let stepLabel := or_empty (slot_titleOverride slot) in
  let stepIndex := match sel with Fixed stepIndex => stepIndex | _ => 0%Z end in
  let stepLabel :=
    match sel with
    | Label label => match stepLabel with EmptyString => label | _ => stepLabel end
    | _ => stepLabel
    end in
  mkAssignedChart (slot_id slot) slideId (slot_slotIndex slot)
                  (cr_productId (slot_chartRef slot)) (cr_productName (slot_chartRef slot))
                  (cr_productType (slot_chartRef slot)) stepLabel stepIndex
                  (cr_imageUrl (slot_chartRef slot)) None.

(** [template.store.ts], lines 169-196, where a template is loaded *)
Definition composer_slide (sd : SlideDefinition) : ComposerSlide :=
  mkSlide (sd_id sd) (sd_order sd) (or_empty (sd_title sd))
          (slot_chart (sd_id sd) <$> sd_chartSlots sd).

Section Layout.

(** The slide geometry is computed in floating point; the numbers and
    their arithmetic are taken as they come. *)
Variable num : Type.
Variables (add sub mul div : num → num → num) (of_nat : nat → num) (MARGIN GAP : num).

Record LayoutPosition := mkPosition { pos_x : num; pos_y : num; pos_w : num; pos_h : num }.

(** [pptx.service.ts], lines 25-47 *)
Definition computeGrid (cols rows : nat) (contentTop contentW contentH : num)
  : list LayoutPosition :=
  let cellW := div (sub contentW (mul (of_nat (cols - 1)) GAP)) (of_nat cols) in
  let cellH := div (sub contentH (mul (of_nat (rows - 1)) GAP)) (of_nat rows) in
  seq 0 rows ≫= λ r,
    (λ c, mkPosition (add MARGIN (mul (of_nat c) (add cellW GAP)))
                     (add contentTop (mul (of_nat r) (add cellH GAP)))
                     cellW cellH) <$> seq 0 cols.

(** Lines 50-72 *)
Definition getLayoutPositions (layout : LayoutType) (contentTop contentW contentH : num)
  : list LayoutPosition :=
  match layout with
  | SINGLE => [mkPosition MARGIN contentTop contentW contentH]
  | ROW_2 => computeGrid 2 1 contentTop contentW contentH
  | ROW_3 => computeGrid 3 1 contentTop contentW contentH
  | COLUMN_2 => computeGrid 1 2 contentTop contentW contentH
  | GRID_2x2 => computeGrid 2 2 contentTop contentW contentH
  | GRID_3x2 => computeGrid 3 2 contentTop contentW contentH
  | CUSTOM => []
  end.

(** Lines 353-357 and 406-410 *)
Definition chart_positions (slideDef : SlideDefinition) (contentTop contentW contentH : num)
  : list LayoutPosition :=
  match sd_layout slideDef with
  | CUSTOM => []
  | layout => getLayoutPositions layout contentTop contentW contentH
  end.

(** Lines 359-371 and 412-423, the loop both slide builders end with:
    the calls of [addImageToSlide] it makes, in order. *)
Definition place_charts (positions : list LayoutPosition) (slideDef : SlideDefinition)
    (resolvedCharts : list ResolvedChart) : list (string * LayoutPosition) :=
  omap (λ slot,
          match List.find (λ rc, bool_decide (rc_slotId rc = slot_id slot)
                                 && bool_decide (rc_slideId rc = sd_id slideDef))
                          resolvedCharts with
          | None => None
          | Some resolved =>
              match rc_imagePath resolved with
              | EmptyString => None
              | imagePath =>
                  match positions !! slot_slotIndex slot with
                  | None => None
                  | Some pos => Some (imagePath, pos)
                  end
              end
          end)
       (sd_chartSlots slideDef).

End Layout.

(** [s.endsWith(p)] *)
Definition endsWith (s p : string) : bool :=
  let n := String.length s in
  let m := String.length p in
  (m <=? n) && String.eqb (String.substring (n - m) m s) p.

(** [pptx.service.ts], line 437: the image type [addImageToSlide]
    declares for a file *)
Definition image_type (imagePath : string) : string :=
  if endsWith (Js.toLowerCase imagePath) ".png" then "png" else "jpeg".

End Generation.

Module GenerationFacts.
Import Composer Generation.

Lemma failedDownloads_cons job jobs p localPaths :
  failedDownloads (job :: jobs) (p :: localPaths)
  = (if falsy p then [job] else []) ++ failedDownloads jobs localPaths.
Proof. unfold failedDownloads. simpl. by destruct (falsy p). Qed.

(** With a path for every job, the failed downloads are as many as the
    paths that are empty or missing. *)
Lemma failedDownloads_length jobs : ∀ localPaths,
  length localPaths = length jobs →
  length (failedDownloads jobs localPaths) = length (filter (λ p, falsy p = true) localPaths).
Proof.
  induction jobs as [|job jobs IH]; intros [|p localPaths] Hlen; try done.
  rewrite failedDownloads_cons, length_app, filter_cons, IH by (simpl in Hlen; lia).
  destruct (falsy p); [by rewrite decide_True|by rewrite decide_False].
Qed.

Lemma filter_iff_in {A} (P Q : A → Prop) `{∀ x, Decision (P x)} `{∀ x, Decision (Q x)}
    (l : list A) :
  (∀ x, x ∈ l → (P x ↔ Q x)) → filter P l = filter Q l.
Proof.
  induction l as [|x l IH]; intros HPQ; [done|].
  rewrite !filter_cons, IH by (intros y Hy; apply HPQ; by right).
  destruct (HPQ x) as [H1 H2]; [by left|].
  destruct (decide (P x)), (decide (Q x)); tauto || done.
Qed.

Section Download.

Context (sha256_hex : string → string) (cacheDir : string)
        (net : nat → string → Net.FetchResult)
        (fs0 : gmap string (list Byte.byte)).

Local Abbreviation localPath := (Downloader.localPath sha256_hex cacheDir).
Local Abbreviation downloadCharts := (Downloader.downloadCharts sha256_hex cacheDir net).

(** X18. [generatePpt] hands the image URLs of all charts to
    [downloadCharts] and goes on only with a path for every chart.  On what
    the downloader returns, the length check never fails; the download step
    stops with as many failed downloads as there are empty paths in the
    result, if there is any; and otherwise it resolves every chart, in
    order, to the cache path of its own URL. *)
Theorem generation_needs_every_image slides sched :
  ∃ sf, downloadCharts (j_imageUrl <$> allCharts slides) fs0 sched = Some sf ∧
        match check_downloads (allCharts slides) (Downloader.results sf) with
        | NoCharts => allCharts slides = []
        | LengthMismatch => False
        | FailedDownloads count names =>
            0 < count ∧
            count = length (filter (λ p, p = Some "") (Downloader.results sf))
        | Resolved resolvedCharts =>
            resolvedCharts
            = (λ job, mkResolved (j_slotId job) (j_slideId job)
                                 (localPath (j_imageUrl job)) (j_title job))
                <$> allCharts slides
        end.
Proof.
  set (jobs := allCharts slides).
  destruct (DownloaderMore.downloadCharts_total sha256_hex cacheDir net
              (j_imageUrl <$> jobs) fs0 sched) as [sf Hrun].
  exists sf. split; [done|].
  assert (Hobs : length (Downloader.results sf) = length jobs ∧
                 ∀ i job, jobs !! i = Some job →
                   ∃ o, Downloader.results sf !! i
                        = Some (Some (Downloader.value_of sha256_hex cacheDir
                                        (j_imageUrl job) o))).
  { split.
    - destruct jobs as [|job jobs'] eqn:Hj.
      + revert Hrun. by intros [= <-].
      + destruct (DownloaderMore.final_obs sha256_hex cacheDir net _ fs0 sched sf 0
                    (j_imageUrl job) Hrun eq_refl) as [Hlen _].
        by rewrite length_fmap in Hlen.
    - intros i job Hi.
      destruct (DownloaderMore.final_obs sha256_hex cacheDir net _ fs0 sched sf i
                  (j_imageUrl job) Hrun) as (_ & o & _ & Hres & _).
      { by rewrite list_lookup_fmap, Hi. }
      by exists o. }
  destruct Hobs as [Hlen Hobs].
  unfold check_downloads. case_bool_decide as Hz; [by apply nil_length_inv|].
  rewrite bool_decide_eq_false_2 by (by intros ?). cbv zeta.
  assert (Hfalsy : ∀ p, p ∈ Downloader.results sf → (falsy p = true ↔ p = Some "")).
  { intros p [i Hi]%list_elem_of_lookup.
    destruct (lookup_lt_is_Some_2 jobs i) as [job Hjob].
    { rewrite <- Hlen. by apply lookup_lt_Some in Hi. }
    destruct (Hobs i job Hjob) as [o Ho]. rewrite Hi in Ho. injection Ho as ->.
    destruct (Downloader.value_of _ _ _ o); simpl; split; congruence. }
  rewrite (failedDownloads_length jobs _ Hlen).
  assert (Hcount : length (filter (λ p, falsy p = true) (Downloader.results sf))
                   = length (filter (λ p, p = Some "") (Downloader.results sf))).
  { f_equal. apply filter_iff_in. intros p Hp. by apply Hfalsy. }
  case_bool_decide as Hfail; [split; [done|exact Hcount]|].
  apply list_eq. intros i. rewrite list_lookup_imap, list_lookup_fmap.
  destruct (jobs !! i) as [job|] eqn:Hjob; [|done]. simpl. do 2 f_equal.
  destruct (Hobs i job Hjob) as [o Ho]. rewrite Ho. simpl.
  assert (Hne : falsy (Some (Downloader.value_of sha256_hex cacheDir (j_imageUrl job) o))
                = false).
  { destruct (falsy _) eqn:Hf; [|done]. exfalso. apply Hfail.
    assert (Hin : Some (Downloader.value_of sha256_hex cacheDir (j_imageUrl job) o)
                  ∈ filter (λ p, falsy p = true) (Downloader.results sf)).
    { apply list_elem_of_filter. split; [done|]. by eapply list_elem_of_lookup_2. }
    destruct (filter _ _); [by apply elem_of_nil in Hin|simpl; lia]. }
  destruct o; simpl in Hne |- *; done.
Qed.

End Download.

(** ** The declared image type *)

Lemma length_append s t : String.length (s +:+ t) = String.length s + String.length t.
Proof.
  induction s as [|c s IH]; [done|]. rewrite ExtractionFacts.append_cons. simpl.
  by rewrite IH.
Qed.

Lemma substring_whole p : String.substring 0 (String.length p) p = p.
Proof. induction p as [|c p IH]; [done|]. simpl. by rewrite IH. Qed.

Lemma substring_append x p :
  String.substring (String.length x) (String.length p) (x +:+ p) = p.
Proof.
  induction x as [|c x IH]; [apply substring_whole|].
  rewrite ExtractionFacts.append_cons. exact IH.
Qed.

Lemma endsWith_append x p q :
  String.length p = String.length q →
  endsWith (x +:+ q) p = String.eqb q p.
Proof.
  intros Hlen. unfold endsWith. cbv zeta. rewrite length_append, Hlen.
  replace (String.length x + String.length q - String.length q) with (String.length x)
    by lia.
  rewrite substring_append.
  by rewrite (proj2 (Nat.leb_le _ _)) by lia.
Qed.

Lemma toLowerCase_append s t :
  Js.toLowerCase (s +:+ t) = Js.toLowerCase s +:+ Js.toLowerCase t.
Proof.
  induction s as [|c s IH]; [done|].
  rewrite ExtractionFacts.append_cons. simpl. by rewrite IH.
Qed.

(** X22. The image type declared on the slide agrees with the file
    extension the downloader chose: a chart stored at the cache path of
    its URL is declared [png] when the URL, in lower case, contains
    [.png], and [jpeg] otherwise. *)
Theorem image_type_follows_url (sha256_hex : string → string) (cacheDir u : string) :
  image_type (Downloader.localPath sha256_hex cacheDir u)
  = if Js.includes (Js.toLowerCase u) ".png" then "png" else "jpeg".
Proof.
  unfold image_type, Downloader.localPath, Downloader.join. cbv zeta.
  destruct (Js.includes (Js.toLowerCase u) ".png");
    rewrite <- !ExtractionFacts.append_assoc, toLowerCase_append;
    by rewrite endsWith_append.
Qed.

(** ** Every chart gets its place *)

Lemma omap_total {A B} (f : A → option B) (l : list A) :
  (∀ x, x ∈ l → is_Some (f x)) →
  length (omap f l) = length l ∧ ∀ j x, l !! j = Some x → omap f l !! j = f x.
Proof.
  induction l as [|y l IH]; intros Hf; [done|].
  destruct (Hf y) as [b Hb]; [by left|].
  destruct IH as [IH1 IH2]; [intros x Hx; apply Hf; by right|].
  change (omap f (y :: l)) with (match f y with Some b => b :: omap f l | None => omap f l end).
  rewrite Hb. split; [simpl; by rewrite IH1|].
  intros [|j] x Hj; simpl in Hj |- *; [by injection Hj as <-|by apply IH2].
Qed.

Lemma check_downloads_Resolved jobs localPaths resolvedCharts :
  check_downloads jobs localPaths = Resolved resolvedCharts →
  length localPaths = length jobs ∧
  (∀ i p, localPaths !! i = Some p → falsy p = false) ∧
  resolvedCharts
  = imap (λ i chart, mkResolved (j_slotId chart) (j_slideId chart)
                                (default "" (mjoin (localPaths !! i))) (j_title chart)) jobs.
Proof.
  unfold check_downloads. case_bool_decide; [done|]. case_bool_decide as Hlen; [done|].
  cbv zeta. case_bool_decide as Hfail; [done|]. intros [= <-].
  assert (Hlen' : length localPaths = length jobs).
  { destruct (decide (length localPaths = length jobs)); done. }
  split; [done|]. split; [|done]. intros i p Hi.
  destruct (falsy p) eqn:Hp; [|done]. exfalso. apply Hfail.
  rewrite (failedDownloads_length jobs _ Hlen').
  assert (Hin : p ∈ filter (λ p, falsy p = true) localPaths).
  { apply list_elem_of_filter. split; [done|]. by eapply list_elem_of_lookup_2. }
  destruct (filter _ _); [by apply elem_of_nil in Hin|simpl; lia].
Qed.

Section Placement.

Context (num : Type) (add sub mul div : num → num → num) (of_nat : nat → num)
        (MARGIN GAP : num).

Local Abbreviation chart_positions := (Generation.chart_positions num add sub mul div of_nat MARGIN GAP).
Local Abbreviation place_charts := (Generation.place_charts num).

(** The layout chosen for up to six charts has a position for each. *)
Lemma enough_positions (cs : ComposerSlide) contentTop contentW contentH :
  length (s_charts cs) ≤ 6 →
  length (s_charts cs)
  ≤ length (chart_positions (slide_definition cs) contentTop contentW contentH).
Proof.
  unfold Generation.chart_positions, slide_definition. cbn [sd_layout].
  destruct (length (s_charts cs)) as [|[|[|[|[|[|[|n]]]]]]]; simpl; lia.
Qed.

(** X19. When the download step has resolved the charts, and no two
    charts share their slide and chart identifiers, the slide builders
    draw every chart of a slide that carries at most six: chart [j] of the
    slide goes to position [j] of the layout chosen for the slide, with
    the file that was downloaded for it. *)
Theorem every_chart_is_placed slides localPaths resolvedCharts slide
    contentTop contentW contentH :
  NoDup ((λ job, (j_slideId job, j_slotId job)) <$> allCharts slides) →
  check_downloads (allCharts slides) localPaths = Resolved resolvedCharts →
  slide ∈ slides → length (s_charts slide) ≤ 6 →
  length (place_charts (chart_positions (slide_definition slide) contentTop contentW contentH)
                       (slide_definition slide) resolvedCharts)
  = length (s_charts slide) ∧
  ∀ j chart, s_charts slide !! j = Some chart →
    ∃ i imagePath pos,
      allCharts slides !! i
      = Some (mkJob (s_id slide) (ac_id chart) (ac_imageUrl chart) (title_of chart)) ∧
      localPaths !! i = Some (Some imagePath) ∧ imagePath ≠ "" ∧
      chart_positions (slide_definition slide) contentTop contentW contentH !! j = Some pos ∧
      place_charts (chart_positions (slide_definition slide) contentTop contentW contentH)
                   (slide_definition slide) resolvedCharts !! j
      = Some (imagePath, pos).
Proof.
  intros Hnd Hcheck Hslide Hsix.
  apply check_downloads_Resolved in Hcheck as (Hlen & Hpaths & ->).
  set (jobs := allCharts slides) in *.
  set (positions := chart_positions (slide_definition slide) contentTop contentW contentH).
  set (rcs := imap _ jobs).
  assert (Hkeys : (λ rc, (rc_slideId rc, rc_slotId rc)) <$> rcs
                  = (λ job, (j_slideId job, j_slotId job)) <$> jobs).
  { apply list_eq. intros i. unfold rcs. rewrite !list_lookup_fmap, list_lookup_imap.
    by destruct (jobs !! i). }
  (* what the loop does with the slot of chart [j] *)
  assert (Hslot : ∀ j chart, s_charts slide !! j = Some chart →
            ∃ i imagePath pos,
              jobs !! i = Some (mkJob (s_id slide) (ac_id chart) (ac_imageUrl chart)
                                      (title_of chart)) ∧
              localPaths !! i = Some (Some imagePath) ∧ imagePath ≠ "" ∧
              positions !! j = Some pos ∧
              match List.find (λ rc, bool_decide (rc_slotId rc = ac_id chart)
                                     && bool_decide (rc_slideId rc = s_id slide)) rcs with
              | None => None
              | Some resolved =>
                  match rc_imagePath resolved with
                  | EmptyString => None
                  | imagePath =>
                      match positions !! j with
                      | None => None
                      | Some pos => Some (imagePath, pos)
                      end
                  end
              end = Some (imagePath, pos)).
  { intros j chart Hj.
    assert (Hjob : mkJob (s_id slide) (ac_id chart) (ac_imageUrl chart) (title_of chart)
                   ∈ jobs).
    { unfold jobs, allCharts. apply list_elem_of_bind. exists slide. split; [|done].
      apply list_elem_of_fmap. exists chart. split; [done|].
      by eapply list_elem_of_lookup_2. }
    apply list_elem_of_lookup in Hjob as [i Hi].
    destruct (lookup_lt_is_Some_2 localPaths i) as [p Hp].
    { rewrite Hlen. by apply lookup_lt_Some in Hi. }
    assert (Hf := Hpaths i p Hp).
    destruct p as [[|c imagePath]|]; try done.
    destruct (lookup_lt_is_Some_2 positions j) as [pos Hpos].
    { eapply Nat.lt_le_trans; [by apply lookup_lt_Some in Hj|].
      by apply enough_positions. }
    exists i, (String c imagePath), pos. split_and!; try done.
    rewrite (ComposerFacts.find_by_key (λ rc, (rc_slideId rc, rc_slotId rc)) _ rcs i
               (mkResolved (ac_id chart) (s_id slide) (String c imagePath) (title_of chart))).
    - simpl. by rewrite Hpos.
    - by rewrite Hkeys.
    - unfold rcs. by rewrite list_lookup_imap, Hi, Hp.
    - intros rc. simpl. rewrite andb_true_iff, !bool_decide_eq_true. split.
      + by intros [-> ->].
      + by intros [= -> ->]. }
  unfold Generation.place_charts. cbn [sd_chartSlots sd_id slide_definition].
  match goal with
  | |- context [omap ?f _] =>
      destruct (omap_total f (imap chart_slot (s_charts slide)))
        as [Hl Hk]
  end.
  { intros slot [j [chart [-> Hj]]]%elem_of_lookup_imap.
    destruct (Hslot j chart Hj) as (i & imagePath & pos & _ & _ & _ & _ & Hfind).
    cbn [slot_id slot_slotIndex chart_slot]. by rewrite Hfind. }
  split; [by rewrite Hl, length_imap|].
  intros j chart Hj.
  destruct (Hslot j chart Hj) as (i & imagePath & pos & Hi & Hp & Hne & Hpos & Hfind).
  exists i, imagePath, pos. split_and!; try done.
  rewrite (Hk j (chart_slot j chart)) by (by rewrite list_lookup_imap, Hj).
  exact Hfind.
Qed.

End Placement.

(** ** Example *)

Definition demo_slide : ComposerSlide :=
  mkSlide "s1" 0 "Slide 1"
    [mkAssignedChart "c1" "s1" 0 "42" "Geopotenziale" "CHARTS" "Mon 09 06:00" 0
                     "https://prometeo2.meteoam.it/img/a_2026020906.png" None;
     mkAssignedChart "c2" "s1" 1 "42" "Geopotenziale" "CHARTS" "" 1
                     "https://prometeo2.meteoam.it/img/a_2026020912.png" None].

Definition demo_paths : Js.array string := [Some "/cache/0a.png"; Some "/cache/0b.png"].

Definition demo_resolved : list ResolvedChart :=
  [mkResolved "c1" "s1" "/cache/0a.png" "Mon 09 06:00";
   mkResolved "c2" "s1" "/cache/0b.png" "Geopotenziale"].

Lemma every_chart_is_placed_witness :
  length (Generation.place_charts nat
            (Generation.chart_positions nat Nat.add Nat.sub Nat.mul Nat.div id 0 0
               (slide_definition demo_slide) 1 13 6)
            (slide_definition demo_slide) demo_resolved)
  = length (s_charts demo_slide).
Proof.
  refine (proj1 (every_chart_is_placed nat Nat.add Nat.sub Nat.mul Nat.div id 0 0
                   [demo_slide] demo_paths demo_resolved demo_slide 1 13 6 _ _ _ _)).
  - apply (bool_decide_unpack _). vm_compute. exact I.
  - vm_compute. reflexivity.
  - apply list_elem_of_here.
  - simpl. lia.
Defined.

(** ** Saving and loading *)

Definition forget_stale (c : AssignedChart) : AssignedChart :=
  mkAssignedChart (ac_id c) (ac_slideId c) (ac_slotIndex c) (ac_productId c)
                  (ac_productName c) (ac_productType c) (ac_stepLabel c) (ac_stepIndex c)
                  (ac_imageUrl c) None.

Definition without_stale (s : ComposerSlide) : ComposerSlide :=
  mkSlide (s_id s) (s_order s) (s_title s) (forget_stale <$> s_charts s).

Lemma slot_chart_chart_slot slideId j c :
  ac_slotIndex c = j → ac_slideId c = slideId →
  slot_chart slideId (chart_slot j c) = forget_stale c.
Proof. intros <- <-. by destruct c. Qed.

Lemma charts_ok_without_stale s :
  ComposerFacts.charts_ok s → ComposerFacts.charts_ok (without_stale s).
Proof.
  intros [Hlen Hpos]. split; simpl; [by rewrite length_fmap|].
  intros j c. rewrite list_lookup_fmap. destruct (s_charts s !! j) as [c'|] eqn:Hj; [|done].
  intros [= <-]. by destruct (Hpos j c' Hj).
Qed.

(** X26. Saving the slides of the composer and loading them again gives
    the same slides back, but for the [stale] marks, which are not saved:
    when the slides are in shape (each chart has the [slotIndex] of its
    position and the [slideId] of its slide), the slides made by
    [loadTemplate] out of the slide definitions that [saveActiveTemplate]
    writes are the slides saved, with every [stale] field absent; and they
    are in shape again. *)
Theorem save_then_load_gives_slides_back slides :
  ComposerFacts.Shaped slides →
  composer_slide <$> (slide_definition <$> slides) = without_stale <$> slides ∧
  ComposerFacts.Shaped (composer_slide <$> (slide_definition <$> slides)).
Proof.
  intros (Hnd & Hord & Hok).
  assert (Heq : composer_slide <$> (slide_definition <$> slides) = without_stale <$> slides).
  { rewrite <- list_fmap_compose. apply list_fmap_ext. intros i s Hi.
    unfold compose, composer_slide, slide_definition, without_stale, or_empty.
    cbn [sd_id sd_order sd_title sd_chartSlots default]. f_equal.
    rewrite Forall_lookup in Hok. destruct (Hok i s Hi) as [_ Hpos].
    apply list_eq. intros j. rewrite !list_lookup_fmap, list_lookup_imap.
    destruct (s_charts s !! j) as [c|] eqn:Hj; [|done]. simpl.
    destruct (Hpos j c Hj). by rewrite slot_chart_chart_slot. }
  split; [done|]. rewrite Heq. split_and!.
  - rewrite <- list_fmap_compose. by erewrite list_fmap_ext; [exact Hnd|].
  - intros i s. rewrite list_lookup_fmap.
    destruct (slides !! i) as [s'|] eqn:Hi; [|done]. intros [= <-]. simpl. by apply Hord.
  - apply Forall_fmap. eapply Forall_impl; [exact Hok|]. apply charts_ok_without_stale.
Qed.

Lemma save_then_load_gives_slides_back_witness :
  composer_slide <$> (slide_definition <$> [demo_slide]) = without_stale <$> [demo_slide].
Proof.
  refine (proj1 (save_then_load_gives_slides_back [demo_slide] _)).
  split_and!.
  - apply (bool_decide_unpack _). vm_compute. exact I.
  - intros [|[|i]] s; [by intros [= <-]|done|done].
  - constructor; [|constructor]. split; [simpl; lia|].
    intros [|[|[|j]]] c; [by intros [= <-]|by intros [= <-]|done|done].
Defined.

End GenerationFacts.


(** * Refreshing the charts of a product from extracted steps *)

Module RefreshFacts.
Import Composer.

Lemma find_all_false {A} (P : A → bool) (l : list A) :
  (∀ x, x ∈ l → P x = false) → List.find P l = None.
Proof.
  induction l as [|y l IH]; intros HP; [done|]. simpl.
  rewrite (HP y) by (by left). apply IH. intros x Hx. apply HP. by right.
Qed.

Section Refresh.

Variable trim : string → string.
Variable labelFromPath : string → string.
Variables (arrLinkImmagini tds validBtns : list string).

Local Abbreviation step_of := (Extraction.step_of trim labelFromPath tds validBtns).
Local Abbreviation newSteps :=
  (Extraction.extract_steps trim labelFromPath arrLinkImmagini tds validBtns).

Lemma newSteps_index i st : newSteps !! i = Some st → Prometeo.index st = Z.of_nat i.
Proof.
  rewrite ExtractionFacts.extract_steps_lookup.
  destruct (arrLinkImmagini !! i); [|done]. by intros [= <-].
Qed.

Lemma newSteps_indexes : NoDup (Prometeo.index <$> newSteps).
Proof.
  apply NoDup_alt. intros i j z. rewrite !list_lookup_fmap.
  destruct (newSteps !! i) as [si|] eqn:Hi; [|done].
  destruct (newSteps !! j) as [sj|] eqn:Hj; [|done].
  apply newSteps_index in Hi, Hj. simpl. intros [= <-] [= Hz]. lia.
Qed.

(** The step found for a chart: the one at the position its [stepIndex]
    names, if there is one. *)
Lemma find_step_at k entry :
  arrLinkImmagini !! k = Some entry →
  find_step (Z.of_nat k) newSteps = Some (step_of k entry).
Proof.
  intros Hk. unfold find_step.
  apply (ComposerFacts.find_by_key Prometeo.index _ newSteps k).
  - apply newSteps_indexes.
  - by rewrite ExtractionFacts.extract_steps_lookup, Hk.
  - intros st. by rewrite bool_decide_eq_true.
Qed.

Lemma find_step_outside (z : Z) :
  (z < 0 ∨ Z.of_nat (length arrLinkImmagini) ≤ z)%Z → find_step z newSteps = None.
Proof.
  intros Hz. apply find_all_false. intros st [i Hi]%list_elem_of_lookup.
  apply bool_decide_eq_false. rewrite (newSteps_index i st Hi).
  apply lookup_lt_Some in Hi.
  rewrite ExtractionFacts.extract_steps_length in Hi.
  lia.
Qed.

(** X21. A refresh from the steps the extraction script yields keeps
    every chart of the product at its place in the forecast grid: the chart
    takes the label and the URL of the step at the position its [stepIndex]
    names; when there is no such position it takes the last step, and when
    there is no step at all it is only marked stale.  A refreshed chart is
    not stale, and its URL is well formed for the downloader. *)
Theorem refresh_keeps_grid_position productId chart :
  ac_productId chart = productId →
  (arrLinkImmagini = [] → refresh_chart productId newSteps chart = set_stale chart) ∧
  ∀ k entry, arrLinkImmagini !! k = Some entry →
    ac_stepIndex chart = Z.of_nat k ∨
    ((ac_stepIndex chart < 0 ∨ Z.of_nat (length arrLinkImmagini) ≤ ac_stepIndex chart)%Z ∧
     k = length arrLinkImmagini - 1) →
    refresh_chart productId newSteps chart
    = set_step (Prometeo.label (step_of k entry)) (Z.of_nat k)
               (Prometeo.imageUrl (step_of k entry)) chart ∧
    ac_stale (refresh_chart productId newSteps chart) = Some false ∧
    Downloader.invalid_url (ac_imageUrl (refresh_chart productId newSteps chart)) = false.
Proof.
  intros Hid. unfold refresh_chart. rewrite bool_decide_eq_false_2 by (by intros ?).
  split.
  - intros Harr. rewrite find_step_outside by (rewrite Harr; simpl; lia).
    unfold Extraction.extract_steps. by rewrite Harr.
  - intros k entry Hk Hcase.
    assert (Hurl : Downloader.invalid_url (Prometeo.imageUrl (step_of k entry)) = false).
    { unfold Downloader.invalid_url. cbn [Prometeo.imageUrl Extraction.step_of].
      assert (H := ExtractionFacts.absolute_http
                     (default "" (Extraction.split "---" entry !! 0))).
      destruct (Extraction.absolute _); [done|by rewrite H]. }
    destruct Hcase as [Hat|[Hout ->]].
    + rewrite Hat, (find_step_at k entry Hk). done.
    + rewrite find_step_outside by done.
      rewrite last_lookup, ExtractionFacts.extract_steps_length,
        ExtractionFacts.extract_steps_lookup.
      replace (Init.Nat.pred (length arrLinkImmagini)) with (length arrLinkImmagini - 1)
        by lia.
      rewrite Hk. done.
Qed.

End Refresh.

(** ** Example *)

Definition demo_entries : list string :=
  ["img/a_2026020906.png---Mon 09 06:00"; "img/a_2026020912.png"].

Lemma refresh_keeps_grid_position_witness :
  refresh_chart "42"
    (Extraction.extract_steps id (λ _, "Mon 09 12:00") demo_entries [] [])
    (mkAssignedChart "c1" "s1" 0 "42" "Geopotenziale" "CHARTS" "Sun 08 12:00" 1
                     "https://prometeo2.meteoam.it/img/a_2026020812.png" None)
  = set_step "Mon 09 12:00" 1 "https://prometeo2.meteoam.it/img/a_2026020912.png"
      (mkAssignedChart "c1" "s1" 0 "42" "Geopotenziale" "CHARTS" "Sun 08 12:00" 1
                       "https://prometeo2.meteoam.it/img/a_2026020812.png" None).
Proof.
  exact (proj1 (proj2 (refresh_keeps_grid_position id (λ _, "Mon 09 12:00") demo_entries [] []
                         "42"
                         (mkAssignedChart "c1" "s1" 0 "42" "Geopotenziale" "CHARTS"
                            "Sun 08 12:00" 1
                            "https://prometeo2.meteoam.it/img/a_2026020812.png" None)
                         eq_refl)
                       1 "img/a_2026020912.png" eq_refl (or_introl eq_refl))).
Defined.

End RefreshFacts.

(** * The step refresh of a search block
    ([renderer/src/components/composer/SearchBlock.tsx]) *)

Module SearchBlock.
Import Prometeo.
Local Open Scope prog_scope.

(** Line 35 *)
Definition SINGLE_IMAGE_TYPES : gset string := {[ "METGRAMS"; "SATELLITE"; "RADAR" ]}.

(** Line 128 *)
Definition MAX_RETRIES : nat := 5.

(** [new Set(steps.map((s) => s.imageUrl)).size === 1] *)
Definition one_url (steps : list TimeStep) : bool :=
  bool_decide (size (list_to_set (imageUrl <$> steps) : gset string) = 1).

Section Block.

Variable productType : string.

(** Line 59 *)
Definition isSingleImage : bool := bool_decide (productType ∈ SINGLE_IMAGE_TYPES).

(** Line 130 *)
Definition MIN_EXPECTED_STEPS : nat := if isSingleImage then 1 else 5.

(** Lines 132-177: the [for] loop from the round numbered [attempt] on,
    with [rounds] rounds left, and the [return []] after it.  The call
    goes through the preload bridge to the handler of the main process;
    the wait of 8 s is a timer of the renderer. *)
Fixpoint attempts_from (rounds attempt : nat) (productId : string) : Prog (list TimeStep) :=
  match rounds with
  | 0 => Ret []
  | S rounds' =>
      result <- Ipc.on_fetchCatalogAndChartUrls
                  (mkFilter productType None None None None) productId ;;
      let steps := steps (Ipc.payload result).2 in
      let retry := (delay 8000 ;; attempts_from rounds' (S attempt) productId) in
      if bool_decide (length steps = 0) then
        if bool_decide (attempt < MAX_RETRIES) then retry
        else attempts_from rounds' (S attempt) productId
      else if bool_decide (length steps < MIN_EXPECTED_STEPS)
              && bool_decide (attempt < MAX_RETRIES) then retry
      else if bool_decide (1 < length steps) && one_url steps
              && bool_decide (attempt < MAX_RETRIES) then retry
      else Ret steps
  end.

(** Lines 126-180 *)
Definition fetchStepsForProduct (productId : string) : Prog (list TimeStep) :=
  attempts_from MAX_RETRIES 1 productId.

(** What the loop takes before its last round: enough steps, and not all
    with one URL when there are several. *)
Definition acceptable (steps : list TimeStep) : Prop :=
  MIN_EXPECTED_STEPS ≤ length steps ∧ (1 < length steps → one_url steps = false).

End Block.

(** The calls of a session operation and the waits of 8 s in a trace. *)
Definition is_call (en : Entry) : bool :=
  match en with
  | Did _ _ e _ => match e with Acquire => true | _ => false end
  | Granted _ _ => false
  end.

Definition is_wait (en : Entry) : bool :=
  match en with
  | Did _ _ e _ => match e with Delay ms => (ms =? 8000)%Z | _ => false end
  | Granted _ _ => false
  end.

Definition count (f : Entry → bool) (tr : list Entry) : nat :=
  sum_list_with (λ en, if f en then 1 else 0) tr.

End SearchBlock.

Module SearchBlockFacts.
Import Prometeo SearchBlock.
Local Open Scope prog_scope.

(** The two effects that are counted. *)
Definition counted (X : Type) (e : Eff X) : bool :=
  match e with
  | Acquire => true
  | Delay ms => (ms =? 8000)%Z
  | _ => false
  end.

Lemma count_app f tr tr' : count f (tr ++ tr') = count f tr + count f tr'.
Proof. apply sum_list_with_app. Qed.

Lemma count_avoids tr :
  Forall (PrometeoMore.entry_avoids counted) tr → count is_call tr = 0 ∧ count is_wait tr = 0.
Proof.
  induction 1 as [|en tr Hen _ [IH1 IH2]]; [done|].
  unfold count in *. simpl. rewrite IH1, IH2.
  destruct en as [who t X e x|]; [|done]. simpl in Hen.
  destruct e; simpl in *; try done. by rewrite Hen.
Qed.

(** *** No session operation moves the two counts but by its one call *)

Import PrometeoMore.

Lemma uncounted_waitForCondition_loop fuel (jsCondition : Script bool) start maxWaitMs :
  Avoids counted (waitForCondition_loop fuel jsCondition start maxWaitMs 500).
Proof.
  induction fuel as [|fuel IH]; [exact I|]. cbn [waitForCondition_loop]. avoids. exact IH.
Qed.

Lemma uncounted_stable_loop fuel start maxWait minTotalWait : ∀ lastCount stableChecks,
  Avoids counted (stable_loop fuel start maxWait minTotalWait lastCount stableChecks).
Proof.
  induction fuel as [|fuel IH]; intros lastCount stableChecks; [exact I|].
  cbn [stable_loop]. unfold stable_round. avoids. apply IH.
Qed.

Lemma uncounted_label_loop fuel start expectedCount :
  Avoids counted (label_loop fuel start expectedCount).
Proof.
  induction fuel as [|fuel IH]; [exact I|]. cbn [label_loop]. avoids; exact IH.
Qed.

Ltac uncounted :=
  avoids;
  first [ apply uncounted_waitForCondition_loop
        | apply uncounted_stable_loop
        | apply uncounted_label_loop ].

Lemma uncounted_fetchProductCatalog filter : Avoids counted (_fetchProductCatalog filter).
Proof.
  unfold _fetchProductCatalog, ensureSearchPage, waitForCondition. cbv zeta. uncounted.
Qed.

Lemma uncounted_fetchChartUrls productId : Avoids counted (_fetchChartUrls productId).
Proof.
  unfold _fetchChartUrls, select_product, search_fallback, _waitForStableArray,
    ensureSearchPage. cbv zeta. uncounted.
Qed.

Section Facts.

Context (Page : Type)
        (page_exec : ∀ A, Script A → Z → Page → option A * nat * Page)
        (page_url : Page → string)
        (page_load : Page → nat)
        (net : nat → string → Net.FetchResult).

Local Abbreviation World := (Prometeo.World Page).
Local Abbreviation interp := (Prometeo.interp page_exec page_url page_load net).
Local Abbreviation acquired := (PrometeoFacts.acquired Page).
Local Abbreviation released := (PrometeoFacts.released Page).

(** One call of the handler: it answers, the mutex is free again, and
    the trace has grown by one call and no wait. *)
Lemma one_call me filter productId (w : World) :
  mutex w = mkMutex false [] →
  ∃ r w' tr,
    interp me (Ipc.on_fetchCatalogAndChartUrls filter productId) w = (Ok r, w') ∧
    trace w' = trace w ++ tr ∧ mutex w' = mkMutex false [] ∧
    count is_call tr = 1 ∧ count is_wait tr = 0.
Proof.
  intros Hm.
  set (body := (catalog <- _fetchProductCatalog filter ;;
                chartUrls <- _fetchChartUrls productId ;;
                Ret (catalog, chartUrls))).
  assert (Hav : Avoids counted body).
  { unfold body. apply Avoids_bind; [apply uncounted_fetchProductCatalog|]. intros catalog.
    apply Avoids_bind; [apply uncounted_fetchChartUrls|]. by intros chartUrls. }
  assert (Hset : PrometeoEnds.Settles Page page_exec page_url page_load net body)
    by apply (PrometeoEnds.Settles_public_bodies Page page_exec page_url page_load net
                filter "" productId).
  destruct (Hset me (acquired me w) I) as [Hs Hm1].
  destruct (interp_avoids Page page_exec page_url page_load net counted me body
              (acquired me w) Hav) as (trb & Htrb & Hfor).
  destruct (count_avoids trb Hfor) as [Hc Hw].
  assert (Hq : mutex (acquired me w) = mkMutex true []) by (simpl; by rewrite Hm).
  rewrite Hq in Hm1.
  unfold Ipc.on_fetchCatalogAndChartUrls, Ipc.respond, fetchCatalogAndChartUrls.
  fold body.
  rewrite PrometeoFacts.interp_try_catch, PrometeoFacts.interp_bind,
    PrometeoFacts.interp_bind, PrometeoFacts.interp_acquire_free by (by rewrite Hm).
  rewrite PrometeoFacts.interp_try_finally.
  assert (Htr : ∀ w1, trace w1 = trace (acquired me w) ++ trb →
            trace (released me w1)
            = trace w ++ ([Did me (now w) Acquire tt; Granted me (now w)] ++ trb
                          ++ [Did me (now w1) Release tt]) ∧
            count is_call ([Did me (now w) Acquire tt; Granted me (now w)] ++ trb
                           ++ [Did me (now w1) Release tt]) = 1 ∧
            count is_wait ([Did me (now w) Acquire tt; Granted me (now w)] ++ trb
                           ++ [Did me (now w1) Release tt]) = 0).
  { intros w1 Hw1. split; [simpl; rewrite Hw1; simpl; by rewrite <- !app_assoc|].
    rewrite !count_app, Hc, Hw. done. }
  destruct (interp me body (acquired me w)) as [[a|e| |] w1]; simpl in Hs, Hm1, Htrb;
    try done;
    rewrite PrometeoFacts.interp_bind, PrometeoFacts.interp_release_last
      by (by rewrite Hm1);
    destruct (Htr w1 Htrb) as (Ht & Hc1 & Hw1); eexists _, _, _;
    (split; [reflexivity|]); split_and!; done.
Qed.

Section Loop.

Variables (productType productId : string) (me : nat).

Local Abbreviation attempts_from := (SearchBlock.attempts_from productType).

(** What the rounds from [attempt] on do. *)
Definition Rounds (rounds : nat) (w : World) : Prop :=
  ∃ steps w' tr,
    interp me (attempts_from rounds (MAX_RETRIES + 1 - rounds) productId) w = (Ok steps, w') ∧
    trace w' = trace w ++ tr ∧ mutex w' = mkMutex false [] ∧
    count is_call tr ≤ rounds ∧ (0 < rounds → 1 ≤ count is_call tr) ∧
    count is_wait tr = count is_call tr - 1 ∧
    (count is_call tr < rounds → acceptable productType steps).

Lemma Rounds_retry rounds (w1 : World) tr1 :
  0 < rounds → mutex w1 = mkMutex false [] →
  count is_call tr1 = 1 → count is_wait tr1 = 0 →
  (∀ w, mutex w = mkMutex false [] → Rounds rounds w) →
  ∃ steps w' tr,
    interp me (delay 8000 ;; attempts_from rounds (MAX_RETRIES + 1 - rounds) productId) w1
    = (Ok steps, w') ∧
    trace w' = trace w1 ++ tr ∧ mutex w' = mkMutex false [] ∧
    count is_call (tr1 ++ tr) ≤ S rounds ∧ 1 ≤ count is_call (tr1 ++ tr) ∧
    count is_wait (tr1 ++ tr) = count is_call (tr1 ++ tr) - 1 ∧
    (count is_call (tr1 ++ tr) < S rounds → acceptable productType steps).
Proof.
  intros Hpos Hm1 Hc1 Hw1 IH.
  rewrite PrometeoFacts.interp_bind, PrometeoFacts.interp_delay.
  destruct (IH (did me (Delay 8000) tt (advance 8000 w1)))
    as (steps & w' & tr & Hrun & Htr & Hm & Hle & Hge & Hwait & Hacc); [done|].
  exists steps, w', ([Did me (now w1 + 8000)%Z (Delay 8000) tt] ++ tr).
  split; [done|]. split; [rewrite Htr; simpl; by rewrite <- app_assoc|].
  split; [done|]. rewrite !count_app, Hc1, Hw1.
  change (count is_call [Did me (now w1 + 8000)%Z (Delay 8000) tt]) with 0.
  change (count is_wait [Did me (now w1 + 8000)%Z (Delay 8000) tt]) with 1.
  specialize (Hge Hpos). split_and!; try lia. intros ?. apply Hacc. lia.
Qed.

Lemma attempts_spec rounds : rounds ≤ MAX_RETRIES →
  ∀ w, mutex w = mkMutex false [] → Rounds rounds w.
Proof.
  induction rounds as [|rounds IH]; intros Hr w Hm.
  - exists [], w, []. rewrite app_nil_r. split_and!; try done; simpl; lia.
  - specialize (IH ltac:(lia)). unfold Rounds. cbn [SearchBlock.attempts_from].
    rewrite PrometeoFacts.interp_bind.
    destruct (one_call me (mkFilter productType None None None None) productId w Hm)
      as (r & w1 & tr1 & -> & Htr1 & Hm1 & Hc1 & Hw1).
    cbv zeta.
    replace (S (MAX_RETRIES + 1 - S rounds)) with (MAX_RETRIES + 1 - rounds) by lia.
    set (steps := steps (Ipc.payload r).2).
    assert (Hretry : 0 < rounds →
              ∃ steps w' tr,
                interp me (delay 8000 ;;
                           attempts_from rounds (MAX_RETRIES + 1 - rounds) productId) w1
                = (Ok steps, w') ∧
                trace w' = trace w ++ tr ∧ mutex w' = mkMutex false [] ∧
                count is_call tr ≤ S rounds ∧ (0 < S rounds → 1 ≤ count is_call tr) ∧
                count is_wait tr = count is_call tr - 1 ∧
                (count is_call tr < S rounds → acceptable productType steps)).
    { intros Hpos.
      destruct (Rounds_retry rounds w1 tr1 Hpos Hm1 Hc1 Hw1 IH)
        as (st & w' & tr & Hrun & Htr & Hm' & H1 & H2 & H3 & H4).
      exists st, w', (tr1 ++ tr). rewrite Htr, Htr1, <- app_assoc. split_and!; done. }
    assert (Hlast : ∀ st, (0 < rounds → acceptable productType st) →
              ∃ steps w' tr,
                (Ok st, w1) = (Ok steps, w') ∧
                trace w' = trace w ++ tr ∧ mutex w' = mkMutex false [] ∧
                count is_call tr ≤ S rounds ∧ (0 < S rounds → 1 ≤ count is_call tr) ∧
                count is_wait tr = count is_call tr - 1 ∧
                (count is_call tr < S rounds → acceptable productType steps)).
    { intros st Hacc. exists st, w1, tr1. rewrite Hc1, Hw1.
      split_and!; try done; try lia. intros ?. apply Hacc. lia. }
    case_bool_decide as Hzero.
    { case_bool_decide as Hatt; [apply Hretry; unfold MAX_RETRIES in *; lia|].
      assert (rounds = 0) as -> by (unfold MAX_RETRIES in *; lia).
      apply Hlast. lia. }
    case_bool_decide as Hmin; case_bool_decide as Hatt; simpl;
      try (apply Hretry; unfold MAX_RETRIES in *; lia).
    + case_bool_decide as Hmany; simpl; destruct (one_url steps) eqn:Hone; simpl;
        apply Hlast; unfold MAX_RETRIES in *; lia.
    + case_bool_decide as Hmany; simpl; [destruct (one_url steps) eqn:Hone; simpl|].
      * apply Hretry. unfold MAX_RETRIES in *. lia.
      * apply Hlast. intros _. split; [lia|done].
      * apply Hlast. intros _. split; [lia|]. intros ?. lia.
    + case_bool_decide as Hmany; simpl; [destruct (one_url steps) eqn:Hone; simpl|];
        apply Hlast; unfold MAX_RETRIES in *; lia.
Qed.

(** X20. [fetchStepsForProduct], started while the mutex is free, always
    returns, with the mutex free again.  It calls
    [fetchCatalogAndChartUrls] at least once and at most five times, and
    waits 8 s between two calls and at no other time.  When it stops before
    the fifth call, the steps it returns are acceptable: at least five of
    them (one, for a product type with a single image), and not all with
    one and the same URL when there are several; the fifth answer is taken
    as it is. *)
Theorem step_refresh_retries (w : World) :
  mutex w = mkMutex false [] →
  ∃ steps w' tr,
    interp me (fetchStepsForProduct productType productId) w = (Ok steps, w') ∧
    trace w' = trace w ++ tr ∧ mutex w' = mkMutex false [] ∧
    1 ≤ count is_call tr ≤ 5 ∧
    count is_wait tr = count is_call tr - 1 ∧
    (count is_call tr < 5 → acceptable productType steps).
Proof.
  intros Hm.
  destruct (attempts_spec MAX_RETRIES ltac:(done) w Hm)
    as (steps & w' & tr & Hrun & Htr & Hm' & Hle & Hge & Hwait & Hacc).
  exists steps, w', tr. unfold fetchStepsForProduct.
  change (MAX_RETRIES + 1 - MAX_RETRIES) with 1 in Hrun.
  split_and!; try done. apply Hge. unfold MAX_RETRIES. lia.
Qed.

End Loop.

End Facts.

(** ** Example on the simple page *)

Lemma step_refresh_retries_witness :
  ∃ steps w' tr,
    Prometeo.interp PrometeoFacts.simple_exec PrometeoFacts.sp_url PrometeoFacts.instant
      PrometeoFacts.no_net 0 (fetchStepsForProduct "SATELLITE" "42")
      (PrometeoFacts.simple_world PrometeoFacts.steady) = (Ok steps, w') ∧
    trace w' = trace (PrometeoFacts.simple_world PrometeoFacts.steady) ++ tr ∧
    mutex w' = mkMutex false [] ∧
    1 ≤ count is_call tr ≤ 5 ∧
    count is_wait tr = count is_call tr - 1 ∧
    (count is_call tr < 5 → acceptable "SATELLITE" steps).
Proof.
  exact (step_refresh_retries PrometeoFacts.SimplePage PrometeoFacts.simple_exec
           PrometeoFacts.sp_url PrometeoFacts.instant PrometeoFacts.no_net
           "SATELLITE" "42" 0 (PrometeoFacts.simple_world PrometeoFacts.steady) eq_refl).
Defined.

End SearchBlockFacts.

(** * What the session operations leave alone *)

Module PrometeoFootprint.
Import Prometeo PrometeoMore.
Local Open Scope prog_scope.

(** The request to the network, and the increment of [fetchCount]. *)
Definition is_fetch (X : Type) (e : Eff X) : bool :=
  match e with Fetch _ => true | _ => false end.

Definition is_next (X : Type) (e : Eff X) : bool :=
  match e with NextFetchCount => true | _ => false end.

Definition outside (X : Type) (e : Eff X) : bool := is_fetch X e || is_next X e.

Lemma Avoids_weaken {A} (bad bad' : ∀ X, Eff X → bool) (p : Prog A) :
  (∀ X (e : Eff X), bad X e = false → bad' X e = false) → Avoids bad p → Avoids bad' p.
Proof.
  intros Hb. induction p as [a|e| |X e k IH]; simpl; auto.
  intros [He Hk]. split; [by apply Hb|]. intros x. by apply IH.
Qed.

Lemma outside_waitForCondition_loop fuel (jsCondition : Script bool) start maxWaitMs intervalMs :
  Avoids outside (waitForCondition_loop fuel jsCondition start maxWaitMs intervalMs).
Proof.
  induction fuel as [|fuel IH]; [exact I|]. cbn [waitForCondition_loop]. avoids. exact IH.
Qed.

Lemma outside_label_loop fuel start expectedCount :
  Avoids outside (label_loop fuel start expectedCount).
Proof.
  induction fuel as [|fuel IH]; [exact I|]. cbn [label_loop]. avoids; exact IH.
Qed.

Lemma fetchless_stable_loop fuel start maxWait minTotalWait : ∀ lastCount stableChecks,
  Avoids is_fetch (stable_loop fuel start maxWait minTotalWait lastCount stableChecks).
Proof.
  induction fuel as [|fuel IH]; intros lastCount stableChecks; [exact I|].
  cbn [stable_loop]. unfold stable_round. avoids. apply IH.
Qed.

Lemma outside_ensureSearchPage : Avoids outside ensureSearchPage.
Proof. unfold ensureSearchPage. avoids. Qed.

Lemma outside_fetchProductCatalog filter : Avoids outside (_fetchProductCatalog filter).
Proof.
  unfold _fetchProductCatalog, ensureSearchPage, waitForCondition. cbv zeta.
  avoids. apply outside_waitForCondition_loop.
Qed.

Lemma outside_ensureProductType productType : Avoids outside (_ensureProductType productType).
Proof.
  unfold _ensureProductType, ensureSearchPage, waitForCondition. cbv zeta.
  avoids; apply outside_waitForCondition_loop.
Qed.

Lemma outside_select_product productId : Avoids outside (select_product productId).
Proof. unfold select_product, ensureSearchPage. avoids. Qed.

Lemma fetchless_fetchChartUrls productId : Avoids is_fetch (_fetchChartUrls productId).
Proof.
  unfold _fetchChartUrls, select_product, search_fallback, _waitForStableArray,
    ensureSearchPage. cbv zeta.
  avoids; first [apply fetchless_stable_loop
                | apply (Avoids_weaken outside); [by intros X []|apply outside_label_loop]].
Qed.

Section Footprint.

Context (Page : Type)
        (page_exec : ∀ A, Script A → Z → Page → option A * nat * Page)
        (page_url : Page → string)
        (page_load : Page → nat)
        (net : nat → string → Net.FetchResult).

Local Abbreviation World := (Prometeo.World Page).
Local Abbreviation handle := (Prometeo.handle page_exec page_url page_load net).
Local Abbreviation interp := (Prometeo.interp page_exec page_url page_load net).

Lemma handle_nfetch {X} me (e : Eff X) (w : World) :
  is_fetch X e = false → nfetch (handle me e w).2 = nfetch w.
Proof.
  destruct e; simpl; try done.
  - by destruct (page_exec A s (now w) (page w)) as [[r lat] p'].
  - intros _. unfold acquireLock. by destruct (negb (mutexLocked (mutex w))).
  - intros _. unfold releaseLock_fields. by destruct (mutexQueue (mutex w)).
Qed.

Lemma handle_fetchCount {X} me (e : Eff X) (w : World) :
  is_next X e = false → fetchCount (handle me e w).2 = fetchCount w.
Proof.
  destruct e; simpl; try done.
  - by destruct (page_exec A s (now w) (page w)) as [[r lat] p'].
  - intros _. unfold acquireLock. by destruct (negb (mutexLocked (mutex w))).
  - intros _. unfold releaseLock_fields. by destruct (mutexQueue (mutex w)).
Qed.

(** A field of the world that no effect of the program touches is after
    the run as it was before. *)
Lemma interp_keeps {A F} (field : World → F) (bad : ∀ X, Eff X → bool) me (p : Prog A) :
  (∀ X (e : Eff X) w, bad X e = false → field (handle me e w).2 = field w) →
  ∀ w, Avoids bad p → field (interp me p w).2 = field w.
Proof.
  intros Hh. induction p as [a|e| |X e k IH]; intros w Hp; try done.
  destruct Hp as [He Hk]. simpl. specialize (Hh X e w He).
  destruct (handle me e w) as [[[x|x] woken] w1]; simpl in Hh; [|done].
  by rewrite IH.
Qed.

(** The run raises [fetchCount] by [k] at most. *)
Definition Bumps {A} (k : nat) (p : Prog A) : Prop :=
  ∀ me w, fetchCount w ≤ fetchCount (interp me p w).2 ≤ fetchCount w + k.

Lemma Bumps_none {A} (p : Prog A) : Avoids is_next p → Bumps 0 p.
Proof.
  intros Hp me w.
  rewrite (interp_keeps fetchCount is_next me p (λ X e w, handle_fetchCount me e w) w Hp).
  lia.
Qed.

Lemma Bumps_outside {A} (p : Prog A) : Avoids outside p → Bumps 0 p.
Proof.
  intros Hp. apply Bumps_none. revert Hp. apply Avoids_weaken.
  intros X e. unfold outside. by intros [_ ?]%orb_false_iff.
Qed.

Lemma Bumps_more {A} j k (p : Prog A) : j ≤ k → Bumps j p → Bumps k p.
Proof. intros Hjk Hp me w. specialize (Hp me w). lia. Qed.

Lemma Bumps_bind {A B} j k (p : Prog A) (f : A → Prog B) :
  Bumps j p → (∀ a, Bumps k (f a)) → Bumps (j + k) (bind p f).
Proof.
  intros Hp Hf me w. rewrite PrometeoFacts.interp_bind. specialize (Hp me w).
  destruct (interp me p w) as [[a|e| |] w1]; simpl in *; try lia.
  specialize (Hf a me w1). lia.
Qed.

Lemma Bumps_try_finally {A} k (p : Prog A) :
  Bumps k p → Bumps k (try_finally p releaseLock).
Proof.
  intros Hp me w. rewrite PrometeoFacts.interp_try_finally. specialize (Hp me w).
  assert (Hrel : ∀ B (q : Prog B), Avoids is_next q → Bumps 0 (releaseLock ;; q)).
  { intros B q Hq. apply Bumps_none. by split. }
  destruct (interp me p w) as [[a|e| |] w1]; cbn [snd] in Hp; try done.
  - specialize (Hrel A (Ret a) I me w1). lia.
  - specialize (Hrel A (Throw e) I me w1). lia.
Qed.

Lemma Bumps_waitForStableArray : Bumps 1 _waitForStableArray.
Proof.
  intros me w.
  destruct (PrometeoFacts.waitForStableArray_spec Page page_exec page_url page_load net me w)
    as (res & w' & tr & -> & _ & Hf & _).
  simpl. lia.
Qed.

Lemma Bumps_fetchChartUrls productId : Bumps 2 (_fetchChartUrls productId).
Proof.
  unfold _fetchChartUrls.
  apply (Bumps_bind 0 2); [apply Bumps_outside, outside_select_product|]. intros _.
  apply (Bumps_bind 1 1); [apply Bumps_waitForStableArray|]. intros lastCount.
  apply (Bumps_bind 1 0).
  { destruct (lastCount =? 0)%Z; [|by apply (Bumps_more 0); [lia|apply Bumps_none]].
    unfold search_fallback.
    apply (Bumps_bind 0 1); [by apply Bumps_none|]. intros _.
    apply (Bumps_bind 0 1); [apply Bumps_none; by avoids|]. intros _.
    apply (Bumps_bind 0 1); [by apply Bumps_none|]. intros _.
    apply Bumps_waitForStableArray. }
  intros lastCount'. apply Bumps_outside.
  destruct (lastCount' =? 0)%Z; [avoids|]. cbv zeta. avoids. apply outside_label_loop.
Qed.

Lemma Bumps_locked {A} k (body : Prog A) :
  Bumps k body → Bumps k (perform Acquire ;; try_finally body releaseLock).
Proof.
  intros Hb. apply (Bumps_bind 0 k); [by apply Bumps_none|]. intros _.
  by apply Bumps_try_finally.
Qed.

Lemma fetchless_locked {A} (body : Prog A) :
  Avoids is_fetch body → Avoids is_fetch (perform Acquire ;; try_finally body releaseLock).
Proof.
  intros Hb. split; [done|]. intros []. simpl.
  induction body as [a|e| |X e k IH]; simpl; try done.
  destruct Hb as [He Hk]. split; [done|]. intros x. by apply IH.
Qed.

(** X24. The four public session operations make no request to the
    network of their own: only [fetchImage] and the downloader do.  The
    catalog fetch leaves the count of waits that tells a cold session from
    a warm one as it is, and each of the three operations that fetch chart
    URLs raises it by two at most, however the call ends. *)
Theorem session_operations_footprint me call (w : World) :
  nfetch (interp me (run_call call) w).2 = nfetch w ∧
  fetchCount w ≤ fetchCount (interp me (run_call call) w).2 ≤ fetchCount w + 2 ∧
  (∀ filter, call = CallFetchProductCatalog filter →
             fetchCount (interp me (run_call call) w).2 = fetchCount w).
Proof.
  assert (Hcat : ∀ filter, Bumps 0 (_fetchProductCatalog filter))
    by (intros; apply Bumps_outside, outside_fetchProductCatalog).
  assert (Hcat' : ∀ filter, Avoids is_fetch (_fetchProductCatalog filter)).
  { intros. apply (Avoids_weaken outside); [|apply outside_fetchProductCatalog].
    intros X e. unfold outside. by intros [? _]%orb_false_iff. }
  assert (Hens : ∀ productType, Avoids is_fetch (_ensureProductType productType)).
  { intros. apply (Avoids_weaken outside); [|apply outside_ensureProductType].
    intros X e. unfold outside. by intros [? _]%orb_false_iff. }
  split; [|split].
  - apply (interp_keeps nfetch is_fetch me _ (λ X e w, handle_nfetch me e w)).
    destruct call; unfold run_call; apply Avoids_bind; try done;
      apply fetchless_locked.
    + apply Hcat'.
    + apply fetchless_fetchChartUrls.
    + apply Avoids_bind; [apply Hcat'|]. intros. apply Avoids_bind; [|done].
      apply fetchless_fetchChartUrls.
    + apply Avoids_bind; [apply Hens|]. intros. apply fetchless_fetchChartUrls.
  - assert (H : Bumps (2 + 0) (run_call call)); [|specialize (H me w); lia].
    destruct call; unfold run_call; (apply Bumps_bind; [|by intros; apply Bumps_none]);
      apply Bumps_locked.
    + apply (Bumps_more 0); [lia|apply Hcat].
    + apply Bumps_fetchChartUrls.
    + apply (Bumps_bind 0 2); [apply Hcat|]. intros.
      apply (Bumps_bind 2 0); [apply Bumps_fetchChartUrls|]. by intros; apply Bumps_none.
    + apply (Bumps_bind 0 2); [apply Bumps_outside, outside_ensureProductType|]. intros.
      apply Bumps_fetchChartUrls.
  - intros filter ->.
    assert (H : Bumps (0 + 0) (run_call (CallFetchProductCatalog filter)));
      [|specialize (H me w); lia].
    unfold run_call. apply Bumps_bind; [|by intros; apply Bumps_none].
    apply Bumps_locked, Hcat.
Qed.

End Footprint.

End PrometeoFootprint.
